(** * 3-edge-connected components by path absorption (triconnect.c)

    A shallow embedding of [reference/c_code/triconnect.c]: the graph
    substrate the algorithm runs on, the two [AbsorbPath] overloads, the
    recursive [triedge_dfs], the splitter [split_graph], the reader
    [read_dim] and the driver [TRICONNECTED_COMPONENTS], followed by the
    properties of the design document that are stated about them. *)

From Stdlib Require Import List ZArith Lia Bool PeanoNat Permutation.
Import ListNotations.
Open Scope Z_scope.

Set Implicit Arguments.

(** ** Outcomes

    The C code leaves a function either by returning or through [exit(k)].
    Loops whose trip count is not structurally bounded are run on fuel;
    [OutOfFuel] is the third outcome and is shown not to arise where a
    claim says that a call returns. *)

Inductive outcome (A : Type) : Type :=
| Ret (a : A)
| Exit (code : Z)
| OutOfFuel.

Arguments Ret {A} a.
Arguments Exit {A} code.
Arguments OutOfFuel {A}.

Definition bind {A B} (m : outcome A) (f : A -> outcome B) : outcome B :=
  match m with
  | Ret a => f a
  | Exit k => Exit k
  | OutOfFuel => OutOfFuel
  end.

Notation "'do' x <- m ; k" := (bind m (fun x => k))
  (at level 10, x pattern, m at level 100, k at level 200).

(** ** Graph substrate *)

Definition node := nat.
Definition edge := nat.
Definition path := list node.
Definition epath := list edge.

Definition upd {A} (f : nat -> A) (k : nat) (a : A) : nat -> A :=
  fun x => if Nat.eqb x k then a else f x.

Definition remove_edge (e : edge) (l : list edge) : list edge :=
  filter (fun x => negb (Nat.eqb x e)) l.

(** Modelled from the spec: the LEDA [graph] class is not part of the
    repository.  Following sections 3 and 4.1 of the design document a graph
    is an arena of vertices and edges with stable identifiers; every edge
    has two endpoints and a hidden flag, and every vertex an ordered
    adjacency list of its visible incident edges.  [info] and [einfo] are
    the labels of the vertices and of the edges of a parameterised
    [GRAPH<node,edge>] ([H[v]], [H[e]]). *)
Record graph : Type := mkGraph {
  all_nodes : list node;
  edge_list : list edge;
  ends : edge -> node * node;
  hidden : edge -> bool;
  adj : node -> list edge;
  info : node -> node;
  einfo : edge -> edge
}.

Definition empty_graph : graph :=
  mkGraph [] [] (fun _ => (0%nat, 0%nat)) (fun _ => false) (fun _ => []) (fun n => n)
          (fun e => e).

Definition source (G : graph) (e : edge) : node := fst (ends G e).
Definition target (G : graph) (e : edge) : node := snd (ends G e).

Definition is_hidden (G : graph) (e : edge) : bool := hidden G e.

(** [forall_edges] ranges over the visible edges in creation order. *)
Definition edges (G : graph) : list edge :=
  filter (fun e => negb (hidden G e)) (edge_list G).

Definition number_of_nodes (G : graph) : nat := length (all_nodes G).
Definition number_of_edges (G : graph) : nat := length (edges G).

Definition opposite (G : graph) (v : node) (e : edge) : node :=
  if Nat.eqb v (source G e) then target G e else source G e.

Definition degree (G : graph) (v : node) : nat := length (adj G v).

Definition first_adj_edge (G : graph) (v : node) : option edge := hd_error (adj G v).

Fixpoint succ_in (e : edge) (l : list edge) : option edge :=
  match l with
  | [] => None
  | x :: r => if Nat.eqb x e then hd_error r else succ_in e r
  end.

(** [First_Inout_Edge(v,0)] and [Succ_Inout_Edge(e,v,0)]: the cursor over the
    adjacency list of [v]. *)
Definition First_Inout_Edge (G : graph) (v : node) : option edge := hd_error (adj G v).
Definition Succ_Inout_Edge (G : graph) (e : edge) (v : node) : option edge :=
  succ_in e (adj G v).

Definition hide_edge (G : graph) (e : edge) : graph :=
  let s := source G e in
  let t := target G e in
  let a1 := upd (adj G) s (remove_edge e (adj G s)) in
  let a2 := upd a1 t (remove_edge e (a1 t)) in
  mkGraph (all_nodes G) (edge_list G) (ends G) (upd (hidden G) e true) a2 (info G)
          (einfo G).

(** [move_edge(e,u,v)] makes [u] the source and [v] the target of [e]; the
    edge leaves the adjacency lists of its old endpoints and is appended to
    those of the new ones. *)
Definition move_edge (G : graph) (e : edge) (u v : node) : graph :=
  let s := source G e in
  let t := target G e in
  let a1 := upd (adj G) s (remove_edge e (adj G s)) in
  let a2 := upd a1 t (remove_edge e (a1 t)) in
  let a3 := upd a2 u (a2 u ++ [e]) in
  let a4 := if Nat.eqb u v then a3 else upd a3 v (a3 v ++ [e]) in
  mkGraph (all_nodes G) (edge_list G) (upd (ends G) e (u, v)) (hidden G) a4 (info G)
          (einfo G).

Definition new_node (G : graph) (inf : node) : graph * node :=
  let v := length (all_nodes G) in
  (mkGraph (all_nodes G ++ [v]) (edge_list G) (ends G) (hidden G) (adj G)
           (upd (info G) v inf) (einfo G), v).

Definition new_edge (G : graph) (u v : node) : graph :=
  let e := length (edge_list G) in
  let a1 := upd (adj G) u (adj G u ++ [e]) in
  let a2 := if Nat.eqb u v then a1 else upd a1 v (a1 v ++ [e]) in
  mkGraph (all_nodes G) (edge_list G ++ [e]) (upd (ends G) e (u, v))
          (upd (hidden G) e false) a2 (info G) (einfo G).

(** [new_edge(u, v, inf)] of a parameterised graph: the new edge is
    labelled [inf]. *)
Definition new_edge_info (G : graph) (u v : node) (inf : edge) : graph :=
  let G' := new_edge G u v in
  mkGraph (all_nodes G') (edge_list G') (ends G') (hidden G') (adj G') (info G')
          (upd (einfo G') (length (edge_list G)) inf).

(** ** LEDA lists *)

(** [P.Pop()] removes and returns the last item; on an empty list LEDA's
    error handler ends the program. *)
Definition Pop (P : path) : option (node * path) :=
  match rev P with
  | [] => None
  | x :: r => Some (x, rev r)
  end.

(** [sigma[a].conc(sigma[b])] appends the second list to the first and
    leaves the second empty. *)
Definition sigma_t := node -> path.

Definition sigma_conc (sigma : sigma_t) (a b : node) : sigma_t :=
  upd (upd sigma a (sigma a ++ sigma b)) b [].

(** ** Path absorption, whole path: [AbsorbPath(G, sigma, cols, P)] *)

(** The inner [for] loop over the edges of [xi] (lines 560-591). *)
Fixpoint absorb_edges (fuel : nat) (G : graph) (xi xm1 x0 : node)
         (e : option edge) : outcome graph :=
  match e with
  | None => Ret G
  | Some e =>
    match fuel with
    | O => OutOfFuel
    | S fuel' =>
      let nxte := Succ_Inout_Edge G e xi in
      let z := opposite G xi e in
      if Nat.eqb z xm1 || Nat.eqb z x0 then
        if is_hidden G e then Exit 1
        else absorb_edges fuel' (hide_edge G e) xi xm1 x0 nxte
      else
        if Nat.eqb (source G e) (target G e) then Exit 0
        else absorb_edges fuel' (move_edge G e x0 z) xi xm1 x0 nxte
    end
  end.

(** The [while (xm1 != x0 ...)] loop (lines 550-593). *)
Fixpoint absorb_while (fuel : nat) (x0 : node) (G : graph) (sigma : sigma_t)
         (P : path) (xm1 : node) : outcome (graph * sigma_t * path) :=
  if Nat.eqb xm1 x0 then Ret (G, sigma, P)
  else
    match fuel with
    | O => OutOfFuel
    | S fuel' =>
      let xi := xm1 in
      match Pop P with
      | None => Exit 1
      | Some (xm1', P') =>
        let sigma' := sigma_conc sigma x0 xi in
        do G' <- absorb_edges (S (degree G xi)) G xi xm1' x0 (First_Inout_Edge G xi);
        absorb_while fuel' x0 G' sigma' P' xm1'
      end
    end.

Definition AbsorbPath (G : graph) (sigma : sigma_t) (P : path)
  : outcome (graph * sigma_t * path) :=
  match P with
  | [] => Ret (G, sigma, P)
  | x0 :: _ =>
    match Pop P with
    | None => Exit 1
    | Some (xm1, P1) =>
      match P1 with
      | [] => Ret (G, sigma, P1)
      | _ => absorb_while (S (length P1)) x0 G sigma P1 xm1
      end
    end
  end.

(** ** Path absorption, sub-path: [AbsorbPath(G, sigma, cols, P, u, v)] *)

(** The backward walk of lines 614-622: [i] items remain to be examined, the
    cursor is at index [i - 1]; the result is the index at which [v] was
    found, [None] standing for [itn1 == nil]. *)
Fixpoint find_back (P : path) (v : node) (i : nat) : option nat :=
  match i with
  | O => None
  | S j => if Nat.eqb (nth j P 0%nat) v then Some j else find_back P v j
  end.

Fixpoint del_item (i : nat) (P : path) : path :=
  match P, i with
  | [], _ => []
  | _ :: r, O => r
  | x :: r, S j => x :: del_item j r
  end.

(** The inner [for] loop of lines 647-683. *)
Fixpoint absorb2_edges (fuel : nat) (G : graph) (xi xm1 x0 : node)
         (e : option edge) : outcome graph :=
  match e with
  | None => Ret G
  | Some e =>
    match fuel with
    | O => OutOfFuel
    | S fuel' =>
      let nxte := Succ_Inout_Edge G e xi in
      if is_hidden G e then Exit 1
      else
        let z := opposite G xi e in
        if Nat.eqb z xm1 || Nat.eqb z x0 then
          if is_hidden G e then Exit 1
          else absorb2_edges fuel' (hide_edge G e) xi xm1 x0 nxte
        else
          if Nat.eqb (source G e) (target G e) then Exit 0
          else absorb2_edges fuel' (move_edge G e x0 z) xi xm1 x0 nxte
    end
  end.

(** The [while (xm1 != u ...)] loop of lines 628-689; [i] is the index of
    the list item [itn1]. *)
Fixpoint absorb2_while (fuel : nat) (u x0 : node) (G : graph) (sigma : sigma_t)
         (P : path) (i : nat) (xm1 : node) : outcome (graph * sigma_t * path) :=
  if Nat.eqb xm1 u then Ret (G, sigma, P)
  else
    match fuel with
    | O => OutOfFuel
    | S fuel' =>
      let xi := xm1 in
      match i with
      | O => Ret (G, sigma, P)
      | S j =>
        if Nat.eqb xi u then Ret (G, sigma, P)
        else
          let xm1' := nth j P 0%nat in
          do G' <- absorb2_edges (S (degree G xi)) G xi xm1' x0 (First_Inout_Edge G xi);
          absorb2_while fuel' u x0 G' (sigma_conc sigma x0 xi) (del_item i P) j xm1'
      end
    end.

Definition AbsorbPath2 (G : graph) (sigma : sigma_t) (P : path) (u v : node)
  : outcome (graph * sigma_t * path) :=
  match P with
  | [] => Ret (G, sigma, P)
  | x0 :: _ =>
    if negb (Nat.eqb x0 u) then Exit 0
    else
      match find_back P v (length P) with
      | None => Ret (G, sigma, P)
      | Some i => absorb2_while (S (length P)) u x0 G sigma P i (nth i P 0%nat)
      end
  end.

(** ** The depth-first search: [triedge_dfs] *)

(** The arrays and counters that [triedge_dfs] receives by reference.  The
    paths [Pw] and [Pu] are passed next to this record. *)
Record dfs_state : Type := mkState {
  gr : graph;
  sigma : sigma_t;
  pre : node -> Z;
  count2 : Z;
  lowpt : node -> Z;
  father : node -> option node
}.

Definition set_gr (st : dfs_state) (G : graph) : dfs_state :=
  mkState G (sigma st) (pre st) (count2 st) (lowpt st) (father st).

Definition set_gr_sigma (st : dfs_state) (G : graph) (s : sigma_t) : dfs_state :=
  mkState G s (pre st) (count2 st) (lowpt st) (father st).

Definition set_lowpt (st : dfs_state) (w : node) (x : Z) : dfs_state :=
  mkState (gr st) (sigma st) (pre st) (count2 st) (upd (lowpt st) w x) (father st).

(** Lines 302-306: numbering of [w] on entry. *)
Definition dfs_enter (st : dfs_state) (w : node) (v : option node) : dfs_state :=
  mkState (gr st) (sigma st) (upd (pre st) w (count2 st)) (count2 st + 1)
          (upd (lowpt st) w (count2 st)) (upd (father st) w v).

Definition is_parent (u : node) (v : option node) : bool :=
  match v with
  | Some p => Nat.eqb u p
  | None => false
  end.

(** Lines 398-439: the vertex [u] has degree two after its subtree has been
    searched; the tree edge is hidden, the other edge of [u] is moved to [w]
    and [u] leaves the head of [Pu]. *)
Definition contract_deg2 (G : graph) (w u : node) (ewu : edge) (Pu : path)
  : outcome (graph * path) :=
  let G1 := hide_edge G ewu in
  match first_adj_edge G1 u with
  | None => Exit 139
  | Some euz =>
    let z := opposite G1 u euz in
    if Nat.eqb u z then Exit 0
    else
      let G2 := move_edge G1 euz w z in
      match Pu with
      | [] => Exit 1
      | x :: Pu' => if negb (Nat.eqb x u) then Exit 0 else Ret (G2, Pu')
      end
  end.

(** Lines 441-478: after the search of the child [u]. *)
Definition absorb_or_extend (st : dfs_state) (w u : node) (Pw Pu : path)
  : outcome (dfs_state * path * path) :=
  if lowpt st w <=? lowpt st u then
    do (G', s', Pu') <- AbsorbPath (gr st) (sigma st) (w :: Pu);
    match Pu' with
    | [] => Ret (set_gr_sigma st G' s', Pw, Pu')
    | _ => Exit 0
    end
  else
    let st1 := set_lowpt st w (lowpt st u) in
    do (G', s', Pw') <- AbsorbPath (gr st1) (sigma st1) Pw;
    match Pw' with
    | [] => Ret (set_gr_sigma st1 G' s', w :: (Pw' ++ Pu), [])
    | _ => Exit 0
    end.

(** Lines 497-527: [u] is already numbered. *)
Definition back_edge (st : dfs_state) (w u : node) (Pw : path)
  : outcome (dfs_state * path) :=
  if pre st u <? pre st w then
    if pre st u <? lowpt st w then
      do (G', s', _) <- AbsorbPath (gr st) (sigma st) Pw;
      Ret (set_lowpt (set_gr_sigma st G' s') w (pre st u), [w])
    else
      if pre st u <? lowpt st w then Ret (set_lowpt st w (pre st u), Pw)
      else Ret (st, Pw)
  else
    do (st1, Pw1) <-
       (if pre st u >? pre st w then
          do (G', s', Pw') <- AbsorbPath2 (gr st) (sigma st) Pw w u;
          Ret (set_gr_sigma st G' s', Pw')
        else Ret (st, Pw));
    if pre st1 u <? lowpt st1 w then Ret (set_lowpt st1 w (pre st1 u), Pw1)
    else Ret (st1, Pw1).

(** The [for] loop of lines 324-535 with cursor [ewu]; the call for a child
    is the entry numbering followed by the loop of the child. *)
Fixpoint triedge_scan (fuel : nat) (st : dfs_state) (w : node) (v : option node)
         (Pw Pu : path) (ewu : option edge) : outcome (dfs_state * path) :=
  match ewu with
  | None => Ret (st, Pw)
  | Some e =>
    match fuel with
    | O => OutOfFuel
    | S fuel' =>
      let G := gr st in
      let u := opposite G w e in
      let nxte := Succ_Inout_Edge G e w in
      if is_hidden G e then triedge_scan fuel' st w v Pw Pu nxte
      else if is_parent u v then triedge_scan fuel' st w v Pw Pu nxte
      else if Nat.eqb u w then Ret (set_gr st (hide_edge G e), Pw)
      else if (degree G u <? 2)%nat then triedge_scan fuel' st w v Pw Pu nxte
      else if pre st u <? 0 then
        do (st1, Pu1) <-
           triedge_scan fuel' (dfs_enter st u (Some w)) u (Some w) (u :: Pu) []
                        (First_Inout_Edge G u);
        do (G2, Pu2) <-
           (if (degree (gr st1) u =? 2)%nat
            then contract_deg2 (gr st1) w u e Pu1
            else Ret (gr st1, Pu1));
        do (st3, Pw3, Pu3) <- absorb_or_extend (set_gr st1 G2) w u Pw Pu2;
        triedge_scan fuel' st3 w v Pw3 Pu3 nxte
      else
        do (st1, Pw1) <- back_edge st w u Pw;
        triedge_scan fuel' st1 w v Pw1 Pu nxte
    end
  end.

Definition triedge_dfs (fuel : nat) (st : dfs_state) (w : node) (v : option node)
           (Pw : path) : outcome (dfs_state * path) :=
  let st1 := dfs_enter st w v in
  triedge_scan fuel st1 w v (w :: Pw) [] (First_Inout_Edge (gr st1) w).

(** ** Arrays indexed by integers *)

(** [A[i] += 1] on a C array of [length A] cells; an index outside of the
    array has no defined behaviour and is reported as [None]. *)
Fixpoint incr_at (i : nat) (A : list nat) : option (list nat) :=
  match A, i with
  | [], _ => None
  | a :: r, O => Some (S a :: r)
  | a :: r, S j => option_map (cons a) (incr_at j r)
  end.

(** [sigma[i].append(n)] on a LEDA [array<path>]; the index is checked. *)
Fixpoint append_at (i : nat) (n : node) (s : list path) : option (list path) :=
  match s, i with
  | [], _ => None
  | p :: r, O => Some ((p ++ [n]) :: r)
  | p :: r, S j => option_map (cons p) (append_at j n r)
  end.

Definition lift {A} (k : Z) (o : option A) : outcome A :=
  match o with
  | Some a => Ret a
  | None => Exit k
  end.

Fixpoint foldM {A B} (f : A -> B -> outcome A) (l : list B) (a : A) : outcome A :=
  match l with
  | [] => Ret a
  | b :: r => do a' <- f a b; foldM f r a'
  end.

(** ** The splitter: [split_graph] and the driver *)

Section Services.

(** The decompositions of LEDA that the program calls; they are inputs of
    the design (section 4.2 of the design document) and are taken as
    parameters.  [BICONNECTED_COMPONENTS] returns the number of blocks and
    the block index of every edge, [COMPONENTS] the number of connected
    components and the component index of every vertex. *)
Variable BICONNECTED_COMPONENTS : graph -> nat * (edge -> nat).
Variable COMPONENTS : graph -> nat * (node -> nat).
Variable Is_Biconnected : graph -> bool.

(** Lines 709-711: the size of every block. *)
Definition block_sizes (G : graph) (num : nat) (ecomp : edge -> nat)
  : outcome (list nat) :=
  foldM (fun A e => lift 139 (incr_at (ecomp e) A)) (edges G) (repeat 0%nat num).

(** Lines 717-728: the edges that are alone in their block. *)
Definition collect_bridges (G : graph) (A : list nat) (ecomp : edge -> nat)
  : list edge :=
  fold_left (fun bridges e =>
               if (nth (ecomp e) A 0 <=? 1)%nat then e :: bridges else bridges)
            (edges G) [].

(** Lines 733-748. *)
Definition hide_bridges (G : graph) (bridges : list edge) : outcome graph :=
  foldM (fun G e => if is_hidden G e then Exit 1 else Ret (hide_edge G e)) bridges G.

(** Lines 754-764: one pass over all vertices. *)
Definition pendant_step (acc : graph * list edge * bool) (n : node)
  : graph * list edge * bool :=
  let '(G, deg1edges, haspendent) := acc in
  if (degree G n =? 1)%nat then
    match first_adj_edge G n with
    | Some e =>
      if is_hidden G e then acc
      else (hide_edge G e, e :: deg1edges, true)
    | None => acc
    end
  else acc.

Definition pendant_pass (G : graph) (deg1edges : list edge) : graph * list edge * bool :=
  fold_left pendant_step (all_nodes G) (G, deg1edges, false).

(** Lines 752-765: the [do ... while (haspendent)] loop. *)
Fixpoint strip_pendants (fuel : nat) (G : graph) (deg1edges : list edge)
  : outcome (graph * list edge) :=
  let '(G', deg1edges', haspendent) := pendant_pass G deg1edges in
  if haspendent then
    match fuel with
    | O => OutOfFuel
    | S fuel' => strip_pendants fuel' G' deg1edges'
    end
  else Ret (G', deg1edges').

(** Lines 771-777. *)
Definition collect_components (G : graph) (num : nat) (components : node -> nat)
  : outcome (list path) :=
  foldM (fun s n => lift 1 (append_at (components n) n s)) (all_nodes G)
        (repeat [] num).

Record split_result : Type := mkSplit {
  sp_num : nat;
  sp_graph : graph;
  sp_bridges : list edge;
  sp_sigma : list path;
  sp_deg1edges : list edge
}.

Definition split_graph (G : graph) : outcome split_result :=
  let (num_components, ecomp) := BICONNECTED_COMPONENTS G in
  do A <- block_sizes G num_components ecomp;
  let bridges := collect_bridges G A ecomp in
  match bridges with
  | [] => Ret (mkSplit 1 G bridges [all_nodes G] [])
  | _ =>
    do G1 <- hide_bridges G bridges;
    do (G2, deg1edges) <- strip_pendants (number_of_edges G1) G1 [];
    let (num, components) := COMPONENTS G2 in
    do s <- collect_components G2 num components;
    Ret (mkSplit num G2 bridges s deg1edges)
  end.

(** Lines 1181-1215: the subgraph of [G] induced by the vertex list [V].
    [v_in_H] maps a vertex of [G] to its copy, [Na] marks the vertices whose
    adjacency list has been copied. *)
Definition copy_node_step (acc : graph * (node -> option node)) (v : node)
  : graph * (node -> option node) :=
  let (H, v_in_H) := acc in
  let (H', v') := new_node H v in
  (H', upd v_in_H v (Some v')).

Definition copy_nodes (V : list node) : graph * (node -> option node) :=
  fold_left copy_node_step V (empty_graph, fun _ => None).

Definition copy_adj (G : graph) (v_in_H : node -> option node) (Na : node -> bool)
           (v : node) (H : graph) (e : edge) : graph :=
  if is_hidden G e then H
  else
    let x := opposite G v e in
    match v_in_H x, v_in_H v with
    | Some s, Some t => if Na x then H else new_edge_info H s t e
    | _, _ => H
    end.

Definition copy_vertex_step (G : graph) (v_in_H : node -> option node)
           (acc : graph * (node -> bool)) (v : node) : graph * (node -> bool) :=
  let (H, Na) := acc in
  (fold_left (copy_adj G v_in_H Na v) (adj G v) H, upd Na v true).

Definition copy_edges (G : graph) (v_in_H : node -> option node) (V : list node)
           (H : graph) : graph :=
  fst (fold_left (copy_vertex_step G v_in_H) V (H, fun _ => false)).

Definition CopyInducedGraph (G : graph) (V : list node) : graph :=
  let (H, v_in_H) := copy_nodes V in
  copy_edges G v_in_H V H.

(** The accumulators of the block loop of [TRICONNECTED_COMPONENTS]:
    the component lists [sigma3] (of length [cnumb]) and [compnum]. *)
Record tri_acc : Type := mkAcc {
  sigma3 : list path;
  compnum : node -> Z
}.

Definition cnumb (a : tri_acc) : nat := length (sigma3 a).

(** Lines 243-245. *)
Definition init_sigma (H : graph) : sigma_t :=
  fold_left (fun s n => upd s n (n :: s n)) (all_nodes H) (fun _ => []).

Definition init_state (H : graph) : dfs_state :=
  mkState H (init_sigma H) (fun _ => -1) 0 (fun _ => 0) (fun _ => None).

(** Lines 214-217: the first vertex of degree larger than two. *)
Definition choose_root (H : graph) : option node :=
  find (fun r => negb (degree H r <=? 2)%nat) (all_nodes H).

(** Lines 265-271: one non-empty [sigma[n]] becomes component [cnumb]. *)
Definition emit_step (H : graph) (c : Z) (acc : path * (node -> Z)) (v : node)
  : path * (node -> Z) :=
  let (ncomplist, cn) := acc in
  (info H v :: ncomplist, upd cn (info H v) c).

Definition emit_component (H : graph) (nsubglist : path) (a : tri_acc) : tri_acc :=
  let c := Z.of_nat (cnumb a) in
  let (ncomplist, cn) := fold_left (emit_step H c) nsubglist ([], compnum a) in
  mkAcc (sigma3 a ++ [ncomplist]) cn.

(** Lines 254-276. *)
Definition emit_components (H : graph) (sg : sigma_t) (a : tri_acc) : tri_acc :=
  fold_left (fun a n =>
               match sg n with
               | [] => a
               | nsubglist => emit_component H nsubglist a
               end)
            (all_nodes H) a.

(** Lines 134-278: the body of the loop over the blocks. *)
Definition process_block (fuel : nat) (G : graph) (a : tri_acc) (n2complist : path)
  : outcome tri_acc :=
  let H := CopyInducedGraph G n2complist in
  if (number_of_nodes H <=? 1)%nat then
    match all_nodes H with
    | r :: _ => Ret (mkAcc (sigma3 a ++ [[info H r]]) (compnum a))
    | [] => Ret a
    end
  else if (number_of_edges H =? 1)%nat then
    match hd_error (all_nodes H), hd_error (rev (all_nodes H)) with
    | Some r, Some n => Ret (mkAcc (sigma3 a ++ [[info H n; info H r]]) (compnum a))
    | _, _ => Ret a
    end
  else
    match choose_root H with
    | None =>
      Ret (mkAcc (sigma3 a ++ [rev (map (info H) (all_nodes H))]) (compnum a))
    | Some r =>
      do (st, _) <- triedge_dfs fuel (init_state H) r None [];
      Ret (emit_components H (sigma st) a)
    end.

Record tri_result : Type := mkTri {
  tr_cnumb : nat;
  tr_graph : graph;
  tr_cut_edges : list edge;
  tr_bridges : list edge;
  tr_sigma3 : list path;
  tr_deg1edges : list edge
}.

(** Lines 283-290. *)
Definition collect_cut_edges (G : graph) (cn : node -> Z) : list edge :=
  fold_left (fun cut_edges e =>
               if negb (is_hidden G e) && negb (cn (source G e) =? cn (target G e))
               then e :: cut_edges else cut_edges)
            (edges G) [].

Definition TRICONNECTED_COMPONENTS (fuel : nat) (G : graph) : outcome tri_result :=
  do sp <-
     (if negb (Is_Biconnected G) then
        do sp <- split_graph G;
        if forallb (is_hidden (sp_graph sp)) (sp_bridges sp) then Ret sp else Exit 0
      else Ret (mkSplit 1 G [] [all_nodes G] []));
  let G' := sp_graph sp in
  do a <- foldM (process_block fuel G') (firstn (sp_num sp) (sp_sigma sp))
                (mkAcc [] (fun _ => -1));
  Ret (mkTri (cnumb a) G' (collect_cut_edges G' (compnum a)) (sp_bridges sp)
             (sigma3 a) (sp_deg1edges sp)).

End Services.

(** ** The reader: [read_dim] *)

(** The input stream after tokenisation: the integers of the header line
    (the first two are read, [read_line] drops the rest) and the integers of
    all following lines, which [in >> v >> w] reads two at a time. *)
Record dim_input : Type := mkInput {
  header : list Z;
  body : list Z
}.

(** Lines 1147-1154: the table [AA] has [n+1] cells, of which the cells
    [0 .. n-1] receive the new vertices; the last cell is never written. *)
Fixpoint make_nodes (n : nat) (G : graph) (AA : list (option node))
  : graph * list (option node) :=
  match n with
  | O => (G, AA ++ [None])
  | S n' =>
    let (G', v) := new_node G (length (all_nodes G)) in
    make_nodes n' G' (AA ++ [Some v])
  end.

(** [AA[v]] for an [int] index; [None] outside of the table and for the
    cell that holds no vertex. *)
Definition AA_get (AA : list (option node)) (v : Z) : option node :=
  if v <? 0 then None else nth (Z.to_nat v) AA None.

(** [in >> v >> w] (line 1159) on the integers that are left in the
    stream.  An extraction from an exhausted stream fails and leaves its
    variable as it was, and the stream stays exhausted; the program never
    tests the stream.  A variable that has not been assigned yet is
    [None]. *)
Definition extract_pair (toks : list Z) (v w : option Z)
  : list Z * option Z * option Z :=
  match toks with
  | a :: b :: rest => (rest, Some a, Some b)
  | [a] => ([], Some a, w)
  | [] => ([], v, w)
  end.

(** Lines 1158-1162, with the variables [v] and [w] of the program.  An
    index that was never assigned, and a cell of [AA] that holds no vertex,
    leave the defined behaviour and are reported as [None]. *)
Fixpoint read_edges (s : nat) (toks : list Z) (v w : option Z)
         (AA : list (option node)) (G : graph) : option graph :=
  match s with
  | O => Some G
  | S s' =>
    let '(rest, v', w') := extract_pair toks v w in
    match v', w' with
    | Some x, Some y =>
      match AA_get AA x, AA_get AA y with
      | Some a, Some b => read_edges s' rest v' w' AA (new_edge G a b)
      | _, _ => None
      end
    | _, _ => None
    end
  end.

(** [read_dim]; [None] when the run leaves the behaviour the C++ program
    defines (no header, an index that was never assigned, or a cell of [AA]
    that holds no vertex).  When the edge lines run out before [s] pairs
    were read, the loop goes on with the numbers read last. *)
Definition read_dim (inp : dim_input) : option graph :=
  match header inp with
  | n :: s :: _ =>
    if n <? 0 then None
    else
      let (G, AA) := make_nodes (Z.to_nat n) empty_graph [] in
      read_edges (Z.to_nat s) (body inp) None None AA G
  | _ => None
  end.

(** * Properties *)

(** ** Vocabulary of the statements *)

Unset Implicit Arguments.

(** The adjacency lists of a graph agree with its edges: no list repeats an
    edge, an edge lies only in the lists of its endpoints, and a listed
    edge is visible and is one of the edges of the graph, which are
    pairwise different. *)
Record wf_graph (G : graph) : Prop := mkWf {
  wf_nodup : forall x, NoDup (adj G x);
  wf_inc : forall x e, In e (adj G x) -> source G e = x \/ target G e = x;
  wf_vis : forall x e, In e (adj G x) -> hidden G e = false;
  wf_listed : forall x e, In e (adj G x) -> In e (edge_list G);
  wf_edges : NoDup (edge_list G)
}.

(** Invariant (I1) of the design document: no visible self-loop. *)
Definition loop_free (G : graph) : Prop :=
  forall x e, In e (adj G x) -> source G e <> target G e.

(** The head of a path does not occur again in it. *)
Definition head_once (P : path) : Prop :=
  match P with
  | [] => True
  | x0 :: tl => ~ In x0 tl
  end.

(** A graph given by its number of vertices and its edge list, built with
    the operations of the substrate. *)
Fixpoint add_nodes (n : nat) (G : graph) : graph :=
  match n with
  | O => G
  | S n' => add_nodes n' (fst (new_node G (length (all_nodes G))))
  end.

Definition graph_of (n : nat) (es : list (node * node)) : graph :=
  fold_left (fun G uv => new_edge G (fst uv) (snd uv)) es (add_nodes n empty_graph).

Definition sigma_id : sigma_t := fun v => [v].

(** The path 0 - 1 - 2 - 3. *)
Definition G_path4 : graph := graph_of 4 [(0, 1); (1, 2); (2, 3)]%nat.

(** The conditions under which the loop of [triedge_dfs] reaches the test
    [pre[u] < 0] for the edge [e] at [w]: the edge is visible, its other end
    [u] is neither the parent [v] nor [w] itself, and [u] has degree at
    least two. *)
Definition examined (st : dfs_state) (w : node) (v : option node) (e : edge) : Prop :=
  is_hidden (gr st) e = false /\
  is_parent (opposite (gr st) w e) v = false /\
  opposite (gr st) w e <> w /\
  (2 <= degree (gr st) (opposite (gr st) w e))%nat.

(** The complete graph on four vertices with a self-loop at vertex 0 that
    comes first in the adjacency list of 0. *)
Definition G_loop_K4 : graph :=
  graph_of 4 [(0, 0); (0, 1); (0, 2); (0, 3); (1, 2); (1, 3); (2, 3)]%nat.

(** The complete graph on four vertices. *)
Definition G_K4 : graph :=
  graph_of 4 [(0, 1); (0, 2); (0, 3); (1, 2); (1, 3); (2, 3)]%nat.

(** A state of the search of [G_K4] in which 0, 1 and 2 are numbered along
    the tree path 0 - 1 - 2. *)
Definition st_K4 : dfs_state :=
  let num := fun x : node => if (x <? 3)%nat then Z.of_nat x else -1 in
  mkState G_K4 sigma_id num 3 num
          (fun x => match x with 1%nat => Some 0%nat | 2%nat => Some 1%nat | _ => None end).

(** Invariant (I2) of the design document for a block with vertex list [V]:
    the [sigma] lists of the vertices of [V], taken together, hold every
    vertex of [V] exactly once. *)
Definition sigma_partition (V : list node) (sg : sigma_t) : Prop :=
  Permutation (flat_map sg V) V.

(** Both endpoints of every edge are vertices of [V]. *)
Definition ends_closed (V : list node) (G : graph) : Prop :=
  forall e, In (source G e) V /\ In (target G e) V.

(** What the search keeps true of its state on a block with vertices [V]. *)
Definition dfs_inv (V : list node) (st : dfs_state) : Prop :=
  ends_closed V (gr st) /\ sigma_partition V (sigma st).

(** Every vertex of [V] occurs in the [sigma] list of exactly one vertex
    of [V]. *)
Definition in_exactly_one (V : list node) (sg : sigma_t) : Prop :=
  forall y, In y V -> exists! x, In x V /\ In y (sg x).

(** The lists [sg'] arise from the lists [sg] by moving whole lists: the
    vertices of [V] are grouped, every vertex in exactly one group [L x],
    and the new list of [x] consists of the old lists of the vertices of
    its group, one after the other.  No list is split and none is lost. *)
Definition wholesale (V : list node) (sg sg' : sigma_t) : Prop :=
  exists L : node -> list node,
    Permutation (flat_map L V) V /\ forall x, sg' x = flat_map sg (L x).

(** [sg'] arises from [sg] by a sequence of [conc] operations on the lists
    of two different vertices of [V]. *)
Inductive conc_steps (V : list node) (sg : sigma_t) : sigma_t -> Prop :=
| cs_refl : conc_steps V sg sg
| cs_step (sg' : sigma_t) (a b : node) :
    In a V -> In b V -> a <> b -> conc_steps V sg sg' ->
    conc_steps V sg (sigma_conc sg' a b).

(** The lists that [emit_components] appends for the vertex lists [sg]:
    one list for every vertex of [H] whose list is not empty. *)
Definition emitted (H : graph) (sg : sigma_t) : list path :=
  map (fun n => rev (map (info H) (sg n)))
      (filter (fun n => match sg n with [] => false | _ => true end) (all_nodes H)).

Definition final_state (o : outcome (dfs_state * path)) (d : dfs_state) : dfs_state :=
  match o with
  | Ret (st, _) => st
  | _ => d
  end.

Definition final_path (o : outcome (dfs_state * path)) : path :=
  match o with
  | Ret (_, P) => P
  | _ => []
  end.

(** Every visible edge lies in the adjacency lists of its two endpoints, and
    its endpoints are vertices of the graph, which are pairwise different. *)
Record closed_graph (G : graph) : Prop := mkClosed {
  cl_adj : forall e, In e (edges G) ->
                     In e (adj G (source G e)) /\ In e (adj G (target G e));
  cl_nodes : forall e, In e (edges G) ->
                       In (source G e) (all_nodes G) /\ In (target G e) (all_nodes G);
  cl_nodup : NoDup (all_nodes G)
}.

(** What the pendant-stripping phase may do to a graph [G] and a list [d]
    of recorded edges: the vertices and the edge arena stay, hidden edges
    stay hidden, and the recorded edges are the old ones together with the
    edges that were visible in [G] and are hidden in [G']. *)
Record stripped (G : graph) (d : list edge) (G' : graph) (d' : list edge) : Prop :=
  mkStripped {
    st_wf : wf_graph G';
    st_nodes : all_nodes G' = all_nodes G;
    st_list : edge_list G' = edge_list G;
    st_mono : forall e, hidden G e = true -> hidden G' e = true;
    st_rec : forall e, In e d' <-> In e d \/ (hidden G e = false /\ hidden G' e = true);
    st_count : (number_of_edges G' <= number_of_edges G)%nat;
    st_closed : closed_graph G -> closed_graph G'
  }.

(** The graph that a [.dim] text with [n] vertices and the edge lines
    [pairs] denotes when the vertex numbers of the text start at [base]:
    the vertex written [v] is the vertex created at position [v - base].
    There are exactly [n] vertices, one visible edge per line, in the order
    of the lines, and the edge of a line joins the two vertices the line
    names: they are its endpoints and it lies in their adjacency lists. *)
Definition vertex_of (base v : Z) : node := Z.to_nat (v - base).

Definition line_incident (base : Z) (pairs : list (Z * Z)) (x : node) (k : nat) : bool :=
  match nth_error pairs k with
  | Some (v, w) => Nat.eqb (vertex_of base v) x || Nat.eqb (vertex_of base w) x
  | None => false
  end.

Record denotes (base : Z) (n : nat) (pairs : list (Z * Z)) (G : graph) : Prop :=
  mkDenotes {
    dn_nodes : all_nodes G = seq 0 n;
    dn_edges : edge_list G = seq 0 (length pairs);
    dn_visible : forall k, (k < length pairs)%nat -> hidden G k = false;
    dn_ends : forall k v w, nth_error pairs k = Some (v, w) ->
                            ends G k = (vertex_of base v, vertex_of base w);
    dn_adj : forall x, adj G x
                       = filter (line_incident base pairs x) (seq 0 (length pairs))
  }.

Definition flatten (pairs : list (Z * Z)) : list Z :=
  flat_map (fun p => [fst p; snd p]) pairs.

(** The text of a well-formed input: header line [n m ...], then the
    [m] edge lines, then possibly more. *)
Definition dim_text (n : nat) (pairs : list (Z * Z)) (rest_header rest_body : list Z)
  : dim_input :=
  mkInput (Z.of_nat n :: Z.of_nat (length pairs) :: rest_header)
          (flatten pairs ++ rest_body).

Definition in_range (lo hi : Z) (pairs : list (Z * Z)) : Prop :=
  forall v w, In (v, w) pairs -> (lo <= v <= hi) /\ (lo <= w <= hi).

(** ** Connectivity *)

(** The visible edge [e] joins [x] and [y]. *)
Definition joins (G : graph) (e : edge) (x y : node) : Prop :=
  (source G e = x /\ target G e = y) \/ (source G e = y /\ target G e = x).

(** [z] can be reached from [x] along visible edges that satisfy [ok]. *)
Inductive reach (G : graph) (ok : edge -> Prop) : node -> node -> Prop :=
| reach_refl x : reach G ok x x
| reach_step x y z e :
    In e (edges G) -> ok e -> joins G e x y -> reach G ok y z -> reach G ok x z.

Definition connected (G : graph) : node -> node -> Prop := reach G (fun _ => True).

Definition connected_without (G : graph) (e0 : edge) : node -> node -> Prop :=
  reach G (fun e => e <> e0).

(** Removing [e] disconnects two vertices that are connected with it. *)
Definition is_bridge (G : graph) (e : edge) : Prop :=
  In e (edges G) /\
  exists x y, connected G x y /\ ~ connected_without G e x y.

(** [trail G x p vs z]: the visible edges [p] lead from [x] to [z] through
    the vertices [vs] (both ends included). *)
Inductive trail (G : graph) : node -> list edge -> list node -> node -> Prop :=
| trail_nil x : trail G x [] [x] x
| trail_cons x y z e p vs :
    In e (edges G) -> joins G e x y -> trail G y p vs z ->
    trail G x (e :: p) (x :: vs) z.

(** [e] and [f] lie on a common simple cycle: a path without repeated
    vertex leads from one end of [e] to the other, does not use [e] and
    uses [f]. *)
Definition on_cycle (G : graph) (e f : edge) : Prop :=
  exists p vs, trail G (source G e) p vs (target G e)
               /\ NoDup vs /\ ~ In e p /\ In f p.

(** The contract of [BICONNECTED_COMPONENTS] (section 4.2 of the design
    document): the visible edges are labelled with block indices below the
    number of blocks, and two edges have the same label exactly when they
    are the same edge or lie on a common simple cycle. *)
Definition bicomp_spec (G : graph) (r : nat * (edge -> nat)) : Prop :=
  (forall e, In e (edges G) -> (snd r e < fst r)%nat)
  /\ (forall e f, In e (edges G) -> In f (edges G) ->
                  (snd r e = snd r f <-> e = f \/ on_cycle G e f)).

(** The labels of [COMPONENTS] are below the number of components. *)
Definition comp_range (G : graph) (r : nat * (node -> nat)) : Prop :=
  forall n, In n (all_nodes G) -> (snd r n < fst r)%nat.

(** No visible edge is a self-loop. *)
Definition no_loops (G : graph) : Prop :=
  forall e, In e (edges G) -> source G e <> target G e.

(** A single edge between two vertices. *)
Definition G_K2 : graph := graph_of 2 [(0, 1)]%nat.

(** [a] is an articulation vertex: two other vertices are connected, but
    not along edges that avoid [a]. *)
Definition articulation (G : graph) (a : node) : Prop :=
  exists x y, x <> a /\ y <> a /\ connected G x y
              /\ ~ reach G (fun e => source G e <> a /\ target G e <> a) x y.

(** The contract of [Is_Biconnected]: a graph reported as biconnected is
    connected and has no articulation vertex. *)
Definition is_biconnected_spec (G : graph) (b : bool) : Prop :=
  b = true ->
  (forall x y, In x (all_nodes G) -> In y (all_nodes G) -> connected G x y)
  /\ (forall a, ~ articulation G a).

(** The contract of [COMPONENTS]: the labels are exactly the numbers below
    the number of components, and two vertices have the same label exactly
    when they are connected. *)
Definition components_spec (G : graph) (r : nat * (node -> nat)) : Prop :=
  comp_range G r
  /\ (forall c, (c < fst r)%nat -> exists n, In n (all_nodes G) /\ snd r n = c)
  /\ (forall x y, In x (all_nodes G) -> In y (all_nodes G) ->
                  (snd r x = snd r y <-> connected G x y)).

(** Scenario S2: two triangles joined by one edge.  Vertex [k] of the
    scenario is the [k]-th vertex, that is node [k - 1]; the joining edge
    (3,4) is the edge 6 between the nodes 2 and 3. *)
Definition G_S2 : graph :=
  graph_of 6 [(0, 1); (1, 2); (2, 0); (3, 4); (4, 5); (5, 3); (2, 3)]%nat.

Definition S2_blocks : graph -> nat * (edge -> nat) :=
  fun _ => (3%nat, fun e => if (e <? 3)%nat then 0%nat
                            else if (e <? 6)%nat then 1%nat else 2%nat).

Definition S2_components : graph -> nat * (node -> nat) :=
  fun _ => (2%nat, fun n => if (n <? 3)%nat then 0%nat else 1%nat).

(** ** Components and cut edges *)

Definition in_component (s : list path) (x : node) : Prop :=
  exists c, In c s /\ In x c.

Definition same_component (s : list path) (x y : node) : Prop :=
  exists c, In c s /\ In x c /\ In y c.

(** [x] and [y] lie in different components of [s]. *)
Definition in_different_components (s : list path) (x y : node) : Prop :=
  in_component s x /\ in_component s y /\ ~ same_component s x y.

(** What the copy of an induced subgraph keeps true while it is built from
    [G] on [k] vertices: the vertices are [0 .. k-1], the edges are numbered
    in the order of their creation, none is hidden, their endpoints are
    vertices, and each is labelled with a visible edge of [G]. *)
Record copy_inv (G : graph) (k : nat) (H : graph) : Prop := mkCopyInv {
  ci_nodes : all_nodes H = seq 0 k;
  ci_list : edge_list H = seq 0 (length (edge_list H));
  ci_vis : forall e, hidden H e = false;
  ci_ends : forall e, (fst (ends H e) < k)%nat /\ (snd (ends H e) < k)%nat;
  ci_info : forall h, In h (edge_list H) -> In (einfo H h) (edges G)
}.

(** [H'] has the vertices of [H] and all its edges, with their labels. *)
Definition extends (H H' : graph) : Prop :=
  all_nodes H' = all_nodes H /\ info H' = info H
  /\ forall h, In h (edge_list H) -> In h (edge_list H') /\ einfo H' h = einfo H h.

(** [compnum[x]] is the index of a component that contains [x]. *)
Definition numbered (a : tri_acc) (x : node) : Prop :=
  exists i c, compnum a x = Z.of_nat i /\ nth_error (sigma3 a) i = Some c /\ In x c.

(** What the loop over the blocks keeps true of its accumulators after the
    blocks [done]: the components partition the vertices of these blocks;
    a block handled without search has all its vertices unnumbered and in
    one component, a searched block has all its vertices numbered; the
    vertices of the other blocks are unnumbered. *)
Record blocks_inv (a : tri_acc) (done : list path) : Prop := mkBlocksInv {
  bi_perm : Permutation (concat (sigma3 a)) (concat done);
  bi_block : forall B, In B done ->
      ((forall x, In x B -> compnum a x = -1)
       /\ (forall x y, In x B -> In y B -> same_component (sigma3 a) x y))
      \/ (forall x, In x B -> numbered a x);
  bi_rest : forall x, ~ In x (concat done) -> compnum a x = -1
}.

(** Two complete graphs on four vertices joined by the two edges 12 and 13,
    and trivial labellings for it (one block, one component). *)
Definition G_two_K4 : graph :=
  graph_of 8 [(0, 1); (0, 2); (0, 3); (1, 2); (1, 3); (2, 3);
              (4, 5); (4, 6); (4, 7); (5, 6); (5, 7); (6, 7);
              (3, 4); (0, 7)]%nat.

Definition one_block : graph -> nat * (edge -> nat) := fun _ => (1%nat, fun _ => 0%nat).
Definition one_component : graph -> nat * (node -> nat) :=
  fun _ => (1%nat, fun _ => 0%nat).

Definition result_of (o : outcome tri_result) : option tri_result :=
  match o with
  | Ret r => Some r
  | _ => None
  end.

(** ** The writer: [write_dim] *)

(** Lines 1117-1134 (the two overloads have the same body): the header line
    holds the number of vertices and the number of visible edges, and every
    visible edge, in the order of [forall_edges], gives a line with the ids
    of its source and of its target.  The result is the token stream that
    [read_dim] reads. *)
Definition write_dim (G : graph) : dim_input :=
  mkInput [Z.of_nat (number_of_nodes G); Z.of_nat (number_of_edges G)]
          (flat_map (fun e => [Z.of_nat (source G e); Z.of_nat (target G e)]) (edges G)).

(** ** The vertex splitter: [split_graph_onV] *)

(** Lines 806-813: an incident edge of the vertex goes to [comp1] when it
    lies in the block of the first edge of the vertex and to [comp2]
    otherwise; [push] puts it at the front. *)
Definition sort_step (G : graph) (ecomp : edge -> nat) (e1comp : nat)
           (acc : list edge * list edge) (e : edge) : list edge * list edge :=
  if is_hidden G e then acc
  else if Nat.eqb (ecomp e) e1comp then (e :: fst acc, snd acc)
       else (fst acc, e :: snd acc).

(** Lines 800-813 for one vertex [n]; [None] when [n] has no edge. *)
Definition sort_edges (G : graph) (ecomp : edge -> nat) (n : node)
  : option (list edge * list edge) :=
  match first_adj_edge G n with
  | None => None
  | Some e1 => Some (fold_left (sort_step G ecomp (ecomp e1)) (adj G n) ([], []))
  end.

(** Lines 799-821: the loop over the vertices, left at the first vertex
    whose [comp2] is not empty. *)
Fixpoint find_split (G : graph) (ecomp : edge -> nat) (nodes : list node)
         (bridgesA bridgesB : list edge) : list edge * list edge :=
  match nodes with
  | [] => (bridgesA, bridgesB)
  | n :: rest =>
    match sort_edges G ecomp n with
    | None => find_split G ecomp rest bridgesA bridgesB
    | Some (comp1, comp2) =>
      match comp2 with
      | [] => find_split G ecomp rest bridgesA bridgesB
      | _ => (bridgesA ++ comp1, bridgesB ++ comp2)
      end
    end
  end.

(** Lines 845-855: one pass of the pendant stripping; the edges are not
    recorded here. *)
Definition pendant_step_onV (acc : graph * bool) (n : node) : graph * bool :=
  let (G, haspendent) := acc in
  if (degree G n =? 1)%nat then
    match first_adj_edge G n with
    | Some e => if is_hidden G e then acc else (hide_edge G e, true)
    | None => acc
    end
  else acc.

(** Lines 843-856. *)
Fixpoint strip_pendants_onV (fuel : nat) (G : graph) : outcome graph :=
  let (G', haspendent) := fold_left pendant_step_onV (all_nodes G) (G, false) in
  if haspendent then
    match fuel with
    | O => OutOfFuel
    | S fuel' => strip_pendants_onV fuel' G'
    end
  else Ret G'.

Record onV_result : Type := mkOnV {
  ov_num : nat;
  ov_graph : graph;
  ov_bridgesA : list edge;
  ov_bridgesB : list edge;
  ov_sigma : list path
}.

Section VertexSplitter.

Variable BICONNECTED_COMPONENTS : graph -> nat * (edge -> nat).
Variable COMPONENTS : graph -> nat * (node -> nat).

(** Lines 787-877.  The lists [bridgesA], [bridgesB] and [sigma] are
    received by reference.  The branch after [else] at line 872 cannot be
    reached, because the function has returned when [bridgesA] is empty. *)
Definition split_graph_onV (G : graph) (bridgesA bridgesB : list edge)
           (sigma : list path) : outcome onV_result :=
  let (_, ecomp) := BICONNECTED_COMPONENTS G in
  let (A, B) := find_split G ecomp (all_nodes G) bridgesA bridgesB in
  match A with
  | [] => Ret (mkOnV 0 G A B sigma)
  | _ =>
    do G1 <- hide_bridges G A;
    do G2 <- strip_pendants_onV (number_of_edges G1) G1;
    let (num, components) := COMPONENTS G2 in
    do s <- collect_components G2 num components;
    Ret (mkOnV num G2 A B s)
  end.

End VertexSplitter.

(** ** The end of [main]: the edges that are taken out of the graph *)

(** Lines 1012-1026: a bridge with an end of degree larger than two is
    counted, and hidden when it is still visible. *)
Definition amend_bridge_step (acc : graph * nat) (e : edge) : graph * nat :=
  let (G, nsafebridges) := acc in
  if (2 <? degree G (source G e))%nat || (2 <? degree G (target G e))%nat then
    (if negb (is_hidden G e) then hide_edge G e else G, S nsafebridges)
  else acc.

Definition amend_bridges (G : graph) (bridges : list edge) : graph * nat :=
  fold_left amend_bridge_step bridges (G, 0%nat).

(** Lines 1029-1047: a visible cut edge with an end of degree larger than
    two is counted and hidden. *)
Definition amend_cut_step (acc : graph * nat) (e : edge) : graph * nat :=
  let (G, nsafecutedges) := acc in
  if negb (is_hidden G e) then
    if (2 <? degree G (source G e))%nat || (2 <? degree G (target G e))%nat then
      (hide_edge G e, S nsafecutedges)
    else acc
  else acc.

Definition amend_cut_edges (G : graph) (cut_edges : list edge) : graph * nat :=
  fold_left amend_cut_step cut_edges (G, 0%nat).

(** ** Vocabulary of the further properties *)

(** The recorded pendant edges are hidden edges of the graph and pairwise
    different. *)
Definition recorded_once (G : graph) (d : list edge) : Prop :=
  NoDup d /\ forall e, In e d -> hidden G e = true /\ In e (edge_list G).

(** Every visible edge lies in the adjacency lists of its two endpoints. *)
Definition adj_complete (G : graph) : Prop :=
  forall e, In e (edges G) -> In e (adj G (source G e)) /\ In e (adj G (target G e)).

(** The vertex that stands for [x] once the vertices [D] have been absorbed
    into [x0]. *)
Definition absorbed_into (x0 : node) (D : list node) (x : node) : node :=
  if existsb (Nat.eqb x) D then x0 else x.

(** Two pairs of endpoints that agree up to the direction of the edge. *)
Definition same_ends (p q : node * node) : Prop :=
  p = q \/ p = (snd q, fst q).

(** The state of an absorption into [x0] of vertices of the path [Pall],
    started on [G0]: the vertices [D] have been absorbed and the edges of
    the vertices [cur] (none, or the vertex being absorbed) are being
    processed.  The absorbed vertices are isolated; an edge that was not
    visible is untouched; an edge that has been hidden had both ends on the
    path; a visible edge joins the vertices that stand for its old ends. *)
Record absorbing (G0 : graph) (x0 : node) (Pall D cur : list node) (G : graph)
  : Prop := mkAbsorbing {
  ab_wf : wf_graph G;
  ab_lf : loop_free G;
  ab_adj : adj_complete G;
  ab_nodes : all_nodes G = all_nodes G0;
  ab_list : edge_list G = edge_list G0;
  ab_iso : forall x, In x D -> adj G x = [];
  ab_old : forall e, ~ In e (edges G0) -> hidden G e = hidden G0 e /\ ends G e = ends G0 e;
  ab_hid : forall e, In e (edges G0) -> hidden G e = true ->
                     In (source G0 e) Pall /\ In (target G0 e) Pall;
  ab_vis : forall e, In e (edges G0) -> hidden G e = false ->
                     same_ends (ends G e)
                               (absorbed_into x0 D (source G0 e),
                                absorbed_into x0 D (target G0 e))
                     \/ same_ends (ends G e)
                                  (absorbed_into x0 (cur ++ D) (source G0 e),
                                   absorbed_into x0 (cur ++ D) (target G0 e))
}.

(** What the copy of an induced subgraph keeps true besides [copy_inv],
    with [m] the table [v_in_H], [done] the vertices whose adjacency lists
    have been copied and [cur] the edges of the current vertex that have
    been looked at: the copy is well formed; the endpoints of a copied edge
    are the copies of the endpoints of its original; no original is copied
    twice; and every original copied so far has an end in [done] or is one
    of [cur]. *)
Record induced_inv (G : graph) (m : node -> option node) (done : list node)
       (cur : list edge) (H : graph) : Prop := mkInduced {
  ii_wf : wf_graph H;
  ii_adj : adj_complete H;
  ii_ends : forall h, In h (edge_list H) ->
      exists x v, m x = Some (source H h) /\ m v = Some (target H h)
                  /\ same_ends (x, v) (ends G (einfo H h));
  ii_inj : NoDup (map (einfo H) (edge_list H));
  ii_touch : forall h, In h (edge_list H) ->
      (exists x, In x done /\ (source G (einfo H h) = x \/ target G (einfo H h) = x))
      \/ In (einfo H h) cur
}.

(** The numbering kept by the search: the numbered vertices carry the
    numbers [0 .. count2 - 1], each once; [lowpt] is never negative and
    never above the number of a numbered vertex; and the father of a
    vertex is numbered before it. *)
Record numbering (st : dfs_state) : Prop := mkNumbering {
  nb_range : forall x, -1 <= pre st x < count2 st;
  nb_inj : forall x y, 0 <= pre st x -> pre st x = pre st y -> x = y;
  nb_onto : forall c, 0 <= c < count2 st -> exists x, pre st x = c;
  nb_low : forall x, 0 <= lowpt st x /\ (0 <= pre st x -> lowpt st x <= pre st x);
  nb_father : forall x p, father st x = Some p -> 0 <= pre st p < pre st x
}.

(** A later state keeps the numbers given in an earlier one. *)
Definition keeps_numbers (st st' : dfs_state) : Prop :=
  (forall x, 0 <= pre st x -> pre st' x = pre st x) /\ count2 st <= count2 st'.

(** What the search may do to the graph: the graph stays well formed, the
    vertices, the edge arena and the labels stay, and an edge that was
    hidden stays hidden and keeps its endpoints. *)
Record search_frame (G0 G : graph) : Prop := mkFrame {
  sf_wf : wf_graph G;
  sf_nodes : all_nodes G = all_nodes G0;
  sf_list : edge_list G = edge_list G0;
  sf_info : info G = info G0;
  sf_einfo : einfo G = einfo G0;
  sf_mono : forall e, hidden G0 e = true -> hidden G e = true /\ ends G e = ends G0 e
}.

(** All edges in the adjacency list of [n] lie in one block. *)
Definition one_block_at (G : graph) (ecomp : edge -> nat) (n : node) : Prop :=
  forall e f, In e (adj G n) -> In f (adj G n) -> ecomp e = ecomp f.

(** The triangle 0 - 1 - 2 with the edge 2 - 3 hanging on it, its two
    blocks, and a labelling of the vertices for [COMPONENTS]. *)
Definition G_kite : graph := graph_of 4 [(0, 1); (1, 2); (2, 0); (2, 3)]%nat.

Definition kite_blocks : graph -> nat * (edge -> nat) :=
  fun _ => (2%nat, fun e => if (e <? 3)%nat then 0%nat else 1%nat).

Definition kite_components : graph -> nat * (node -> nat) :=
  fun _ => (2%nat, fun n => if (n <? 3)%nat then 0%nat else 1%nat).

(** The path [Pw] of the search at [w]: it starts with [w], repeats no
    vertex, and its other vertices were numbered after [w]. *)
Definition path_ok (st : dfs_state) (w : node) (Pw : path) : Prop :=
  exists t, Pw = w :: t /\ NoDup Pw /\ forall x, In x t -> pre st w < pre st x.

(** ** The substrate operations on well-formed graphs *)

Lemma upd_same {A} (f : nat -> A) k a : upd f k a k = a.
Proof. unfold upd. now rewrite Nat.eqb_refl. Qed.

Lemma upd_other {A} (f : nat -> A) k a x : x <> k -> upd f k a x = f x.
Proof. unfold upd. intros H. apply Nat.eqb_neq in H. now rewrite H. Qed.

Lemma In_remove_edge e l x : In x (remove_edge e l) <-> In x l /\ x <> e.
Proof.
  unfold remove_edge. rewrite filter_In. split; intros [H1 H2]; split; auto.
  - intros ->. now rewrite Nat.eqb_refl in H2.
  - apply Nat.eqb_neq in H2. now rewrite H2.
Qed.

Lemma remove_edge_notin e l : ~ In e l -> remove_edge e l = l.
Proof.
  induction l as [|a l IH]; simpl; intros H; auto.
  destruct (Nat.eqb_spec a e) as [->|Hne]; simpl.
  - exfalso. apply H. now left.
  - f_equal. apply IH. intros Hin. apply H. now right.
Qed.

Lemma remove_edge_head e l : NoDup (e :: l) -> remove_edge e (e :: l) = l.
Proof.
  intros H. inversion H; subst. simpl. rewrite Nat.eqb_refl. simpl.
  now apply remove_edge_notin.
Qed.

Lemma NoDup_remove_edge e l : NoDup l -> NoDup (remove_edge e l).
Proof. intros H. unfold remove_edge. now apply NoDup_filter. Qed.

Lemma remove_edge_idem e l : remove_edge e (remove_edge e l) = remove_edge e l.
Proof.
  apply remove_edge_notin. rewrite In_remove_edge. intros [_ H]. now apply H.
Qed.

Lemma adj_hide_edge G e x :
  wf_graph G -> adj (hide_edge G e) x = remove_edge e (adj G x).
Proof.
  intros W. unfold hide_edge. simpl.
  destruct (Nat.eq_dec x (target G e)) as [Ht|Ht].
  - subst x. rewrite upd_same.
    destruct (Nat.eq_dec (target G e) (source G e)) as [Hs|Hs].
    + rewrite Hs, upd_same. apply remove_edge_idem.
    + now rewrite (upd_other _ _ _ _ Hs).
  - rewrite (upd_other _ _ _ _ Ht).
    destruct (Nat.eq_dec x (source G e)) as [Hs|Hs].
    + subst x. now rewrite upd_same.
    + rewrite (upd_other _ _ _ _ Hs). symmetry. apply remove_edge_notin.
      intros Hin. destruct (wf_inc _ W _ _ Hin); congruence.
Qed.

Lemma adj_move_edge G e u v x :
  wf_graph G ->
  adj (move_edge G e u v) x =
  remove_edge e (adj G x) ++ (if Nat.eqb x u || Nat.eqb x v then [e] else []).
Proof.
  intros W.
  assert (Hbase : forall y,
             upd (upd (adj G) (source G e) (remove_edge e (adj G (source G e))))
                 (target G e)
                 (remove_edge e
                    (upd (adj G) (source G e) (remove_edge e (adj G (source G e)))
                         (target G e))) y
             = remove_edge e (adj G y)).
  { intros y. exact (adj_hide_edge G e y W). }
  unfold move_edge. simpl.
  destruct (Nat.eqb_spec u v) as [Huv|Huv].
  - subst v. rewrite orb_diag.
    destruct (Nat.eqb_spec x u) as [->|Hx].
    + rewrite upd_same, Hbase. reflexivity.
    + rewrite (upd_other _ _ _ _ Hx), Hbase. now rewrite app_nil_r.
  - destruct (Nat.eqb_spec x v) as [->|Hxv].
    + rewrite upd_same. assert (Hvu : v <> u) by congruence.
      rewrite (upd_other _ _ _ _ Hvu), Hbase.
      apply Nat.eqb_neq in Hvu. rewrite Hvu. reflexivity.
    + rewrite (upd_other _ _ _ _ Hxv).
      destruct (Nat.eqb_spec x u) as [->|Hxu].
      * rewrite upd_same, Hbase. reflexivity.
      * rewrite (upd_other _ _ _ _ Hxu), Hbase. simpl. now rewrite app_nil_r.
Qed.

Lemma hide_edge_wf G e : wf_graph G -> wf_graph (hide_edge G e).
Proof.
  intros W. constructor.
  - intros x. rewrite adj_hide_edge by assumption.
    apply NoDup_remove_edge, (wf_nodup _ W).
  - intros x e'. rewrite adj_hide_edge by assumption.
    rewrite In_remove_edge. intros [Hin _]. exact (wf_inc _ W _ _ Hin).
  - intros x e'. rewrite adj_hide_edge by assumption.
    rewrite In_remove_edge. intros [Hin Hne]. unfold hide_edge; simpl.
    rewrite (upd_other _ _ _ _ Hne). exact (wf_vis _ W _ _ Hin).
  - intros x e'. rewrite adj_hide_edge by assumption.
    rewrite In_remove_edge. intros [Hin _]. exact (wf_listed _ W _ _ Hin).
  - exact (wf_edges _ W).
Qed.

Lemma In_adj_move_edge G e u v x e' :
  wf_graph G ->
  In e' (adj (move_edge G e u v) x) <->
  (In e' (adj G x) /\ e' <> e) \/ (e' = e /\ (x = u \/ x = v)).
Proof.
  intros W. rewrite adj_move_edge by assumption.
  rewrite in_app_iff, In_remove_edge.
  destruct (Nat.eqb_spec x u) as [Hu|Hu]; simpl.
  - split; intros [H|H]; auto.
    + right. destruct H as [H|[]]. split; auto.
    + right. left. symmetry. apply H.
  - destruct (Nat.eqb_spec x v) as [Hv|Hv]; simpl.
    + split; intros [H|H]; auto.
      * right. destruct H as [H|[]]. split; auto.
      * right. left. symmetry. apply H.
    + split; intros [H|H]; auto.
      * destruct H.
      * destruct H as [_ [H|H]]; contradiction.
Qed.

Lemma move_edge_ends_other G e u v e' :
  e' <> e -> ends (move_edge G e u v) e' = ends G e'.
Proof. intros H. unfold move_edge; simpl. now rewrite (upd_other _ _ _ _ H). Qed.

Lemma move_edge_ends_same G e u v : ends (move_edge G e u v) e = (u, v).
Proof. unfold move_edge; simpl. now rewrite upd_same. Qed.

Lemma move_edge_wf G e u v :
  wf_graph G -> hidden G e = false -> In e (edge_list G) ->
  wf_graph (move_edge G e u v).
Proof.
  intros W Hv Hl. constructor.
  - intros x. rewrite adj_move_edge by assumption.
    assert (Hn : NoDup (remove_edge e (adj G x)))
      by apply NoDup_remove_edge, (wf_nodup _ W).
    destruct (Nat.eqb x u || Nat.eqb x v).
    + apply NoDup_app; auto.
      * constructor; [intros []|constructor].
      * intros a Ha [<-|[]]. apply In_remove_edge in Ha. now destruct Ha.
    + now rewrite app_nil_r.
  - intros x e'. rewrite In_adj_move_edge by assumption.
    unfold source, target.
    intros [[Hin Hne]|[-> Hx]].
    + rewrite (move_edge_ends_other _ _ _ _ _ Hne). exact (wf_inc _ W _ _ Hin).
    + rewrite move_edge_ends_same. simpl. destruct Hx; auto.
  - intros x e'. rewrite In_adj_move_edge by assumption.
    intros [[Hin Hne]|[-> Hx]]; unfold move_edge; simpl; auto.
    exact (wf_vis _ W _ _ Hin).
  - intros x e'. rewrite In_adj_move_edge by assumption.
    intros [[Hin Hne]|[-> Hx]]; unfold move_edge; simpl; auto.
    exact (wf_listed _ W _ _ Hin).
  - exact (wf_edges _ W).
Qed.

Lemma hide_edge_loop_free G e : wf_graph G -> loop_free G -> loop_free (hide_edge G e).
Proof.
  intros W L x e'. rewrite adj_hide_edge by assumption.
  rewrite In_remove_edge. intros [Hin _]. exact (L _ _ Hin).
Qed.

Lemma move_edge_loop_free G e u v :
  wf_graph G -> loop_free G -> u <> v -> loop_free (move_edge G e u v).
Proof.
  intros W L Huv x e'. rewrite In_adj_move_edge by assumption.
  unfold source, target.
  intros [[Hin Hne]|[-> Hx]].
  - rewrite (move_edge_ends_other _ _ _ _ _ Hne). exact (L _ _ Hin).
  - now rewrite move_edge_ends_same.
Qed.

(** ** The edge loops of the two absorptions *)

Lemma opposite_neq G xi e :
  wf_graph G -> loop_free G -> In e (adj G xi) -> opposite G xi e <> xi.
Proof.
  intros W L Hin. unfold opposite.
  pose proof (L _ _ Hin) as Hl. pose proof (wf_inc _ W _ _ Hin) as Hi.
  destruct (Nat.eqb_spec xi (source G e)); destruct Hi; congruence.
Qed.

Lemma adj_after_hide G xi e tl :
  wf_graph G -> adj G xi = e :: tl -> adj (hide_edge G e) xi = tl.
Proof.
  intros W E. rewrite adj_hide_edge, E by assumption.
  apply remove_edge_head. rewrite <- E. apply (wf_nodup _ W).
Qed.

Lemma adj_after_move G xi e tl u v :
  wf_graph G -> adj G xi = e :: tl -> xi <> u -> xi <> v ->
  adj (move_edge G e u v) xi = tl.
Proof.
  intros W E Hu Hv. rewrite adj_move_edge, E by assumption.
  apply Nat.eqb_neq in Hu, Hv. rewrite Hu, Hv. simpl orb. cbv iota.
  rewrite app_nil_r. apply remove_edge_head. rewrite <- E. apply (wf_nodup _ W).
Qed.

Lemma succ_in_head e tl : succ_in e (e :: tl) = hd_error tl.
Proof. simpl. now rewrite Nat.eqb_refl. Qed.

Lemma absorb_edges_returns n :
  forall fuel G xi xm1 x0,
    length (adj G xi) = n -> (n < fuel)%nat ->
    wf_graph G -> loop_free G -> xi <> x0 ->
    exists G', absorb_edges fuel G xi xm1 x0 (First_Inout_Edge G xi) = Ret G'
               /\ wf_graph G' /\ loop_free G'.
Proof.
  induction n as [|n IH]; intros fuel G xi xm1 x0 Hlen Hf W L Hx.
  - unfold First_Inout_Edge. destruct (adj G xi); [|discriminate].
    exists G. destruct fuel; simpl; auto.
  - unfold First_Inout_Edge. destruct (adj G xi) as [|e tl] eqn:E; [discriminate|].
    destruct fuel as [|fuel]; [lia|]. simpl hd_error. cbn [absorb_edges].
    assert (Hin : In e (adj G xi)) by (rewrite E; now left).
    pose proof (opposite_neq _ _ _ W L Hin) as Hz.
    unfold Succ_Inout_Edge, is_hidden. rewrite E, succ_in_head, (wf_vis _ W _ _ Hin).
    injection Hlen as Hlen.
    destruct (Nat.eqb (opposite G xi e) xm1 || Nat.eqb (opposite G xi e) x0) eqn:Hc.
    + rewrite <- (adj_after_hide _ _ _ _ W E).
      apply IH; auto using hide_edge_wf, hide_edge_loop_free; try lia.
      now rewrite (adj_after_hide _ _ _ _ W E).
    + apply orb_false_iff in Hc. destruct Hc as [_ Hc]. apply Nat.eqb_neq in Hc.
      pose proof (L _ _ Hin) as Hl. apply Nat.eqb_neq in Hl. rewrite Hl.
      assert (Ha : adj (move_edge G e x0 (opposite G xi e)) xi = tl)
        by (apply adj_after_move; auto).
      rewrite <- Ha.
      pose proof (wf_vis _ W _ _ Hin) as Hvis.
      pose proof (wf_listed _ W _ _ Hin) as Hlis.
      apply IH; auto using move_edge_wf, move_edge_loop_free; try lia.
      now rewrite Ha.
Qed.

(** Without the assumption on self-loops the loop still ends: it returns, or
    it leaves the program through [exit(0)] at a self-loop. *)
Lemma absorb_edges_total n :
  forall fuel G xi xm1 x0,
    length (adj G xi) = n -> (n < fuel)%nat ->
    wf_graph G -> xi <> x0 ->
    (exists G', absorb_edges fuel G xi xm1 x0 (First_Inout_Edge G xi) = Ret G'
                /\ wf_graph G')
    \/ absorb_edges fuel G xi xm1 x0 (First_Inout_Edge G xi) = Exit 0.
Proof.
  induction n as [|n IH]; intros fuel G xi xm1 x0 Hlen Hf W Hx.
  - unfold First_Inout_Edge. destruct (adj G xi); [|discriminate].
    left. exists G. destruct fuel; simpl; auto.
  - unfold First_Inout_Edge. destruct (adj G xi) as [|e tl] eqn:E; [discriminate|].
    destruct fuel as [|fuel]; [lia|]. simpl hd_error. cbn [absorb_edges].
    assert (Hin : In e (adj G xi)) by (rewrite E; now left).
    unfold Succ_Inout_Edge, is_hidden. rewrite E, succ_in_head, (wf_vis _ W _ _ Hin).
    injection Hlen as Hlen.
    destruct (Nat.eqb (opposite G xi e) xm1 || Nat.eqb (opposite G xi e) x0) eqn:Hc.
    + rewrite <- (adj_after_hide _ _ _ _ W E).
      apply IH; auto using hide_edge_wf; try lia.
      now rewrite (adj_after_hide _ _ _ _ W E).
    + apply orb_false_iff in Hc. destruct Hc as [_ Hc]. apply Nat.eqb_neq in Hc.
      destruct (Nat.eqb_spec (source G e) (target G e)) as [Hl|Hl]; [now right|].
      assert (Hz : opposite G xi e <> xi).
      { unfold opposite. pose proof (wf_inc _ W _ _ Hin) as Hi.
        destruct (Nat.eqb_spec xi (source G e)); destruct Hi; congruence. }
      assert (Ha : adj (move_edge G e x0 (opposite G xi e)) xi = tl)
        by (apply adj_after_move; auto).
      rewrite <- Ha.
      pose proof (wf_vis _ W _ _ Hin) as Hvis.
      pose proof (wf_listed _ W _ _ Hin) as Hlis.
      apply IH; auto using move_edge_wf; try lia.
      now rewrite Ha.
Qed.

Lemma absorb2_edges_eq fuel :
  forall G xi xm1 x0 e,
    wf_graph G -> loop_free G -> xi <> x0 ->
    e = First_Inout_Edge G xi ->
    absorb2_edges fuel G xi xm1 x0 e = absorb_edges fuel G xi xm1 x0 e.
Proof.
  induction fuel as [|fuel IH]; intros G xi xm1 x0 e W L Hx He; destruct e as [e|]; auto.
  cbn [absorb2_edges absorb_edges].
  unfold First_Inout_Edge in He. destruct (adj G xi) as [|e' tl] eqn:E; [discriminate|].
  injection He as ->.
  assert (Hin : In e' (adj G xi)) by (rewrite E; now left).
  pose proof (opposite_neq _ _ _ W L Hin) as Hz.
  unfold Succ_Inout_Edge, is_hidden. rewrite E, succ_in_head, (wf_vis _ W _ _ Hin).
  destruct (Nat.eqb (opposite G xi e') xm1 || Nat.eqb (opposite G xi e') x0) eqn:Hc.
  - apply IH; auto using hide_edge_wf, hide_edge_loop_free.
    unfold First_Inout_Edge. now rewrite (adj_after_hide _ _ _ _ W E).
  - apply orb_false_iff in Hc. destruct Hc as [_ Hc]. apply Nat.eqb_neq in Hc.
    destruct (Nat.eqb (source G e') (target G e')); auto.
    apply IH; auto using move_edge_loop_free.
    + apply move_edge_wf; auto.
      * apply (wf_vis _ W _ _ Hin).
      * apply (wf_listed _ W _ _ Hin).
    + unfold First_Inout_Edge. rewrite (adj_after_move G xi e' tl); auto.
Qed.

(** ** Whole-path absorption empties the path *)

Lemma Pop_snoc (l : path) x : Pop (l ++ [x]) = Some (x, l).
Proof. unfold Pop. rewrite rev_app_distr. simpl. now rewrite rev_involutive. Qed.

Lemma absorb_while_empties n :
  forall fuel x0 G sg P xm1 q,
    length P = n -> (n < fuel)%nat ->
    P ++ [xm1] = x0 :: q -> ~ In x0 q ->
    wf_graph G -> loop_free G ->
    exists G' sg', absorb_while fuel x0 G sg P xm1 = Ret (G', sg', [])
                   /\ wf_graph G' /\ loop_free G'.
Proof.
  induction n as [|n IH]; intros fuel x0 G sg P xm1 q Hlen Hf HP Hq W L.
  - destruct P; [|discriminate]. simpl in HP. injection HP as -> <-.
    exists G, sg. destruct fuel; simpl; rewrite Nat.eqb_refl; auto.
  - destruct (exists_last (l := P)) as [P' [y ->]]; [now destruct P|].
    rewrite length_app in Hlen. simpl in Hlen.
    destruct fuel as [|fuel]; [lia|]. cbn [absorb_while].
    assert (Hx : xm1 <> x0).
    { intros ->. destruct P' as [|p P']; simpl in HP; injection HP as _ <-;
        apply Hq; rewrite ?in_app_iff; simpl; auto. }
    apply Nat.eqb_neq in Hx. rewrite Hx. apply Nat.eqb_neq in Hx.
    rewrite Pop_snoc.
    destruct (absorb_edges_returns (length (adj G xm1)) (S (degree G xm1))
                G xm1 y x0 eq_refl) as [G1 [E1 [W1 L1]]]; auto.
    rewrite E1. cbn [bind].
    assert (Hq' : exists q', P' ++ [y] = x0 :: q' /\ q = q' ++ [xm1]).
    { destruct (P' ++ [y]) as [|a r] eqn:E.
      - destruct P'; discriminate.
      - simpl in HP. injection HP as -> <-. eauto. }
    destruct Hq' as [q' [E' ->]].
    apply (IH fuel x0 G1 _ P' y q'); auto; try lia.
    intros Hin. apply Hq. rewrite in_app_iff. now left.
Qed.

Lemma absorb_while_total n :
  forall fuel x0 G sg P xm1 q,
    length P = n -> (n < fuel)%nat ->
    P ++ [xm1] = x0 :: q -> ~ In x0 q ->
    wf_graph G ->
    (exists G' sg', absorb_while fuel x0 G sg P xm1 = Ret (G', sg', []))
    \/ absorb_while fuel x0 G sg P xm1 = Exit 0.
Proof.
  induction n as [|n IH]; intros fuel x0 G sg P xm1 q Hlen Hf HP Hq W.
  - destruct P; [|discriminate]. simpl in HP. injection HP as -> <-.
    left. exists G, sg. destruct fuel; simpl; rewrite Nat.eqb_refl; auto.
  - destruct (exists_last (l := P)) as [P' [y ->]]; [now destruct P|].
    rewrite length_app in Hlen. simpl in Hlen.
    destruct fuel as [|fuel]; [lia|]. cbn [absorb_while].
    assert (Hx : xm1 <> x0).
    { intros ->. destruct P' as [|p P']; simpl in HP; injection HP as _ <-;
        apply Hq; rewrite ?in_app_iff; simpl; auto. }
    apply Nat.eqb_neq in Hx. rewrite Hx. apply Nat.eqb_neq in Hx.
    rewrite Pop_snoc.
    destruct (absorb_edges_total (length (adj G xm1)) (S (degree G xm1))
                G xm1 y x0 eq_refl) as [[G1 [E1 W1]]|E1]; auto;
      rewrite E1; cbn [bind]; [|now right].
    assert (Hq' : exists q', P' ++ [y] = x0 :: q' /\ q = q' ++ [xm1]).
    { destruct (P' ++ [y]) as [|a r] eqn:E.
      - destruct P'; discriminate.
      - simpl in HP. injection HP as -> <-. eauto. }
    destruct Hq' as [q' [E' ->]].
    apply (IH fuel x0 G1 _ P' y q'); auto; try lia.
    intros Hin. apply Hq. rewrite in_app_iff. now left.
Qed.

Lemma AbsorbPath_total (G : graph) (sg : sigma_t) (P : path) :
  wf_graph G -> head_once P ->
  (exists G' sg', AbsorbPath G sg P = Ret (G', sg', []))
  \/ AbsorbPath G sg P = Exit 0.
Proof.
  intros W H. destruct P as [|x0 tl]; [left; now exists G, sg|].
  unfold AbsorbPath.
  destruct (exists_last (l := x0 :: tl)) as [P1 [xm1 E]]; [discriminate|].
  rewrite E, Pop_snoc.
  destruct P1 as [|p P1]; [left; now exists G, sg|].
  simpl in E. injection E as <- ->. simpl in H.
  apply (absorb_while_total (length (x0 :: P1)) (S (length (x0 :: P1)))
           x0 G sg (x0 :: P1) xm1 (P1 ++ [xm1]) eq_refl); auto.
Qed.

Lemma AbsorbPath_returns (G : graph) (sg : sigma_t) (P : path) :
  wf_graph G -> loop_free G -> head_once P ->
  exists G' sg', AbsorbPath G sg P = Ret (G', sg', []).
Proof.
  intros W L H. destruct P as [|x0 tl]; [now exists G, sg|].
  unfold AbsorbPath.
  destruct (exists_last (l := x0 :: tl)) as [P1 [xm1 E]]; [discriminate|].
  rewrite E, Pop_snoc.
  destruct P1 as [|p P1]; [now exists G, sg|].
  simpl in E. injection E as <- ->. simpl in H.
  destruct (absorb_while_empties (length (x0 :: P1)) (S (length (x0 :: P1)))
              x0 G sg (x0 :: P1) xm1 (P1 ++ [xm1]) eq_refl)
    as [G' [sg' [E' _]]]; auto.
  exists G', sg'. exact E'.
Qed.

(** C10.  Whole-path absorption ([AbsorbPath(G, sigma, cols, P)]) returns
    with [P] empty, for the empty path, for a path of one vertex and for
    every longer path.  On a well-formed graph and a path whose head does
    not occur again in it: whenever the call returns, the path it leaves is
    [[]], never [[x0]]; the loops always end; and the call does return when
    the graph has no visible self-loop (the only other way out is the
    [exit(0)] of line 585 at a self-loop). *)
Theorem AbsorbPath_leaves_empty_path (G : graph) (sg : sigma_t) (P : path) :
  wf_graph G -> head_once P ->
  (forall G' sg' P', AbsorbPath G sg P = Ret (G', sg', P') -> P' = [])
  /\ AbsorbPath G sg P <> OutOfFuel
  /\ (loop_free G -> exists G' sg', AbsorbPath G sg P = Ret (G', sg', [])).
Proof.
  intros W H. split; [|split].
  - intros G' sg' P' E.
    destruct (AbsorbPath_total G sg P W H) as [[G1 [sg1 E1]]|E1];
      rewrite E1 in E; [now injection E as _ _ <-|discriminate].
  - destruct (AbsorbPath_total G sg P W H) as [[G1 [sg1 E1]]|E1];
      rewrite E1; discriminate.
  - intros L. exact (AbsorbPath_returns G sg P W L H).
Qed.

(** The path of one vertex, on any graph: the first [Pop] empties it. *)
Example AbsorbPath_singleton (G : graph) (sg : sigma_t) (x0 : node) :
  AbsorbPath G sg [x0] = Ret (G, sg, []).
Proof. reflexivity. Qed.

(** ** Graphs built by [graph_of] are well formed *)

Lemma adj_new_edge G u v x :
  adj (new_edge G u v) x =
  adj G x ++ (if Nat.eqb u x || Nat.eqb v x then [length (edge_list G)] else []).
Proof.
  unfold new_edge. cbn [adj].
  destruct (Nat.eqb_spec u v) as [->|Huv].
  - rewrite orb_diag. destruct (Nat.eqb_spec v x) as [->|Hx].
    + now rewrite upd_same.
    + rewrite upd_other by congruence. now rewrite app_nil_r.
  - destruct (Nat.eqb_spec v x) as [->|Hvx].
    + rewrite upd_same. rewrite upd_other by congruence.
      apply Nat.eqb_neq in Huv. now rewrite Huv.
    + rewrite (upd_other _ v) by congruence.
      destruct (Nat.eqb_spec u x) as [->|Hux].
      * now rewrite upd_same.
      * rewrite upd_other by congruence. now rewrite app_nil_r.
Qed.

Lemma new_edge_wf G u v k :
  wf_graph G -> edge_list G = seq 0 k ->
  wf_graph (new_edge G u v) /\ edge_list (new_edge G u v) = seq 0 (S k).
Proof.
  intros W E.
  assert (Hlen : length (edge_list G) = k) by (rewrite E; apply length_seq).
  assert (Hfresh : forall x, ~ In k (adj G x)).
  { intros x Hin. apply (wf_listed _ W) in Hin. rewrite E in Hin.
    apply in_seq in Hin. lia. }
  assert (Hin : forall x e, In e (adj (new_edge G u v) x) <->
                            In e (adj G x) \/ (e = k /\ (u = x \/ v = x))).
  { intros x e. rewrite adj_new_edge, in_app_iff, Hlen.
    destruct (Nat.eqb_spec u x), (Nat.eqb_spec v x); simpl; intuition. }
  split.
  - constructor.
    + intros x. rewrite adj_new_edge, Hlen.
      destruct (Nat.eqb u x || Nat.eqb v x); [|rewrite app_nil_r; apply (wf_nodup _ W)].
      apply NoDup_app; [apply (wf_nodup _ W)|repeat constructor; intros []|].
      intros a Ha [<-|[]]. exact (Hfresh x Ha).
    + intros x e He. apply Hin in He. unfold source, target, new_edge. cbn [ends].
      rewrite Hlen. destruct He as [He|[-> Hx]].
      * rewrite upd_other; [exact (wf_inc _ W _ _ He)|].
        intros ->. exact (Hfresh x He).
      * rewrite upd_same. simpl. tauto.
    + intros x e He. apply Hin in He. unfold new_edge. cbn [hidden].
      rewrite Hlen. destruct He as [He|[-> Hx]].
      * rewrite upd_other; [exact (wf_vis _ W _ _ He)|].
        intros ->. exact (Hfresh x He).
      * apply upd_same.
    + intros x e He. apply Hin in He. unfold new_edge. cbn [edge_list].
      rewrite in_app_iff, Hlen. destruct He as [He|[-> Hx]].
      * left. exact (wf_listed _ W _ _ He).
      * right. now left.
    + unfold new_edge. cbn [edge_list]. rewrite Hlen, E, <- seq_S. apply seq_NoDup.
  - unfold new_edge. cbn [edge_list]. rewrite Hlen, E. symmetry. apply seq_S.
Qed.

Lemma new_edge_loop_free G u v k :
  wf_graph G -> edge_list G = seq 0 k -> loop_free G -> u <> v ->
  loop_free (new_edge G u v).
Proof.
  intros W E L Huv x e He.
  assert (Hlen : length (edge_list G) = k) by (rewrite E; apply length_seq).
  rewrite adj_new_edge, in_app_iff, Hlen in He.
  unfold source, target, new_edge. cbn [ends]. rewrite Hlen.
  destruct He as [He|He].
  - rewrite upd_other; [exact (L _ _ He)|].
    intros ->. apply (wf_listed _ W) in He. rewrite E in He.
    apply in_seq in He. lia.
  - destruct (Nat.eqb u x || Nat.eqb v x); [|destruct He].
    destruct He as [<-|[]]. now rewrite upd_same.
Qed.

Lemma add_nodes_fields n : forall G,
    edge_list (add_nodes n G) = edge_list G
    /\ adj (add_nodes n G) = adj G
    /\ hidden (add_nodes n G) = hidden G
    /\ ends (add_nodes n G) = ends G.
Proof.
  induction n as [|n IH]; intros G; cbn [add_nodes]; [auto|].
  destruct (IH (fst (new_node G (length (all_nodes G))))) as (H1 & H2 & H3 & H4).
  rewrite H1, H2, H3, H4. repeat split; reflexivity.
Qed.

Lemma add_nodes_wf n : wf_graph (add_nodes n empty_graph)
                       /\ loop_free (add_nodes n empty_graph)
                       /\ edge_list (add_nodes n empty_graph) = seq 0 0.
Proof.
  destruct (add_nodes_fields n empty_graph) as (H1 & H2 & H3 & H4).
  split; [constructor|split].
  - intros x. rewrite H2. constructor.
  - intros x e. rewrite H2. intros [].
  - intros x e. rewrite H2. intros [].
  - intros x e. rewrite H2. intros [].
  - rewrite H1. constructor.
  - intros x e. rewrite H2. intros [].
  - exact H1.
Qed.

Lemma fold_new_edge_wf (es : list (node * node)) :
  forall G k,
    wf_graph G -> edge_list G = seq 0 k ->
    wf_graph (fold_left (fun G uv => new_edge G (fst uv) (snd uv)) es G)
    /\ (loop_free G -> forallb (fun uv => negb (Nat.eqb (fst uv) (snd uv))) es = true ->
        loop_free (fold_left (fun G uv => new_edge G (fst uv) (snd uv)) es G)).
Proof.
  induction es as [|[u v] es IH]; intros G k W E; simpl; [auto|].
  destruct (new_edge_wf G u v k W E) as [W1 E1].
  destruct (IH _ _ W1 E1) as [W2 L2]. split; [exact W2|].
  intros L Hb. apply andb_true_iff in Hb. destruct Hb as [Huv Hb].
  apply L2; [|exact Hb].
  apply (new_edge_loop_free G u v k W E L).
  apply Nat.eqb_neq. now destruct (Nat.eqb u v).
Qed.

Lemma graph_of_wf (n : nat) (es : list (node * node)) :
  wf_graph (graph_of n es)
  /\ (forallb (fun uv => negb (Nat.eqb (fst uv) (snd uv))) es = true ->
      loop_free (graph_of n es)).
Proof.
  destruct (add_nodes_wf n) as (W & L & E).
  destruct (fold_new_edge_wf es _ 0 W E) as [W1 L1].
  split; [exact W1|]. intros Hb. now apply L1.
Qed.

Lemma G_path4_wf : wf_graph G_path4 /\ loop_free G_path4.
Proof.
  split; [apply graph_of_wf|]. apply (proj2 (graph_of_wf _ _)). reflexivity.
Qed.

Lemma AbsorbPath_leaves_empty_path_witness :
  exists G' sg', AbsorbPath G_path4 sigma_id [0; 1; 2]%nat = Ret (G', sg', []).
Proof.
  refine (proj2 (proj2 (AbsorbPath_leaves_empty_path G_path4 sigma_id [0; 1; 2]%nat _ _)) _).
  - exact (proj1 G_path4_wf).
  - simpl. intros [H|[H|[]]]; discriminate.
  - exact (proj2 G_path4_wf).
Defined.

(** ** Sub-path absorption with an absent target *)

Lemma find_back_absent (P : path) (v : node) :
  ~ In v P -> forall i, (i <= length P)%nat -> find_back P v i = None.
Proof.
  intros H i. induction i as [|j IH]; intros Hi; simpl; auto.
  destruct (Nat.eqb_spec (nth j P 0%nat) v) as [E|E].
  - exfalso. apply H. rewrite <- E. apply nth_In. lia.
  - apply IH. lia.
Qed.

(** C8.  [AbsorbPath(G, sigma, cols, P, u, v)], called as the program calls
    it with [u] the head of [P] (or with [P] empty), is a no-op when [v] does
    not occur in [P]: it returns and leaves [P], [sigma] and the graph as
    they were. *)
Theorem AbsorbPath2_absent_target_noop
        (G : graph) (sg : sigma_t) (P : path) (u v : node) :
  ~ In v P -> (P = [] \/ hd_error P = Some u) ->
  AbsorbPath2 G sg P u v = Ret (G, sg, P).
Proof.
  intros Hv Hu. unfold AbsorbPath2. destruct P as [|x0 tl]; auto.
  destruct Hu as [Hu|Hu]; [discriminate|]. simpl in Hu. injection Hu as ->.
  rewrite Nat.eqb_refl. cbn [negb].
  now rewrite (find_back_absent (u :: tl) v Hv (length (u :: tl)) (le_n _)).
Qed.

Lemma AbsorbPath2_absent_target_noop_witness :
  AbsorbPath2 G_path4 sigma_id [0; 1; 2]%nat 0%nat 3%nat
  = Ret (G_path4, sigma_id, [0; 1; 2]%nat).
Proof.
  apply AbsorbPath2_absent_target_noop.
  - simpl. intros [H|[H|[H|[]]]]; discriminate.
  - right. reflexivity.
Defined.

(** ** Single steps of the loop of [triedge_dfs] *)

(** C7.  An outgoing back edge: the loop of [triedge_dfs] at [w] examines
    the edge [e] whose other end [u] is numbered with [pre[u] < pre[w]].
    If [pre[u] < lowpt[w]] the step absorbs [Pw] with the whole-path
    absorption, sets [lowpt[w]] to [pre[u]] and continues with [Pw = [w]];
    otherwise it continues with [Pw], [lowpt], [sigma] and the graph as
    they were. *)
Theorem outgoing_back_edge_step
        (fuel : nat) (st : dfs_state) (w : node) (v : option node)
        (Pw Pu : path) (e : edge) :
  let u := opposite (gr st) w e in
  let nxte := Succ_Inout_Edge (gr st) e w in
  examined st w v e ->
  0 <= pre st u -> pre st u < pre st w ->
  triedge_scan (S fuel) st w v Pw Pu (Some e) =
  if pre st u <? lowpt st w then
    do (G', s', _) <- AbsorbPath (gr st) (sigma st) Pw;
    triedge_scan fuel
      (mkState G' s' (pre st) (count2 st) (upd (lowpt st) w (pre st u)) (father st))
      w v [w] Pu nxte
  else triedge_scan fuel st w v Pw Pu nxte.
Proof.
  intros u nxte (Hh & Hp & Hw & Hd) H0 Hlt. cbn [triedge_scan].
  fold u. fold nxte. rewrite Hh. fold u in Hp, Hw, Hd. rewrite Hp.
  apply Nat.eqb_neq in Hw. rewrite Hw.
  assert (Hd' : (degree (gr st) u <? 2)%nat = false) by (apply Nat.ltb_ge; exact Hd).
  rewrite Hd'.
  assert (H0' : (pre st u <? 0) = false) by (apply Z.ltb_ge; exact H0).
  rewrite H0'. unfold back_edge.
  apply Z.ltb_lt in Hlt. rewrite Hlt.
  destruct (pre st u <? lowpt st w) eqn:Hl.
  - destruct (AbsorbPath (gr st) (sigma st) Pw) as [[[G' s'] P']| |]; reflexivity.
  - reflexivity.
Qed.

Lemma outgoing_back_edge_step_witness :
  triedge_scan 1 st_K4 2%nat (Some 1%nat) [2%nat] [] (Some 1%nat) =
  do (G', s', _) <- AbsorbPath G_K4 sigma_id [2%nat];
  triedge_scan 0
    (mkState G' s' (pre st_K4) 3 (upd (lowpt st_K4) 2%nat 0) (father st_K4))
    2%nat (Some 1%nat) [2%nat] [] (Some 3%nat).
Proof.
  apply (outgoing_back_edge_step 0 st_K4 2%nat (Some 1%nat) [2%nat] [] 1%nat).
  - repeat split; vm_compute; try discriminate; auto; lia.
  - vm_compute. discriminate.
  - vm_compute. reflexivity.
Defined.

(** C2.  The self-loop case of the loop of [triedge_dfs] on [G_loop_K4]
    from the root 0: the first edge of 0 is the self-loop; it is hidden and
    the call returns at once.  The three other edges of 0 stay in its
    adjacency list and their far ends are never numbered. *)
Theorem self_loop_ends_the_scan :
  exists st',
    triedge_dfs 100 (init_state G_loop_K4) 0%nat None [] = Ret (st', [0%nat])
    /\ is_hidden (gr st') 0%nat = true
    /\ adj (gr st') 0%nat = [1; 2; 3]%nat
    /\ pre st' 1%nat = -1 /\ pre st' 2%nat = -1 /\ pre st' 3%nat = -1.
Proof.
  eexists. split; [vm_compute; reflexivity|].
  repeat split; vm_compute; reflexivity.
Qed.

(** ** The partition kept by the [sigma] lists *)

Section Partition.

Variable V : list node.
Hypothesis V_nodup : NoDup V.

Lemma flat_map_ext_in (f g : node -> path) (l : list node) :
  (forall x, In x l -> f x = g x) -> flat_map f l = flat_map g l.
Proof.
  induction l as [|a l IH]; intros H; simpl; auto.
  rewrite (H a (or_introl eq_refl)), IH; auto.
  intros x Hx. apply H. now right.
Qed.

Lemma split_two (a b : node) :
  In a V -> In b V -> a <> b ->
  exists V', Permutation V (a :: b :: V') /\ ~ In a V' /\ ~ In b V'.
Proof.
  intros Ha Hb Hab.
  destruct (in_split _ _ Ha) as [l1 [l2 E]].
  assert (P1 : Permutation V (a :: l1 ++ l2))
    by (rewrite E; symmetry; apply Permutation_middle).
  assert (N1 : NoDup (a :: l1 ++ l2)) by (eapply Permutation_NoDup; eauto).
  assert (Hb1 : In b (l1 ++ l2)).
  { pose proof (Permutation_in _ P1 Hb) as [H|H]; [congruence|exact H]. }
  destruct (in_split _ _ Hb1) as [m1 [m2 E2]].
  assert (P2 : Permutation (l1 ++ l2) (b :: m1 ++ m2))
    by (rewrite E2; symmetry; apply Permutation_middle).
  exists (m1 ++ m2). split; [|split].
  - rewrite P1. now constructor.
  - inversion N1 as [|? ? Hn _]; subst. intros H. apply Hn.
    apply (Permutation_in _ (Permutation_sym P2)). now right.
  - inversion N1 as [|? ? _ Hn]; subst.
    pose proof (Permutation_NoDup P2 Hn) as N2.
    now inversion N2.
Qed.

Lemma sigma_conc_partition (sg : sigma_t) (a b : node) :
  In a V -> In b V -> a <> b ->
  sigma_partition V sg -> sigma_partition V (sigma_conc sg a b).
Proof.
  intros Ha Hb Hab Hp. unfold sigma_partition in *.
  destruct (split_two a b Ha Hb Hab) as [V' [PV [Na Nb]]].
  rewrite <- Hp at 2.
  rewrite (Permutation_flat_map (sigma_conc sg a b) PV).
  rewrite (Permutation_flat_map sg PV).
  simpl. unfold sigma_conc at 1 2.
  rewrite (upd_other _ _ _ _ Hab), !upd_same. simpl.
  rewrite <- app_assoc.
  rewrite (flat_map_ext_in (sigma_conc sg a b) sg V'); [reflexivity|].
  intros x Hx. unfold sigma_conc.
  rewrite !upd_other; auto; intros ->; contradiction.
Qed.

Lemma hide_edge_closed G e : ends_closed V G -> ends_closed V (hide_edge G e).
Proof. intros H e'. exact (H e'). Qed.

Lemma move_edge_closed G e u v :
  ends_closed V G -> In u V -> In v V -> ends_closed V (move_edge G e u v).
Proof.
  intros H Hu Hv e'. unfold source, target.
  destruct (Nat.eq_dec e' e) as [->|Hne].
  - now rewrite move_edge_ends_same.
  - rewrite (move_edge_ends_other _ _ _ _ _ Hne). exact (H e').
Qed.

Lemma opposite_closed G x e : ends_closed V G -> In (opposite G x e) V.
Proof. intros H. unfold opposite. destruct (Nat.eqb x (source G e)); apply H. Qed.

Lemma absorb_edges_closed fuel :
  forall G xi xm1 x0 e G',
    ends_closed V G -> In x0 V ->
    absorb_edges fuel G xi xm1 x0 e = Ret G' -> ends_closed V G'.
Proof.
  induction fuel as [|fuel IH]; intros G xi xm1 x0 [e|] G' HG Hx0 E;
    simpl in E; try discriminate; try (injection E as <-; exact HG).
  destruct (Nat.eqb (opposite G xi e) xm1 || Nat.eqb (opposite G xi e) x0).
  - destruct (is_hidden G e); [discriminate|].
    eapply IH; [| |exact E]; auto using hide_edge_closed.
  - destruct (Nat.eqb (source G e) (target G e)); [discriminate|].
    eapply IH; [| |exact E]; auto using move_edge_closed, opposite_closed.
Qed.

Lemma absorb2_edges_closed fuel :
  forall G xi xm1 x0 e G',
    ends_closed V G -> In x0 V ->
    absorb2_edges fuel G xi xm1 x0 e = Ret G' -> ends_closed V G'.
Proof.
  induction fuel as [|fuel IH]; intros G xi xm1 x0 [e|] G' HG Hx0 E;
    simpl in E; try discriminate; try (injection E as <-; exact HG).
  destruct (is_hidden G e); [discriminate|].
  destruct (Nat.eqb (opposite G xi e) xm1 || Nat.eqb (opposite G xi e) x0).
  - eapply IH; [| |exact E]; auto using hide_edge_closed.
  - destruct (Nat.eqb (source G e) (target G e)); [discriminate|].
    eapply IH; [| |exact E]; auto using move_edge_closed, opposite_closed.
Qed.

Lemma Pop_inv (P : path) x l : Pop P = Some (x, l) -> P = l ++ [x].
Proof.
  unfold Pop. destruct (rev P) as [|y r] eqn:E; [discriminate|].
  intros H. injection H as <- <-.
  rewrite <- (rev_involutive P), E. reflexivity.
Qed.

Lemma absorb_while_inv fuel :
  forall x0 G sg P xm1 G' sg' P',
    ends_closed V G -> sigma_partition V sg ->
    In x0 V -> incl P V -> In xm1 V ->
    absorb_while fuel x0 G sg P xm1 = Ret (G', sg', P') ->
    ends_closed V G' /\ sigma_partition V sg' /\ incl P' V.
Proof.
  induction fuel as [|fuel IH]; intros x0 G sg P xm1 G' sg' P' HG Hs Hx0 HP Hx E;
    cbn [absorb_while] in E;
    destruct (Nat.eqb_spec xm1 x0) as [Heq|Hne];
    try (injection E as <- <- <-; auto); try discriminate.
  destruct (Pop P) as [[xm1' P1]|] eqn:EP; [|discriminate].
  apply Pop_inv in EP. subst P.
  destruct (absorb_edges (S (degree G xm1)) G xm1 xm1' x0 (First_Inout_Edge G xm1))
    as [G1| |] eqn:E1; try discriminate.
  cbn [bind] in E.
  eapply (IH x0 G1 _ P1 xm1'); [| | | | |exact E]; auto.
  - exact (absorb_edges_closed _ _ _ _ _ _ _ HG Hx0 E1).
  - apply sigma_conc_partition; auto.
  - intros y Hy. apply HP. rewrite in_app_iff. now left.
  - apply HP. rewrite in_app_iff. right. now left.
Qed.

Lemma AbsorbPath_inv G sg P G' sg' P' :
  ends_closed V G -> sigma_partition V sg -> incl P V ->
  AbsorbPath G sg P = Ret (G', sg', P') ->
  ends_closed V G' /\ sigma_partition V sg' /\ incl P' V.
Proof.
  intros HG Hs HP E. unfold AbsorbPath in E.
  destruct P as [|x0 tl]; [injection E as <- <- <-; auto|].
  destruct (Pop (x0 :: tl)) as [[xm1 P1]|] eqn:EP; [|discriminate].
  apply Pop_inv in EP.
  assert (H1 : incl P1 V).
  { intros y Hy. apply HP. rewrite EP, in_app_iff. now left. }
  assert (H2 : In xm1 V).
  { apply HP. rewrite EP, in_app_iff. right. now left. }
  destruct P1 as [|p P1]; [injection E as <- <- <-; auto|].
  eapply absorb_while_inv; [| | | | |exact E]; auto.
  apply HP. now left.
Qed.

Lemma del_item_incl i : forall P : path, incl (del_item i P) P.
Proof.
  induction i as [|i IH]; intros [|x r]; simpl; try apply incl_refl.
  - apply incl_tl, incl_refl.
  - intros y [->|Hy]; [now left|right; now apply IH].
Qed.

Lemma del_item_length i : forall P : path,
    (i < length P)%nat -> length (del_item i P) = pred (length P).
Proof.
  induction i as [|i IH]; intros [|x r] H; simpl in *; try lia.
  rewrite IH by lia. destruct r; simpl in *; lia.
Qed.

Lemma find_back_bound P v : forall k i, find_back P v k = Some i -> (i < k)%nat.
Proof.
  induction k as [|k IH]; intros i H; simpl in H; [discriminate|].
  destruct (Nat.eqb (nth k P 0%nat) v).
  - injection H as <-. lia.
  - apply IH in H. lia.
Qed.

Lemma absorb2_while_inv fuel :
  forall x0 G sg P i xm1 G' sg' P',
    ends_closed V G -> sigma_partition V sg ->
    In x0 V -> incl P V -> In xm1 V -> (i < length P)%nat ->
    absorb2_while fuel x0 x0 G sg P i xm1 = Ret (G', sg', P') ->
    ends_closed V G' /\ sigma_partition V sg' /\ incl P' V.
Proof.
  induction fuel as [|fuel IH]; intros x0 G sg P i xm1 G' sg' P' HG Hs Hx0 HP Hx Hi E;
    cbn [absorb2_while] in E;
    destruct (Nat.eqb_spec xm1 x0) as [Heq|Hne];
    try (injection E as <- <- <-; auto); try discriminate.
  destruct i as [|j]; [injection E as <- <- <-; auto|].
  destruct (absorb2_edges (S (degree G xm1)) G xm1 (nth j P 0%nat) x0
                          (First_Inout_Edge G xm1)) as [G1| |] eqn:E1; try discriminate.
  cbn [bind] in E.
  eapply (IH x0 G1 _ _ j (nth j P 0%nat)); [| | | | | |exact E]; auto.
  - exact (absorb2_edges_closed _ _ _ _ _ _ _ HG Hx0 E1).
  - apply sigma_conc_partition; auto.
  - intros y Hy. apply HP. eapply del_item_incl; eauto.
  - apply HP. apply nth_In. lia.
  - rewrite del_item_length by lia. lia.
Qed.

Lemma AbsorbPath2_inv G sg P u v G' sg' P' :
  ends_closed V G -> sigma_partition V sg -> incl P V ->
  AbsorbPath2 G sg P u v = Ret (G', sg', P') ->
  ends_closed V G' /\ sigma_partition V sg' /\ incl P' V.
Proof.
  intros HG Hs HP E. unfold AbsorbPath2 in E.
  destruct P as [|x0 tl]; [injection E as <- <- <-; auto|].
  destruct (Nat.eqb_spec x0 u) as [->|Hne]; [|discriminate]. cbn [negb] in E.
  destruct (find_back (u :: tl) v (length (u :: tl))) as [i|] eqn:Ef;
    [|injection E as <- <- <-; auto].
  apply find_back_bound in Ef.
  eapply absorb2_while_inv; [| | | | | |exact E]; auto.
  - apply HP. now left.
  - apply HP. apply nth_In. exact Ef.
Qed.

Lemma contract_deg2_inv G w u ewu Pu G' Pu' :
  ends_closed V G -> In w V -> incl Pu V ->
  contract_deg2 G w u ewu Pu = Ret (G', Pu') ->
  ends_closed V G' /\ incl Pu' V.
Proof.
  intros HG Hw HP E. unfold contract_deg2 in E.
  destruct (first_adj_edge (hide_edge G ewu) u) as [euz|]; [|discriminate].
  destruct (Nat.eqb u (opposite (hide_edge G ewu) u euz)); [discriminate|].
  destruct Pu as [|x Pu0]; [discriminate|].
  destruct (negb (Nat.eqb x u)); [discriminate|].
  injection E as <- <-. split.
  - apply move_edge_closed; auto using hide_edge_closed, opposite_closed.
  - intros y Hy. apply HP. now right.
Qed.

Ltac inv_done :=
  unfold dfs_inv; simpl gr; simpl sigma;
  repeat match goal with
         | |- _ /\ _ => split
         end; auto using incl_nil_l.

Lemma absorb_or_extend_inv st w u Pw Pu st' Pw' Pu' :
  dfs_inv V st -> In w V -> incl Pw V -> incl Pu V ->
  absorb_or_extend st w u Pw Pu = Ret (st', Pw', Pu') ->
  dfs_inv V st' /\ incl Pw' V /\ incl Pu' V.
Proof.
  intros [HG Hs] Hw HPw HPu E. unfold absorb_or_extend in E.
  destruct (lowpt st w <=? lowpt st u).
  - destruct (AbsorbPath (gr st) (sigma st) (w :: Pu)) as [[[G1 s1] P1]| |] eqn:EA;
      try discriminate.
    cbn [bind] in E. destruct P1; [|discriminate]. injection E as <- <- <-.
    apply AbsorbPath_inv in EA; auto.
    + destruct EA as (H1 & H2 & H3). inv_done.
    + intros y [<-|Hy]; auto.
  - destruct (AbsorbPath (gr (set_lowpt st w (lowpt st u)))
                         (sigma (set_lowpt st w (lowpt st u))) Pw)
      as [[[G1 s1] P1]| |] eqn:EA; try discriminate.
    cbn [bind] in E. destruct P1; [|discriminate]. injection E as <- <- <-.
    apply AbsorbPath_inv in EA; auto.
    destruct EA as (H1 & H2 & H3). inv_done.
    intros y [<-|Hy]; auto.
Qed.

Lemma back_edge_inv st w u Pw st' Pw' :
  dfs_inv V st -> In w V -> incl Pw V ->
  back_edge st w u Pw = Ret (st', Pw') ->
  dfs_inv V st' /\ incl Pw' V.
Proof.
  intros [HG Hs] Hw HPw E. unfold back_edge in E.
  destruct (pre st u <? pre st w).
  - destruct (pre st u <? lowpt st w).
    + destruct (AbsorbPath (gr st) (sigma st) Pw) as [[[G1 s1] P1]| |] eqn:EA;
        try discriminate.
      cbn [bind] in E. injection E as <- <-.
      apply AbsorbPath_inv in EA; auto.
      destruct EA as (H1 & H2 & H3). inv_done.
      intros y [<-|[]]; auto.
    + injection E as <- <-. inv_done.
  - destruct (pre st u >? pre st w).
    + destruct (AbsorbPath2 (gr st) (sigma st) Pw w u) as [[[G1 s1] P1]| |] eqn:EA;
        try discriminate.
      cbn [bind] in E.
      apply AbsorbPath2_inv in EA; auto.
      destruct EA as (H1 & H2 & H3).
      destruct (pre (set_gr_sigma st G1 s1) u <? lowpt (set_gr_sigma st G1 s1) w);
        injection E as <- <-; inv_done.
    + cbn [bind] in E.
      destruct (pre st u <? lowpt st w); injection E as <- <-; inv_done.
Qed.

Lemma triedge_scan_inv fuel :
  forall st w v Pw Pu ewu st' Pw',
    dfs_inv V st -> In w V -> incl Pw V -> incl Pu V ->
    triedge_scan fuel st w v Pw Pu ewu = Ret (st', Pw') ->
    dfs_inv V st' /\ incl Pw' V.
Proof.
  induction fuel as [|fuel IH]; intros st w v Pw Pu [e|] st' Pw' HI Hw HPw HPu E;
    cbn [triedge_scan] in E; try discriminate;
    try (injection E as <- <-; now split).
  destruct (is_hidden (gr st) e); [exact (IH _ _ _ _ _ _ _ _ HI Hw HPw HPu E)|].
  destruct (is_parent (opposite (gr st) w e) v); [exact (IH _ _ _ _ _ _ _ _ HI Hw HPw HPu E)|].
  destruct (Nat.eqb (opposite (gr st) w e) w).
  { injection E as <- <-. destruct HI as [HG Hs]. inv_done. }
  destruct (degree (gr st) (opposite (gr st) w e) <? 2)%nat; [exact (IH _ _ _ _ _ _ _ _ HI Hw HPw HPu E)|].
  assert (Hu : In (opposite (gr st) w e) V) by (apply opposite_closed, HI).
  remember (opposite (gr st) w e) as u eqn:Eu.
  destruct (pre st u <? 0).
  - destruct (triedge_scan fuel (dfs_enter st u (Some w)) u (Some w) (u :: Pu) []
                           (First_Inout_Edge (gr st) u)) as [[st1 Pu1]| |] eqn:E1;
      try discriminate.
    cbn [bind] in E.
    apply IH in E1; auto.
    2:{ intros y [<-|Hy]; auto. }
    2:{ intros y []. }
    destruct E1 as [[HG1 Hs1] HP1].
    destruct (if (degree (gr st1) u =? 2)%nat
              then contract_deg2 (gr st1) w u e Pu1
              else Ret (gr st1, Pu1)) as [[G2 Pu2]| |] eqn:E2; try discriminate.
    cbn [bind] in E.
    assert (H2 : ends_closed V G2 /\ incl Pu2 V).
    { destruct (degree (gr st1) u =? 2)%nat.
      - exact (contract_deg2_inv _ _ _ _ _ _ _ HG1 Hw HP1 E2).
      - injection E2 as <- <-. auto. }
    destruct H2 as [HG2 HP2].
    destruct (absorb_or_extend (set_gr st1 G2) w u Pw Pu2) as [[[st3 Pw3] Pu3]| |] eqn:E3;
      try discriminate.
    cbn [bind] in E.
    apply absorb_or_extend_inv in E3; auto.
    2:{ split; auto. }
    destruct E3 as (HI3 & HPw3 & HPu3).
    exact (IH _ _ _ _ _ _ _ _ HI3 Hw HPw3 HPu3 E).
  - destruct (back_edge st w u Pw) as [[st1 Pw1]| |] eqn:E1; try discriminate.
    cbn [bind] in E.
    apply back_edge_inv in E1; auto.
    destruct E1 as [HI1 HP1].
    exact (IH _ _ _ _ _ _ _ _ HI1 Hw HP1 HPu E).
Qed.

Lemma triedge_dfs_inv fuel st w v Pw st' Pw' :
  dfs_inv V st -> In w V -> incl Pw V ->
  triedge_dfs fuel st w v Pw = Ret (st', Pw') ->
  dfs_inv V st' /\ incl Pw' V.
Proof.
  intros HI Hw HP E. unfold triedge_dfs in E.
  eapply triedge_scan_inv; [| | | |exact E]; auto using incl_nil_l.
  intros y [<-|Hy]; auto.
Qed.

Lemma NoDup_app_disjoint (l l' : list node) (y : node) :
  NoDup (l ++ l') -> In y l -> ~ In y l'.
Proof.
  intros N Hy Hy'. destruct (in_split _ _ Hy') as [m1 [m2 ->]].
  rewrite app_assoc in N. apply NoDup_remove_2 in N.
  apply N. rewrite !in_app_iff. auto.
Qed.

Lemma flat_map_unique (f : node -> path) (y : node) :
  forall l x1 x2,
    NoDup (flat_map f l) -> In x1 l -> In x2 l ->
    In y (f x1) -> In y (f x2) -> x1 = x2.
Proof.
  induction l as [|a l IH]; intros x1 x2 N H1 H2 Y1 Y2; [destruct H1|].
  simpl in N. pose proof (NoDup_app_remove_l _ _ N) as Nl.
  assert (Hd : forall x, In x l -> In y (f x) -> ~ In y (f a)).
  { intros x Hx Hy Ha. apply (NoDup_app_disjoint _ _ y N Ha).
    apply in_flat_map. eauto. }
  destruct H1 as [<-|H1], H2 as [<-|H2]; eauto.
  - exfalso. exact (Hd _ H2 Y2 Y1).
  - exfalso. exact (Hd _ H1 Y1 Y2).
Qed.

Lemma partition_exactly_one (sg : sigma_t) :
  sigma_partition V sg -> in_exactly_one V sg.
Proof.
  intros Hp y Hy. unfold sigma_partition in Hp.
  assert (N : NoDup (flat_map sg V))
    by (apply (Permutation_NoDup (Permutation_sym Hp)); exact V_nodup).
  pose proof (Permutation_in _ (Permutation_sym Hp) Hy) as Hin.
  apply in_flat_map in Hin. destruct Hin as [x [Hx Hyx]].
  exists x. split; [now split|].
  intros x' [Hx' Hyx']. eapply flat_map_unique; eauto.
Qed.

End Partition.

Lemma init_sigma_fold (l : list node) :
  forall s0 : sigma_t, NoDup l ->
    forall x, fold_left (fun s n => upd s n (n :: s n)) l s0 x
              = if in_dec Nat.eq_dec x l then x :: s0 x else s0 x.
Proof.
  induction l as [|a l IH]; intros s0 N x; simpl; auto.
  inversion N as [|? ? Ha Nl]; subst. rewrite (IH _ Nl).
  destruct (in_dec Nat.eq_dec x l) as [Hx|Hx];
    destruct (Nat.eq_dec a x) as [->|Hne]; try contradiction.
  - rewrite upd_other; auto.
  - apply upd_same.
  - rewrite upd_other; auto.
Qed.

Lemma init_sigma_partition (H : graph) :
  NoDup (all_nodes H) -> sigma_partition (all_nodes H) (init_sigma H).
Proof.
  intros N. unfold sigma_partition, init_sigma.
  rewrite (flat_map_ext_in _ (fun x => [x])).
  - clear N. induction (all_nodes H) as [|a l IH]; simpl;
      [apply perm_nil|apply perm_skip, IH].
  - intros x Hx. rewrite (init_sigma_fold _ _ N).
    destruct (in_dec Nat.eq_dec x (all_nodes H)); [reflexivity|contradiction].
Qed.

Lemma G_K4_closed : ends_closed (all_nodes G_K4) G_K4.
Proof.
  unfold ends_closed. intros e.
  do 6 (destruct e as [|e]; [vm_compute; now intuition|]). vm_compute. now intuition.
Qed.

(** ** Stripping of pendant edges *)

Lemma filter_length_le {A} (f g : A -> bool) (l : list A) :
  (forall x, g x = true -> f x = true) ->
  (length (filter g l) <= length (filter f l))%nat.
Proof.
  intros H. induction l as [|a l IH]; simpl; auto.
  destruct (g a) eqn:Eg.
  - rewrite (H a Eg). simpl. lia.
  - destruct (f a); simpl; lia.
Qed.

Lemma filter_length_lt {A} (f g : A -> bool) (l : list A) (x : A) :
  (forall y, g y = true -> f y = true) ->
  In x l -> f x = true -> g x = false ->
  (length (filter g l) < length (filter f l))%nat.
Proof.
  intros H. induction l as [|a l IH]; simpl; [contradiction|].
  intros [->|Hin] Hf Hg.
  - rewrite Hf, Hg. simpl. pose proof (filter_length_le f g l H). lia.
  - specialize (IH Hin Hf Hg). destruct (g a) eqn:Eg.
    + rewrite (H a Eg). simpl. lia.
    + destruct (f a); simpl; lia.
Qed.

Lemma hide_edge_count G e :
  hidden G e = false -> In e (edge_list G) ->
  (number_of_edges (hide_edge G e) < number_of_edges G)%nat.
Proof.
  intros Hv Hl. unfold number_of_edges, edges. cbn [hide_edge hidden edge_list].
  apply (filter_length_lt _ _ _ e); auto.
  - intros y. unfold upd. destruct (Nat.eqb y e); [discriminate|auto].
  - now rewrite Hv.
  - now rewrite upd_same.
Qed.

Lemma edges_hide_edge G e x :
  In x (edges (hide_edge G e)) <-> In x (edges G) /\ x <> e.
Proof.
  unfold edges. cbn [hide_edge edge_list hidden]. rewrite !filter_In. unfold upd.
  destruct (Nat.eqb_spec x e) as [->|Hne]; simpl; intuition congruence.
Qed.

Lemma hide_edge_closed_graph G e :
  wf_graph G -> closed_graph G -> closed_graph (hide_edge G e).
Proof.
  intros W C. constructor.
  - intros x Hx. apply edges_hide_edge in Hx. destruct Hx as [Hx Hne].
    rewrite !adj_hide_edge by assumption. rewrite !In_remove_edge.
    destruct (cl_adj _ C x Hx). auto.
  - intros x Hx. apply edges_hide_edge in Hx. destruct Hx as [Hx Hne].
    exact (cl_nodes _ C x Hx).
  - exact (cl_nodup _ C).
Qed.

Lemma stripped_refl G d : wf_graph G -> stripped G d G d.
Proof.
  intros W. constructor; auto.
  intros e. split; [now left|]. intros [H|[H1 H2]]; [exact H|congruence].
Qed.

Lemma stripped_trans G d G1 d1 G2 d2 :
  stripped G d G1 d1 -> stripped G1 d1 G2 d2 -> stripped G d G2 d2.
Proof.
  intros A B. constructor.
  - exact (st_wf _ _ _ _ B).
  - rewrite (st_nodes _ _ _ _ B). exact (st_nodes _ _ _ _ A).
  - rewrite (st_list _ _ _ _ B). exact (st_list _ _ _ _ A).
  - intros e H. apply (st_mono _ _ _ _ B), (st_mono _ _ _ _ A), H.
  - intros e. rewrite (st_rec _ _ _ _ B), (st_rec _ _ _ _ A).
    pose proof (st_mono _ _ _ _ A e) as MA. pose proof (st_mono _ _ _ _ B e) as MB.
    destruct (hidden G e), (hidden G1 e), (hidden G2 e); intuition congruence.
  - pose proof (st_count _ _ _ _ A). pose proof (st_count _ _ _ _ B). lia.
  - intros C. apply (st_closed _ _ _ _ B), (st_closed _ _ _ _ A), C.
Qed.

Lemma stripped_hide G d e :
  wf_graph G -> hidden G e = false -> In e (edge_list G) ->
  stripped G d (hide_edge G e) (e :: d).
Proof.
  intros W Hv Hl. constructor; auto using hide_edge_wf.
  - intros x Hx. cbn [hide_edge hidden]. unfold upd. destruct (Nat.eqb x e); auto.
  - intros x. cbn [hide_edge hidden]. simpl In.
    destruct (Nat.eq_dec x e) as [->|Hne].
    + rewrite upd_same. intuition.
    + rewrite (upd_other _ _ _ _ Hne).
      split; [intros [H|H]; [congruence|now left]|].
      intros [H|[H1 H2]]; [now right|congruence].
  - pose proof (hide_edge_count G e Hv Hl). lia.
  - now apply hide_edge_closed_graph.
Qed.

(** One step of a pass on a well-formed graph: a vertex of degree one loses
    its only edge, which is recorded; any other vertex changes nothing. *)
Lemma pendant_step_cases G d b n :
  wf_graph G ->
  (degree G n = 1%nat /\
   exists e, adj G n = [e] /\ hidden G e = false /\ In e (edge_list G) /\
             pendant_step (G, d, b) n = (hide_edge G e, e :: d, true))
  \/ (degree G n <> 1%nat /\ pendant_step (G, d, b) n = (G, d, b)).
Proof.
  intros W. unfold pendant_step, degree, first_adj_edge, is_hidden.
  destruct (Nat.eqb_spec (length (adj G n)) 1) as [E|E]; [left|right; auto].
  split; auto. destruct (adj G n) as [|e [|e' r]] eqn:Ea; try discriminate.
  assert (Hin : In e (adj G n)) by (rewrite Ea; now left).
  exists e. simpl. rewrite (wf_vis _ W _ _ Hin).
  repeat split; auto. exact (wf_listed _ W _ _ Hin).
Qed.

Lemma pendant_fold_stripped (l : list node) :
  forall G d b G' d' b',
    wf_graph G ->
    fold_left pendant_step l (G, d, b) = (G', d', b') ->
    stripped G d G' d'
    /\ (b' = false -> b = false /\ G' = G /\ d' = d
                     /\ forall n, In n l -> degree G n <> 1%nat)
    /\ (b' = true -> b = true \/ (number_of_edges G' < number_of_edges G)%nat).
Proof.
  induction l as [|n l IH]; intros G d b G' d' b' W E; cbn [fold_left] in E.
  - injection E as <- <- <-. split; [now apply stripped_refl|].
    split; [intros ->; repeat split; auto; intros n []|auto].
  - destruct (pendant_step_cases G d b n W) as [[Hd [e (Ea & Hv & Hl & Es)]]|[Hd Es]];
      rewrite Es in E.
    + pose proof (stripped_hide G d e W Hv Hl) as S1.
      apply IH in E; [|exact (st_wf _ _ _ _ S1)].
      destruct E as (S2 & F & T).
      split; [exact (stripped_trans _ _ _ _ _ _ S1 S2)|].
      split.
      * intros Hb. destruct (F Hb) as [Hc _]. discriminate.
      * intros _. right. pose proof (st_count _ _ _ _ S2).
        pose proof (hide_edge_count G e Hv Hl). lia.
    + apply IH in E; [|exact W]. destruct E as (S2 & F & T).
      split; [exact S2|]. split; [|exact T].
      intros Hb. destruct (F Hb) as (-> & -> & -> & Hn).
      repeat split; auto. intros m [<-|Hm]; auto.
Qed.

Lemma strip_pendants_returns fuel :
  forall G d,
    wf_graph G -> (number_of_edges G <= fuel)%nat ->
    exists G' d',
      strip_pendants fuel G d = Ret (G', d')
      /\ stripped G d G' d'
      /\ forall n, In n (all_nodes G') -> degree G' n <> 1%nat.
Proof.
  induction fuel as [|fuel IH]; intros G d W Hf.
  - cbn [strip_pendants]. unfold pendant_pass.
    destruct (fold_left pendant_step (all_nodes G) (G, d, false)) as [[G' d'] b'] eqn:E.
    destruct (pendant_fold_stripped _ _ _ _ _ _ _ W E) as (S1 & F & T).
    destruct b'.
    + destruct (T eq_refl) as [H|H]; [discriminate|lia].
    + destruct (F eq_refl) as (_ & -> & -> & Hn). exists G, d. auto.
  - cbn [strip_pendants]. unfold pendant_pass.
    destruct (fold_left pendant_step (all_nodes G) (G, d, false)) as [[G' d'] b'] eqn:E.
    destruct (pendant_fold_stripped _ _ _ _ _ _ _ W E) as (S1 & F & T).
    destruct b'.
    + destruct (T eq_refl) as [H|H]; [discriminate|].
      destruct (IH G' d' (st_wf _ _ _ _ S1)) as [G2 [d2 (E2 & S2 & N2)]]; [lia|].
      exists G2, d2. split; [exact E2|]. split; [|exact N2].
      exact (stripped_trans _ _ _ _ _ _ S1 S2).
    + destruct (F eq_refl) as (_ & -> & -> & Hn). exists G, d. auto.
Qed.

(** C6.  The pendant-stripping phase of [split_graph], run on the graph
    [G] in which the bridges are hidden: the loop of whole passes over all
    vertices returns; no vertex of the resulting graph has degree one; the
    list [deg1edges] holds exactly the edges that were visible before the
    phase and are hidden after it; the vertices of the graph are unchanged.
    Each step of a pass hides and records the only edge of a vertex whose
    degree is one at that moment and leaves any other vertex alone. *)
Theorem strip_pendants_spec (G : graph) :
  wf_graph G ->
  (forall d b n,
      (degree G n = 1%nat /\
       exists e, adj G n = [e] /\
                 pendant_step (G, d, b) n = (hide_edge G e, e :: d, true))
      \/ (degree G n <> 1%nat /\ pendant_step (G, d, b) n = (G, d, b)))
  /\ exists G' deg1edges,
      strip_pendants (number_of_edges G) G [] = Ret (G', deg1edges)
      /\ all_nodes G' = all_nodes G
      /\ (forall n, In n (all_nodes G') -> degree G' n <> 1%nat)
      /\ (forall e, In e deg1edges <-> hidden G e = false /\ hidden G' e = true).
Proof.
  intros W. split.
  - intros d b n.
    destruct (pendant_step_cases G d b n W) as [[Hd [e (Ea & _ & _ & Es)]]|H]; eauto.
  - destruct (strip_pendants_returns (number_of_edges G) G [] W (le_n _))
      as [G' [d' (E & S1 & N)]].
    exists G', d'. repeat split; auto.
    + exact (st_nodes _ _ _ _ S1).
    + apply (st_rec _ _ _ _ S1) in H. destruct H as [[]|[H _]]; exact H.
    + apply (st_rec _ _ _ _ S1) in H. destruct H as [[]|[_ H]]; exact H.
    + intros [H1 H2]. apply (st_rec _ _ _ _ S1). now right.
Qed.

Lemma strip_pendants_spec_witness :
  exists G' deg1edges,
    strip_pendants (number_of_edges G_path4) G_path4 [] = Ret (G', deg1edges)
    /\ all_nodes G' = all_nodes G_path4
    /\ (forall n, In n (all_nodes G') -> degree G' n <> 1%nat)
    /\ (forall e, In e deg1edges <->
                  hidden G_path4 e = false /\ hidden G' e = true).
Proof.
  exact (proj2 (strip_pendants_spec G_path4 (proj1 G_path4_wf))).
Defined.

(** ** The reader *)


Lemma make_nodes_spec n :
  forall G (AA : list (option node)) m,
    all_nodes G = seq 0 m -> AA = map Some (seq 0 m) ->
    all_nodes (fst (make_nodes n G AA)) = seq 0 (m + n)
    /\ snd (make_nodes n G AA) = map Some (seq 0 (m + n)) ++ [None]
    /\ edge_list (fst (make_nodes n G AA)) = edge_list G
    /\ adj (fst (make_nodes n G AA)) = adj G
    /\ hidden (fst (make_nodes n G AA)) = hidden G
    /\ ends (fst (make_nodes n G AA)) = ends G.
Proof.
  induction n as [|n IH]; intros G AA m HG HA.
  - simpl. rewrite Nat.add_0_r. subst AA. repeat split; auto.
  - cbn [make_nodes new_node].
    match goal with
    | |- context [make_nodes n ?G1 ?AA1] =>
      destruct (IH G1 AA1 (S m)) as (H1 & H2 & H3 & H4 & H5 & H6)
    end.
    + cbn [all_nodes]. rewrite HG, length_seq. symmetry. apply seq_S.
    + subst AA. rewrite HG, length_seq, seq_S, map_app. reflexivity.
    + rewrite Nat.add_succ_r. simpl in H1, H2. repeat split; auto.
Qed.

Lemma AA_get_filled (n : nat) (v : Z) :
  0 <= v <= Z.of_nat n - 1 ->
  AA_get (map Some (seq 0 n) ++ [None]) v = Some (vertex_of 0 v).
Proof.
  intros H. unfold AA_get, vertex_of.
  destruct (Z.ltb_spec v 0); [lia|]. rewrite Z.sub_0_r.
  rewrite app_nth1 by (rewrite length_map, length_seq; lia).
  rewrite (nth_indep _ None (Some 0%nat)) by (rewrite length_map, length_seq; lia).
  rewrite map_nth, seq_nth by lia. reflexivity.
Qed.

Lemma line_incident_app base done p x k :
  (k < length done)%nat ->
  line_incident base (done ++ [p]) x k = line_incident base done x k.
Proof.
  intros H. unfold line_incident. now rewrite nth_error_app1.
Qed.

Lemma filter_ext_seq (f g : nat -> bool) (k : nat) :
  (forall j, (j < k)%nat -> f j = g j) -> filter f (seq 0 k) = filter g (seq 0 k).
Proof.
  intros H. apply filter_ext_in. intros j Hj. apply in_seq in Hj. apply H. lia.
Qed.

Lemma denotes_new_edge (n : nat) (done : list (Z * Z)) (v w : Z) (G : graph) :
  denotes 0 n done G ->
  denotes 0 n (done ++ [(v, w)]) (new_edge G (vertex_of 0 v) (vertex_of 0 w)).
Proof.
  intros D.
  assert (Hlen : length (edge_list G) = length done)
    by (rewrite (dn_edges _ _ _ _ D); apply length_seq).
  constructor.
  - exact (dn_nodes _ _ _ _ D).
  - cbn [new_edge edge_list]. rewrite Hlen, (dn_edges _ _ _ _ D), length_app.
    simpl. rewrite Nat.add_1_r. symmetry. apply seq_S.
  - intros k Hk. cbn [new_edge hidden]. rewrite Hlen. unfold upd.
    destruct (Nat.eqb_spec k (length done)); auto.
    apply (dn_visible _ _ _ _ D). rewrite length_app in Hk. simpl in Hk. lia.
  - intros k v' w' Hk. cbn [new_edge ends]. rewrite Hlen. unfold upd.
    destruct (Nat.eqb_spec k (length done)) as [->|Hne].
    + rewrite nth_error_app2, Nat.sub_diag in Hk by lia. simpl in Hk.
      now injection Hk as <- <-.
    + apply (dn_ends _ _ _ _ D).
      assert (Hlt : (k < length (done ++ [(v, w)]))%nat)
        by (apply nth_error_Some; congruence).
      rewrite length_app in Hlt. simpl in Hlt.
      rewrite nth_error_app1 in Hk by lia. exact Hk.
  - intros x. rewrite adj_new_edge, Hlen, (dn_adj _ _ _ _ D).
    rewrite length_app. simpl length. rewrite Nat.add_1_r, seq_S, filter_app.
    simpl seq. f_equal.
    + apply filter_ext_seq. intros j Hj. symmetry. now apply line_incident_app.
    + simpl filter. unfold line_incident at 1.
      rewrite nth_error_app2, Nat.sub_diag by lia. reflexivity.
Qed.

Lemma read_edges_spec (n : nat) (rest : list (Z * Z)) :
  forall done G extra v0 w0,
    denotes 0 n done G -> in_range 0 (Z.of_nat n - 1) rest ->
    exists G',
      read_edges (length rest) (flatten rest ++ extra) v0 w0
                 (map Some (seq 0 n) ++ [None]) G = Some G'
      /\ denotes 0 n (done ++ rest) G'.
Proof.
  induction rest as [|[v w] rest IH]; intros done G extra v0 w0 D R.
  - exists G. rewrite app_nil_r. auto.
  - destruct (R v w (or_introl eq_refl)) as [Hv Hw].
    cbn [length read_edges extract_pair flatten flat_map fst snd app].
    rewrite (AA_get_filled n v Hv), (AA_get_filled n w Hw).
    destruct (IH (done ++ [(v, w)]) (new_edge G (vertex_of 0 v) (vertex_of 0 w)) extra
                 (Some v) (Some w))
      as [G' [E D']].
    + now apply denotes_new_edge.
    + intros a b Hab. apply R. now right.
    + exists G'. split; [exact E|]. now rewrite <- app_assoc in D'.
Qed.

(** C3, as the program has it.  The vertex numbers of the text are the
    indices into the table [AA], whose cells [0 .. N-1] hold the [N]
    vertices: for every text with header [N M ...] and [M] edge lines
    [v w] with [0 <= v, w <= N-1], [read_dim] builds the graph with exactly
    [N] vertices and, for each line in turn, one edge that joins the vertex
    created at position [v] with the vertex created at position [w]. *)
Theorem read_dim_zero_based
        (n : nat) (pairs : list (Z * Z)) (rest_header rest_body : list Z) :
  in_range 0 (Z.of_nat n - 1) pairs ->
  exists G, read_dim (dim_text n pairs rest_header rest_body) = Some G
            /\ denotes 0 n pairs G.
Proof.
  intros R. unfold read_dim, dim_text. cbn [header body].
  destruct (Z.ltb_spec (Z.of_nat n) 0); [lia|].
  rewrite !Nat2Z.id.
  pose proof (make_nodes_spec n empty_graph (@nil (option node)) 0 eq_refl eq_refl)
    as HS.
  destruct (make_nodes n empty_graph []) as [G0 AA] eqn:EM. cbn [fst snd] in HS.
  destruct HS as (H1 & H2 & H3 & H4 & H5 & H6).
  simpl in H1, H2. subst AA.
  destruct (read_edges_spec n pairs [] G0 rest_body None None) as [G [E D]]; auto.
  - constructor; auto.
    + intros k Hk. simpl in Hk. lia.
    + intros k v w Hk. destruct k; discriminate.
    + intros x. now rewrite H4.
  - exists G. auto.
Qed.

Lemma read_dim_zero_based_witness :
  exists G, read_dim (dim_text 3 [(0, 1); (1, 2)] [] []) = Some G
            /\ denotes 0 3 [(0, 1); (1, 2)] G.
Proof.
  apply read_dim_zero_based.
  intros v w [H|[H|[]]]; injection H as <- <-; simpl; lia.
Defined.

(** C3, as the design document has it (vertex numbers [1 .. N]), fails:
    for the text [2 1 / 1 2] the second endpoint is read from the cell
    [AA[2]], which holds no vertex, and no graph with an edge between the
    first and the second vertex results. *)
Lemma read_dim_one_based_fails :
  in_range 1 2 [(1, 2)]
  /\ ~ (exists G, read_dim (dim_text 2 [(1, 2)] [] []) = Some G
                  /\ denotes 1 2 [(1, 2)] G).
Proof.
  split.
  - intros v w [H|[]]. injection H as <- <-. lia.
  - intros [G [E _]]. vm_compute in E. discriminate.
Qed.

(** ** Walks, simple paths and bridges *)

Section Walks.

Variable G : graph.

Lemma joins_sym e x y : joins G e x y -> joins G e y x.
Proof. unfold joins. tauto. Qed.

Lemma reach_trans ok x y z : reach G ok x y -> reach G ok y z -> reach G ok x z.
Proof.
  induction 1 as [x|x y' z' e He Hok Hj _ IH]; intros Hz; auto.
  eapply reach_step; eauto.
Qed.

Lemma reach_sym ok x z : reach G ok x z -> reach G ok z x.
Proof.
  induction 1 as [x|x y z e He Hok Hj _ IH]; [constructor|].
  apply (reach_trans ok z y x IH).
  eapply reach_step; [exact He|exact Hok|apply joins_sym, Hj|constructor].
Qed.

Lemma reach_weaken (ok ok' : edge -> Prop) x z :
  (forall e, ok e -> ok' e) -> reach G ok x z -> reach G ok' x z.
Proof.
  intros H. induction 1 as [x|x y z e He Hok Hj _ IH]; [constructor|].
  eapply reach_step; eauto.
Qed.

Lemma trail_head x p vs z : trail G x p vs z -> exists vs', vs = x :: vs'.
Proof. destruct 1; eauto. Qed.

Lemma trail_edges x p vs z : trail G x p vs z -> forall e, In e p -> In e (edges G).
Proof.
  induction 1 as [x|x y z e p vs He Hj _ IH]; intros f Hf; [destruct Hf|].
  destruct Hf as [<-|Hf]; auto.
Qed.

Lemma trail_reach (ok : edge -> Prop) x p vs z :
  trail G x p vs z -> (forall e, In e p -> ok e) -> reach G ok x z.
Proof.
  induction 1 as [x|x y z e p vs He Hj _ IH]; intros Hok; [constructor|].
  eapply reach_step; [exact He| |exact Hj|].
  - apply Hok. now left.
  - apply IH. intros f Hf. apply Hok. now right.
Qed.

(** The part of a trail from a vertex it passes through. *)
Lemma trail_from x p vs z :
  trail G x p vs z ->
  forall y, In y vs ->
    exists p' vs0 vs',
      trail G y p' vs' z /\ incl p' p /\ vs = vs0 ++ vs'.
Proof.
  induction 1 as [x|x y' z e p vs He Hj Ht IH]; intros y Hy.
  - destruct Hy as [<-|[]]. exists [], [], [x]. repeat split.
    + constructor.
    + apply incl_refl.
  - destruct (Nat.eq_dec x y) as [<-|Hne].
    + exists (e :: p), [], (x :: vs). repeat split.
      * econstructor; eauto.
      * apply incl_refl.
    + destruct Hy as [Hy|Hy]; [contradiction|].
      destruct (IH y Hy) as (p' & vs0 & vs' & T & I & E).
      exists p', (x :: vs0), vs'. repeat split; auto.
      * now apply incl_tl.
      * simpl. now rewrite E.
Qed.

(** Every walk contains a path without repeated vertex. *)
Lemma reach_simple (ok : edge -> Prop) x z :
  reach G ok x z ->
  exists p vs, trail G x p vs z /\ NoDup vs /\ forall e, In e p -> ok e.
Proof.
  induction 1 as [x|x y z e He Hok Hj _ IH].
  - exists [], [x]. repeat split.
    + constructor.
    + constructor; [intros []|constructor].
    + intros e [].
  - destruct IH as (p & vs & T & N & O).
    destruct (in_dec Nat.eq_dec x vs) as [Hx|Hx].
    + destruct (trail_from _ _ _ _ T x Hx) as (p' & vs0 & vs' & T' & I & E).
      exists p', vs'. repeat split; auto.
      subst vs. now apply NoDup_app_remove_l in N.
    + exists (e :: p), (x :: vs). repeat split.
      * econstructor; eauto.
      * now constructor.
      * intros f [<-|Hf]; auto.
Qed.

(** With a detour around [e0], [e0] is not needed for connectivity. *)
Lemma detour e0 x z :
  connected_without G e0 (source G e0) (target G e0) ->
  connected G x z -> connected_without G e0 x z.
Proof.
  intros D. induction 1 as [x|x y z e He _ Hj _ IH]; [constructor|].
  destruct (Nat.eq_dec e e0) as [->|Hne].
  - apply (reach_trans _ x y z); [|exact IH].
    destruct Hj as [[<- <-]|[<- <-]]; [exact D|apply reach_sym, D].
  - eapply reach_step; eauto.
Qed.

(** An edge that is not a self-loop is a bridge exactly when it lies on no
    simple cycle with another edge. *)
Lemma bridge_iff_no_cycle e :
  In e (edges G) -> source G e <> target G e ->
  (is_bridge G e <-> forall f, ~ on_cycle G e f).
Proof.
  intros He Hl. split.
  - intros [_ (x & y & C & NC)] f (p & vs & T & N & Hne & Hf).
    apply NC. apply detour; [|exact C].
    apply (trail_reach _ _ _ _ _ T).
    intros e' He' ->. contradiction.
  - intros H. split; [exact He|].
    exists (source G e), (target G e). split.
    + eapply reach_step; [exact He|exact I|left; split; reflexivity|constructor].
    + intros R. destruct (reach_simple _ _ _ R) as (p & vs & T & N & O).
      destruct p as [|f p].
      * inversion T; subst. contradiction.
      * apply (H f). exists (f :: p), vs. repeat split; auto.
        -- intros Hin. exact (O e Hin eq_refl).
        -- now left.
Qed.

End Walks.

(** ** The bridges found by [split_graph] *)

Lemma incr_at_spec i : forall A,
    (i < length A)%nat ->
    exists A', incr_at i A = Some A' /\ length A' = length A
               /\ forall c, nth c A' 0%nat
                            = (nth c A 0 + if Nat.eqb c i then 1 else 0)%nat.
Proof.
  induction i as [|i IH]; intros [|a A] H; simpl in H; try lia.
  - exists (S a :: A). repeat split. intros [|c]; simpl; lia.
  - destruct (IH A) as (A' & E & L & N); [lia|].
    exists (a :: A'). simpl. rewrite E. repeat split; simpl; auto.
    intros [|c]; simpl; [lia|apply N].
Qed.

Lemma block_sizes_fold (ecomp : edge -> nat) (l : list edge) :
  forall A0,
    (forall e, In e l -> (ecomp e < length A0)%nat) ->
    exists A, foldM (fun A e => lift 139 (incr_at (ecomp e) A)) l A0 = Ret A
              /\ length A = length A0
              /\ forall c, nth c A 0%nat
                           = (nth c A0 0
                              + length (filter (fun e => Nat.eqb (ecomp e) c) l))%nat.
Proof.
  induction l as [|e l IH]; intros A0 H.
  - exists A0. repeat split. intros c. simpl. lia.
  - destruct (incr_at_spec (ecomp e) A0) as (A1 & E1 & L1 & N1);
      [apply H; now left|].
    destruct (IH A1) as (A & E & L & N).
    { intros f Hf. rewrite L1. apply H. now right. }
    exists A. cbn [foldM]. rewrite E1. cbn [lift bind].
    split; [exact E|]. split; [congruence|].
    intros c. rewrite N, N1. simpl filter.
    rewrite (Nat.eqb_sym c). destruct (Nat.eqb (ecomp e) c); simpl; lia.
Qed.

Lemma collect_fold {A} (c : A -> bool) (l : list A) :
  forall acc, fold_left (fun acc e => if c e then e :: acc else acc) l acc
              = rev (filter c l) ++ acc.
Proof.
  induction l as [|a l IH]; intros acc; simpl; auto.
  rewrite IH. destruct (c a); simpl; auto. now rewrite <- app_assoc.
Qed.

Lemma alone_in_class (p : edge -> bool) (l : list edge) (e : edge) :
  NoDup l -> In e l -> p e = true ->
  ((length (filter p l) <= 1)%nat <-> forall f, In f l -> p f = true -> f = e).
Proof.
  intros N He Hp.
  pose proof (NoDup_filter p N) as Nf.
  split.
  - intros Hlen f Hf Hpf. destruct (Nat.eq_dec f e) as [|Hne]; auto.
    assert (Hi : incl [e; f] (filter p l)).
    { intros x [<-|[<-|[]]]; apply filter_In; auto. }
    assert (N2 : NoDup [e; f]).
    { constructor; [intros [H|[]]; congruence|constructor; [intros []|constructor]]. }
    pose proof (NoDup_incl_length N2 Hi) as Hl. simpl in Hl. lia.
  - intros H.
    assert (Hi : incl (filter p l) [e]).
    { intros x Hx. apply filter_In in Hx. left. symmetry. now apply H. }
    exact (NoDup_incl_length Nf Hi).
Qed.

Lemma edges_NoDup G : wf_graph G -> NoDup (edges G).
Proof. intros W. apply NoDup_filter, (wf_edges _ W). Qed.

Lemma edges_visible G e : In e (edges G) -> hidden G e = false.
Proof.
  unfold edges. rewrite filter_In. intros [_ H]. now destruct (hidden G e).
Qed.

Lemma hide_bridges_returns (l : list edge) :
  forall G, NoDup l -> (forall e, In e l -> hidden G e = false) -> wf_graph G ->
    exists G1,
      foldM (fun G e => if is_hidden G e then Exit 1 else Ret (hide_edge G e)) l G
      = Ret G1
      /\ wf_graph G1 /\ all_nodes G1 = all_nodes G
      /\ (closed_graph G -> closed_graph G1).
Proof.
  induction l as [|e l IH]; intros G N H W.
  - exists G. auto.
  - inversion N as [|? ? Hn Nl]; subst.
    destruct (IH (hide_edge G e) Nl) as (G1 & E & W1 & A1 & C1).
    + intros f Hf. cbn [hide_edge hidden].
      rewrite upd_other; [apply H; now right|intros ->; contradiction].
    + now apply hide_edge_wf.
    + exists G1. cbn [foldM]. unfold is_hidden at 1.
      rewrite (H e (or_introl eq_refl)). cbn [bind].
      split; [exact E|split; [exact W1|split; [exact A1|]]].
      intros C. apply C1. now apply hide_edge_closed_graph.
Qed.

Lemma append_at_spec i n : forall s : list path,
    (i < length s)%nat ->
    exists s', append_at i n s = Some s' /\ length s' = length s.
Proof.
  induction i as [|i IH]; intros [|p s] H; simpl in H; try lia.
  - eexists. split; reflexivity.
  - destruct (IH s) as (s' & E & L); [lia|].
    exists (p :: s'). simpl. rewrite E. split; simpl; auto.
Qed.

Lemma collect_components_returns (components : node -> nat) (l : list node) :
  forall s0 : list path,
    (forall n, In n l -> (components n < length s0)%nat) ->
    exists s, foldM (fun s n => lift 1 (append_at (components n) n s)) l s0 = Ret s.
Proof.
  induction l as [|n l IH]; intros s0 H.
  - exists s0. reflexivity.
  - destruct (append_at_spec (components n) n s0) as (s1 & E1 & L1);
      [apply H; now left|].
    destruct (IH s1) as (s & E).
    { intros m Hm. rewrite L1. apply H. now right. }
    exists s. cbn [foldM]. rewrite E1. exact E.
Qed.

Lemma collect_bridges_spec (G : graph) (num : nat) (ecomp : edge -> nat) :
  wf_graph G -> no_loops G -> bicomp_spec G (num, ecomp) ->
  exists A,
    block_sizes G num ecomp = Ret A
    /\ NoDup (collect_bridges G A ecomp)
    /\ (forall e, In e (collect_bridges G A ecomp) -> In e (edges G))
    /\ (forall e, In e (collect_bridges G A ecomp) <-> is_bridge G e).
Proof.
  intros W L [Hr Hs]. cbn [fst snd] in Hr, Hs.
  destruct (block_sizes_fold ecomp (edges G) (repeat 0%nat num)) as (A & E & LA & NA).
  { intros e He. rewrite repeat_length. now apply Hr. }
  exists A. split; [exact E|].
  unfold collect_bridges. rewrite collect_fold, app_nil_r.
  split; [apply NoDup_rev, NoDup_filter, edges_NoDup, W|].
  split; [intros e He; apply in_rev, filter_In in He; tauto|].
  intros e. rewrite <- in_rev, filter_In. split.
  - intros [He Hc]. apply bridge_iff_no_cycle; auto.
    apply Nat.leb_le in Hc. rewrite NA, nth_repeat in Hc. simpl in Hc.
    rewrite (alone_in_class (fun x => Nat.eqb (ecomp x) (ecomp e)) _ e
                            (edges_NoDup G W) He (Nat.eqb_refl _)) in Hc.
    intros f (p & vs & T & N & Hne & Hf).
    assert (Hfe : In f (edges G)) by exact (trail_edges G _ _ _ _ T f Hf).
    assert (Heq : ecomp e = ecomp f).
    { apply (Hs e f He Hfe). right. exists p, vs. auto. }
    assert (f = e) by (apply Hc; auto; apply Nat.eqb_eq; congruence).
    subst f. contradiction.
  - intros HB. assert (He : In e (edges G)) by apply HB.
    split; [exact He|].
    pose proof (proj1 (bridge_iff_no_cycle G e He (L e He)) HB) as HN.
    apply Nat.leb_le. rewrite NA, nth_repeat. simpl.
    apply (alone_in_class (fun x => Nat.eqb (ecomp x) (ecomp e)) _ e
                            (edges_NoDup G W) He (Nat.eqb_refl _)).
    intros f Hf Hc. apply Nat.eqb_eq in Hc.
    destruct (proj1 (Hs e f He Hf) (eq_sym Hc)) as [->|Hcyc]; auto.
    exfalso. exact (HN f Hcyc).
Qed.

Section Bridges.

Variable BICONNECTED_COMPONENTS : graph -> nat * (edge -> nat).
Variable COMPONENTS : graph -> nat * (node -> nat).

(** C5.  For every well-formed graph without self-loops (the driver calls
    [Delete_Loops] before the algorithm) and a block labelling that meets
    the contract of [BICONNECTED_COMPONENTS], [split_graph] returns, and an
    edge is in its list [bridges] exactly when removing the edge disconnects
    two vertices that are connected with it. *)
Theorem bridges_are_the_disconnecting_edges (G : graph) :
  wf_graph G -> no_loops G ->
  bicomp_spec G (BICONNECTED_COMPONENTS G) ->
  (forall G', all_nodes G' = all_nodes G -> comp_range G' (COMPONENTS G')) ->
  exists sp,
    split_graph BICONNECTED_COMPONENTS COMPONENTS G = Ret sp
    /\ forall e, In e (sp_bridges sp) <-> is_bridge G e.
Proof.
  intros W L HB HC. unfold split_graph.
  destruct (BICONNECTED_COMPONENTS G) as [num ecomp].
  destruct (collect_bridges_spec G num ecomp W L HB) as (A & EA & NB & IB & SB).
  rewrite EA. cbn [bind].
  destruct (collect_bridges G A ecomp) as [|b bs] eqn:Eb.
  - eexists. split; [reflexivity|exact SB].
  - rewrite <- Eb in *. clear Eb b bs.
    destruct (hide_bridges_returns (collect_bridges G A ecomp) G NB)
      as (G1 & E1 & W1 & A1 & _);
      auto using edges_visible.
    unfold hide_bridges. rewrite E1. cbn [bind].
    destruct (strip_pendants_returns (number_of_edges G1) G1 [] W1 (le_n _))
      as (G2 & d2 & E2 & S2 & _).
    rewrite E2. cbn [bind].
    assert (A2 : all_nodes G2 = all_nodes G)
      by (rewrite (st_nodes _ _ _ _ S2); exact A1).
    pose proof (HC G2 A2) as HR. unfold comp_range in HR.
    destruct (COMPONENTS G2) as [num2 components]. cbn [fst snd] in HR.
    destruct (collect_components_returns components (all_nodes G2) (repeat [] num2))
      as (s & Es).
    { intros n Hn. rewrite repeat_length. now apply HR. }
    unfold collect_components. rewrite Es. cbn [bind].
    eexists. split; [reflexivity|exact SB].
Qed.

End Bridges.

Lemma G_K2_wf : wf_graph G_K2 /\ loop_free G_K2.
Proof.
  split; [apply graph_of_wf|]. apply (proj2 (graph_of_wf _ _)). reflexivity.
Qed.

Lemma bridges_are_the_disconnecting_edges_witness :
  exists sp,
    split_graph (fun _ => (1%nat, fun _ => 0%nat)) (fun _ => (2%nat, fun n => n)) G_K2
    = Ret sp
    /\ forall e, In e (sp_bridges sp) <-> is_bridge G_K2 e.
Proof.
  apply bridges_are_the_disconnecting_edges.
  - exact (proj1 G_K2_wf).
  - intros e He. vm_compute in He. destruct He as [<-|[]]. vm_compute. discriminate.
  - split; cbn [fst snd].
    + intros e _. lia.
    + intros e f He Hf. vm_compute in He, Hf.
      destruct He as [<-|[]], Hf as [<-|[]]. split; auto.
  - intros G' HG' n Hn. rewrite HG' in Hn. vm_compute in Hn. cbn [fst snd].
    destruct Hn as [<-|[<-|[]]]; lia.
Defined.

(** ** Cycles do not pass over bridges *)

Section Cycles.

Variable G : graph.

Lemma trail_vertices x p vs z :
  trail G x p vs z ->
  forall e, In e p -> In (source G e) vs /\ In (target G e) vs.
Proof.
  induction 1 as [x|x y z e p vs He Hj Ht IH]; intros f Hf; [destruct Hf|].
  destruct Hf as [<-|Hf].
  - destruct (trail_head G _ _ _ _ Ht) as [vs' ->].
    destruct Hj as [[<- <-]|[<- <-]]; simpl; auto.
  - destruct (IH f Hf). split; now right.
Qed.

Lemma trail_edges_once x p vs z : trail G x p vs z -> NoDup vs -> NoDup p.
Proof.
  induction 1 as [x|x y z e p vs He Hj Ht IH]; intros N; constructor.
  - intros Hin. inversion N as [|? ? Hx _]; subst. apply Hx.
    destruct (trail_vertices _ _ _ _ Ht e Hin) as [Hs Htg].
    destruct Hj as [[<- _]|[_ <-]]; assumption.
  - apply IH. now inversion N.
Qed.

Lemma trail_split x p vs z :
  trail G x p vs z ->
  forall f p1 p2, p = p1 ++ f :: p2 ->
    exists a b vs1 vs2,
      joins G f a b /\ trail G x p1 vs1 a /\ trail G b p2 vs2 z.
Proof.
  induction 1 as [x|x y z e p vs He Hj Ht IH]; intros f p1 p2 E.
  - destruct p1; discriminate.
  - destruct p1 as [|e1 p1]; simpl in E; injection E as -> ->.
    + exists x, y, [x], vs. repeat split; auto. constructor.
    + destruct (IH f p1 p2 eq_refl) as (a & b & vs1 & vs2 & J & T1 & T2).
      exists a, b, (x :: vs1), vs2. repeat split; auto.
      econstructor; eauto.
Qed.

Lemma on_cycle_not_bridge e f :
  In e (edges G) -> on_cycle G e f -> ~ is_bridge G f.
Proof.
  intros He (p & vs & T & N & Hne & Hf) [_ (x & y & C & NC)].
  apply NC. apply detour; [|exact C].
  pose proof (trail_edges_once _ _ _ _ T N) as Np.
  destruct (in_split _ _ Hf) as (p1 & p2 & E).
  destruct (trail_split _ _ _ _ T f p1 p2 E) as (a & b & vs1 & vs2 & J & T1 & T2).
  subst p.
  assert (N1 : ~ In f p1).
  { intros H. apply NoDup_remove_2 in Np. apply Np. rewrite in_app_iff. now left. }
  assert (N2 : ~ In f p2).
  { intros H. apply NoDup_remove_2 in Np. apply Np. rewrite in_app_iff. now right. }
  assert (Hef : e <> f).
  { intros ->. apply Hne. rewrite in_app_iff. right. now left. }
  assert (R1 : connected_without G f (source G e) a).
  { apply (trail_reach G _ _ _ _ _ T1). intros g Hg ->. contradiction. }
  assert (R2 : connected_without G f b (target G e)).
  { apply (trail_reach G _ _ _ _ _ T2). intros g Hg ->. contradiction. }
  assert (R3 : connected_without G f (source G e) (target G e)).
  { eapply reach_step; [exact He|exact Hef|left; split; reflexivity|constructor]. }
  assert (Rab : connected_without G f a b).
  { apply (reach_trans G _ a (source G e) b); [apply reach_sym, R1|].
    apply (reach_trans G _ _ (target G e) b); [exact R3|apply reach_sym, R2]. }
  destruct J as [[<- <-]|[<- <-]]; [exact Rab|apply reach_sym, Rab].
Qed.

End Cycles.

(** ** Scenario S2: two triangles joined by a bridge *)

Lemma G_S2_wf : wf_graph G_S2 /\ loop_free G_S2.
Proof.
  split; [apply graph_of_wf|]. apply (proj2 (graph_of_wf _ _)). reflexivity.
Qed.

Lemma triangle_cycle (G : graph) (e f g : edge) (a b c : node) :
  In f (edges G) -> In g (edges G) ->
  joins G e a b -> joins G f b c -> joins G g c a ->
  a <> b -> b <> c -> c <> a -> e <> f -> e <> g ->
  on_cycle G e f /\ on_cycle G e g.
Proof.
  intros Hf Hg Je Jf Jg Hab Hbc Hca Hef Heg.
  assert (N1 : NoDup [a; c; b]).
  { repeat constructor; simpl; intuition congruence. }
  assert (N2 : NoDup [b; c; a]).
  { repeat constructor; simpl; intuition congruence. }
  assert (T1 : trail G a [g; f] [a; c; b] b).
  { econstructor; [exact Hg|apply joins_sym, Jg|].
    econstructor; [exact Hf|apply joins_sym, Jf|constructor]. }
  assert (T2 : trail G b [f; g] [b; c; a] a).
  { econstructor; [exact Hf|exact Jf|].
    econstructor; [exact Hg|exact Jg|constructor]. }
  assert (Hn1 : ~ In e [g; f]) by (simpl; intuition congruence).
  assert (Hn2 : ~ In e [f; g]) by (simpl; intuition congruence).
  destruct Je as [[<- <-]|[<- <-]]; split.
  - exists [g; f], [source G e; c; target G e].
    split; [exact T1|split; [exact N1|split; [exact Hn1|simpl; auto]]].
  - exists [g; f], [source G e; c; target G e].
    split; [exact T1|split; [exact N1|split; [exact Hn1|simpl; auto]]].
  - exists [f; g], [source G e; c; target G e].
    split; [exact T2|split; [exact N2|split; [exact Hn2|simpl; auto]]].
  - exists [f; g], [source G e; c; target G e].
    split; [exact T2|split; [exact N2|split; [exact Hn2|simpl; auto]]].
Qed.

(** Case analysis on a visible edge of a concrete graph and on the two
    vertices it joins. *)
Ltac concrete_edge He :=
  vm_compute in He;
  repeat (destruct He as [He|He]; [subst|]); try contradiction.

Ltac concrete_joins Hj :=
  unfold joins, source, target in Hj; vm_compute in Hj;
  destruct Hj as [[? ?]|[? ?]]; subst.

Lemma S2_side x z :
  reach G_S2 (fun e => e <> 6%nat) x z -> ((x < 3)%nat <-> (z < 3)%nat).
Proof.
  induction 1 as [x|x y z e He Hok Hj _ IH]; [tauto|].
  concrete_edge He; try (now contradiction Hok); concrete_joins Hj; lia.
Qed.

Lemma S2_vertex2 x z :
  reach G_S2 (fun e => source G_S2 e <> 2%nat /\ target G_S2 e <> 2%nat) x z ->
  ((x < 2)%nat <-> (z < 2)%nat).
Proof.
  induction 1 as [x|x y z e He Hok Hj _ IH]; [tauto|].
  concrete_edge He; vm_compute in Hok; destruct Hok as [H1 H2];
    try (now contradiction H1); try (now contradiction H2);
    concrete_joins Hj; lia.
Qed.

Lemma S2_edge_in e : (e < 7)%nat -> In e (edges G_S2).
Proof.
  intros H. do 7 (destruct e as [|e]; [vm_compute; tauto|]). lia.
Qed.

Lemma S2_bridge : is_bridge G_S2 6%nat.
Proof.
  split; [apply S2_edge_in; lia|]. exists 2%nat, 3%nat. split.
  - eapply reach_step; [apply (S2_edge_in 6); lia|exact I| |constructor].
    left. split; reflexivity.
  - intros R. apply S2_side in R. lia.
Qed.

Lemma S2_triangles e f :
  (e < 7)%nat -> (f < 7)%nat -> e <> f ->
  fst (S2_blocks G_S2) = 3%nat ->
  snd (S2_blocks G_S2) e = snd (S2_blocks G_S2) f ->
  on_cycle G_S2 e f.
Proof.
  intros He Hf Hne _ Hl.
  assert (TA : forall e f g a b c,
             (e < 7)%nat -> (f < 7)%nat -> (g < 7)%nat ->
             ends G_S2 e = (a, b) -> ends G_S2 f = (b, c) -> ends G_S2 g = (c, a) ->
             a <> b -> b <> c -> c <> a -> e <> f -> e <> g ->
             on_cycle G_S2 e f /\ on_cycle G_S2 e g).
  { intros e0 f0 g0 a b c H1 H2 H3 E1 E2 E3. 
    apply triangle_cycle; auto using S2_edge_in;
      left; unfold source, target; rewrite ?E1, ?E2, ?E3; split; reflexivity. }
  pose proof (TA 0 1 2 0 1 2)%nat as C0. pose proof (TA 1 2 0 1 2 0)%nat as C1.
  pose proof (TA 2 0 1 2 0 1)%nat as C2. pose proof (TA 3 4 5 3 4 5)%nat as C3.
  pose proof (TA 4 5 3 4 5 3)%nat as C4. pose proof (TA 5 3 4 5 3 4)%nat as C5.
  assert (He' : (e = 0 \/ e = 1 \/ e = 2 \/ e = 3 \/ e = 4 \/ e = 5 \/ e = 6)%nat)
    by lia.
  assert (Hf' : (f = 0 \/ f = 1 \/ f = 2 \/ f = 3 \/ f = 4 \/ f = 5 \/ f = 6)%nat)
    by lia.
  clear TA.
  repeat (destruct He' as [->|He']); try subst e;
    repeat (destruct Hf' as [->|Hf']); try subst f;
    try congruence; try (vm_compute in Hl; discriminate);
    first [ apply C0 | apply C1 | apply C2 | apply C3 | apply C4 | apply C5 ];
    first [ lia | reflexivity | discriminate ].
Qed.

Lemma S2_edge_bound e : In e (edges G_S2) -> (e < 7)%nat.
Proof. intros He. concrete_edge He; lia. Qed.

Lemma S2_no_loops : no_loops G_S2.
Proof. intros e He. concrete_edge He; vm_compute; discriminate. Qed.

Lemma S2_no_cross_cycle e f :
  In e (edges G_S2) -> In f (edges G_S2) ->
  snd (S2_blocks G_S2) e <> snd (S2_blocks G_S2) f ->
  ~ on_cycle G_S2 e f.
Proof.
  intros He Hf Hl Hc.
  destruct (Nat.eq_dec e 6) as [->|He6].
  { apply (proj1 (bridge_iff_no_cycle G_S2 6%nat He (S2_no_loops _ He)) S2_bridge f Hc). }
  destruct (Nat.eq_dec f 6) as [->|Hf6].
  { exact (on_cycle_not_bridge G_S2 e 6%nat He Hc S2_bridge). }
  pose proof Hc as (p & vs & T & N & Hne & Hfp).
  destruct (in_dec Nat.eq_dec 6%nat p) as [H6|H6].
  { apply (on_cycle_not_bridge G_S2 e 6%nat He); [|exact S2_bridge].
    exists p, vs. auto. }
  destruct (in_split _ _ Hfp) as (p1 & p2 & E).
  destruct (trail_split G_S2 _ _ _ _ T f p1 p2 E) as (a & b & vs1 & vs2 & J & T1 & _).
  assert (R : reach G_S2 (fun e => e <> 6%nat) (source G_S2 e) a).
  { apply (trail_reach G_S2 _ _ _ _ _ T1). intros g Hg ->. apply H6.
    rewrite E, in_app_iff. now left. }
  apply S2_side in R. clear - He Hf He6 Hf6 Hl J R.
  concrete_edge He; try congruence; concrete_edge Hf; try congruence;
    try (now contradiction Hl); concrete_joins J; vm_compute in R; lia.
Qed.

Lemma S2_blocks_spec : bicomp_spec G_S2 (S2_blocks G_S2).
Proof.
  split.
  - intros e He. concrete_edge He; vm_compute; lia.
  - intros e f He Hf. split.
    + intros Hl. destruct (Nat.eq_dec e f) as [|Hne]; [now left|right].
      apply S2_triangles; auto using S2_edge_bound.
    + intros [->|Hc]; [reflexivity|].
      destruct (Nat.eq_dec (snd (S2_blocks G_S2) e) (snd (S2_blocks G_S2) f)); auto.
      exfalso. exact (S2_no_cross_cycle e f He Hf n Hc).
Qed.

Lemma S2_not_biconnected b : is_biconnected_spec G_S2 b -> b = false.
Proof.
  intros H. destruct b; auto. destruct (H eq_refl) as [_ NA].
  exfalso. apply (NA 2%nat). exists 0%nat, 3%nat. repeat split; try lia.
  - eapply reach_step; [apply (S2_edge_in 2); lia|exact I| |].
    { right. split; reflexivity. }
    eapply reach_step; [apply (S2_edge_in 6); lia|exact I| |constructor].
    left. split; reflexivity.
  - intros R. apply S2_vertex2 in R. lia.
Qed.

Lemma S2_bridges_list (l : list edge) :
  NoDup l -> (forall e, In e l <-> is_bridge G_S2 e) -> l = [6%nat].
Proof.
  intros N H.
  assert (H6 : In 6%nat l) by (apply H, S2_bridge).
  assert (Hall : forall e, In e l -> e = 6%nat).
  { intros e He. apply H in He. destruct (Nat.eq_dec e 6) as [|Hne]; auto.
    exfalso. assert (Hin : In e (edges G_S2)) by apply He.
    pose proof (S2_edge_bound e Hin) as Hb.
    assert (Hf : exists f, (f < 7)%nat /\ f <> e
                           /\ snd (S2_blocks G_S2) f = snd (S2_blocks G_S2) e).
    { assert (He' : (e = 0 \/ e = 1 \/ e = 2 \/ e = 3 \/ e = 4 \/ e = 5)%nat) by lia.
      destruct He' as [E|[E|[E|[E|[E|E]]]]]; rewrite E;
        [exists 1%nat|exists 0%nat|exists 0%nat|exists 4%nat|exists 3%nat|exists 3%nat];
        repeat split; try lia; try discriminate. }
    destruct Hf as (f & Hf & Hfe & Hl).
    apply (on_cycle_not_bridge G_S2 f e (S2_edge_in f Hf)); [|exact He].
    apply S2_triangles; auto. }
  destruct l as [|a [|b l]].
  - destruct H6.
  - now rewrite (Hall a (or_introl eq_refl)).
  - exfalso. inversion N as [|? ? Hn _]; subst. apply Hn.
    rewrite (Hall a), (Hall b); simpl; auto.
Qed.

Lemma S2cut_side x z :
  connected (hide_edge G_S2 6%nat) x z -> ((x < 3)%nat <-> (z < 3)%nat).
Proof.
  induction 1 as [x|x y z e He Hok Hj _ IH]; [tauto|].
  concrete_edge He; concrete_joins Hj; lia.
Qed.

Lemma S2cut_step e x y :
  In e (edges (hide_edge G_S2 6%nat)) ->
  ends (hide_edge G_S2 6%nat) e = (x, y) ->
  connected (hide_edge G_S2 6%nat) x y.
Proof.
  intros He E. eapply reach_step; [exact He|exact I| |constructor].
  left. unfold source, target. rewrite E. split; reflexivity.
Qed.

Lemma S2cut_hub x :
  (x < 6)%nat ->
  connected (hide_edge G_S2 6%nat) (if (x <? 3)%nat then 0%nat else 3%nat) x.
Proof.
  intros H.
  pose proof (S2cut_step 0 0 1)%nat as E01. pose proof (S2cut_step 1 1 2)%nat as E12.
  pose proof (S2cut_step 3 3 4)%nat as E34. pose proof (S2cut_step 4 4 5)%nat as E45.
  assert (In01 : forall e, (e < 6)%nat -> In e (edges (hide_edge G_S2 6%nat))).
  { intros e He. do 6 (destruct e as [|e]; [vm_compute; tauto|]). lia. }
  assert (Hx : (x = 0 \/ x = 1 \/ x = 2 \/ x = 3 \/ x = 4 \/ x = 5)%nat) by lia.
  destruct Hx as [E|[E|[E|[E|[E|E]]]]]; rewrite E; cbn [Nat.ltb Nat.leb].
  - constructor.
  - apply E01; [apply In01; lia|reflexivity].
  - eapply reach_trans; [apply E01|apply E12]; try reflexivity; apply In01; lia.
  - constructor.
  - apply E34; [apply In01; lia|reflexivity].
  - eapply reach_trans; [apply E34|apply E45]; try reflexivity; apply In01; lia.
Qed.

Lemma S2cut_nodes x : In x (all_nodes (hide_edge G_S2 6%nat)) <-> (x < 6)%nat.
Proof.
  vm_compute. split; [intuition (subst; repeat constructor)|].
  intros H. do 6 (destruct x as [|x]; [tauto|]).
  exfalso. repeat (apply le_S_n in H). inversion H.
Qed.

Lemma S2cut_connected x y :
  (x < 6)%nat -> (y < 6)%nat ->
  (connected (hide_edge G_S2 6%nat) x y <-> ((x < 3)%nat <-> (y < 3)%nat)).
Proof.
  intros Hx Hy. split; [apply S2cut_side|].
  intros H. pose proof (S2cut_hub x Hx) as Rx. pose proof (S2cut_hub y Hy) as Ry.
  destruct (Nat.ltb_spec x 3), (Nat.ltb_spec y 3); try lia;
    (eapply reach_trans; [apply reach_sym, Rx|exact Ry]).
Qed.

Lemma S2_components_spec :
  components_spec (hide_edge G_S2 6%nat) (S2_components (hide_edge G_S2 6%nat)).
Proof.
  split; [|split].
  - intros n Hn. apply S2cut_nodes in Hn. cbn [S2_components fst snd].
    destruct (n <? 3)%nat; lia.
  - intros c Hc. cbn [S2_components fst snd] in *.
    destruct c as [|[|c]]; [exists 0%nat|exists 3%nat|lia];
      (split; [apply S2cut_nodes; lia|reflexivity]).
  - intros x y Hx Hy. apply S2cut_nodes in Hx, Hy.
    rewrite (S2cut_connected x y Hx Hy). cbn [S2_components fst snd].
    destruct (Nat.ltb_spec x 3), (Nat.ltb_spec y 3); split; intros; try lia; auto.
Qed.

(** What any labelling that meets the contract of [COMPONENTS] looks like
    on the two triangles. *)
Lemma S2_components_shape (num : nat) (comp : node -> nat) :
  components_spec (hide_edge G_S2 6%nat) (num, comp) ->
  num = 2%nat
  /\ ((forall x, (x < 6)%nat -> comp x = if (x <? 3)%nat then 0%nat else 1%nat)
      \/ (forall x, (x < 6)%nat -> comp x = if (x <? 3)%nat then 1%nat else 0%nat)).
Proof.
  intros (Hr & Hs & Hc). cbn [fst snd] in *.
  assert (Hsame : forall x y, (x < 6)%nat -> (y < 6)%nat ->
                              (comp x = comp y <-> ((x < 3)%nat <-> (y < 3)%nat))).
  { intros x y Hx Hy. rewrite <- (S2cut_connected x y Hx Hy).
    apply Hc; apply S2cut_nodes; assumption. }
  assert (H0 : (comp 0 < num)%nat) by (apply Hr, S2cut_nodes; lia).
  assert (H3 : (comp 3 < num)%nat) by (apply Hr, S2cut_nodes; lia).
  assert (Hne : comp 0%nat <> comp 3%nat).
  { intros E. apply (Hsame 0 3)%nat in E; lia. }
  assert (Hval : forall c, (c < num)%nat -> c = comp 0%nat \/ c = comp 3%nat).
  { intros c Hlt. destruct (Hs c Hlt) as (n & Hn & <-). apply S2cut_nodes in Hn.
    destruct (Nat.ltb_spec n 3).
    - left. apply (Hsame n 0)%nat; lia.
    - right. apply (Hsame n 3)%nat; lia. }
  assert (Hnum : num = 2%nat).
  { destruct (Nat.lt_ge_cases 2 num) as [Hgt|Hle]; [|lia].
    destruct (Hval 0%nat), (Hval 1%nat), (Hval 2%nat); lia. }
  split; [exact Hnum|].
  assert (Hx : forall x, (x < 6)%nat ->
                         comp x = if (x <? 3)%nat then comp 0%nat else comp 3%nat).
  { intros x Hlt. destruct (Nat.ltb_spec x 3).
    - apply (Hsame x 0)%nat; lia.
    - apply (Hsame x 3)%nat; lia. }
  destruct (Nat.eq_dec (comp 0%nat) 0) as [E0|E0].
  - left. intros x Hlt. rewrite (Hx x Hlt), E0.
    replace (comp 3%nat) with 1%nat by lia. reflexivity.
  - right. intros x Hlt. rewrite (Hx x Hlt).
    replace (comp 0%nat) with 1%nat by lia.
    replace (comp 3%nat) with 0%nat by lia. reflexivity.
Qed.

Lemma foldM_ext_in {A B} (f g : A -> B -> outcome A) (l : list B) :
  (forall a b, In b l -> f a b = g a b) -> forall a, foldM f l a = foldM g l a.
Proof.
  induction l as [|b l IH]; intros H a; simpl; auto.
  rewrite (H a b (or_introl eq_refl)).
  destruct (g a b); simpl; auto. apply IH. intros a' b' Hb. apply H. now right.
Qed.

Lemma collect_components_ext (G : graph) (num : nat) (c1 c2 : node -> nat) :
  (forall n, In n (all_nodes G) -> c1 n = c2 n) ->
  collect_components G num c1 = collect_components G num c2.
Proof.
  intros H. unfold collect_components. apply foldM_ext_in.
  intros s n Hn. now rewrite (H n Hn).
Qed.

Section ScenarioS2.

Variable BICONNECTED_COMPONENTS : graph -> nat * (edge -> nat).
Variable COMPONENTS : graph -> nat * (node -> nat).
Variable Is_Biconnected : graph -> bool.

(** C4.  Scenario S2, for every block labelling, component labelling and
    biconnectivity test that meet the contracts of the LEDA services on this
    graph: the algorithm returns; [bridges] is the single edge 6, which joins
    the nodes 2 and 3 (the vertices 3 and 4 of the scenario); there are
    exactly two components, the nodes 0, 1, 2 and the nodes 3, 4, 5 (the
    vertices 1, 2, 3 and 4, 5, 6), in one of the two orders. *)
Theorem scenario_S2_two_triangles (fuel : nat) :
  is_biconnected_spec G_S2 (Is_Biconnected G_S2) ->
  bicomp_spec G_S2 (BICONNECTED_COMPONENTS G_S2) ->
  components_spec (hide_edge G_S2 6%nat) (COMPONENTS (hide_edge G_S2 6%nat)) ->
  exists r,
    TRICONNECTED_COMPONENTS BICONNECTED_COMPONENTS COMPONENTS Is_Biconnected fuel G_S2
    = Ret r
    /\ tr_cnumb r = 2%nat
    /\ (tr_sigma3 r = [[2; 1; 0]; [5; 4; 3]]%nat
        \/ tr_sigma3 r = [[5; 4; 3]; [2; 1; 0]]%nat)
    /\ tr_bridges r = [6%nat]
    /\ ends G_S2 6%nat = (2%nat, 3%nat).
Proof.
  intros HB HBC HC.
  unfold TRICONNECTED_COMPONENTS.
  rewrite (S2_not_biconnected _ HB). cbn [negb].
  unfold split_graph.
  destruct (BICONNECTED_COMPONENTS G_S2) as [num ecomp].
  destruct (collect_bridges_spec G_S2 num ecomp (proj1 G_S2_wf) S2_no_loops HBC)
    as (A & EA & NB & _ & SB).
  rewrite EA. cbn [bind].
  rewrite (S2_bridges_list _ NB SB).
  unfold hide_bridges. cbn [foldM].
  change (is_hidden G_S2 6%nat) with false. cbn [bind].
  change (strip_pendants (number_of_edges (hide_edge G_S2 6%nat))
                         (hide_edge G_S2 6%nat) [])
    with (Ret (hide_edge G_S2 6%nat, @nil edge)).
  cbn [bind].
  destruct (COMPONENTS (hide_edge G_S2 6%nat)) as [num2 comp].
  destruct (S2_components_shape num2 comp HC) as [-> [Hc|Hc]].
  - rewrite (collect_components_ext _ 2 comp
               (fun x => if (x <? 3)%nat then 0%nat else 1%nat)).
    2:{ intros n Hn. apply Hc, S2cut_nodes, Hn. }
    eexists. split; [vm_compute; reflexivity|].
    repeat split; auto.
  - rewrite (collect_components_ext _ 2 comp
               (fun x => if (x <? 3)%nat then 1%nat else 0%nat)).
    2:{ intros n Hn. apply Hc, S2cut_nodes, Hn. }
    eexists. split; [vm_compute; reflexivity|].
    repeat split; auto.
Qed.

End ScenarioS2.

Lemma scenario_S2_two_triangles_witness :
  exists r,
    TRICONNECTED_COMPONENTS S2_blocks S2_components (fun _ => false) 0 G_S2 = Ret r
    /\ tr_cnumb r = 2%nat
    /\ (tr_sigma3 r = [[2; 1; 0]; [5; 4; 3]]%nat
        \/ tr_sigma3 r = [[5; 4; 3]; [2; 1; 0]]%nat)
    /\ tr_bridges r = [6%nat]
    /\ ends G_S2 6%nat = (2%nat, 3%nat).
Proof.
  apply scenario_S2_two_triangles.
  - intros H. discriminate H.
  - exact S2_blocks_spec.
  - exact S2_components_spec.
Defined.

(** ** The induced subgraph of a block *)

Lemma copy_nodes_fold (V : list node) :
  forall (P : list node) (H : graph) (m : node -> option node) H' m',
    all_nodes H = seq 0 (length P) ->
    (forall i, (i < length P)%nat -> info H i = nth i P 0%nat) ->
    (forall x i, m x = Some i -> (i < length P)%nat) ->
    (forall x, In x P -> exists i, m x = Some i) ->
    fold_left copy_node_step V (H, m) = (H', m') ->
    all_nodes H' = seq 0 (length (P ++ V))
    /\ (forall i, (i < length (P ++ V))%nat -> info H' i = nth i (P ++ V) 0%nat)
    /\ (forall x i, m' x = Some i -> (i < length (P ++ V))%nat)
    /\ (forall x, In x (P ++ V) -> exists i, m' x = Some i)
    /\ edge_list H' = edge_list H /\ adj H' = adj H
    /\ hidden H' = hidden H /\ ends H' = ends H
    /\ einfo H' = einfo H.
Proof.
  induction V as [|v V IH]; intros P H m H' m' HN HI HM1 HM2 E; cbn [fold_left] in E.
  - injection E as <- <-. rewrite app_nil_r. repeat split; auto.
  - cbn [copy_node_step new_node] in E.
    apply (IH (P ++ [v])) in E; clear IH; cbn [all_nodes info].
    + rewrite <- app_assoc in E. exact E.
    + rewrite HN, length_seq, length_app. simpl. rewrite Nat.add_1_r.
      symmetry. apply seq_S.
    + intros i Hi. rewrite HN, length_seq. rewrite length_app in Hi. simpl in Hi.
      unfold upd. destruct (Nat.eqb_spec i (length P)) as [->|Hne].
      * now rewrite nth_middle.
      * rewrite app_nth1 by lia. apply HI. lia.
    + intros x i. rewrite HN, length_seq, length_app. simpl. unfold upd.
      destruct (Nat.eqb x v).
      * intros E1. injection E1 as <-. lia.
      * intros E1. apply HM1 in E1. lia.
    + intros x Hx. unfold upd. destruct (Nat.eqb_spec x v) as [->|Hne]; [eauto|].
      apply in_app_iff in Hx. destruct Hx as [Hx|[<-|[]]]; auto. contradiction.
Qed.

Lemma extends_refl H : extends H H.
Proof. repeat split; auto. Qed.

Lemma extends_trans H1 H2 H3 : extends H1 H2 -> extends H2 H3 -> extends H1 H3.
Proof.
  intros (A1 & B1 & C1) (A2 & B2 & C2). repeat split; try congruence.
  - apply C2, C1, H.
  - destruct (C1 h H) as [Hin E1]. destruct (C2 h Hin) as [_ E2]. congruence.
Qed.

Lemma adj_in_edges G v e : wf_graph G -> In e (adj G v) -> In e (edges G).
Proof.
  intros W H. unfold edges. apply filter_In. split.
  - exact (wf_listed _ W _ _ H).
  - now rewrite (wf_vis _ W _ _ H).
Qed.

Lemma new_edge_info_inv G k H s t e :
  copy_inv G k H -> (s < k)%nat -> (t < k)%nat -> In e (edges G) ->
  copy_inv G k (new_edge_info H s t e)
  /\ extends H (new_edge_info H s t e)
  /\ exists h, In h (edge_list (new_edge_info H s t e))
               /\ einfo (new_edge_info H s t e) h = e.
Proof.
  intros C Hs Ht He.
  assert (Hfresh : ~ In (length (edge_list H)) (edge_list H)).
  { rewrite (ci_list _ _ _ C) at 2. rewrite in_seq. lia. }
  split; [constructor|split; [repeat split|]]; unfold new_edge_info, new_edge;
    cbn [all_nodes edge_list hidden ends einfo info].
  - exact (ci_nodes _ _ _ C).
  - rewrite length_app. simpl. rewrite Nat.add_1_r, seq_S.
    now rewrite <- (ci_list _ _ _ C).
  - intros x. unfold upd. destruct (Nat.eqb x (length (edge_list H))); auto.
    apply (ci_vis _ _ _ C).
  - intros x. unfold upd. destruct (Nat.eqb x (length (edge_list H))); simpl; auto.
    apply (ci_ends _ _ _ C).
  - intros h Hh. unfold upd.
    destruct (Nat.eqb_spec h (length (edge_list H))) as [->|Hne]; auto.
    apply in_app_iff in Hh. destruct Hh as [Hh|[<-|[]]]; [|contradiction].
    exact (ci_info _ _ _ C h Hh).
  - rewrite in_app_iff. now left.
  - rewrite upd_other; auto. intros ->. contradiction.
  - exists (length (edge_list H)). split.
    + rewrite in_app_iff. right. now left.
    + apply upd_same.
Qed.

Section CopyEdges.

Variable G : graph.
Variable k : nat.
Variable m : node -> option node.
Hypothesis G_wf : wf_graph G.
Hypothesis m_range : forall x i, m x = Some i -> (i < k)%nat.

Lemma copy_adj_inv Na v H e :
  copy_inv G k H -> In e (adj G v) ->
  copy_inv G k (copy_adj G m Na v H e) /\ extends H (copy_adj G m Na v H e).
Proof.
  intros C He. unfold copy_adj.
  destruct (is_hidden G e); [auto using extends_refl|].
  destruct (m (opposite G v e)) as [s|] eqn:Es; [|auto using extends_refl].
  destruct (m v) as [t|] eqn:Et; [|auto using extends_refl].
  destruct (Na (opposite G v e)); [auto using extends_refl|].
  destruct (new_edge_info_inv G k H s t e C) as (C1 & X1 & _); eauto.
  now apply (adj_in_edges G v).
Qed.

Lemma copy_adj_fold Na v (l : list edge) :
  forall H, copy_inv G k H -> incl l (adj G v) ->
    copy_inv G k (fold_left (copy_adj G m Na v) l H)
    /\ extends H (fold_left (copy_adj G m Na v) l H).
Proof.
  induction l as [|e l IH]; intros H C Hl; cbn [fold_left].
  - auto using extends_refl.
  - destruct (copy_adj_inv Na v H e C) as [C1 X1]; [apply Hl; now left|].
    destruct (IH _ C1) as [C2 X2]; [intros x Hx; apply Hl; now right|].
    split; [exact C2|]. exact (extends_trans _ _ _ X1 X2).
Qed.

Lemma copy_adj_covers Na v (l : list edge) (e : edge) :
  forall H, copy_inv G k H -> incl l (adj G v) -> In e l ->
    m (opposite G v e) <> None -> m v <> None -> Na (opposite G v e) = false ->
    exists h, In h (edge_list (fold_left (copy_adj G m Na v) l H))
              /\ einfo (fold_left (copy_adj G m Na v) l H) h = e.
Proof.
  induction l as [|e' l IH]; intros H C Hl He Hx Hv HNa; [destruct He|].
  cbn [fold_left].
  destruct (copy_adj_inv Na v H e' C) as [C1 X1]; [apply Hl; now left|].
  assert (Hl' : incl l (adj G v)) by (intros x Hx'; apply Hl; now right).
  destruct He as [->|He]; [|now apply IH].
  assert (Hin : In e (adj G v)) by (apply Hl; now left).
  assert (Hc : exists h, In h (edge_list (copy_adj G m Na v H e))
                         /\ einfo (copy_adj G m Na v H e) h = e).
  { unfold copy_adj. unfold is_hidden. rewrite (wf_vis _ G_wf _ _ Hin).
    destruct (m (opposite G v e)) as [s|] eqn:Es; [|congruence].
    destruct (m v) as [t|] eqn:Et; [|congruence].
    rewrite HNa.
    destruct (new_edge_info_inv G k H s t e C) as (_ & _ & Hh); eauto.
    now apply (adj_in_edges G v). }
  destruct Hc as (h & Hh & Eh).
  destruct (copy_adj_fold Na v l _ C1 Hl') as [_ (_ & _ & X2)].
  exists h. destruct (X2 h Hh) as [Hin2 E2]. split; [exact Hin2|congruence].
Qed.

Lemma copy_vertex_fold (V : list node) :
  forall H Na,
    copy_inv G k H ->
    copy_inv G k (fst (fold_left (copy_vertex_step G m) V (H, Na)))
    /\ extends H (fst (fold_left (copy_vertex_step G m) V (H, Na))).
Proof.
  induction V as [|v V IH]; intros H Na C; cbn [fold_left fst].
  - auto using extends_refl.
  - cbn [copy_vertex_step].
    destruct (copy_adj_fold Na v (adj G v) H C (incl_refl _)) as [C1 X1].
    destruct (IH _ (upd Na v true) C1) as [C2 X2].
    split; [exact C2|exact (extends_trans _ _ _ X1 X2)].
Qed.

Lemma opposite_other v e :
  source G e = v \/ target G e = v ->
  (opposite G v e = source G e \/ opposite G v e = target G e)
  /\ (v = source G e \/ v = target G e)
  /\ (opposite G v e = v -> source G e = target G e).
Proof.
  unfold opposite. intros H.
  destruct (Nat.eqb_spec v (source G e)); intuition congruence.
Qed.

Lemma copy_vertex_covers (e : edge) (V : list node) :
  closed_graph G -> In e (edges G) ->
  forall H Na,
    copy_inv G k H ->
    In (source G e) V -> In (target G e) V ->
    (forall x, In x V -> m x <> None) ->
    Na (source G e) = false -> Na (target G e) = false ->
    exists h, In h (edge_list (fst (fold_left (copy_vertex_step G m) V (H, Na))))
              /\ einfo (fst (fold_left (copy_vertex_step G m) V (H, Na))) h = e.
Proof.
  intros CG He. induction V as [|v V IH]; intros H Na C Hs Ht HV Ns Nt; [destruct Hs|].
  cbn [fold_left copy_vertex_step].
  destruct (copy_adj_fold Na v (adj G v) H C (incl_refl _)) as [C1 X1].
  destruct (Nat.eq_dec v (source G e)) as [Evs|Evs];
    [|destruct (Nat.eq_dec v (target G e)) as [Evt|Evt]].
  - assert (Hin : In e (adj G v)) by (rewrite Evs; apply (cl_adj _ CG e He)).
    destruct (copy_adj_covers Na v (adj G v) e H C (incl_refl _) Hin) as (h & Hh & Eh).
    + unfold opposite. rewrite Evs, Nat.eqb_refl. apply HV, Ht.
    + apply HV. now left.
    + unfold opposite. rewrite Evs, Nat.eqb_refl. exact Nt.
    + destruct (copy_vertex_fold V _ (upd Na v true) C1) as [_ (_ & _ & X2)].
      exists h. destruct (X2 h Hh) as [Hin2 E2].
      split; [exact Hin2|exact (eq_trans E2 Eh)].
  - assert (Hin : In e (adj G v)) by (rewrite Evt; apply (cl_adj _ CG e He)).
    assert (Eo : opposite G v e = source G e).
    { unfold opposite. apply Nat.eqb_neq in Evs. now rewrite Evs. }
    destruct (copy_adj_covers Na v (adj G v) e H C (incl_refl _) Hin) as (h & Hh & Eh).
    + rewrite Eo. apply HV, Hs.
    + apply HV. now left.
    + rewrite Eo. exact Ns.
    + destruct (copy_vertex_fold V _ (upd Na v true) C1) as [_ (_ & _ & X2)].
      exists h. destruct (X2 h Hh) as [Hin2 E2].
      split; [exact Hin2|exact (eq_trans E2 Eh)].
  - apply IH; auto.
    + destruct Hs as [Hs|Hs]; [congruence|exact Hs].
    + destruct Ht as [Ht|Ht]; [congruence|exact Ht].
    + intros x Hx. apply HV. now right.
    + rewrite upd_other; auto.
    + rewrite upd_other; auto.
Qed.

End CopyEdges.

Lemma map_nth_seq (B : list node) :
  map (fun i => nth i B 0%nat) (seq 0 (length B)) = B.
Proof.
  apply (nth_ext _ _ 0%nat 0%nat).
  - now rewrite length_map, length_seq.
  - intros n Hn. rewrite length_map, length_seq in Hn.
    rewrite (nth_indep _ 0%nat (nth 0 B 0%nat)) by (now rewrite length_map, length_seq).
    rewrite (map_nth (fun i => nth i B 0%nat)), seq_nth by assumption. reflexivity.
Qed.

Lemma CopyInducedGraph_spec (G : graph) (V : list node) :
  wf_graph G -> V <> [] ->
  copy_inv G (length V) (CopyInducedGraph G V)
  /\ (forall i, (i < length V)%nat -> info (CopyInducedGraph G V) i = nth i V 0%nat)
  /\ (closed_graph G ->
      forall e, In e (edges G) -> In (source G e) V -> In (target G e) V ->
                exists h, In h (edge_list (CopyInducedGraph G V))
                          /\ einfo (CopyInducedGraph G V) h = e).
Proof.
  intros W HV. unfold CopyInducedGraph, copy_nodes.
  destruct (fold_left copy_node_step V (empty_graph, fun _ : node => None))
    as [H0 m] eqn:E.
  destruct (copy_nodes_fold V [] empty_graph (fun _ => None) H0 m) as
      (N0 & I0 & M1 & M2 & L0 & A0 & Hd0 & E0 & F0); auto.
  { intros i Hi. simpl in Hi. lia. }
  { intros x i Hx. discriminate. }
  { intros x []. }
  cbn [app] in *.
  assert (C0 : copy_inv G (length V) H0).
  { constructor; auto.
    - rewrite L0. reflexivity.
    - intros e. now rewrite Hd0.
    - intros e. rewrite E0. simpl. destruct V; [contradiction|simpl; lia].
    - intros h. rewrite L0. intros []. }
  unfold copy_edges.
  destruct (copy_vertex_fold G (length V) m W M1 V H0 (fun _ => false) C0)
    as [C1 (XN & XI & _)].
  split; [exact C1|]. split.
  - intros i Hi. rewrite XI. now apply I0.
  - intros CG e He Hs Ht.
    apply (copy_vertex_covers G (length V) m W M1 e V CG He); auto.
    intros x Hx. destruct (M2 x Hx) as [i Ei]. congruence.
Qed.

Lemma copy_inv_closed G k H :
  copy_inv G k H -> ends_closed (all_nodes H) H /\ NoDup (all_nodes H)
                    /\ edges H = edge_list H.
Proof.
  intros C. rewrite (ci_nodes _ _ _ C). split; [|split].
  - intros e. unfold source, target. destruct (ci_ends _ _ _ C e).
    split; apply in_seq; lia.
  - apply seq_NoDup.
  - unfold edges. apply forallb_filter_id. apply forallb_forall.
    intros e _. now rewrite (ci_vis _ _ _ C).
Qed.

(** ** The components emitted for one block *)

Lemma emit_fold (H : graph) (c : Z) (l : path) :
  forall acc cn,
    fst (fold_left (emit_step H c) l (acc, cn)) = rev (map (info H) l) ++ acc
    /\ forall x,
        (In x (map (info H) l) -> snd (fold_left (emit_step H c) l (acc, cn)) x = c)
        /\ (~ In x (map (info H) l) ->
            snd (fold_left (emit_step H c) l (acc, cn)) x = cn x).
Proof.
  induction l as [|v l IH]; intros acc cn; cbn [fold_left map rev].
  - simpl. split; auto. intros x. split; [intros []|auto].
  - change (emit_step H c (acc, cn) v) with (info H v :: acc, upd cn (info H v) c).
    destruct (IH (info H v :: acc) (upd cn (info H v) c)) as [E1 E2].
    split; [etransitivity; [exact E1|now rewrite <- app_assoc]|].
    intros x. destruct (E2 x) as [Ha Hb]. split.
    + intros [<-|Hx]; [|exact (Ha Hx)].
      destruct (in_dec Nat.eq_dec (info H v) (map (info H) l)) as [Hi|Hi];
        [exact (Ha Hi)|].
      etransitivity; [exact (Hb Hi)|apply upd_same].
    + intros Hx.
      etransitivity; [apply Hb; intros Hi; apply Hx; now right|].
      apply upd_other. intros ->. apply Hx. now left.
Qed.

Lemma emit_component_spec (H : graph) (l : path) (a : tri_acc) :
  sigma3 (emit_component H l a) = sigma3 a ++ [rev (map (info H) l)]
  /\ forall x,
      (In x (map (info H) l) ->
       compnum (emit_component H l a) x = Z.of_nat (length (sigma3 a)))
      /\ (~ In x (map (info H) l) -> compnum (emit_component H l a) x = compnum a x).
Proof.
  unfold emit_component, cnumb.
  destruct (emit_fold H (Z.of_nat (length (sigma3 a))) l [] (compnum a)) as [E1 E2].
  match goal with
  | |- context [fold_left ?f l ?i] =>
    change (fst (fold_left f l i) = rev (map (info H) l) ++ []) in E1;
    change (forall x,
               (In x (map (info H) l) ->
                snd (fold_left f l i) x = Z.of_nat (length (sigma3 a)))
               /\ (~ In x (map (info H) l) -> snd (fold_left f l i) x = compnum a x))
      in E2;
    destruct (fold_left f l i) as [ncomplist cn]
  end.
  cbn [fst snd sigma3 compnum] in *. rewrite E1, app_nil_r. auto.
Qed.

Lemma emit_components_fold (H : graph) (sg : sigma_t) (L : list node) :
  forall a,
    let a' := fold_left (fun a n => match sg n with
                                    | [] => a
                                    | nsubglist => emit_component H nsubglist a
                                    end) L a in
    exists comps,
      sigma3 a' = sigma3 a ++ comps
      /\ Permutation (concat comps) (map (info H) (flat_map sg L))
      /\ (forall x, In x (concat comps) -> numbered a' x)
      /\ (forall x, ~ In x (concat comps) -> compnum a' x = compnum a x).
Proof.
  induction L as [|n L IH]; intros a; cbn [fold_left flat_map].
  - exists []. rewrite app_nil_r. repeat split; auto. intros x [].
  - destruct (sg n) as [|v l] eqn:Es.
    + destruct (IH a) as (comps & E & P & I & U). exists comps. auto.
    + destruct (emit_component_spec H (v :: l) a) as [E1 C1].
      destruct (IH (emit_component H (v :: l) a)) as (comps & E & P & I & U).
      exists (rev (map (info H) (v :: l)) :: comps).
      split; [rewrite E, E1, <- app_assoc; reflexivity|].
      split.
      { cbn [concat]. rewrite map_app. apply Permutation_app; [|exact P].
        symmetry. apply Permutation_rev. }
      split.
      * intros x Hx. cbn [concat] in Hx.
        destruct (in_dec Nat.eq_dec x (concat comps)) as [Hc|Hc]; [now apply I|].
        apply in_app_iff in Hx. destruct Hx as [Hx|Hx]; [|contradiction].
        exists (length (sigma3 a)), (rev (map (info H) (v :: l))).
        split; [|split; [|exact Hx]].
        -- rewrite (U x Hc). apply C1. now apply in_rev.
        -- rewrite E, E1, <- app_assoc. rewrite nth_error_app2 by lia.
           rewrite Nat.sub_diag. reflexivity.
      * intros x Hx.
        assert (Hc : ~ In x (concat comps)).
        { intros Hc. apply Hx. cbn [concat]. apply in_app_iff. now right. }
        rewrite (U x Hc). apply C1. intros Hi. apply Hx. cbn [concat].
        apply in_app_iff. left. rewrite <- in_rev. exact Hi.
Qed.

Lemma choose_root_in H r : choose_root H = Some r -> In r (all_nodes H).
Proof. unfold choose_root. intros E. now apply find_some in E. Qed.

Lemma process_block_spec (fuel : nat) (G : graph) (a a' : tri_acc) (B : path) :
  wf_graph G ->
  (number_of_edges (CopyInducedGraph G B) = 1%nat -> (length B <= 2)%nat) ->
  process_block fuel G a B = Ret a' ->
  exists new,
    sigma3 a' = sigma3 a ++ new
    /\ Permutation (concat new) B
    /\ (forall x, ~ In x B -> compnum a' x = compnum a x)
    /\ (((forall x, compnum a' x = compnum a x)
         /\ (forall x y, In x B -> In y B -> same_component new x y))
        \/ (forall x, In x B -> numbered a' x)).
Proof.
  intros W Hok E. unfold process_block in E.
  destruct B as [|b0 B'].
  { change (CopyInducedGraph G []) with empty_graph in E. cbn in E.
    injection E as <-. exists []. rewrite app_nil_r. repeat split; auto.
    left. split; auto. intros x y []. }
  set (B := b0 :: B') in *.
  destruct (CopyInducedGraph_spec G B W) as (C & HP & _); [discriminate|].
  assert (HI : map (info (CopyInducedGraph G B)) (seq 0 (length B)) = B).
  { transitivity (map (fun i => nth i B 0%nat) (seq 0 (length B)));
      [|apply map_nth_seq].
    apply map_ext_in. intros i Hi. apply in_seq in Hi. apply HP. lia. }
  destruct (copy_inv_closed _ _ _ C) as (HC & HN & HE).
  set (H := CopyInducedGraph G B) in *.
  assert (Hk : number_of_nodes H = length B).
  { unfold number_of_nodes. rewrite (ci_nodes _ _ _ C). apply length_seq. }
  rewrite Hk in E. rewrite (ci_nodes _ _ _ C) in E, HC, HN.
  assert (Triv : forall c, Permutation c B ->
                           exists new : list path,
                             sigma3 a ++ [c] = sigma3 a ++ new
                             /\ Permutation (concat new) B
                             /\ (forall x, ~ In x B -> compnum a x = compnum a x)
                             /\ (((forall x, compnum a x = compnum a x)
                                  /\ (forall x y, In x B -> In y B ->
                                                  same_component new x y))
                                 \/ (forall x, In x B ->
                                               numbered (mkAcc (sigma3 a ++ [c])
                                                               (compnum a)) x))).
  { intros c Pc. exists [c]. cbn [concat]. rewrite app_nil_r.
    repeat split; auto. left. split; auto.
    intros x y Hx Hy. exists c. split; [now left|].
    split; apply (Permutation_in _ (Permutation_sym Pc)); assumption. }
  destruct (Nat.leb_spec (length B) 1) as [Hle|Hgt].
  - assert (HB : B' = []) by (destruct B'; [reflexivity|simpl in Hle; lia]).
    subst B'. subst B. cbn [length seq] in E.
    injection E as <-. cbn [sigma3 compnum].
    rewrite (HP 0%nat) by (simpl; lia). apply Triv. reflexivity.
  - destruct (Nat.eqb_spec (number_of_edges H) 1) as [H1|H1].
    + specialize (Hok H1).
      subst B. destruct B' as [|b1 [|b2 B']]; cbn [length] in Hgt, Hok; try lia.
      cbn [length seq rev app hd_error] in E.
      injection E as <-. cbn [sigma3 compnum].
      rewrite (HP 0%nat), (HP 1%nat) by (simpl; lia). apply Triv.
      apply perm_swap.
    + clear Hok. clearbody H. clearbody B.
      destruct (choose_root H) as [r|] eqn:Er.
      * destruct (triedge_dfs fuel (init_state H) r None []) as [[st Pw]| |] eqn:Ed;
          try discriminate.
        cbn [bind] in E. injection E as <-.
        assert (Hr : In r (seq 0 (length B))).
        { rewrite <- (ci_nodes _ _ _ C). now apply choose_root_in. }
        assert (HI0 : dfs_inv (seq 0 (length B)) (init_state H)).
        { split; [exact HC|]. cbn [init_state sigma].
          rewrite <- (ci_nodes _ _ _ C). apply init_sigma_partition.
          rewrite (ci_nodes _ _ _ C). exact HN. }
        destruct (triedge_dfs_inv _ HN _ _ _ _ _ _ _ HI0 Hr (incl_nil_l _) Ed)
          as [[_ Hs] _].
        unfold emit_components. rewrite (ci_nodes _ _ _ C).
        destruct (emit_components_fold H (sigma st) (seq 0 (length B)) a)
          as (comps & E1 & P1 & I1 & U1).
        assert (PB : Permutation (concat comps) B).
        { rewrite P1. rewrite <- HI at 2. apply Permutation_map. exact Hs. }
        exists comps. split; [exact E1|]. split; [exact PB|]. split.
        -- intros x Hx. apply U1. intros Hc. apply Hx.
           exact (Permutation_in _ PB Hc).
        -- right. intros x Hx. apply I1.
           exact (Permutation_in _ (Permutation_sym PB) Hx).
      * injection E as <-. cbn [sigma3 compnum]. apply Triv.
        rewrite HI. symmetry. apply Permutation_rev.
Qed.

(** ** The loop over the blocks *)

Lemma numbered_extend (a a' : tri_acc) (new : list path) (x : node) :
  sigma3 a' = sigma3 a ++ new -> compnum a' x = compnum a x ->
  numbered a x -> numbered a' x.
Proof.
  intros E C (i & c & Hc & Hn & Hx). exists i, c. repeat split; auto.
  - congruence.
  - rewrite E. rewrite nth_error_app1; auto. apply nth_error_Some. congruence.
Qed.

Lemma same_component_app (s new : list path) (x y : node) :
  same_component s x y \/ same_component new x y -> same_component (s ++ new) x y.
Proof.
  intros [(c & Hc & H)|(c & Hc & H)]; exists c; rewrite in_app_iff; auto.
Qed.

Lemma blocks_step (fuel : nat) (G : graph) (a a' : tri_acc)
      (done : list path) (B : path) :
  wf_graph G ->
  (number_of_edges (CopyInducedGraph G B) = 1%nat -> (length B <= 2)%nat) ->
  (forall x, In x B -> ~ In x (concat done)) ->
  blocks_inv a done ->
  process_block fuel G a B = Ret a' ->
  blocks_inv a' (done ++ [B]).
Proof.
  intros W Hok Hd J E.
  destruct (process_block_spec fuel G a a' B W Hok E) as (new & Es & P & U & D).
  assert (Hcat : forall x, In x (concat (done ++ [B])) <-> In x (concat done) \/ In x B).
  { intros x. rewrite concat_app, in_app_iff. cbn [concat]. now rewrite app_nil_r. }
  constructor.
  - rewrite Es, !concat_app. cbn [concat]. rewrite app_nil_r.
    apply Permutation_app; [exact (bi_perm _ _ J)|exact P].
  - intros B0 HB0. apply in_app_iff in HB0. destruct HB0 as [HB0|[<-|[]]].
    + assert (Hout : forall x, In x B0 -> ~ In x B).
      { intros x Hx HxB. apply (Hd x HxB). apply in_concat. eauto. }
      destruct (bi_block _ _ J B0 HB0) as [[T1 T2]|T]; [left; split|right].
      * intros x Hx. rewrite (U x (Hout x Hx)). now apply T1.
      * intros x y Hx Hy. rewrite Es. apply same_component_app. left. now apply T2.
      * intros x Hx. apply (numbered_extend a a' new); auto.
    + destruct D as [[D1 D2]|D]; [left; split|right; exact D].
      * intros x Hx. rewrite D1. apply (bi_rest _ _ J). now apply Hd.
      * intros x y Hx Hy. rewrite Es. apply same_component_app. right. now apply D2.
  - intros x Hx. rewrite Hcat in Hx. rewrite U by tauto.
    apply (bi_rest _ _ J). tauto.
Qed.

Lemma blocks_fold (fuel : nat) (G : graph) (Bs : list path) :
  forall done a a',
    wf_graph G ->
    (forall B, In B Bs ->
               number_of_edges (CopyInducedGraph G B) = 1%nat -> (length B <= 2)%nat) ->
    NoDup (concat (done ++ Bs)) ->
    blocks_inv a done ->
    foldM (process_block fuel G) Bs a = Ret a' ->
    blocks_inv a' (done ++ Bs).
Proof.
  induction Bs as [|B Bs IH]; intros done a a' W Hok N J E; cbn [foldM] in E.
  - injection E as <-. now rewrite app_nil_r.
  - destruct (process_block fuel G a B) as [a1| |] eqn:E1; try discriminate.
    cbn [bind] in E.
    assert (Hd : forall x, In x B -> ~ In x (concat done)).
    { intros x Hx Hc. rewrite concat_app in N. cbn [concat] in N.
      apply (NoDup_app_disjoint _ _ x N Hc). rewrite in_app_iff. now left. }
    pose proof (blocks_step fuel G a a1 done B W (Hok B (or_introl eq_refl)) Hd J E1)
      as J1.
    replace (done ++ B :: Bs) with ((done ++ [B]) ++ Bs)
      by (rewrite <- app_assoc; reflexivity).
    apply (IH (done ++ [B]) a1 a'); auto.
    + intros B0 HB0. apply Hok. now right.
    + rewrite <- app_assoc. exact N.
Qed.

Lemma blocks_inv_init : blocks_inv (mkAcc [] (fun _ => -1)) [].
Proof. constructor; simpl; auto. intros B []. Qed.

Lemma index_unique (s : list path) (x : node) :
  NoDup (concat s) ->
  forall i j c c',
    nth_error s i = Some c -> In x c -> nth_error s j = Some c' -> In x c' -> i = j.
Proof.
  induction s as [|p s IH]; intros N i j c c' Hi Hx Hj Hx'.
  - destruct i; discriminate.
  - cbn [concat] in N.
    assert (Hdis : forall q k, nth_error s k = Some q -> In x q -> ~ In x p).
    { intros q k Hk Hq Hp. apply (NoDup_app_disjoint _ _ x N Hp).
      apply in_concat. exists q. split; [now apply nth_error_In in Hk|exact Hq]. }
    destruct i as [|i], j as [|j]; auto; cbn [nth_error] in Hi, Hj.
    + injection Hi as <-. exfalso. exact (Hdis c' j Hj Hx' Hx).
    + injection Hj as <-. exfalso. exact (Hdis c i Hi Hx Hx').
    + f_equal. apply (IH (NoDup_app_remove_l _ _ N) i j c c'); auto.
Qed.

(** The cut edges, given the loop invariant for all blocks. *)
Lemma cut_edges_of_blocks (G : graph) (a : tri_acc) (Bs : list path) :
  blocks_inv a Bs -> NoDup (concat Bs) ->
  (forall e, In e (edges G) ->
             exists B, In B Bs /\ In (source G e) B /\ In (target G e) B) ->
  forall e,
    In e (collect_cut_edges G (compnum a))
    <-> In e (edges G)
        /\ in_different_components (sigma3 a) (source G e) (target G e).
Proof.
  intros J N HB e. unfold collect_cut_edges.
  rewrite collect_fold, app_nil_r, <- in_rev, filter_In.
  assert (Ns : NoDup (concat (sigma3 a))).
  { apply (Permutation_NoDup (Permutation_sym (bi_perm _ _ J))). exact N. }
  split.
  - intros [He Hc]. split; [exact He|].
    apply andb_true_iff in Hc. destruct Hc as [_ Hc].
    apply negb_true_iff, Z.eqb_neq in Hc.
    destruct (HB e He) as (B & HBin & Hs & Ht).
    destruct (bi_block _ _ J B HBin) as [[T1 _]|T].
    + rewrite (T1 _ Hs), (T1 _ Ht) in Hc. contradiction.
    + destruct (T _ Hs) as (i & c & Ci & Ni & Xi).
      destruct (T _ Ht) as (j & c' & Cj & Nj & Xj).
      split; [exists c; split; [now apply nth_error_In in Ni|exact Xi]|].
      split; [exists c'; split; [now apply nth_error_In in Nj|exact Xj]|].
      intros (c0 & Hc0 & X0 & Y0).
      destruct (In_nth_error _ _ Hc0) as [k Nk].
      assert (k = i) by exact (index_unique _ _ Ns k i c0 c Nk X0 Ni Xi).
      assert (k = j) by exact (index_unique _ _ Ns k j c0 c' Nk Y0 Nj Xj).
      apply Hc. congruence.
  - intros [He (_ & _ & Hd)]. split; [exact He|].
    unfold is_hidden. rewrite (edges_visible G e He). cbn [negb andb].
    apply negb_true_iff, Z.eqb_neq.
    destruct (HB e He) as (B & HBin & Hs & Ht).
    destruct (bi_block _ _ J B HBin) as [[_ T2]|T].
    + exfalso. apply Hd. now apply T2.
    + destruct (T _ Hs) as (i & c & Ci & Ni & Xi).
      destruct (T _ Ht) as (j & c' & Cj & Nj & Xj).
      intros Heq. apply Hd. exists c. split; [now apply nth_error_In in Ni|].
      split; [exact Xi|].
      assert (i = j) by (rewrite Ci, Cj in Heq; lia).
      subst j. congruence.
Qed.

(** ** Blocks with a single edge *)

Lemma first_edge (G : graph) (x z : node) :
  connected G x z -> x <> z ->
  exists e y, In e (edges G) /\ joins G e x y /\ x <> y.
Proof.
  induction 1 as [x|x y z e He _ Hj _ IH]; intros Hne; [contradiction|].
  destruct (Nat.eq_dec x y) as [<-|Hxy]; [now apply IH|].
  exists e, y. auto.
Qed.

Lemma two_distinct_length {A} (l : list A) (x y : A) :
  In x l -> In y l -> x <> y -> (2 <= length l)%nat.
Proof.
  intros Hx Hy Hne. destruct l as [|a [|b l]]; simpl in *; [contradiction| |lia].
  destruct Hx as [Hx|[]], Hy as [Hy|[]]. congruence.
Qed.

Lemma two_edges_copied (G : graph) (B : path) (e1 e2 : edge) :
  wf_graph G -> closed_graph G -> B <> [] ->
  In e1 (edges G) -> In (source G e1) B -> In (target G e1) B ->
  In e2 (edges G) -> In (source G e2) B -> In (target G e2) B ->
  e1 <> e2 ->
  (2 <= number_of_edges (CopyInducedGraph G B))%nat.
Proof.
  intros W C HB H1 S1 T1 H2 S2 T2 Hne.
  destruct (CopyInducedGraph_spec G B W HB) as (CI & _ & Cov).
  destruct (Cov C e1 H1 S1 T1) as (h1 & Hh1 & E1).
  destruct (Cov C e2 H2 S2 T2) as (h2 & Hh2 & E2).
  destruct (copy_inv_closed _ _ _ CI) as (_ & _ & HE).
  unfold number_of_edges. rewrite HE.
  apply (two_distinct_length _ h1 h2); auto. congruence.
Qed.

Lemma connected_block_ok (G : graph) (B : path) :
  wf_graph G -> closed_graph G -> NoDup B ->
  (forall a b, In a B -> In b B -> connected G a b) ->
  (forall e, In e (edges G) -> (In (source G e) B <-> In (target G e) B)) ->
  number_of_edges (CopyInducedGraph G B) = 1%nat -> (length B <= 2)%nat.
Proof.
  intros W C N Hcon Hcl H1.
  destruct B as [|a [|b [|c B']]]; simpl; try lia.
  exfalso.
  set (B := a :: b :: c :: B') in *.
  assert (Ha : In a B) by (subst B; simpl; auto).
  assert (Hb : In b B) by (subst B; simpl; auto).
  assert (Hc : In c B) by (subst B; simpl; auto).
  assert (Hab : a <> b /\ a <> c /\ b <> c).
  { subst B. inversion N as [|? ? N1 N2]; subst. inversion N2 as [|? ? N3 _]; subst.
    simpl in N1, N3. intuition. }
  destruct Hab as (Hab & Hac & Hbc).
  assert (Inc : forall x z, In x B -> In z B -> x <> z ->
                            exists e, In e (edges G) /\ In (source G e) B
                                      /\ In (target G e) B
                                      /\ (source G e = x \/ target G e = x)).
  { intros x z Hx Hz Hxz.
    destruct (first_edge G x z (Hcon x z Hx Hz) Hxz) as (e & y & He & Hj & _).
    exists e. split; [exact He|].
    assert (Hend : source G e = x \/ target G e = x) by (destruct Hj; tauto).
    pose proof (Hcl e He) as Hiff.
    destruct Hend as [E|E]; (split; [|split]); try tauto;
      try (rewrite E; exact Hx); try (apply Hiff; rewrite E; exact Hx). }
  destruct (Inc a b Ha Hb Hab) as (ea & Ea & Sa & Ta & Ia).
  destruct (Inc b a Hb Ha (not_eq_sym Hab)) as (eb & Eb & Sb & Tb & Ib).
  destruct (Inc c a Hc Ha (not_eq_sym Hac)) as (ec & Ec & Sc & Tc & Ic).
  assert (HB : B <> []) by (subst B; discriminate).
  assert (Two : forall e1 e2, In e1 (edges G) -> In (source G e1) B ->
                              In (target G e1) B -> In e2 (edges G) ->
                              In (source G e2) B -> In (target G e2) B ->
                              e1 <> e2 -> False).
  { intros e1 e2 A1 A2 A3 A4 A5 A6 A7.
    pose proof (two_edges_copied G B e1 e2 W C HB A1 A2 A3 A4 A5 A6 A7). lia. }
  destruct (Nat.eq_dec ea eb) as [Eab|Eab]; [|exact (Two ea eb Ea Sa Ta Eb Sb Tb Eab)].
  destruct (Nat.eq_dec ea ec) as [Eac|Eac]; [|exact (Two ea ec Ea Sa Ta Ec Sc Tc Eac)].
  subst eb ec. destruct Ia, Ib, Ic; congruence.
Qed.

Lemma incr_at_inv i : forall A A',
    incr_at i A = Some A' ->
    forall c, nth c A' 0%nat = (nth c A 0 + if Nat.eqb c i then 1 else 0)%nat.
Proof.
  induction i as [|i IH]; intros [|a A] A' E; simpl in E; try discriminate.
  - injection E as <-. intros [|c]; simpl; lia.
  - destruct (incr_at i A) as [A1|] eqn:E1; [|discriminate].
    injection E as <-. intros [|c]; simpl; [lia|]. now apply IH.
Qed.

Lemma block_sizes_counts (ecomp : edge -> nat) (l : list edge) :
  forall A0 A,
    foldM (fun A e => lift 139 (incr_at (ecomp e) A)) l A0 = Ret A ->
    forall c, nth c A 0%nat
              = (nth c A0 0 + length (filter (fun e => Nat.eqb (ecomp e) c) l))%nat.
Proof.
  induction l as [|e l IH]; intros A0 A E c; cbn [foldM] in E.
  - injection E as <-. simpl. lia.
  - destruct (incr_at (ecomp e) A0) as [A1|] eqn:E1; [|discriminate].
    cbn [lift bind] in E. rewrite (IH _ _ E c), (incr_at_inv _ _ _ E1 c).
    simpl filter. rewrite (Nat.eqb_sym c). destruct (Nat.eqb (ecomp e) c); simpl; lia.
Qed.

Lemma nobridge_block_ok (G : graph) (num : nat) (ecomp : edge -> nat) (A : list nat) :
  wf_graph G -> closed_graph G ->
  block_sizes G num ecomp = Ret A -> collect_bridges G A ecomp = [] ->
  number_of_edges (CopyInducedGraph G (all_nodes G)) = 1%nat ->
  (length (all_nodes G) <= 2)%nat.
Proof.
  intros W C EA Eb H1. exfalso.
  destruct (all_nodes G) as [|n0 ns] eqn:En.
  { change (CopyInducedGraph G []) with empty_graph in H1. discriminate. }
  assert (HB : n0 :: ns <> []) by discriminate.
  rewrite <- En in *.
  pose proof (edges_NoDup G W) as N.
  destruct (edges G) as [|e1 [|e2 es]] eqn:Ee.
  - destruct (CopyInducedGraph_spec G (all_nodes G) W HB) as (CI & _ & _).
    destruct (copy_inv_closed _ _ _ CI) as (_ & _ & HE).
    unfold number_of_edges in H1. rewrite HE in H1.
    destruct (edge_list (CopyInducedGraph G (all_nodes G))) as [|h hs] eqn:El;
      [discriminate|].
    pose proof (ci_info _ _ _ CI h) as Hi. rewrite El, Ee in Hi.
    apply Hi. now left.
  - unfold collect_bridges in Eb. rewrite collect_fold, app_nil_r, Ee in Eb.
    unfold block_sizes in EA. rewrite Ee in EA.
    pose proof (block_sizes_counts _ _ _ _ EA (ecomp e1)) as Hc.
    rewrite nth_repeat in Hc. simpl in Hc, Eb. rewrite Nat.eqb_refl in Hc.
    simpl in Hc. rewrite Hc in Eb. simpl in Eb. discriminate.
  - assert (In1 : In e1 (edges G)) by (rewrite Ee; simpl; auto).
    assert (In2 : In e2 (edges G)) by (rewrite Ee; simpl; auto).
    assert (Hne : e1 <> e2).
    { inversion N as [|? ? Hn _]; subst. intros ->. apply Hn. now left. }
    destruct (cl_nodes _ C e1 In1) as [S1 T1].
    destruct (cl_nodes _ C e2 In2) as [S2 T2].
    pose proof (two_edges_copied G (all_nodes G) e1 e2 W C HB
                                 In1 S1 T1 In2 S2 T2 Hne).
    lia.
Qed.

(** ** The blocks returned by [split_graph] *)

Lemma append_at_inv i n : forall s s',
    append_at i n s = Some s' ->
    length s' = length s
    /\ Permutation (concat s') (n :: concat s)
    /\ forall j x, In x (nth j s' []) <-> In x (nth j s []) \/ (j = i /\ x = n).
Proof.
  induction i as [|i IH]; intros [|p s] s' E; simpl in E; try discriminate.
  - injection E as <-. split; [reflexivity|]. split.
    + cbn [concat]. rewrite <- app_assoc. symmetry. apply Permutation_middle.
    + intros [|j] x; cbn [nth].
      * rewrite in_app_iff. simpl. intuition.
      * intuition. discriminate.
  - destruct (append_at i n s) as [s1|] eqn:E1; [|discriminate].
    injection E as <-. destruct (IH s s1 E1) as (L & P & M).
    split; [simpl; congruence|]. split.
    + cbn [concat]. rewrite P. symmetry. apply Permutation_middle.
    + intros [|j] x; cbn [nth].
      * intuition. discriminate.
      * rewrite M. intuition.
Qed.

Lemma collect_components_inv (comp : node -> nat) (l : list node) :
  forall s0 s,
    foldM (fun s n => lift 1 (append_at (comp n) n s)) l s0 = Ret s ->
    length s = length s0
    /\ Permutation (concat s) (l ++ concat s0)
    /\ forall j x, In x (nth j s []) <-> In x (nth j s0 []) \/ (In x l /\ comp x = j).
Proof.
  induction l as [|n l IH]; intros s0 s E; cbn [foldM] in E.
  - injection E as <-. split; [reflexivity|]. split; [reflexivity|].
    intros j x. simpl. tauto.
  - destruct (append_at (comp n) n s0) as [s1|] eqn:E1; [|discriminate].
    cbn [lift bind] in E.
    destruct (append_at_inv _ _ _ _ E1) as (L1 & P1 & M1).
    destruct (IH _ _ E) as (L & P & M).
    split; [congruence|]. split.
    + rewrite P, P1. cbn [app]. symmetry. apply Permutation_middle.
    + intros j x. rewrite M, M1. simpl. intuition (subst; auto).
Qed.

Lemma concat_repeat_nil {A} (n : nat) : concat (repeat (@nil A) n) = [].
Proof. induction n; simpl; auto. Qed.

Lemma nth_repeat_nil {A} (n j : nat) : nth j (repeat (@nil A) n) [] = [].
Proof. revert j. induction n; intros [|j]; simpl; auto. Qed.

Lemma NoDup_concat_in (s : list path) (B : path) :
  NoDup (concat s) -> In B s -> NoDup B.
Proof.
  induction s as [|p s IH]; intros N H; [destruct H|].
  cbn [concat] in N. destruct H as [<-|H].
  - exact (NoDup_app_remove_r _ _ N).
  - apply IH; auto. exact (NoDup_app_remove_l _ _ N).
Qed.

Lemma edge_connected (G : graph) (e : edge) :
  In e (edges G) -> connected G (source G e) (target G e).
Proof.
  intros He. eapply reach_step; [exact He|exact I| |constructor].
  left. split; reflexivity.
Qed.

(** What the loop over the blocks needs of the blocks [Bs] of a graph. *)
Lemma single_block_facts (G : graph) :
  wf_graph G -> closed_graph G ->
  (number_of_edges (CopyInducedGraph G (all_nodes G)) = 1%nat ->
   (length (all_nodes G) <= 2)%nat) ->
  NoDup (concat [all_nodes G])
  /\ (forall e, In e (edges G) ->
                exists B, In B [all_nodes G] /\ In (source G e) B /\ In (target G e) B)
  /\ (forall B, In B [all_nodes G] ->
                number_of_edges (CopyInducedGraph G B) = 1%nat -> (length B <= 2)%nat).
Proof.
  intros W C Hok. split; [|split].
  - cbn [concat]. rewrite app_nil_r. exact (cl_nodup _ C).
  - intros e He. exists (all_nodes G). split; [now left|]. exact (cl_nodes _ C e He).
  - intros B [<-|[]]. exact Hok.
Qed.

Lemma component_blocks_facts (G : graph) (num : nat) (comp : node -> nat)
      (s : list path) :
  wf_graph G -> closed_graph G ->
  components_spec G (num, comp) ->
  collect_components G num comp = Ret s ->
  firstn num s = s
  /\ NoDup (concat s)
  /\ (forall e, In e (edges G) ->
                exists B, In B s /\ In (source G e) B /\ In (target G e) B)
  /\ (forall B, In B s ->
                number_of_edges (CopyInducedGraph G B) = 1%nat -> (length B <= 2)%nat).
Proof.
  intros W C (Hr & _ & Hc) E. cbn [fst snd] in Hr, Hc. unfold comp_range in Hr.
  cbn [fst snd] in Hr.
  destruct (collect_components_inv comp (all_nodes G) _ _ E) as (L & P & M).
  unfold path in *.
  rewrite repeat_length in L. rewrite concat_repeat_nil, app_nil_r in P.
  assert (Mem : forall j x, In x (nth j s []) <-> In x (all_nodes G) /\ comp x = j).
  { intros j x. rewrite M, nth_repeat_nil. simpl. tauto. }
  assert (N : NoDup (concat s)).
  { apply (Permutation_NoDup (Permutation_sym P)). exact (cl_nodup _ C). }
  assert (Same : forall e, In e (edges G) -> comp (source G e) = comp (target G e)).
  { intros e He. destruct (cl_nodes _ C e He) as [Hs Ht].
    apply (Hc _ _ Hs Ht). now apply edge_connected. }
  split; [rewrite <- L; apply firstn_all|]. split; [exact N|]. split.
  - intros e He. destruct (cl_nodes _ C e He) as [Hs Ht].
    exists (nth (comp (source G e)) s []). split; [|split].
    + apply nth_In. rewrite L. now apply Hr.
    + apply Mem. auto.
    + apply Mem. split; [exact Ht|]. symmetry. now apply Same.
  - intros B HB. destruct (In_nth _ _ [] HB) as (j & Hj & <-).
    apply (connected_block_ok G _ W C).
    + exact (NoDup_concat_in s _ N HB).
    + intros a b Ha Hb. apply Mem in Ha, Hb.
      apply Hc; try tauto. destruct Ha, Hb. congruence.
    + intros e He. rewrite !Mem. destruct (cl_nodes _ C e He) as [Hs Ht].
      pose proof (Same e He). intuition congruence.
Qed.

(** ** The cut edges *)

Lemma cut_edges_common (fuel : nat) (G : graph) (Bs : list path) (a : tri_acc) :
  wf_graph G ->
  NoDup (concat Bs)
  /\ (forall e, In e (edges G) ->
                exists B, In B Bs /\ In (source G e) B /\ In (target G e) B)
  /\ (forall B, In B Bs ->
                number_of_edges (CopyInducedGraph G B) = 1%nat -> (length B <= 2)%nat) ->
  foldM (process_block fuel G) Bs (mkAcc [] (fun _ => -1)) = Ret a ->
  forall e,
    In e (collect_cut_edges G (compnum a))
    <-> In e (edges G)
        /\ in_different_components (sigma3 a) (source G e) (target G e).
Proof.
  intros W (N & HB & Hok) E.
  pose proof (blocks_fold fuel G Bs [] _ a W Hok N blocks_inv_init E) as J.
  cbn [app] in J. now apply cut_edges_of_blocks with (Bs := Bs).
Qed.

Section CutEdges.

Variable BICONNECTED_COMPONENTS : graph -> nat * (edge -> nat).
Variable COMPONENTS : graph -> nat * (node -> nat).
Variable Is_Biconnected : graph -> bool.

Lemma split_graph_facts (G : graph) (sp : split_result) :
  wf_graph G -> closed_graph G ->
  split_graph BICONNECTED_COMPONENTS COMPONENTS G = Ret sp ->
  (sp_bridges sp <> [] ->
   components_spec (sp_graph sp) (COMPONENTS (sp_graph sp))) ->
  wf_graph (sp_graph sp)
  /\ NoDup (concat (firstn (sp_num sp) (sp_sigma sp)))
  /\ (forall e, In e (edges (sp_graph sp)) ->
                exists B, In B (firstn (sp_num sp) (sp_sigma sp))
                          /\ In (source (sp_graph sp) e) B
                          /\ In (target (sp_graph sp) e) B)
  /\ (forall B, In B (firstn (sp_num sp) (sp_sigma sp)) ->
                number_of_edges (CopyInducedGraph (sp_graph sp) B) = 1%nat ->
                (length B <= 2)%nat).
Proof.
  intros W C ES HC. unfold split_graph in ES.
  destruct (BICONNECTED_COMPONENTS G) as [num ecomp].
  destruct (block_sizes G num ecomp) as [A| |] eqn:EA; try discriminate.
  cbn [bind] in ES.
  destruct (collect_bridges G A ecomp) as [|b bs] eqn:Eb.
  - injection ES as <-. cbn [sp_graph sp_num sp_sigma firstn].
    split; [exact W|]. apply (single_block_facts G W C).
    exact (nobridge_block_ok G num ecomp A W C EA Eb).
  - rewrite <- Eb in *.
    assert (NB : NoDup (collect_bridges G A ecomp)).
    { unfold collect_bridges. rewrite collect_fold, app_nil_r.
      apply NoDup_rev, NoDup_filter, edges_NoDup, W. }
    assert (VB : forall e, In e (collect_bridges G A ecomp) -> hidden G e = false).
    { unfold collect_bridges. rewrite collect_fold, app_nil_r.
      intros e He. apply in_rev, filter_In in He. apply edges_visible. tauto. }
    destruct (hide_bridges_returns _ G NB VB W) as (G1 & E1 & W1 & _ & C1).
    unfold hide_bridges in ES. rewrite E1 in ES. cbn [bind] in ES.
    destruct (strip_pendants_returns (number_of_edges G1) G1 [] W1 (le_n _))
      as (G2 & d2 & E2 & S2 & _).
    rewrite E2 in ES. cbn [bind] in ES.
    destruct (COMPONENTS G2) as [num2 comp] eqn:EC.
    destruct (collect_components G2 num2 comp) as [s| |] eqn:Es; try discriminate.
    cbn [bind] in ES. injection ES as <-.
    cbn [sp_graph sp_num sp_sigma sp_bridges] in *.
    assert (W2 : wf_graph G2) by exact (st_wf _ _ _ _ S2).
    assert (C2 : closed_graph G2) by exact (st_closed _ _ _ _ S2 (C1 C)).
    assert (HC2 : components_spec G2 (num2, comp)).
    { rewrite <- EC. apply HC. rewrite Eb. discriminate. }
    split; [exact W2|].
    destruct (component_blocks_facts G2 num2 comp s W2 C2 HC2 Es) as (F & N & P2 & P3).
    rewrite F. auto.
Qed.

(** C1.  For every well-formed input graph and services that meet their
    contracts where the run calls them: when [TRICONNECTED_COMPONENTS]
    returns, an edge is in [cut_edges] exactly when it is a visible edge of
    the graph (the bridges and pendant edges found by the splitter are
    hidden) and its two endpoints lie in different returned components. *)
Theorem cut_edges_join_different_components
        (fuel : nat) (G : graph) (r : tri_result) :
  wf_graph G -> closed_graph G ->
  is_biconnected_spec G (Is_Biconnected G) ->
  (forall sp, split_graph BICONNECTED_COMPONENTS COMPONENTS G = Ret sp ->
              sp_bridges sp <> [] ->
              components_spec (sp_graph sp) (COMPONENTS (sp_graph sp))) ->
  TRICONNECTED_COMPONENTS BICONNECTED_COMPONENTS COMPONENTS Is_Biconnected fuel G
  = Ret r ->
  forall e,
    In e (tr_cut_edges r)
    <-> In e (edges (tr_graph r))
        /\ in_different_components (tr_sigma3 r)
                                   (source (tr_graph r) e) (target (tr_graph r) e).
Proof.
  intros W C HB HC E. unfold TRICONNECTED_COMPONENTS in E.
  destruct (Is_Biconnected G) eqn:EB; cbn [negb bind] in E.
  - cbn [sp_graph sp_num sp_sigma sp_bridges sp_deg1edges firstn] in E.
    match type of E with
    | bind ?m _ = _ => destruct m as [a| |] eqn:EF; try discriminate
    end.
    cbn [bind] in E. injection E as <-. cbn [tr_cut_edges tr_graph tr_sigma3].
    apply (cut_edges_common fuel G [all_nodes G] a W); [|exact EF].
    apply (single_block_facts G W C).
    destruct (HB eq_refl) as [Hcon _].
    apply (connected_block_ok G _ W C (cl_nodup _ C) Hcon).
    intros e He. destruct (cl_nodes _ C e He). tauto.
  - destruct (split_graph BICONNECTED_COMPONENTS COMPONENTS G) as [sp| |] eqn:ES;
      try discriminate.
    cbn [bind] in E.
    destruct (forallb (is_hidden (sp_graph sp)) (sp_bridges sp)); [|discriminate].
    cbn [bind] in E.
    match type of E with
    | bind ?m _ = _ => destruct m as [a| |] eqn:EF; try discriminate
    end.
    cbn [bind] in E. injection E as <-. cbn [tr_cut_edges tr_graph tr_sigma3].
    destruct (split_graph_facts G sp W C ES (HC sp eq_refl)) as (W' & F).
    exact (cut_edges_common fuel (sp_graph sp) _ a W' F EF).
Qed.

End CutEdges.

(** ** Graphs built by [graph_of] are closed *)

Lemma add_nodes_nodes n : forall G m,
    all_nodes G = seq 0 m -> all_nodes (add_nodes n G) = seq 0 (m + n).
Proof.
  induction n as [|n IH]; intros G m E; cbn [add_nodes].
  - now rewrite Nat.add_0_r.
  - rewrite (IH _ (S m)); [f_equal; lia|].
    cbn [new_node fst all_nodes]. rewrite E, length_seq. symmetry. apply seq_S.
Qed.

Lemma edges_new_edge G u v k x :
  edge_list G = seq 0 k ->
  (In x (edges (new_edge G u v)) <-> In x (edges G) \/ x = k).
Proof.
  intros E.
  assert (Hlen : length (edge_list G) = k) by (rewrite E; apply length_seq).
  unfold edges, new_edge. cbn [edge_list hidden]. rewrite Hlen.
  rewrite !filter_In, in_app_iff. unfold upd.
  destruct (Nat.eqb_spec x k) as [->|Hne]; simpl.
  - intuition.
  - intuition.
Qed.

Lemma new_edge_closed G u v k :
  wf_graph G -> edge_list G = seq 0 k -> closed_graph G ->
  In u (all_nodes G) -> In v (all_nodes G) ->
  closed_graph (new_edge G u v).
Proof.
  intros W E C Hu Hv.
  assert (Hlen : length (edge_list G) = k) by (rewrite E; apply length_seq).
  assert (Hold : forall x, In x (edges G) -> x <> k).
  { intros x Hx ->. unfold edges in Hx. apply filter_In in Hx.
    destruct Hx as [Hx _]. rewrite E in Hx. apply in_seq in Hx. lia. }
  assert (Hends : forall x, ends (new_edge G u v) x
                            = if Nat.eqb x k then (u, v) else ends G x).
  { intros x. unfold new_edge. cbn [ends]. now rewrite Hlen. }
  constructor.
  - intros x Hx. apply (edges_new_edge G u v k x E) in Hx.
    unfold source, target. rewrite Hends, !adj_new_edge, !in_app_iff, Hlen.
    destruct Hx as [Hx| ->].
    + pose proof (Hold x Hx) as Hne. apply Nat.eqb_neq in Hne. rewrite Hne.
      destruct (cl_adj _ C x Hx). auto.
    + rewrite Nat.eqb_refl. cbn [fst snd]. rewrite !Nat.eqb_refl, orb_true_r.
      simpl. auto.
  - intros x Hx. apply (edges_new_edge G u v k x E) in Hx.
    unfold source, target. rewrite Hends. cbn [new_edge all_nodes].
    destruct Hx as [Hx| ->].
    + pose proof (Hold x Hx) as Hne. apply Nat.eqb_neq in Hne. rewrite Hne.
      exact (cl_nodes _ C x Hx).
    + rewrite Nat.eqb_refl. auto.
  - exact (cl_nodup _ C).
Qed.

Lemma fold_new_edge_closed (es : list (node * node)) :
  forall G k,
    wf_graph G -> edge_list G = seq 0 k -> closed_graph G ->
    (forall uv, In uv es -> In (fst uv) (all_nodes G) /\ In (snd uv) (all_nodes G)) ->
    closed_graph (fold_left (fun G uv => new_edge G (fst uv) (snd uv)) es G).
Proof.
  induction es as [|[u v] es IH]; intros G k W E C H; cbn [fold_left]; [exact C|].
  destruct (H (u, v) (or_introl eq_refl)) as [Hu Hv]. cbn [fst snd] in *.
  destruct (new_edge_wf G u v k W E) as [W1 E1].
  apply (IH _ (S k) W1 E1).
  - now apply (new_edge_closed G u v k).
  - intros uv Hin. apply H. now right.
Qed.

Lemma graph_of_closed (n : nat) (es : list (node * node)) :
  forallb (fun uv => (fst uv <? n)%nat && (snd uv <? n)%nat) es = true ->
  closed_graph (graph_of n es).
Proof.
  intros Hb. destruct (add_nodes_wf n) as (W & _ & E).
  destruct (add_nodes_fields n empty_graph) as (F1 & F2 & F3 & F4).
  pose proof (add_nodes_nodes n empty_graph 0 eq_refl) as HN. simpl in HN.
  apply (fold_new_edge_closed es _ 0 W E).
  - constructor.
    + intros e He. unfold edges in He. rewrite F1 in He. destruct He.
    + intros e He. unfold edges in He. rewrite F1 in He. destruct He.
    + rewrite HN. apply seq_NoDup.
  - intros uv Hin. rewrite forallb_forall in Hb. specialize (Hb uv Hin).
    apply andb_true_iff in Hb. destruct Hb as [H1 H2].
    apply Nat.ltb_lt in H1. apply Nat.ltb_lt in H2.
    rewrite HN, !in_seq. destruct uv as [u v]. cbn [fst snd] in *. unfold node in *. lia.
Qed.

Lemma cut_edges_join_different_components_witness :
  exists r,
    TRICONNECTED_COMPONENTS S2_blocks S2_components (fun _ => false) 0 G_S2 = Ret r
    /\ forall e,
      In e (tr_cut_edges r)
      <-> In e (edges (tr_graph r))
          /\ in_different_components (tr_sigma3 r)
                                     (source (tr_graph r) e) (target (tr_graph r) e).
Proof.
  eexists. split; [vm_compute; reflexivity|].
  apply (cut_edges_join_different_components
           S2_blocks S2_components (fun _ => false) 0 G_S2).
  - exact (proj1 G_S2_wf).
  - apply graph_of_closed. reflexivity.
  - intros H. discriminate H.
  - intros sp E _.
    assert (E' : split_graph S2_blocks S2_components G_S2
                 = Ret (mkSplit 2 (hide_edge G_S2 6%nat) [6%nat]
                                [[0; 1; 2]; [3; 4; 5]]%nat []))
      by (vm_compute; reflexivity).
    rewrite E' in E. injection E as <-. exact S2_components_spec.
  - vm_compute. reflexivity.
Defined.

(** The search on [G_two_K4]: the two complete graphs are the components
    and the two joining edges are the cut edges. *)
Lemma two_K4_cut_edges :
  option_map (fun r => (tr_sigma3 r, tr_cut_edges r, tr_bridges r))
             (result_of (TRICONNECTED_COMPONENTS one_block one_component
                                                 (fun _ => false) 100 G_two_K4))
  = Some ([[3; 2; 1; 0]; [6; 7; 5; 4]]%nat, [13; 12]%nat, []).
Proof. vm_compute. reflexivity. Qed.

(** * The numbering of the search *)

Lemma numbering_same (st st' : dfs_state) :
  pre st' = pre st -> count2 st' = count2 st -> lowpt st' = lowpt st ->
  father st' = father st -> numbering st -> numbering st'.
Proof.
  intros E1 E2 E3 E4 N. constructor; rewrite ?E1, ?E2, ?E3, ?E4; now destruct N.
Qed.

Lemma numbering_enter (st : dfs_state) (u : node) (v : option node) :
  numbering st -> pre st u < 0 ->
  (forall w, v = Some w -> 0 <= pre st w) ->
  numbering (dfs_enter st u v) /\ keeps_numbers st (dfs_enter st u v)
  /\ pre (dfs_enter st u v) u = count2 st.
Proof.
  intros N Hu Hv. pose proof (nb_range _ N u) as Hc.
  assert (Hother : forall x, 0 <= pre st x -> x <> u) by (intros x Hx ->; lia).
  split; [|split].
  - constructor; cbn [dfs_enter pre count2 lowpt father]; unfold upd.
    + intros x. pose proof (nb_range _ N x). destruct (Nat.eqb x u); lia.
    + intros x y. pose proof (nb_range _ N x). pose proof (nb_range _ N y).
      destruct (Nat.eqb_spec x u) as [->|Hx], (Nat.eqb_spec y u) as [->|Hy];
        try lia; auto. apply (nb_inj _ N).
    + intros c Hc'. destruct (Z.eq_dec c (count2 st)) as [->|Hne].
      * exists u. now rewrite Nat.eqb_refl.
      * destruct (nb_onto _ N c) as [x Hx]; [lia|]. exists x.
        destruct (Nat.eqb_spec x u) as [->|_]; [lia|exact Hx].
    + intros x. pose proof (nb_low _ N x). destruct (Nat.eqb x u); lia.
    + intros x p. destruct (Nat.eqb_spec x u) as [->|Hx].
      * intros ->. pose proof (Hv p eq_refl) as Hp. pose proof (nb_range _ N p).
        destruct (Nat.eqb_spec p u) as [->|_]; lia.
      * intros Hf. pose proof (nb_father _ N x p Hf) as Hp.
        destruct (Nat.eqb_spec p u) as [->|_]; lia.
  - split; cbn [dfs_enter pre count2]; [|lia].
    intros x Hx. unfold upd. pose proof (Hother x Hx) as Hne.
    apply Nat.eqb_neq in Hne. now rewrite Hne.
  - cbn [dfs_enter pre]. apply upd_same.
Qed.

Lemma numbering_set_lowpt (st : dfs_state) (w : node) (x : Z) :
  numbering st -> 0 <= x -> (0 <= pre st w -> x <= pre st w) ->
  numbering (set_lowpt st w x).
Proof.
  intros N H0 H1. constructor; cbn [set_lowpt pre count2 lowpt father];
    try (now destruct N).
  intros y. unfold upd. pose proof (nb_low _ N y).
  destruct (Nat.eqb_spec y w) as [->|_]; lia.
Qed.

Lemma keeps_refl st : keeps_numbers st st.
Proof. split; [auto|lia]. Qed.

Lemma keeps_trans st1 st2 st3 :
  keeps_numbers st1 st2 -> keeps_numbers st2 st3 -> keeps_numbers st1 st3.
Proof.
  intros [A1 B1] [A2 B2]. split; [|lia].
  intros x Hx. rewrite A2; rewrite A1; auto.
Qed.

Lemma keeps_same st st' :
  pre st' = pre st -> count2 st' = count2 st -> keeps_numbers st st'.
Proof. intros E1 E2. split; [now rewrite E1|rewrite E2; lia]. Qed.

Lemma absorb_or_extend_num st w u Pw Pu st' Pw' Pu' :
  numbering st -> 0 <= pre st w ->
  absorb_or_extend st w u Pw Pu = Ret (st', Pw', Pu') ->
  numbering st' /\ keeps_numbers st st'.
Proof.
  intros N Hw E. unfold absorb_or_extend in E.
  destruct (Z.leb_spec (lowpt st w) (lowpt st u)) as [Hl|Hl].
  - destruct (AbsorbPath (gr st) (sigma st) (w :: Pu)) as [[[G' s'] P1]| |];
      try discriminate.
    cbn [bind] in E. destruct P1; [|discriminate]. injection E as <- _ _.
    split; [now apply (numbering_same st)|now apply keeps_same].
  - destruct (AbsorbPath (gr (set_lowpt st w (lowpt st u)))
                         (sigma (set_lowpt st w (lowpt st u))) Pw)
      as [[[G' s'] P1]| |]; try discriminate.
    cbn [bind] in E. destruct P1; [|discriminate]. injection E as <- _ _.
    split; [|now apply keeps_same].
    apply (numbering_same (set_lowpt st w (lowpt st u))); try reflexivity.
    pose proof (nb_low _ N u). pose proof (nb_low _ N w).
    apply numbering_set_lowpt; [exact N|lia|lia].
Qed.

Lemma back_edge_num st w u Pw st' Pw' :
  numbering st -> 0 <= pre st w -> 0 <= pre st u ->
  back_edge st w u Pw = Ret (st', Pw') ->
  numbering st' /\ keeps_numbers st st'.
Proof.
  intros N Hw Hu E. unfold back_edge in E.
  pose proof (nb_low _ N w) as Lw.
  destruct (Z.ltb_spec (pre st u) (pre st w)) as [H1|H1].
  - destruct (Z.ltb_spec (pre st u) (lowpt st w)) as [H2|H2].
    + destruct (AbsorbPath (gr st) (sigma st) Pw) as [[[G' s'] P1]| |];
        try discriminate.
      cbn [bind] in E. injection E as <- _.
      split; [|now apply keeps_same].
      apply numbering_set_lowpt; cbn [set_gr_sigma pre]; try lia.
      now apply (numbering_same st).
    + injection E as <- _. split; [exact N|apply keeps_refl].
  - assert (K : forall st1 Pw1,
                pre st1 = pre st -> count2 st1 = count2 st -> lowpt st1 = lowpt st ->
                father st1 = father st ->
                (if pre st1 u <? lowpt st1 w
                 then Ret (set_lowpt st1 w (pre st1 u), Pw1)
                 else Ret (st1, Pw1)) = Ret (st', Pw') ->
                numbering st' /\ keeps_numbers st st').
    { intros st1 Pw1 E1 E2 E3 E4 E5.
      assert (N1 : numbering st1) by now apply (numbering_same st).
      rewrite E1, E3 in E5.
      destruct (Z.ltb_spec (pre st u) (lowpt st w)) as [H2|H2]; injection E5 as <- _.
      - split; [|now apply keeps_same].
        apply numbering_set_lowpt; [exact N1|lia|rewrite E1; lia].
      - split; [exact N1|now apply keeps_same]. }
    destruct (pre st u >? pre st w).
    + destruct (AbsorbPath2 (gr st) (sigma st) Pw w u) as [[[G' s'] P1]| |];
        try discriminate.
      cbn [bind] in E.
      exact (K (set_gr_sigma st G' s') P1 eq_refl eq_refl eq_refl eq_refl E).
    + cbn [bind] in E. exact (K st Pw eq_refl eq_refl eq_refl eq_refl E).
Qed.

Lemma triedge_scan_num fuel :
  forall st w v Pw Pu ewu st' Pw',
    numbering st -> 0 <= pre st w ->
    triedge_scan fuel st w v Pw Pu ewu = Ret (st', Pw') ->
    numbering st' /\ keeps_numbers st st'.
Proof.
  induction fuel as [|fuel IH]; intros st w v Pw Pu ewu st' Pw' N Hw E;
    destruct ewu as [e|]; cbn [triedge_scan] in E; try discriminate;
    try (injection E as <- _; split; [exact N|apply keeps_refl]).
  destruct (is_hidden (gr st) e); [exact (IH _ _ _ _ _ _ _ _ N Hw E)|].
  destruct (is_parent (opposite (gr st) w e) v); [exact (IH _ _ _ _ _ _ _ _ N Hw E)|].
  destruct (Nat.eqb (opposite (gr st) w e) w).
  { injection E as <- _. split; [now apply (numbering_same st)|now apply keeps_same]. }
  destruct (degree (gr st) (opposite (gr st) w e) <? 2)%nat;
    [exact (IH _ _ _ _ _ _ _ _ N Hw E)|].
  set (u := opposite (gr st) w e) in *.
  destruct (Z.ltb_spec (pre st u) 0) as [Hu|Hu].
  - destruct (numbering_enter st u (Some w) N Hu) as (N0 & K0 & P0).
    { intros w' Ew. injection Ew as <-. exact Hw. }
    destruct (triedge_scan fuel (dfs_enter st u (Some w)) u (Some w) (u :: Pu) []
                           (First_Inout_Edge (gr st) u)) as [[st1 Pu1]| |] eqn:E1;
      try discriminate.
    cbn [bind] in E.
    destruct (IH _ _ _ _ _ _ _ _ N0 ltac:(rewrite P0; pose proof (nb_range _ N u); lia) E1)
      as [N1 K1].
    pose proof (keeps_trans _ _ _ K0 K1) as K01.
    match type of E with
    | bind ?c _ = _ => destruct c as [[G2 Pu2]| |] eqn:E2; try discriminate
    end.
    cbn [bind] in E.
    destruct (absorb_or_extend (set_gr st1 G2) w u Pw Pu2) as [[[st3 Pw3] Pu3]| |] eqn:E3;
      try discriminate.
    cbn [bind] in E.
    assert (Hw1 : 0 <= pre st1 w) by (rewrite (proj1 K01 w Hw); exact Hw).
    destruct (absorb_or_extend_num (set_gr st1 G2) w u Pw Pu2 _ _ _
                (numbering_same st1 (set_gr st1 G2) eq_refl eq_refl eq_refl eq_refl N1)
                Hw1 E3)
      as [N3 K3].
    assert (K13 : keeps_numbers st1 st3).
    { apply (keeps_trans _ (set_gr st1 G2)); [now apply keeps_same|exact K3]. }
    destruct (IH _ _ _ _ _ _ _ _ N3 ltac:(rewrite (proj1 K13 w Hw1); exact Hw1) E)
      as [N4 K4].
    split; [exact N4|].
    exact (keeps_trans _ _ _ K01 (keeps_trans _ _ _ K13 K4)).
  - destruct (back_edge st w u Pw) as [[st1 Pw1]| |] eqn:E1; try discriminate.
    cbn [bind] in E.
    destruct (back_edge_num _ _ _ _ _ _ N Hw Hu E1) as [N1 K1].
    destruct (IH _ _ _ _ _ _ _ _ N1 ltac:(rewrite (proj1 K1 w Hw); exact Hw) E)
      as [N2 K2].
    split; [exact N2|exact (keeps_trans _ _ _ K1 K2)].
Qed.

Lemma numbering_init (H : graph) : numbering (init_state H).
Proof.
  constructor; cbn [init_state pre count2 lowpt father].
  - intros x. lia.
  - intros x y Hx. lia.
  - intros c Hc. lia.
  - intros x. lia.
  - intros x p Hp. discriminate.
Qed.

(** X14.  The search numbers the vertices in the order in which it enters
    them.  From a state whose numbering is sound, at an unnumbered vertex
    [r] whose parent (if any) is numbered: when [triedge_dfs] returns, the
    numbered vertices carry the numbers [0 .. count2 - 1], each number once;
    [r] has the number that [count2] had at the call; vertices numbered
    before keep their numbers; [lowpt[x]] is never negative and at most
    [pre[x]] for a numbered [x]; and every recorded father is numbered
    before its child. *)
Theorem search_numbers_in_preorder
        (fuel : nat) (st : dfs_state) (r : node) (v : option node) (Pw : path)
        (st' : dfs_state) (Pw' : path) :
  numbering st -> pre st r < 0 ->
  (forall w, v = Some w -> 0 <= pre st w) ->
  triedge_dfs fuel st r v Pw = Ret (st', Pw') ->
  numbering st' /\ keeps_numbers st st' /\ pre st' r = count2 st.
Proof.
  intros N Hr Hv E. unfold triedge_dfs in E.
  destruct (numbering_enter st r v N Hr Hv) as (N0 & K0 & P0).
  pose proof (nb_range _ N r) as Hc.
  assert (H0 : 0 <= pre (dfs_enter st r v) r) by (rewrite P0; lia).
  destruct (triedge_scan_num _ _ _ _ _ _ _ _ _ N0 H0 E) as [N1 K1].
  split; [exact N1|]. split; [exact (keeps_trans _ _ _ K0 K1)|].
  now rewrite (proj1 K1 r H0).
Qed.

Lemma search_numbers_in_preorder_witness :
  exists st' Pw',
    triedge_dfs 100 (init_state G_K4) 0%nat None [] = Ret (st', Pw')
    /\ numbering st' /\ keeps_numbers (init_state G_K4) st'
    /\ pre st' 0%nat = count2 (init_state G_K4).
Proof.
  do 2 eexists. split; [vm_compute; reflexivity|].
  eapply (search_numbers_in_preorder 100 (init_state G_K4) 0%nat None []).
  - apply numbering_init.
  - reflexivity.
  - intros w Hw. discriminate Hw.
  - vm_compute. reflexivity.
Defined.

(** * What the search does to the graph *)

Lemma frame_refl G : wf_graph G -> search_frame G G.
Proof. intros W. constructor; auto. Qed.

Lemma frame_trans G1 G2 G3 :
  search_frame G1 G2 -> search_frame G2 G3 -> search_frame G1 G3.
Proof.
  intros A B. constructor.
  - exact (sf_wf _ _ B).
  - now rewrite (sf_nodes _ _ B), (sf_nodes _ _ A).
  - now rewrite (sf_list _ _ B), (sf_list _ _ A).
  - now rewrite (sf_info _ _ B), (sf_info _ _ A).
  - now rewrite (sf_einfo _ _ B), (sf_einfo _ _ A).
  - intros e He. destruct (sf_mono _ _ A e He) as [H1 E1].
    destruct (sf_mono _ _ B e H1) as [H2 E2]. split; [exact H2|congruence].
Qed.

Lemma frame_hide G e : wf_graph G -> search_frame G (hide_edge G e).
Proof.
  intros W. constructor; try reflexivity; [now apply hide_edge_wf|].
  intros e' He'. cbn [hide_edge hidden ends]. unfold upd.
  destruct (Nat.eqb e' e); auto.
Qed.

Lemma frame_move G e u v :
  wf_graph G -> hidden G e = false -> In e (edge_list G) ->
  search_frame G (move_edge G e u v).
Proof.
  intros W Hv Hl. constructor; try reflexivity; [now apply move_edge_wf|].
  intros e' He'. cbn [move_edge hidden]. split; [exact He'|].
  apply move_edge_ends_other. congruence.
Qed.

Lemma absorb_edges_frame n :
  forall fuel G xi xm1 x0 G',
    length (adj G xi) = n -> wf_graph G -> xi <> x0 ->
    absorb_edges fuel G xi xm1 x0 (First_Inout_Edge G xi) = Ret G' ->
    search_frame G G'.
Proof.
  induction n as [|n IH]; intros fuel G xi xm1 x0 G' Hlen W Hx E;
    unfold First_Inout_Edge in E.
  - destruct (adj G xi); [|discriminate]. cbn [hd_error] in E.
    destruct fuel; cbn [absorb_edges] in E; injection E as <-; now apply frame_refl.
  - destruct (adj G xi) as [|e tl] eqn:Ea; [discriminate|]. cbn [hd_error] in E.
    destruct fuel as [|fuel]; [discriminate|]. cbn [absorb_edges] in E.
    assert (Hin : In e (adj G xi)) by (rewrite Ea; now left).
    pose proof (wf_vis _ W _ _ Hin) as Hv. pose proof (wf_listed _ W _ _ Hin) as Hl.
    unfold Succ_Inout_Edge, is_hidden in E. rewrite Ea, succ_in_head, Hv in E.
    injection Hlen as Hlen.
    destruct (Nat.eqb (opposite G xi e) xm1 || Nat.eqb (opposite G xi e) x0) eqn:Hc.
    + rewrite <- (adj_after_hide _ _ _ _ W Ea) in E.
      apply (frame_trans _ (hide_edge G e)); [now apply frame_hide|].
      apply (IH _ _ _ _ _ _ ltac:(now rewrite (adj_after_hide _ _ _ _ W Ea))
                (hide_edge_wf _ _ W) Hx E).
    + apply orb_false_iff in Hc. destruct Hc as [_ Hc]. apply Nat.eqb_neq in Hc.
      destruct (Nat.eqb_spec (source G e) (target G e)) as [|Hne]; [discriminate|].
      assert (Hz : opposite G xi e <> xi).
      { unfold opposite. pose proof (wf_inc _ W _ _ Hin) as Hi.
        destruct (Nat.eqb_spec xi (source G e)); destruct Hi; congruence. }
      assert (Ha : adj (move_edge G e x0 (opposite G xi e)) xi = tl)
        by (apply adj_after_move; auto).
      rewrite <- Ha in E.
      apply (frame_trans _ (move_edge G e x0 (opposite G xi e)));
        [now apply frame_move|].
      apply (IH _ _ _ _ _ _ ltac:(now rewrite Ha) (move_edge_wf _ _ _ _ W Hv Hl) Hx E).
Qed.

Lemma absorb2_edges_frame n :
  forall fuel G xi xm1 x0 G',
    length (adj G xi) = n -> wf_graph G -> xi <> x0 ->
    absorb2_edges fuel G xi xm1 x0 (First_Inout_Edge G xi) = Ret G' ->
    search_frame G G'.
Proof.
  induction n as [|n IH]; intros fuel G xi xm1 x0 G' Hlen W Hx E;
    unfold First_Inout_Edge in E.
  - destruct (adj G xi); [|discriminate]. cbn [hd_error] in E.
    destruct fuel; cbn [absorb2_edges] in E; injection E as <-; now apply frame_refl.
  - destruct (adj G xi) as [|e tl] eqn:Ea; [discriminate|]. cbn [hd_error] in E.
    destruct fuel as [|fuel]; [discriminate|]. cbn [absorb2_edges] in E.
    assert (Hin : In e (adj G xi)) by (rewrite Ea; now left).
    pose proof (wf_vis _ W _ _ Hin) as Hv. pose proof (wf_listed _ W _ _ Hin) as Hl.
    unfold Succ_Inout_Edge, is_hidden in E. rewrite Ea, succ_in_head, Hv in E.
    injection Hlen as Hlen.
    destruct (Nat.eqb (opposite G xi e) xm1 || Nat.eqb (opposite G xi e) x0) eqn:Hc.
    + rewrite <- (adj_after_hide _ _ _ _ W Ea) in E.
      apply (frame_trans _ (hide_edge G e)); [now apply frame_hide|].
      apply (IH _ _ _ _ _ _ ltac:(now rewrite (adj_after_hide _ _ _ _ W Ea))
                (hide_edge_wf _ _ W) Hx E).
    + apply orb_false_iff in Hc. destruct Hc as [_ Hc]. apply Nat.eqb_neq in Hc.
      destruct (Nat.eqb_spec (source G e) (target G e)) as [|Hne]; [discriminate|].
      assert (Hz : opposite G xi e <> xi).
      { unfold opposite. pose proof (wf_inc _ W _ _ Hin) as Hi.
        destruct (Nat.eqb_spec xi (source G e)); destruct Hi; congruence. }
      assert (Ha : adj (move_edge G e x0 (opposite G xi e)) xi = tl)
        by (apply adj_after_move; auto).
      rewrite <- Ha in E.
      apply (frame_trans _ (move_edge G e x0 (opposite G xi e)));
        [now apply frame_move|].
      apply (IH _ _ _ _ _ _ ltac:(now rewrite Ha) (move_edge_wf _ _ _ _ W Hv Hl) Hx E).
Qed.

Lemma absorb_while_frame fuel :
  forall x0 G sg P xm1 G' sg' P',
    wf_graph G -> absorb_while fuel x0 G sg P xm1 = Ret (G', sg', P') ->
    search_frame G G'.
Proof.
  induction fuel as [|fuel IH]; intros x0 G sg P xm1 G' sg' P' W E;
    cbn [absorb_while] in E; destruct (Nat.eqb_spec xm1 x0) as [->|Hx];
    try discriminate; try (injection E as <- _ _; now apply frame_refl).
  destruct (Pop P) as [[y P1]|]; [|discriminate].
  destruct (absorb_edges (S (degree G xm1)) G xm1 y x0 (First_Inout_Edge G xm1))
    as [G1| |] eqn:E1; try discriminate.
  cbn [bind] in E.
  pose proof (absorb_edges_frame _ _ _ _ _ _ _ eq_refl W Hx E1) as F1.
  exact (frame_trans _ _ _ F1 (IH _ _ _ _ _ _ _ _ (sf_wf _ _ F1) E)).
Qed.

Lemma AbsorbPath_frame G sg P G' sg' P' :
  wf_graph G -> AbsorbPath G sg P = Ret (G', sg', P') -> search_frame G G'.
Proof.
  intros W E. unfold AbsorbPath in E.
  destruct P as [|x0 tl]; [injection E as <- _ _; now apply frame_refl|].
  destruct (Pop (x0 :: tl)) as [[xm1 P1]|]; [|discriminate].
  destruct P1; [injection E as <- _ _; now apply frame_refl|].
  exact (absorb_while_frame _ _ _ _ _ _ _ _ _ W E).
Qed.

Lemma absorb2_while_frame fuel :
  forall x0 G sg P i xm1 G' sg' P',
    wf_graph G -> absorb2_while fuel x0 x0 G sg P i xm1 = Ret (G', sg', P') ->
    search_frame G G'.
Proof.
  induction fuel as [|fuel IH]; intros x0 G sg P i xm1 G' sg' P' W E;
    cbn [absorb2_while] in E; destruct (Nat.eqb_spec xm1 x0) as [->|Hx];
    try discriminate; try (injection E as <- _ _; now apply frame_refl).
  destruct i as [|j]; [injection E as <- _ _; now apply frame_refl|].
  destruct (absorb2_edges (S (degree G xm1)) G xm1 (nth j P 0%nat) x0
                          (First_Inout_Edge G xm1)) as [G1| |] eqn:E1;
    try discriminate.
  cbn [bind] in E.
  pose proof (absorb2_edges_frame _ _ _ _ _ _ _ eq_refl W Hx E1) as F1.
  exact (frame_trans _ _ _ F1 (IH _ _ _ _ _ _ _ _ _ (sf_wf _ _ F1) E)).
Qed.

Lemma AbsorbPath2_frame G sg P u v G' sg' P' :
  wf_graph G -> AbsorbPath2 G sg P u v = Ret (G', sg', P') -> search_frame G G'.
Proof.
  intros W E. unfold AbsorbPath2 in E.
  destruct P as [|x0 tl]; [injection E as <- _ _; now apply frame_refl|].
  destruct (Nat.eqb_spec x0 u) as [->|]; [|discriminate]. cbn [negb] in E.
  destruct (find_back (u :: tl) v (length (u :: tl))) as [i|];
    [|injection E as <- _ _; now apply frame_refl].
  exact (absorb2_while_frame _ _ _ _ _ _ _ _ _ _ W E).
Qed.

Lemma contract_deg2_frame G w u ewu Pu G' Pu' :
  wf_graph G -> contract_deg2 G w u ewu Pu = Ret (G', Pu') -> search_frame G G'.
Proof.
  intros W E. unfold contract_deg2 in E.
  pose proof (hide_edge_wf _ ewu W) as W1.
  unfold first_adj_edge in E.
  destruct (adj (hide_edge G ewu) u) as [|euz tl] eqn:Ea; [discriminate|].
  cbn [hd_error] in E.
  destruct (Nat.eqb u (opposite (hide_edge G ewu) u euz)); [discriminate|].
  destruct Pu as [|x Pu1]; [discriminate|].
  destruct (negb (Nat.eqb x u)); [discriminate|]. injection E as <- _.
  assert (Hin : In euz (adj (hide_edge G ewu) u)) by (rewrite Ea; now left).
  apply (frame_trans _ (hide_edge G ewu)); [now apply frame_hide|].
  apply frame_move; [exact W1|exact (wf_vis _ W1 _ _ Hin)|exact (wf_listed _ W1 _ _ Hin)].
Qed.

Lemma absorb_or_extend_frame st w u Pw Pu st' Pw' Pu' :
  wf_graph (gr st) ->
  absorb_or_extend st w u Pw Pu = Ret (st', Pw', Pu') ->
  search_frame (gr st) (gr st').
Proof.
  intros W E. unfold absorb_or_extend in E.
  destruct (lowpt st w <=? lowpt st u).
  - destruct (AbsorbPath (gr st) (sigma st) (w :: Pu)) as [[[G' s'] P1]| |] eqn:E1;
      try discriminate.
    cbn [bind] in E. destruct P1; [|discriminate]. injection E as <- _ _.
    exact (AbsorbPath_frame _ _ _ _ _ _ W E1).
  - destruct (AbsorbPath (gr (set_lowpt st w (lowpt st u)))
                         (sigma (set_lowpt st w (lowpt st u))) Pw)
      as [[[G' s'] P1]| |] eqn:E1; try discriminate.
    cbn [bind] in E. destruct P1; [|discriminate]. injection E as <- _ _.
    exact (AbsorbPath_frame _ _ _ _ _ _ W E1).
Qed.

Lemma back_edge_frame st w u Pw st' Pw' :
  wf_graph (gr st) ->
  back_edge st w u Pw = Ret (st', Pw') ->
  search_frame (gr st) (gr st').
Proof.
  intros W E. unfold back_edge in E.
  destruct (pre st u <? pre st w).
  - destruct (pre st u <? lowpt st w).
    + destruct (AbsorbPath (gr st) (sigma st) Pw) as [[[G' s'] P1]| |] eqn:E1;
        try discriminate.
      cbn [bind] in E. injection E as <- _.
      exact (AbsorbPath_frame _ _ _ _ _ _ W E1).
    + injection E as <- _. now apply frame_refl.
  - destruct (pre st u >? pre st w).
    + destruct (AbsorbPath2 (gr st) (sigma st) Pw w u) as [[[G' s'] P1]| |] eqn:E1;
        try discriminate.
      cbn [bind] in E. pose proof (AbsorbPath2_frame _ _ _ _ _ _ _ _ W E1) as F.
      destruct (pre (set_gr_sigma st G' s') u <? lowpt (set_gr_sigma st G' s') w);
        injection E as <- _; exact F.
    + cbn [bind] in E. destruct (pre st u <? lowpt st w); injection E as <- _;
        now apply frame_refl.
Qed.

Lemma triedge_scan_frame fuel :
  forall st w v Pw Pu ewu st' Pw',
    wf_graph (gr st) ->
    triedge_scan fuel st w v Pw Pu ewu = Ret (st', Pw') ->
    search_frame (gr st) (gr st').
Proof.
  induction fuel as [|fuel IH]; intros st w v Pw Pu ewu st' Pw' W E;
    destruct ewu as [e|]; cbn [triedge_scan] in E; try discriminate;
    try (injection E as <- _; now apply frame_refl).
  destruct (is_hidden (gr st) e); [exact (IH _ _ _ _ _ _ _ _ W E)|].
  destruct (is_parent (opposite (gr st) w e) v); [exact (IH _ _ _ _ _ _ _ _ W E)|].
  destruct (Nat.eqb (opposite (gr st) w e) w).
  { injection E as <- _. now apply frame_hide. }
  destruct (degree (gr st) (opposite (gr st) w e) <? 2)%nat;
    [exact (IH _ _ _ _ _ _ _ _ W E)|].
  set (u := opposite (gr st) w e) in *.
  destruct (pre st u <? 0).
  - destruct (triedge_scan fuel (dfs_enter st u (Some w)) u (Some w) (u :: Pu) []
                           (First_Inout_Edge (gr st) u)) as [[st1 Pu1]| |] eqn:E1;
      try discriminate.
    cbn [bind] in E.
    pose proof (IH (dfs_enter st u (Some w)) _ _ _ _ _ _ _ W E1) as F1.
    cbn [dfs_enter gr] in F1.
    assert (F2 : forall G2 Pu2,
               (if (degree (gr st1) u =? 2)%nat
                then contract_deg2 (gr st1) w u e Pu1
                else Ret (gr st1, Pu1)) = Ret (G2, Pu2) ->
               search_frame (gr st1) G2).
    { intros G2 Pu2 E2. destruct (degree (gr st1) u =? 2)%nat.
      - exact (contract_deg2_frame _ _ _ _ _ _ _ (sf_wf _ _ F1) E2).
      - injection E2 as <- _. exact (frame_refl _ (sf_wf _ _ F1)). }
    match type of E with
    | bind ?c _ = _ => destruct c as [[G2 Pu2]| |] eqn:E2; try discriminate
    end.
    cbn [bind] in E. specialize (F2 _ _ eq_refl).
    destruct (absorb_or_extend (set_gr st1 G2) w u Pw Pu2) as [[[st3 Pw3] Pu3]| |] eqn:E3;
      try discriminate.
    cbn [bind] in E.
    pose proof (absorb_or_extend_frame (set_gr st1 G2) _ _ _ _ _ _ _ (sf_wf _ _ F2) E3)
      as F3.
    cbn [set_gr gr] in F3.
    pose proof (IH _ _ _ _ _ _ _ _ (sf_wf _ _ F3) E) as F4.
    exact (frame_trans _ _ _ F1 (frame_trans _ _ _ F2 (frame_trans _ _ _ F3 F4))).
  - destruct (back_edge st w u Pw) as [[st1 Pw1]| |] eqn:E1; try discriminate.
    cbn [bind] in E.
    pose proof (back_edge_frame _ _ _ _ _ _ W E1) as F1.
    exact (frame_trans _ _ _ F1 (IH _ _ _ _ _ _ _ _ (sf_wf _ _ F1) E)).
Qed.

(** X15.  The search only hides and moves visible edges.  When
    [triedge_dfs] returns on a well-formed graph, the graph is still well
    formed; its vertices, its edge arena and the labels of vertices and
    edges are unchanged; every edge that was hidden is still hidden and has
    the endpoints it had; and the number of visible edges has not grown. *)
Theorem search_only_hides_and_moves
        (fuel : nat) (st : dfs_state) (r : node) (v : option node) (Pw : path)
        (st' : dfs_state) (Pw' : path) :
  wf_graph (gr st) ->
  triedge_dfs fuel st r v Pw = Ret (st', Pw') ->
  search_frame (gr st) (gr st')
  /\ (number_of_edges (gr st') <= number_of_edges (gr st))%nat.
Proof.
  intros W E. unfold triedge_dfs in E.
  pose proof (triedge_scan_frame _ (dfs_enter st r v) _ _ _ _ _ _ _ W E) as F.
  cbn [dfs_enter gr] in F.
  split; [exact F|].
  unfold number_of_edges, edges. rewrite (sf_list _ _ F).
  apply filter_length_le. intros e He.
  destruct (hidden (gr st) e) eqn:H0; [|reflexivity].
  destruct (sf_mono _ _ F e H0) as [H1 _]. now rewrite H1 in He.
Qed.

Lemma search_only_hides_and_moves_witness :
  exists st' Pw',
    triedge_dfs 100 (init_state G_K4) 0%nat None [] = Ret (st', Pw')
    /\ search_frame (gr (init_state G_K4)) (gr st')
    /\ (number_of_edges (gr st') <= number_of_edges (gr (init_state G_K4)))%nat.
Proof.
  do 2 eexists. split; [vm_compute; reflexivity|].
  eapply (search_only_hides_and_moves 100 (init_state G_K4) 0%nat None []).
  - exact (proj1 (graph_of_wf 4 _)).
  - vm_compute. reflexivity.
Defined.

(** * The paths of the search *)

Lemma del_item_NoDup i : forall P : path, NoDup P -> NoDup (del_item i P).
Proof.
  induction i as [|i IH]; intros [|x P] N; cbn [del_item]; auto.
  - now inversion N.
  - inversion N as [|? ? Hn N']; subst. constructor; [|now apply IH].
    intros H. apply Hn. exact (del_item_incl i P x H).
Qed.

Lemma absorb2_while_sub fuel :
  forall u x0 G sg P i xm1 G' sg' P' w t,
    P = w :: t ->
    absorb2_while fuel u x0 G sg P i xm1 = Ret (G', sg', P') ->
    exists t', P' = w :: t' /\ incl t' t /\ (NoDup P -> NoDup P').
Proof.
  induction fuel as [|fuel IH]; intros u x0 G sg P i xm1 G' sg' P' w t EP E;
    cbn [absorb2_while] in E; destruct (Nat.eqb xm1 u); try discriminate;
    try (injection E as _ _ <-; exists t; subst P; auto using incl_refl).
  destruct i as [|j]; [injection E as _ _ <-; exists t; subst P; auto using incl_refl|].
  destruct (absorb2_edges (S (degree G xm1)) G xm1 (nth j P 0%nat) x0
                          (First_Inout_Edge G xm1)) as [G1| |]; try discriminate.
  cbn [bind] in E. subst P. cbn [del_item] in E.
  destruct (IH _ _ _ _ _ _ _ _ _ _ w (del_item j t) eq_refl E) as (t' & E' & I' & N').
  exists t'. split; [exact E'|]. split.
  - intros x Hx. exact (del_item_incl j t x (I' x Hx)).
  - intros N. apply N'. exact (del_item_NoDup (S j) (w :: t) N).
Qed.

Lemma AbsorbPath2_sub G sg w t u v G' sg' P' :
  AbsorbPath2 G sg (w :: t) u v = Ret (G', sg', P') ->
  exists t', P' = w :: t' /\ incl t' t /\ (NoDup (w :: t) -> NoDup P').
Proof.
  intros E. unfold AbsorbPath2 in E.
  destruct (negb (Nat.eqb w u)); [discriminate|].
  destruct (find_back (w :: t) v (length (w :: t))) as [i|].
  - exact (absorb2_while_sub _ _ _ _ _ _ _ _ _ _ _ w t eq_refl E).
  - injection E as _ _ <-. exists t. auto using incl_refl.
Qed.

Lemma path_ok_keeps st st' w Pw :
  0 <= pre st w -> keeps_numbers st st' -> path_ok st w Pw -> path_ok st' w Pw.
Proof.
  intros Hw [K _] (t & E & N & Hp). exists t. split; [exact E|]. split; [exact N|].
  intros x Hx. pose proof (Hp x Hx). rewrite (K w Hw), (K x); lia.
Qed.

Lemma path_ok_sub st w t t' :
  path_ok st w (w :: t) -> incl t' t -> NoDup (w :: t') -> path_ok st w (w :: t').
Proof.
  intros (t0 & E & N & Hp) I N'. injection E as <-.
  exists t'. split; [reflexivity|]. split; [exact N'|]. intros x Hx. apply Hp, I, Hx.
Qed.

Lemma path_ok_single st w : path_ok st w [w].
Proof.
  exists []. split; [reflexivity|]. split; [repeat constructor; intros []|intros x []].
Qed.

Lemma back_edge_path st w u Pw st' Pw' :
  numbering st -> 0 <= pre st w -> 0 <= pre st u -> path_ok st w Pw ->
  back_edge st w u Pw = Ret (st', Pw') -> path_ok st' w Pw'.
Proof.
  intros N Hw Hu PO E.
  destruct (back_edge_num _ _ _ _ _ _ N Hw Hu E) as [_ K].
  unfold back_edge in E.
  destruct (pre st u <? pre st w).
  - destruct (pre st u <? lowpt st w).
    + destruct (AbsorbPath (gr st) (sigma st) Pw) as [[[G' s'] P1]| |];
        try discriminate.
      cbn [bind] in E. injection E as _ <-. apply path_ok_single.
    + injection E as _ <-. exact (path_ok_keeps _ _ _ _ Hw K PO).
  - destruct (pre st u >? pre st w).
    + destruct (AbsorbPath2 (gr st) (sigma st) Pw w u) as [[[G' s'] P1]| |] eqn:E1;
        try discriminate.
      cbn [bind] in E.
      assert (EP : Pw' = P1).
      { destruct (pre (set_gr_sigma st G' s') u <? lowpt (set_gr_sigma st G' s') w);
          now injection E as _ <-. }
      subst Pw'. destruct PO as (t & -> & Nd & Hp).
      destruct (AbsorbPath2_sub _ _ _ _ _ _ _ _ _ E1) as (t' & -> & I' & N').
      apply (path_ok_keeps st); auto.
      apply (path_ok_sub _ _ t); auto. exists t. auto.
    + cbn [bind] in E.
      assert (EP : Pw' = Pw) by (destruct (pre st u <? lowpt st w); now injection E as _ <-).
      subst Pw'. exact (path_ok_keeps _ _ _ _ Hw K PO).
Qed.

Lemma absorb_or_extend_path st w u Pw Pu st' Pw' Pu' :
  numbering st -> 0 <= pre st w -> path_ok st w Pw ->
  NoDup Pu -> (forall x, In x Pu -> pre st w < pre st x) ->
  absorb_or_extend st w u Pw Pu = Ret (st', Pw', Pu') ->
  path_ok st' w Pw' /\ Pu' = [].
Proof.
  intros N Hw PO Nu Hu E.
  destruct (absorb_or_extend_num _ _ _ _ _ _ _ _ N Hw E) as [_ K].
  unfold absorb_or_extend in E.
  destruct (lowpt st w <=? lowpt st u).
  - destruct (AbsorbPath (gr st) (sigma st) (w :: Pu)) as [[[G' s'] P1]| |];
      try discriminate.
    cbn [bind] in E. destruct P1; [|discriminate]. injection E as _ <- <-.
    split; [exact (path_ok_keeps _ _ _ _ Hw K PO)|reflexivity].
  - destruct (AbsorbPath (gr (set_lowpt st w (lowpt st u)))
                         (sigma (set_lowpt st w (lowpt st u))) Pw)
      as [[[G' s'] P1]| |]; try discriminate.
    cbn [bind] in E. destruct P1; [|discriminate]. injection E as _ <- <-.
    split; [|reflexivity]. cbn [app].
    apply (path_ok_keeps st); auto.
    exists Pu. split; [reflexivity|]. split; [|exact Hu].
    constructor; [|exact Nu]. intros Hin. pose proof (Hu w Hin). lia.
Qed.

Lemma contract_deg2_path G w u ewu Pu G' Pu' :
  contract_deg2 G w u ewu Pu = Ret (G', Pu') -> Pu = u :: Pu'.
Proof.
  unfold contract_deg2. destruct (first_adj_edge (hide_edge G ewu) u); [|discriminate].
  destruct (Nat.eqb u _); [discriminate|].
  destruct Pu as [|x Pu1]; [discriminate|].
  destruct (Nat.eqb_spec x u) as [->|]; [|discriminate]. cbn [negb].
  intros E. now injection E as _ <-.
Qed.

Lemma triedge_scan_path fuel :
  forall st w v Pw ewu st' Pw',
    numbering st -> 0 <= pre st w -> path_ok st w Pw ->
    triedge_scan fuel st w v Pw [] ewu = Ret (st', Pw') ->
    path_ok st' w Pw'.
Proof.
  induction fuel as [|fuel IH]; intros st w v Pw ewu st' Pw' N Hw PO E;
    destruct ewu as [e|]; cbn [triedge_scan] in E; try discriminate;
    try (injection E as <- <-; exact PO).
  destruct (is_hidden (gr st) e); [exact (IH _ _ _ _ _ _ _ N Hw PO E)|].
  destruct (is_parent (opposite (gr st) w e) v); [exact (IH _ _ _ _ _ _ _ N Hw PO E)|].
  destruct (Nat.eqb (opposite (gr st) w e) w).
  { injection E as <- <-. exact PO. }
  destruct (degree (gr st) (opposite (gr st) w e) <? 2)%nat;
    [exact (IH _ _ _ _ _ _ _ N Hw PO E)|].
  set (u := opposite (gr st) w e) in *.
  destruct (Z.ltb_spec (pre st u) 0) as [Hu|Hu].
  - destruct (numbering_enter st u (Some w) N Hu) as (N0 & K0 & P0).
    { intros w' Ew. injection Ew as <-. exact Hw. }
    pose proof (nb_range _ N u) as Hc. pose proof (nb_range _ N w) as Hcw.
    assert (H0u : 0 <= pre (dfs_enter st u (Some w)) u) by (rewrite P0; lia).
    destruct (triedge_scan fuel (dfs_enter st u (Some w)) u (Some w) [u] []
                           (First_Inout_Edge (gr st) u)) as [[st1 Pu1]| |] eqn:E1;
      try discriminate.
    cbn [bind] in E.
    destruct (triedge_scan_num _ _ _ _ _ _ _ _ _ N0 H0u E1) as [N1 K1].
    pose proof (IH _ _ _ _ _ _ _ N0 H0u (path_ok_single _ u) E1) as PO1.
    pose proof (keeps_trans _ _ _ K0 K1) as K01.
    assert (Hw1 : 0 <= pre st1 w) by (rewrite (proj1 K01 w Hw); exact Hw).
    assert (Hwu : pre st1 w < pre st1 u).
    { rewrite (proj1 K01 w Hw), (proj1 K1 u H0u), P0. lia. }
    match type of E with
    | bind ?c _ = _ => destruct c as [[G2 Pu2]| |] eqn:E2; try discriminate
    end.
    cbn [bind] in E.
    assert (HPu2 : NoDup Pu2 /\ forall x, In x Pu2 -> pre st1 w < pre st1 x).
    { destruct PO1 as (t & -> & Nd & Hp).
      destruct (degree (gr st1) u =? 2)%nat.
      - apply contract_deg2_path in E2. injection E2 as <-.
        split; [now inversion Nd|]. intros x Hx. pose proof (Hp x Hx). lia.
      - injection E2 as _ <-. split; [exact Nd|].
        intros x [<-|Hx]; [exact Hwu|]. pose proof (Hp x Hx). lia. }
    destruct HPu2 as [Nu2 Hu2].
    destruct (absorb_or_extend (set_gr st1 G2) w u Pw Pu2) as [[[st3 Pw3] Pu3]| |] eqn:E3;
      try discriminate.
    cbn [bind] in E.
    assert (N1' : numbering (set_gr st1 G2))
      by exact (numbering_same st1 (set_gr st1 G2) eq_refl eq_refl eq_refl eq_refl N1).
    destruct (absorb_or_extend_num _ _ _ _ _ _ _ _ N1' Hw1 E3) as [N3 K3].
    destruct (absorb_or_extend_path (set_gr st1 G2) w u Pw Pu2 _ _ _ N1' Hw1
                (path_ok_keeps st _ w Pw Hw K01 PO) Nu2 Hu2 E3) as [PO3 ->].
    apply (IH _ _ _ _ _ _ _ N3 ltac:(rewrite (proj1 K3 w Hw1); exact Hw1) PO3 E).
  - destruct (back_edge st w u Pw) as [[st1 Pw1]| |] eqn:E1; try discriminate.
    cbn [bind] in E.
    destruct (back_edge_num _ _ _ _ _ _ N Hw Hu E1) as [N1 K1].
    pose proof (back_edge_path _ _ _ _ _ _ N Hw Hu PO E1) as PO1.
    apply (IH _ _ _ _ _ _ _ N1 ltac:(rewrite (proj1 K1 w Hw); exact Hw) PO1 E).
Qed.

(** X20.  The path that the search returns.  From a state whose numbering
    is sound, at an unnumbered vertex [r] whose parent (if any) is numbered,
    and with an empty path: when [triedge_dfs] returns, the returned path
    starts with [r], repeats no vertex, and all its other vertices were
    numbered after [r]. *)
Theorem search_returns_a_simple_path
        (fuel : nat) (st : dfs_state) (r : node) (v : option node)
        (st' : dfs_state) (Pw' : path) :
  numbering st -> pre st r < 0 ->
  (forall w, v = Some w -> 0 <= pre st w) ->
  triedge_dfs fuel st r v [] = Ret (st', Pw') ->
  exists t, Pw' = r :: t /\ NoDup Pw' /\ forall x, In x t -> pre st' r < pre st' x.
Proof.
  intros N Hr Hv E. unfold triedge_dfs in E.
  destruct (numbering_enter st r v N Hr Hv) as (N0 & K0 & P0).
  pose proof (nb_range _ N r) as Hc.
  assert (H0 : 0 <= pre (dfs_enter st r v) r) by (rewrite P0; lia).
  exact (triedge_scan_path _ _ _ _ _ _ _ _ N0 H0 (path_ok_single _ r) E).
Qed.

Lemma search_returns_a_simple_path_witness :
  exists st' Pw',
    triedge_dfs 100 (init_state G_K4) 0%nat None [] = Ret (st', Pw')
    /\ exists t, Pw' = 0%nat :: t /\ NoDup Pw'
                 /\ forall x, In x t -> pre st' 0%nat < pre st' x.
Proof.
  do 2 eexists. split; [vm_compute; reflexivity|].
  eapply (search_returns_a_simple_path 100 (init_state G_K4) 0%nat None).
  - apply numbering_init.
  - reflexivity.
  - intros w Hw. discriminate Hw.
  - vm_compute. reflexivity.
Defined.

(** * The reader and the writer *)

(** ** What a successful [read_dim] has read *)

Lemma AA_get_inv (n : nat) (v : Z) (a : node) :
  AA_get (map Some (seq 0 n) ++ [None]) v = Some a ->
  0 <= v <= Z.of_nat n - 1 /\ a = vertex_of 0 v.
Proof.
  unfold AA_get, vertex_of. destruct (Z.ltb_spec v 0) as [|Hv]; [discriminate|].
  rewrite Z.sub_0_r. intros E.
  destruct (Nat.lt_ge_cases (Z.to_nat v) n) as [Hn|Hn].
  - rewrite app_nth1 in E by now rewrite length_map, length_seq.
    rewrite (nth_indep _ None (Some 0%nat)) in E by now rewrite length_map, length_seq.
    rewrite map_nth, seq_nth in E by assumption. simpl in E.
    injection E as <-. split; [lia|reflexivity].
  - rewrite app_nth2 in E by now rewrite length_map, length_seq.
    rewrite length_map, length_seq in E.
    destruct (Z.to_nat v - n)%nat as [|[|k]]; discriminate.
Qed.

Lemma flatten_app (p q : list (Z * Z)) : flatten (p ++ q) = flatten p ++ flatten q.
Proof. unfold flatten. apply flat_map_app. Qed.

Lemma flatten_length (p : list (Z * Z)) : length (flatten p) = (2 * length p)%nat.
Proof. induction p as [|[v w] p IH]; simpl; [reflexivity|]. simpl in IH. lia. Qed.

(** A successful [read_edges] has made [s] edges, each from a pair of
    indices of filled cells of [AA] (the graph so far is the one that the
    pairs [done] denote).  The numbers of the pairs are those of the stream
    as long as it lasts; from then on each number is the one that was in
    the same variable one round before. *)
Lemma read_edges_inv (n : nat) :
  forall s toks v w done G G',
    denotes 0 n done G ->
    read_edges s toks v w (map Some (seq 0 n) ++ [None]) G = Some G' ->
    exists pairs,
      length pairs = s
      /\ in_range 0 (Z.of_nat n - 1) pairs
      /\ denotes 0 n (done ++ pairs) G'
      /\ (forall j, (j < 2 * s)%nat -> (j < length toks)%nat ->
                    nth j (flatten pairs) 0 = nth j toks 0)
      /\ (forall j, (j < 2 * s)%nat -> (length toks <= j)%nat ->
                    match j with
                    | O => v = Some (nth 0 (flatten pairs) 0)
                    | S O => w = Some (nth 1 (flatten pairs) 0)
                    | S (S i) => nth j (flatten pairs) 0 = nth i (flatten pairs) 0
                    end).
Proof.
  induction s as [|s IH]; intros toks v w done G G' D E.
  - injection E as <-. exists []. rewrite app_nil_r.
    split; [reflexivity|]. split; [intros ? ? []|]. split; [exact D|].
    split; intros j Hj; lia.
  - cbn [read_edges] in E.
    destruct (extract_pair toks v w) as [[rest v'] w'] eqn:EX.
    destruct v' as [x|]; [|discriminate]. destruct w' as [y|]; [|discriminate].
    destruct (AA_get (map Some (seq 0 n) ++ [None]) x) as [a|] eqn:Ea; [|discriminate].
    destruct (AA_get (map Some (seq 0 n) ++ [None]) y) as [b|] eqn:Eb; [|discriminate].
    destruct (AA_get_inv _ _ _ Ea) as [Rx ->].
    destruct (AA_get_inv _ _ _ Eb) as [Ry ->].
    destruct (IH rest (Some x) (Some y) (done ++ [(x, y)]) _ G'
                 (denotes_new_edge n done x y G D) E)
      as (pairs & El & R & D' & I1 & I2).
    exists ((x, y) :: pairs).
    split; [simpl; now rewrite El|].
    split.
    { intros v1 w1 [H|H]; [injection H as <- <-; auto|exact (R _ _ H)]. }
    split; [now rewrite <- app_assoc in D'|].
    change (flatten ((x, y) :: pairs)) with (x :: y :: flatten pairs).
    assert (K : forall i, (i < 2 * s)%nat -> (length rest <= i)%nat ->
                          nth i (flatten pairs) 0 = nth i (x :: y :: flatten pairs) 0).
    { intros i Hi Hr. pose proof (I2 i Hi Hr) as H.
      destruct i as [|[|k]]; [now injection H as <-|now injection H as <-|exact H]. }
    destruct toks as [|t1 [|t2 toks']]; cbn [extract_pair] in EX;
      injection EX as <- Ev Ew; cbn [length] in *.
    + split; [intros j _ Hj; lia|].
      intros [|[|i]] Hj _; cbn [nth]; auto. apply K; lia.
    + subst t1.
      split; [intros [|j] _ Hj; [reflexivity|lia]|].
      intros [|[|i]] Hj Hl; cbn [nth]; [lia|auto|]. apply K; lia.
    + subst t1 t2.
      split.
      * intros [|[|i]] Hj Hl; cbn [nth]; auto. apply I1; lia.
      * intros [|[|i]] Hj Hl; cbn [nth]; [lia|lia|]. apply K; lia.
Qed.

(** What a successful [read_dim] has built: the graph that [s] pairs of
    vertex numbers in [0 .. n-1] denote.  The numbers of the pairs are the
    numbers of the body as long as it lasts, and then repeat the numbers of
    the line before. *)
Lemma read_dim_inv (inp : dim_input) (G : graph) :
  read_dim inp = Some G ->
  exists n s rh pairs,
    header inp = Z.of_nat n :: s :: rh
    /\ length pairs = Z.to_nat s /\ in_range 0 (Z.of_nat n - 1) pairs
    /\ denotes 0 n pairs G
    /\ (forall j, (j < 2 * Z.to_nat s)%nat -> (j < length (body inp))%nat ->
                  nth j (flatten pairs) 0 = nth j (body inp) 0)
    /\ (forall j, (j < 2 * Z.to_nat s)%nat -> (length (body inp) <= j)%nat ->
                  (2 <= j)%nat
                  /\ nth j (flatten pairs) 0 = nth (j - 2) (flatten pairs) 0).
Proof.
  unfold read_dim. destruct (header inp) as [|n [|s rh]]; try discriminate.
  destruct (Z.ltb_spec n 0) as [|Hn]; [discriminate|].
  pose proof (make_nodes_spec (Z.to_nat n) empty_graph (@nil (option node)) 0
                              eq_refl eq_refl) as HS.
  destruct (make_nodes (Z.to_nat n) empty_graph []) as [G0 AA] eqn:EM.
  cbn [fst snd] in HS. destruct HS as (H1 & H2 & H3 & H4 & H5 & H6).
  simpl in H1, H2. subst AA. intros E.
  assert (D0 : denotes 0 (Z.to_nat n) [] G0).
  { constructor; auto.
    - intros k Hk. simpl in Hk. lia.
    - intros k v w Hk. destruct k; discriminate.
    - intros x. now rewrite H4. }
  destruct (read_edges_inv _ _ _ _ _ _ _ _ D0 E) as (pairs & El & R & D & I1 & I2).
  exists (Z.to_nat n), s, rh, pairs.
  split; [now rewrite Z2Nat.id by lia|]. split; [exact El|].
  split; [exact R|]. split; [exact D|]. split; [exact I1|].
  intros j Hj Hl. pose proof (I2 j Hj Hl) as H.
  destruct j as [|[|i]]; try discriminate.
  split; [lia|]. now replace (S (S i) - 2)%nat with i by lia.
Qed.

Lemma filter_all {A} (f : A -> bool) (l : list A) :
  (forall x, In x l -> f x = true) -> filter f l = l.
Proof.
  induction l as [|a l IH]; intros H; simpl; [reflexivity|].
  rewrite (H a) by now left. f_equal. apply IH. intros x Hx. apply H. now right.
Qed.

Lemma denotes_edges (n : nat) (pairs : list (Z * Z)) (G : graph) :
  denotes 0 n pairs G -> edges G = seq 0 (length pairs).
Proof.
  intros D. unfold edges. rewrite (dn_edges _ _ _ _ D). apply filter_all.
  intros k Hk. apply in_seq in Hk. rewrite (dn_visible _ _ _ _ D) by lia. reflexivity.
Qed.

Lemma denotes_well_formed (n : nat) (pairs : list (Z * Z)) (G : graph) :
  denotes 0 n pairs G -> in_range 0 (Z.of_nat n - 1) pairs ->
  wf_graph G /\ closed_graph G.
Proof.
  intros D R.
  assert (HI : forall x e, In e (adj G x) ->
                 (e < length pairs)%nat
                 /\ exists v w, nth_error pairs e = Some (v, w)
                                /\ (vertex_of 0 v = x \/ vertex_of 0 w = x)).
  { intros x e Hin. rewrite (dn_adj _ _ _ _ D) in Hin. apply filter_In in Hin.
    destruct Hin as [Hs Hl]. apply in_seq in Hs. split; [lia|].
    unfold line_incident in Hl. destruct (nth_error pairs e) as [[v w]|]; [|discriminate].
    exists v, w. split; [reflexivity|].
    apply orb_true_iff in Hl. destruct Hl as [Hl|Hl]; apply Nat.eqb_eq in Hl; auto. }
  split; constructor.
  - intros x. rewrite (dn_adj _ _ _ _ D). apply NoDup_filter, seq_NoDup.
  - intros x e Hin. destruct (HI _ _ Hin) as [_ (v & w & E & Hx)].
    unfold source, target. rewrite (dn_ends _ _ _ _ D _ _ _ E). exact Hx.
  - intros x e Hin. apply (dn_visible _ _ _ _ D). exact (proj1 (HI _ _ Hin)).
  - intros x e Hin. rewrite (dn_edges _ _ _ _ D). apply in_seq.
    pose proof (proj1 (HI _ _ Hin)). lia.
  - rewrite (dn_edges _ _ _ _ D). apply seq_NoDup.
  - intros e He. rewrite (denotes_edges _ _ _ D) in He. pose proof He as Hs.
    apply in_seq in He.
    destruct (nth_error pairs e) as [[v w]|] eqn:E;
      [|apply nth_error_None in E; lia].
    unfold source, target. rewrite (dn_ends _ _ _ _ D _ _ _ E). cbn [fst snd].
    rewrite !(dn_adj _ _ _ _ D).
    split; apply filter_In; (split; [exact Hs|]); unfold line_incident; rewrite E;
      rewrite Nat.eqb_refl; auto using orb_true_r.
  - intros e He. rewrite (denotes_edges _ _ _ D) in He. apply in_seq in He.
    destruct (nth_error pairs e) as [[v w]|] eqn:E;
      [|apply nth_error_None in E; lia].
    unfold source, target. rewrite (dn_ends _ _ _ _ D _ _ _ E). cbn [fst snd].
    rewrite (dn_nodes _ _ _ _ D).
    destruct (R _ _ (nth_error_In _ _ E)) as [Rv Rw].
    unfold vertex_of. split; apply in_seq; lia.
  - rewrite (dn_nodes _ _ _ _ D). apply seq_NoDup.
Qed.

Lemma flat_map_seq_flatten (f : nat -> list Z) :
  forall (l : list (Z * Z)) (start : nat),
    (forall k p, nth_error l k = Some p -> f (start + k)%nat = [fst p; snd p]) ->
    flat_map f (seq start (length l)) = flatten l.
Proof.
  induction l as [|p l IH]; intros start H; [reflexivity|].
  cbn [length seq flat_map flatten]. rewrite <- (Nat.add_0_r start) at 1.
  rewrite (H 0%nat p eq_refl). cbn [app]. do 2 f_equal.
  apply IH. intros k q Hk. rewrite <- (H (S k) q Hk). f_equal. lia.
Qed.

Lemma write_dim_denotes (n : nat) (pairs : list (Z * Z)) (G : graph) :
  denotes 0 n pairs G -> in_range 0 (Z.of_nat n - 1) pairs ->
  write_dim G = mkInput [Z.of_nat n; Z.of_nat (length pairs)] (flatten pairs).
Proof.
  intros D R. unfold write_dim, number_of_nodes, number_of_edges.
  rewrite (denotes_edges _ _ _ D), (dn_nodes _ _ _ _ D), !length_seq. f_equal.
  apply flat_map_seq_flatten. intros k [v w] Hk. cbn [Nat.add fst snd].
  unfold source, target. rewrite (dn_ends _ _ _ _ D _ _ _ Hk). cbn [fst snd].
  destruct (R _ _ (nth_error_In _ _ Hk)) as [Rv Rw]. unfold vertex_of.
  rewrite !Z2Nat.id by lia. now rewrite !Z.sub_0_r.
Qed.

(** X1.  Every graph that [read_dim] returns is well formed: its adjacency
    lists agree with its edges, every edge lies in the lists of its two
    endpoints, which are vertices of the graph, and no edge is hidden.
    This holds for every input, also when the edge lines run out before
    [s] pairs were read and the loop makes the remaining edges from the
    numbers it read last.  These are the conditions under which the driver
    and the splitter are verified. *)
Theorem read_dim_well_formed (inp : dim_input) (G : graph) :
  read_dim inp = Some G ->
  wf_graph G /\ closed_graph G /\ edges G = edge_list G.
Proof.
  intros E. destruct (read_dim_inv _ _ E) as (n & s & rh & pairs & _ & _ & R & D & _).
  destruct (denotes_well_formed _ _ _ D R) as [W C].
  split; [exact W|]. split; [exact C|].
  now rewrite (denotes_edges _ _ _ D), (dn_edges _ _ _ _ D).
Qed.

Lemma read_dim_well_formed_witness :
  exists G, read_dim (mkInput [3; 3] [0; 1; 2]) = Some G
            /\ wf_graph G /\ closed_graph G /\ edges G = edge_list G.
Proof.
  eexists. split; [reflexivity|].
  apply (read_dim_well_formed (mkInput [3; 3] [0; 1; 2])). reflexivity.
Defined.

(** X2.  [read_dim] succeeds exactly on the texts whose edge lines name
    vertices in [0 .. N-1]: a vertex number that is negative or at least
    [N] indexes a cell of [AA] that holds no vertex, and the run leaves the
    defined behaviour. *)
Theorem read_dim_succeeds_iff_in_range
        (n : nat) (pairs : list (Z * Z)) (rest_header rest_body : list Z) :
  (exists G, read_dim (dim_text n pairs rest_header rest_body) = Some G)
  <-> in_range 0 (Z.of_nat n - 1) pairs.
Proof.
  split.
  - intros [G E]. unfold read_dim, dim_text in E. cbn [header body] in E.
    destruct (Z.ltb_spec (Z.of_nat n) 0); [lia|]. rewrite !Nat2Z.id in E.
    pose proof (make_nodes_spec n empty_graph (@nil (option node)) 0 eq_refl eq_refl)
      as HS.
    destruct (make_nodes n empty_graph []) as [G0 AA] eqn:EM. cbn [fst snd] in HS.
    destruct HS as (_ & H2 & _). simpl in H2. subst AA. clear EM.
    revert E. generalize (@None Z) at 1 as v0. generalize (@None Z) as w0.
    revert G0. induction pairs as [|[v w] pairs IH]; intros G0 w0 v0 E; [intros v w []|].
    cbn [length read_edges extract_pair flatten flat_map fst snd app] in E.
    destruct (AA_get (map Some (seq 0 n) ++ [None]) v) as [a|] eqn:Ea; [|discriminate].
    destruct (AA_get (map Some (seq 0 n) ++ [None]) w) as [b|] eqn:Eb; [|discriminate].
    intros v' w' [Hin|Hin]; [|exact (IH _ _ _ E _ _ Hin)].
    injection Hin as <- <-.
    split; [exact (proj1 (AA_get_inv _ _ _ Ea))|exact (proj1 (AA_get_inv _ _ _ Eb))].
  - intros R. unfold read_dim, dim_text. cbn [header body].
    destruct (Z.ltb_spec (Z.of_nat n) 0); [lia|]. rewrite !Nat2Z.id.
    pose proof (make_nodes_spec n empty_graph (@nil (option node)) 0 eq_refl eq_refl)
      as HS.
    destruct (make_nodes n empty_graph []) as [G0 AA] eqn:EM. cbn [fst snd] in HS.
    destruct HS as (H1 & H2 & H3 & H4 & H5 & H6). simpl in H1, H2. subst AA.
    destruct (read_edges_spec n pairs [] G0 rest_body None None) as [G [E D]]; auto.
    + constructor; auto.
      * intros k Hk. simpl in Hk. lia.
      * intros k v w Hk. destruct k; discriminate.
      * intros x. now rewrite H4.
    + exists G. exact E.
Qed.

(** X3.  Writing back what was read.  When [read_dim] returns a graph for
    an input with header [n s ...], [write_dim] of the graph is the header
    [n s] (a negative [s] is written as 0) followed by [2 s] numbers.  They
    are the numbers of the body as long as the body lasts; where the body
    has run out, a number repeats the number two places before it (the
    last value of the same variable), and there is such a place: when the
    body runs out before the first line is complete, the program indexes
    [AA] by a variable that was never assigned and no graph is returned.
    So when the body holds at least [2 s] numbers, exactly the first [2 s]
    numbers that were read are written. *)
Theorem write_dim_after_read_dim
        (inp : dim_input) (G : graph) (n s : Z) (rest_header : list Z) :
  header inp = n :: s :: rest_header ->
  read_dim inp = Some G ->
  exists out,
    write_dim G = mkInput [n; Z.max 0 s] out
    /\ length out = (2 * Z.to_nat s)%nat
    /\ (forall j, (j < length out)%nat -> (j < length (body inp))%nat ->
                  nth j out 0 = nth j (body inp) 0)
    /\ (forall j, (j < length out)%nat -> (length (body inp) <= j)%nat ->
                  (2 <= j)%nat /\ nth j out 0 = nth (j - 2) out 0)
    /\ ((2 * Z.to_nat s <= length (body inp))%nat ->
        out = firstn (2 * Z.to_nat s) (body inp)).
Proof.
  intros Hh E.
  destruct (read_dim_inv _ _ E) as (n' & s' & rh & pairs & Hh' & Hl & R & D & I1 & I2).
  rewrite Hh' in Hh. injection Hh as <- -> _.
  exists (flatten pairs).
  assert (Hlen : length (flatten pairs) = (2 * Z.to_nat s)%nat)
    by now rewrite flatten_length, Hl.
  split.
  { rewrite (write_dim_denotes _ _ _ D R). do 3 f_equal. lia. }
  split; [exact Hlen|]. rewrite Hlen.
  split; [exact I1|]. split; [exact I2|].
  intros Hb. apply (nth_ext _ _ 0 0).
  - rewrite length_firstn. lia.
  - intros j Hj. rewrite Hlen in Hj. rewrite nth_firstn.
    destruct (Nat.ltb_spec j (2 * Z.to_nat s)); [|lia]. apply I1; lia.
Qed.

Lemma write_dim_after_read_dim_witness :
  exists G, read_dim (mkInput [3; 3; 7] [0; 1; 2]) = Some G
    /\ exists out,
      write_dim G = mkInput [3; Z.max 0 3] out
      /\ length out = (2 * Z.to_nat 3)%nat
      /\ (forall j, (j < length out)%nat -> (j < length [0; 1; 2])%nat ->
                    nth j out 0 = nth j [0; 1; 2] 0)
      /\ (forall j, (j < length out)%nat -> (length [0; 1; 2] <= j)%nat ->
                    (2 <= j)%nat /\ nth j out 0 = nth (j - 2) out 0)
      /\ ((2 * Z.to_nat 3 <= length [0; 1; 2])%nat ->
          out = firstn (2 * Z.to_nat 3) [0; 1; 2]).
Proof.
  eexists. split; [reflexivity|].
  apply (write_dim_after_read_dim (mkInput [3; 3; 7] [0; 1; 2]) _ 3 3 [7]);
    reflexivity.
Defined.

(** X4.  Reading back what was written: for a graph whose visible edges
    have endpoints with ids below the number of vertices, [read_dim] of
    [write_dim G] returns a graph with the same number of vertices, numbered
    from 0, and with one visible edge for every visible edge of [G], in the
    same order and with the same source and target. *)
Theorem read_dim_after_write_dim (G : graph) :
  (forall e, In e (edges G) ->
             (source G e < number_of_nodes G)%nat /\ (target G e < number_of_nodes G)%nat) ->
  exists G',
    read_dim (write_dim G) = Some G'
    /\ all_nodes G' = seq 0 (number_of_nodes G)
    /\ edges G' = seq 0 (number_of_edges G)
    /\ forall k e, nth_error (edges G) k = Some e ->
                   source G' k = source G e /\ target G' k = target G e.
Proof.
  intros Hr.
  set (pairs := map (fun e => (Z.of_nat (source G e), Z.of_nat (target G e))) (edges G)).
  assert (Hw : write_dim G = dim_text (number_of_nodes G) pairs [] []).
  { unfold write_dim, dim_text, pairs. rewrite length_map, app_nil_r. f_equal.
    unfold flatten. now rewrite flat_map_concat_map, flat_map_concat_map, map_map. }
  assert (R : in_range 0 (Z.of_nat (number_of_nodes G) - 1) pairs).
  { intros v w Hin. apply in_map_iff in Hin. destruct Hin as [e [He Hin]].
    injection He as <- <-. destruct (Hr _ Hin). lia. }
  rewrite Hw. unfold read_dim, dim_text. cbn [header body].
  destruct (Z.ltb_spec (Z.of_nat (number_of_nodes G)) 0); [lia|]. rewrite !Nat2Z.id.
  pose proof (make_nodes_spec (number_of_nodes G) empty_graph (@nil (option node)) 0
                              eq_refl eq_refl) as HS.
  destruct (make_nodes (number_of_nodes G) empty_graph []) as [G0 AA] eqn:EM.
  cbn [fst snd] in HS. destruct HS as (H1 & H2 & H3 & H4 & H5 & H6).
  simpl in H1, H2. subst AA.
  destruct (read_edges_spec (number_of_nodes G) pairs [] G0 [] None None) as [G' [E D]]; auto.
  - constructor; auto.
    + intros k Hk. simpl in Hk. lia.
    + intros k v w Hk. destruct k; discriminate.
    + intros x. now rewrite H4.
  - exists G'. split; [exact E|]. simpl app in D.
    split; [exact (dn_nodes _ _ _ _ D)|].
    split.
    + rewrite (denotes_edges _ _ _ D). unfold pairs. now rewrite length_map.
    + intros k e Hk. unfold source at 1, target at 1.
      rewrite (dn_ends _ _ _ _ D k (Z.of_nat (source G e)) (Z.of_nat (target G e))).
      * unfold vertex_of. cbn [fst snd]. rewrite !Z.sub_0_r, !Nat2Z.id. auto.
      * unfold pairs. now rewrite nth_error_map, Hk.
Qed.

Lemma read_dim_after_write_dim_witness :
  exists G',
    read_dim (write_dim G_K4) = Some G'
    /\ all_nodes G' = seq 0 (number_of_nodes G_K4)
    /\ edges G' = seq 0 (number_of_edges G_K4)
    /\ forall k e, nth_error (edges G_K4) k = Some e ->
                   source G' k = source G_K4 e /\ target G' k = target G_K4 e.
Proof.
  apply (read_dim_after_write_dim G_K4).
  intros e He.
  assert (H : (e < 6)%nat).
  { change (edges G_K4) with [0; 1; 2; 3; 4; 5]%nat in He. simpl in He. lia. }
  do 6 (destruct e as [|e]; [vm_compute; split; lia|]). lia.
Defined.

(** * What the splitter and the driver do to the graph *)

Lemma hide_fold_frame (l : list edge) :
  forall G G1,
    foldM (fun G e => if is_hidden G e then Exit 1 else Ret (hide_edge G e)) l G = Ret G1 ->
    NoDup l /\ (forall e, In e l -> hidden G e = false)
    /\ all_nodes G1 = all_nodes G /\ edge_list G1 = edge_list G /\ ends G1 = ends G
    /\ forall e, hidden G1 e = true <-> hidden G e = true \/ In e l.
Proof.
  induction l as [|a l IH]; intros G G1 E; cbn [foldM] in E.
  - injection E as <-. split; [constructor|]. split; [intros e []|].
    repeat (split; [reflexivity|]). intros e. simpl. tauto.
  - unfold is_hidden at 1 in E. destruct (hidden G a) eqn:Ha; [discriminate|].
    cbn [bind] in E. destruct (IH _ _ E) as (N & V & An & El & En & Hh).
    assert (Hl : forall e, In e l -> e <> a /\ hidden G e = false).
    { intros e He. pose proof (V e He) as Hv. cbn [hide_edge hidden] in Hv.
      unfold upd in Hv. destruct (Nat.eqb_spec e a); [discriminate|]. auto. }
    split; [constructor; [intros Hin; now destruct (Hl a Hin)|exact N]|].
    split; [intros e [<-|He]; [exact Ha|exact (proj2 (Hl e He))]|].
    split; [exact An|]. split; [exact El|]. split; [exact En|].
    intros e. rewrite Hh. cbn [hide_edge hidden]. unfold upd.
    destruct (Nat.eqb_spec e a) as [->|Hne]; simpl; [tauto|].
    split; [tauto|]. intros [H|[H|H]]; auto; congruence.
Qed.

Lemma pendant_step_ends (acc : graph * list edge * bool) (n : node) :
  ends (fst (fst (pendant_step acc n))) = ends (fst (fst acc)).
Proof.
  destruct acc as [[G d] b]. unfold pendant_step.
  destruct (degree G n =? 1)%nat; [|reflexivity].
  destruct (first_adj_edge G n) as [e|]; [|reflexivity].
  destruct (is_hidden G e); reflexivity.
Qed.

Lemma pendant_fold_ends (l : list node) :
  forall acc, ends (fst (fst (fold_left pendant_step l acc))) = ends (fst (fst acc)).
Proof.
  induction l as [|n l IH]; intros acc; [reflexivity|].
  cbn [fold_left]. rewrite IH. apply pendant_step_ends.
Qed.

Lemma strip_pendants_ends fuel :
  forall G d G' d', strip_pendants fuel G d = Ret (G', d') -> ends G' = ends G.
Proof.
  induction fuel as [|fuel IH]; intros G d G' d' E; cbn [strip_pendants] in E;
    unfold pendant_pass in E;
    pose proof (pendant_fold_ends (all_nodes G) (G, d, false)) as Hf;
    destruct (fold_left pendant_step (all_nodes G) (G, d, false)) as [[G1 d1] b1];
    cbn [fst] in Hf; destruct b1; try discriminate.
  - injection E as <- <-. exact Hf.
  - apply IH in E. congruence.
  - injection E as <- <-. exact Hf.
Qed.

Lemma pendant_fold_once (l : list node) :
  forall G d b G' d' b',
    wf_graph G -> recorded_once G d ->
    fold_left pendant_step l (G, d, b) = (G', d', b') ->
    wf_graph G' /\ recorded_once G' d'.
Proof.
  induction l as [|n l IH]; intros G d b G' d' b' W R E; cbn [fold_left] in E.
  - injection E as <- <- <-. auto.
  - destruct (pendant_step_cases G d b n W) as [[Hd [e (Ea & Hv & Hl & Es)]]|[Hd Es]];
      rewrite Es in E; [|exact (IH _ _ _ _ _ _ W R E)].
    apply (IH _ _ _ _ _ _ (hide_edge_wf _ _ W)) in E; [exact E|].
    destruct R as [N H]. split.
    + constructor; [|exact N]. intros Hin. destruct (H e Hin). congruence.
    + intros f [<-|Hf]; cbn [hide_edge hidden edge_list]; unfold upd.
      * now rewrite Nat.eqb_refl.
      * destruct (H f Hf). destruct (Nat.eqb f e); auto.
Qed.

Lemma strip_pendants_once fuel :
  forall G d G' d',
    wf_graph G -> recorded_once G d ->
    strip_pendants fuel G d = Ret (G', d') -> recorded_once G' d'.
Proof.
  induction fuel as [|fuel IH]; intros G d G' d' W R E; cbn [strip_pendants] in E;
    unfold pendant_pass in E;
    destruct (fold_left pendant_step (all_nodes G) (G, d, false)) as [[G1 d1] b1] eqn:EF;
    destruct (pendant_fold_once _ _ _ _ _ _ _ W R EF) as [W1 R1];
    destruct b1; try discriminate.
  - injection E as <- <-. exact R1.
  - exact (IH _ _ _ _ W1 R1 E).
  - injection E as <- <-. exact R1.
Qed.

(** An edge is hidden after the run exactly when it was hidden before, is
    a bridge or is a recorded pendant edge; the two lists are disjoint and
    hold edges that were visible. *)
Lemma hidden_after_split (G G1 G2 : graph) (bridges d : list edge) :
  edge_list G1 = edge_list G ->
  (forall e, hidden G1 e = true <-> hidden G e = true \/ In e bridges) ->
  stripped G1 [] G2 d -> recorded_once G2 d ->
  (forall e, hidden G2 e = true <-> hidden G e = true \/ In e bridges \/ In e d)
  /\ (forall e, In e bridges -> ~ In e d)
  /\ (forall e, In e d -> In e (edges G)).
Proof.
  intros El Hh S2 R.
  assert (HD : forall e, In e d <-> hidden G1 e = false /\ hidden G2 e = true).
  { intros e. rewrite (st_rec _ _ _ _ S2 e). simpl. tauto. }
  split; [|split].
  - intros e. rewrite HD. split.
    + intros H2. destruct (hidden G1 e) eqn:H1; [|tauto]. apply Hh in H1. tauto.
    + intros [H|[H|[_ H]]]; [| |exact H]; apply (st_mono _ _ _ _ S2); apply Hh; tauto.
  - intros e Hb Hd. apply HD in Hd. destruct Hd as [Hd _].
    assert (H1 : hidden G1 e = true) by (apply Hh; tauto). congruence.
  - intros e He. apply filter_In. destruct (proj2 R e He) as [_ Hl].
    rewrite (st_list _ _ _ _ S2), El in Hl. split; [exact Hl|].
    apply HD in He. destruct He as [He _].
    destruct (hidden G e) eqn:H0; [|reflexivity].
    assert (H1 : hidden G1 e = true) by (apply Hh; tauto). congruence.
Qed.

Section SplitFrame.

Variable BICONNECTED_COMPONENTS : graph -> nat * (edge -> nat).
Variable COMPONENTS : graph -> nat * (node -> nat).

(** The two ways in which [split_graph] returns. *)
Lemma split_graph_cases (G : graph) (sp : split_result) :
  split_graph BICONNECTED_COMPONENTS COMPONENTS G = Ret sp ->
  (forall e, In e (sp_bridges sp) -> In e (edges G))
  /\ (sp = mkSplit 1 G [] [all_nodes G] []
      \/ (sp_bridges sp <> []
          /\ exists G1,
              hide_bridges G (sp_bridges sp) = Ret G1
              /\ strip_pendants (number_of_edges G1) G1 []
                 = Ret (sp_graph sp, sp_deg1edges sp)
              /\ sp_num sp = fst (COMPONENTS (sp_graph sp))
              /\ collect_components (sp_graph sp) (fst (COMPONENTS (sp_graph sp)))
                                    (snd (COMPONENTS (sp_graph sp)))
                 = Ret (sp_sigma sp))).
Proof.
  intros ES. unfold split_graph in ES.
  destruct (BICONNECTED_COMPONENTS G) as [num ecomp].
  destruct (block_sizes G num ecomp) as [A| |] eqn:EA; try discriminate.
  cbn [bind] in ES.
  assert (VB : forall e, In e (collect_bridges G A ecomp) -> In e (edges G)).
  { unfold collect_bridges. rewrite collect_fold, app_nil_r.
    intros e He. apply in_rev, filter_In in He. tauto. }
  destruct (collect_bridges G A ecomp) as [|b bs] eqn:Eb.
  - injection ES as <-. split; [intros e []|]. now left.
  - destruct (hide_bridges G (b :: bs)) as [G1| |] eqn:E1; try discriminate.
    cbn [bind] in ES.
    destruct (strip_pendants (number_of_edges G1) G1 []) as [[G2 d2]| |] eqn:E2;
      try discriminate.
    cbn [bind] in ES.
    destruct (COMPONENTS G2) as [num2 comp] eqn:EC.
    destruct (collect_components G2 num2 comp) as [s| |] eqn:Es; try discriminate.
    cbn [bind] in ES. injection ES as <-.
    cbn [sp_graph sp_num sp_sigma sp_bridges sp_deg1edges].
    split; [exact VB|]. right. split; [discriminate|].
    exists G1. rewrite EC. cbn [fst snd]. auto.
Qed.

(** What a run of [split_graph] that finds bridges goes through: the
    graph [G1] with the bridges hidden, then the pendant stripping, then the
    collection of the components. *)
Lemma split_graph_run (G : graph) (sp : split_result) :
  wf_graph G ->
  split_graph BICONNECTED_COMPONENTS COMPONENTS G = Ret sp ->
  sp = mkSplit 1 G [] [all_nodes G] []
  \/ exists G1,
      sp_bridges sp <> []
      /\ NoDup (sp_bridges sp)
      /\ (forall e, In e (sp_bridges sp) -> In e (edges G))
      /\ all_nodes G1 = all_nodes G /\ edge_list G1 = edge_list G /\ ends G1 = ends G
      /\ (forall e, hidden G1 e = true <-> hidden G e = true \/ In e (sp_bridges sp))
      /\ stripped G1 [] (sp_graph sp) (sp_deg1edges sp)
      /\ ends (sp_graph sp) = ends G1
      /\ recorded_once (sp_graph sp) (sp_deg1edges sp)
      /\ (forall n, In n (all_nodes (sp_graph sp)) -> degree (sp_graph sp) n <> 1%nat)
      /\ sp_num sp = fst (COMPONENTS (sp_graph sp))
      /\ collect_components (sp_graph sp) (fst (COMPONENTS (sp_graph sp)))
                            (snd (COMPONENTS (sp_graph sp)))
         = Ret (sp_sigma sp).
Proof.
  intros W ES.
  destruct (split_graph_cases G sp ES) as [VB [->|(NE & G1 & E1 & E2 & En & Ec)]];
    [now left|right].
  unfold hide_bridges in E1.
  destruct (hide_fold_frame _ _ _ E1) as (NB & HV & An & El & Ee & Hh).
  destruct (hide_bridges_returns _ G NB HV W) as (G1' & E1' & W1 & _).
  rewrite E1 in E1'. injection E1' as <-.
  destruct (strip_pendants_returns (number_of_edges G1) G1 [] W1 (le_n _))
    as (G2 & d2 & E2' & S2 & D2).
  rewrite E2 in E2'. injection E2' as <- <-.
  exists G1. repeat (split; [assumption|]).
  split; [exact (strip_pendants_ends _ _ _ _ _ E2)|].
  split; [|auto].
  apply (strip_pendants_once (number_of_edges G1) G1 [] _ _ W1); [|exact E2].
  split; [constructor|intros e []].
Qed.

(** X5.  The splitter only hides edges.  When [split_graph] returns on a
    well-formed graph, the vertices, the edge arena and the endpoints of
    all edges are those of the input; the hidden edges are the edges that
    were hidden before, the bridges and the recorded pendant edges; and
    [bridges] and [deg1edges] list pairwise different edges that were
    visible in the input, no edge being in both lists. *)
Theorem split_graph_only_hides (G : graph) (sp : split_result) :
  wf_graph G ->
  split_graph BICONNECTED_COMPONENTS COMPONENTS G = Ret sp ->
  wf_graph (sp_graph sp)
  /\ all_nodes (sp_graph sp) = all_nodes G
  /\ edge_list (sp_graph sp) = edge_list G
  /\ ends (sp_graph sp) = ends G
  /\ (forall e, hidden (sp_graph sp) e = true
                <-> hidden G e = true \/ In e (sp_bridges sp) \/ In e (sp_deg1edges sp))
  /\ NoDup (sp_bridges sp ++ sp_deg1edges sp)
  /\ (forall e, In e (sp_bridges sp ++ sp_deg1edges sp) -> In e (edges G)).
Proof.
  intros W ES.
  destruct (split_graph_run G sp W ES)
    as [->|(G1 & _ & NB & VB & An & El & Ee & Hh & S2 & E2 & R & _)].
  - cbn [sp_graph sp_bridges sp_deg1edges app]. split; [exact W|].
    repeat (split; [reflexivity|]). split; [intros e; simpl; tauto|].
    split; [constructor|intros e []].
  - destruct (hidden_after_split G G1 _ _ _ El Hh S2 R) as (H2 & Dis & VD).
    split; [exact (st_wf _ _ _ _ S2)|].
    split; [now rewrite (st_nodes _ _ _ _ S2)|].
    split; [now rewrite (st_list _ _ _ _ S2)|].
    split; [now rewrite E2|].
    split; [exact H2|]. split.
    + apply NoDup_app; [exact NB|exact (proj1 R)|exact Dis].
    + intros e He. apply in_app_or in He. destruct He as [He|He]; auto.
Qed.

(** X6.  The vertex lists that [split_graph] returns partition the
    vertices: there are [num_components] lists, and together they hold
    every vertex of the graph exactly once.  When bridges were found, no
    vertex is left with degree one and list [j] holds exactly the
    vertices that [COMPONENTS] labels [j]. *)
Theorem split_graph_sigma_partitions (G : graph) (sp : split_result) :
  wf_graph G ->
  split_graph BICONNECTED_COMPONENTS COMPONENTS G = Ret sp ->
  length (sp_sigma sp) = sp_num sp
  /\ Permutation (concat (sp_sigma sp)) (all_nodes G)
  /\ (sp_bridges sp <> [] ->
      (forall n, In n (all_nodes G) -> degree (sp_graph sp) n <> 1%nat)
      /\ forall j x, In x (nth j (sp_sigma sp) [])
                     <-> In x (all_nodes G) /\ snd (COMPONENTS (sp_graph sp)) x = j).
Proof.
  intros W ES.
  destruct (split_graph_run G sp W ES)
    as [->|(G1 & _ & _ & _ & An & _ & _ & _ & S2 & _ & _ & D2 & En & Ec)].
  - cbn [sp_sigma sp_num sp_bridges concat]. split; [reflexivity|].
    split; [now rewrite app_nil_r|]. intros H. now destruct H.
  - assert (HN : all_nodes (sp_graph sp) = all_nodes G)
      by now rewrite (st_nodes _ _ _ _ S2).
    unfold collect_components in Ec.
    destruct (collect_components_inv _ _ _ _ Ec) as (L & P & I).
    unfold path in *. rewrite repeat_length in L.
    rewrite concat_repeat_nil, app_nil_r, HN in P.
    split; [now rewrite En|]. split; [exact P|]. intros _. split.
    + intros n Hn. apply D2. now rewrite HN.
    + intros j x. rewrite I, nth_repeat_nil, HN. simpl. tauto.
Qed.

(** The lists of [split_graph] hold every vertex once. *)
Lemma split_graph_sigma (G : graph) (sp : split_result) :
  wf_graph G ->
  split_graph BICONNECTED_COMPONENTS COMPONENTS G = Ret sp ->
  firstn (sp_num sp) (sp_sigma sp) = sp_sigma sp
  /\ Permutation (concat (sp_sigma sp)) (all_nodes G).
Proof.
  intros W ES.
  destruct (split_graph_run G sp W ES)
    as [->|(G1 & _ & _ & _ & An & _ & _ & _ & S2 & _ & _ & _ & En & Ec)].
  - cbn [sp_sigma sp_num firstn concat]. split; [reflexivity|now rewrite app_nil_r].
  - unfold collect_components in Ec.
    destruct (collect_components_inv _ _ _ _ Ec) as (L & P & _).
    unfold path in *. rewrite repeat_length in L.
    rewrite concat_repeat_nil, app_nil_r, (st_nodes _ _ _ _ S2), An in P.
    split; [|exact P]. rewrite En, <- L. apply firstn_all.
Qed.

End SplitFrame.

Lemma split_graph_only_hides_witness :
  exists sp,
    split_graph S2_blocks S2_components G_S2 = Ret sp
    /\ wf_graph (sp_graph sp)
    /\ all_nodes (sp_graph sp) = all_nodes G_S2
    /\ edge_list (sp_graph sp) = edge_list G_S2
    /\ ends (sp_graph sp) = ends G_S2
    /\ (forall e, hidden (sp_graph sp) e = true
                  <-> hidden G_S2 e = true \/ In e (sp_bridges sp)
                      \/ In e (sp_deg1edges sp))
    /\ NoDup (sp_bridges sp ++ sp_deg1edges sp)
    /\ (forall e, In e (sp_bridges sp ++ sp_deg1edges sp) -> In e (edges G_S2)).
Proof.
  eexists. split; [vm_compute; reflexivity|].
  apply (split_graph_only_hides S2_blocks S2_components G_S2).
  - exact (proj1 G_S2_wf).
  - vm_compute. reflexivity.
Defined.

Lemma split_graph_sigma_partitions_witness :
  exists sp,
    split_graph S2_blocks S2_components G_S2 = Ret sp
    /\ length (sp_sigma sp) = sp_num sp
    /\ Permutation (concat (sp_sigma sp)) (all_nodes G_S2)
    /\ (sp_bridges sp <> [] ->
        (forall n, In n (all_nodes G_S2) -> degree (sp_graph sp) n <> 1%nat)
        /\ forall j x, In x (nth j (sp_sigma sp) [])
                       <-> In x (all_nodes G_S2)
                           /\ snd (S2_components (sp_graph sp)) x = j).
Proof.
  eexists. split; [vm_compute; reflexivity|].
  apply (split_graph_sigma_partitions S2_blocks S2_components G_S2).
  - exact (proj1 G_S2_wf).
  - vm_compute. reflexivity.
Defined.

(** * The vertex splitter *)

Lemma sort_fold (G : graph) (ecomp : edge -> nat) (k : nat) (l : list edge) :
  forall c1 c2,
    (forall e, In e l -> hidden G e = false) ->
    fold_left (sort_step G ecomp k) l (c1, c2)
    = (rev (filter (fun e => Nat.eqb (ecomp e) k) l) ++ c1,
       rev (filter (fun e => negb (Nat.eqb (ecomp e) k)) l) ++ c2).
Proof.
  induction l as [|e l IH]; intros c1 c2 Hv; [reflexivity|].
  cbn [fold_left filter]. unfold sort_step at 2. unfold is_hidden.
  rewrite (Hv e (or_introl eq_refl)). cbn [fst snd].
  destruct (Nat.eqb (ecomp e) k); cbn [negb]; rewrite IH by (intros f Hf; apply Hv; now right);
    cbn [rev]; now rewrite <- app_assoc.
Qed.

Lemma filter_partition_perm {A} (f : A -> bool) (l : list A) :
  Permutation (filter f l ++ filter (fun x => negb (f x)) l) l.
Proof.
  induction l as [|a l IH]; [reflexivity|]. cbn [filter].
  destruct (f a); cbn [negb app].
  - now constructor.
  - apply Permutation_sym, Permutation_cons_app, Permutation_sym, IH.
Qed.

(** What [sort_edges] returns at a vertex of a well-formed graph. *)
Lemma sort_edges_spec (G : graph) (ecomp : edge -> nat) (n : node) :
  wf_graph G ->
  (sort_edges G ecomp n = None /\ adj G n = [])
  \/ exists e1 c1 c2,
      first_adj_edge G n = Some e1 /\ sort_edges G ecomp n = Some (c1, c2)
      /\ Permutation (c1 ++ c2) (adj G n)
      /\ (forall e, In e c1 <-> In e (adj G n) /\ ecomp e = ecomp e1)
      /\ (forall e, In e c2 <-> In e (adj G n) /\ ecomp e <> ecomp e1)
      /\ (c2 = [] <-> one_block_at G ecomp n).
Proof.
  intros W. unfold sort_edges, first_adj_edge.
  destruct (adj G n) as [|e1 tl] eqn:Ea; [now left|right].
  rewrite <- Ea.
  assert (Eh : hd_error (adj G n) = Some e1) by now rewrite Ea.
  rewrite Eh.
  rewrite sort_fold by (intros e He; exact (wf_vis _ W _ _ He)).
  rewrite !app_nil_r.
  set (c1 := rev (filter (fun e => Nat.eqb (ecomp e) (ecomp e1)) (adj G n))).
  set (c2 := rev (filter (fun e => negb (Nat.eqb (ecomp e) (ecomp e1))) (adj G n))).
  assert (H1 : forall e, In e c1 <-> In e (adj G n) /\ ecomp e = ecomp e1).
  { intros e. unfold c1. rewrite <- in_rev, filter_In, Nat.eqb_eq. tauto. }
  assert (H2 : forall e, In e c2 <-> In e (adj G n) /\ ecomp e <> ecomp e1).
  { intros e. unfold c2. rewrite <- in_rev, filter_In, negb_true_iff, Nat.eqb_neq.
    tauto. }
  assert (Hin1 : In e1 (adj G n)) by (rewrite Ea; now left).
  exists e1, c1, c2.
  split; [reflexivity|]. split; [reflexivity|]. split; [|split; [exact H1|split; [exact H2|]]].
  - unfold c1, c2. rewrite <- !Permutation_rev. apply filter_partition_perm.
  - split.
    + intros E e f He Hf.
      assert (Ke : ecomp e = ecomp e1).
      { destruct (Nat.eq_dec (ecomp e) (ecomp e1)) as [K|K]; [exact K|].
        assert (Hc : In e c2) by (apply H2; auto). rewrite E in Hc. destruct Hc. }
      assert (Kf : ecomp f = ecomp e1).
      { destruct (Nat.eq_dec (ecomp f) (ecomp e1)) as [K|K]; [exact K|].
        assert (Hc : In f c2) by (apply H2; auto). rewrite E in Hc. destruct Hc. }
      congruence.
    + intros U. destruct c2 as [|e c2'] eqn:Ec; [reflexivity|].
      assert (Hc : In e (e :: c2')) by now left.
      apply H2 in Hc. destruct Hc as [He Hne]. destruct (Hne (U e e1 He Hin1)).
Qed.

Lemma find_split_spec (G : graph) (ecomp : edge -> nat) (nodes : list node)
      (A0 B0 : list edge) :
  wf_graph G ->
  (find_split G ecomp nodes A0 B0 = (A0, B0)
   /\ forall n, In n nodes -> one_block_at G ecomp n)
  \/ exists before n after e1 c1 c2,
      nodes = before ++ n :: after
      /\ (forall n', In n' before -> one_block_at G ecomp n')
      /\ ~ one_block_at G ecomp n
      /\ first_adj_edge G n = Some e1
      /\ Permutation (c1 ++ c2) (adj G n)
      /\ (forall e, In e c1 <-> In e (adj G n) /\ ecomp e = ecomp e1)
      /\ (forall e, In e c2 <-> In e (adj G n) /\ ecomp e <> ecomp e1)
      /\ find_split G ecomp nodes A0 B0 = (A0 ++ c1, B0 ++ c2).
Proof.
  intros W. induction nodes as [|n rest IH].
  - left. split; [reflexivity|intros n []].
  - cbn [find_split].
    destruct (sort_edges_spec G ecomp n W)
      as [[Es Ea]|(e1 & c1 & c2 & Ef & Es & P & H1 & H2 & U)]; rewrite Es.
    + assert (Un : one_block_at G ecomp n) by (intros e f He; rewrite Ea in He; destruct He).
      destruct IH as [[E Hall]|(before & m & after & e1 & c1 & c2 & En & Hb & Rest)].
      * left. split; [exact E|]. intros n' [<-|Hn']; auto.
      * right. exists (n :: before), m, after, e1, c1, c2.
        split; [now rewrite En|]. split; [intros n' [<-|Hn']; auto|exact Rest].
    + destruct c2 as [|e c2'] eqn:Ec.
      * assert (Un : one_block_at G ecomp n) by now apply U.
        destruct IH as [[E Hall]|(before & m & after & e1' & c1' & c2'' & En & Hb & Rest)].
        -- left. split; [exact E|]. intros n' [<-|Hn']; auto.
        -- right. exists (n :: before), m, after, e1', c1', c2''.
           split; [now rewrite En|]. split; [intros n' [<-|Hn']; auto|exact Rest].
      * right. exists [], n, rest, e1, c1, (e :: c2').
        split; [reflexivity|]. split; [intros n' []|].
        split; [intros Un; apply U in Un; discriminate|].
        repeat (split; [assumption|]). reflexivity.
Qed.

Lemma pendant_step_onV_eq (G : graph) (d : list edge) (b : bool) (n : node) :
  pendant_step_onV (G, b) n
  = (fst (fst (pendant_step (G, d, b) n)), snd (pendant_step (G, d, b) n)).
Proof.
  unfold pendant_step_onV, pendant_step.
  destruct (degree G n =? 1)%nat; [|reflexivity].
  destruct (first_adj_edge G n) as [e|]; [|reflexivity].
  destruct (is_hidden G e); reflexivity.
Qed.

Lemma pendant_fold_onV_eq (l : list node) :
  forall G d b,
    fold_left pendant_step_onV l (G, b)
    = (fst (fst (fold_left pendant_step l (G, d, b))),
       snd (fold_left pendant_step l (G, d, b))).
Proof.
  induction l as [|n l IH]; intros G d b; [reflexivity|].
  cbn [fold_left]. rewrite (pendant_step_onV_eq G d b n).
  destruct (pendant_step (G, d, b) n) as [[G1 d1] b1]. cbn [fst snd]. apply IH.
Qed.

Lemma strip_pendants_onV_eq fuel :
  forall G d,
    strip_pendants_onV fuel G
    = bind (strip_pendants fuel G d) (fun r => Ret (fst r)).
Proof.
  induction fuel as [|fuel IH]; intros G d; cbn [strip_pendants_onV strip_pendants];
    unfold pendant_pass; rewrite (pendant_fold_onV_eq (all_nodes G) G d false);
    destruct (fold_left pendant_step (all_nodes G) (G, d, false)) as [[G1 d1] b1];
    cbn [fst snd]; destruct b1; try reflexivity.
  apply IH.
Qed.

Section VertexSplit.

Variable BICONNECTED_COMPONENTS : graph -> nat * (edge -> nat).
Variable COMPONENTS : graph -> nat * (node -> nat).

(** X16.  [split_graph_onV], called with empty edge lists, splits at the
    first vertex whose incident edges lie in more than one block.  On a
    well-formed graph, when the call returns: either every vertex has all
    its incident edges in one block, and then the result is 0 and the graph
    and the lists are untouched; or [bridgesA] and [bridgesB] together are
    the incident edges of the first vertex [n] that has edges in two
    blocks, [bridgesA] holding those in the block of the first edge of [n]
    and [bridgesB], which is not empty, the others. *)
Theorem split_graph_onV_splits_at_first_vertex
        (G : graph) (sigma0 : list path) (r : onV_result) :
  wf_graph G ->
  split_graph_onV BICONNECTED_COMPONENTS COMPONENTS G [] [] sigma0 = Ret r ->
  let ecomp := snd (BICONNECTED_COMPONENTS G) in
  (r = mkOnV 0 G [] [] sigma0
   /\ forall n, In n (all_nodes G) -> one_block_at G ecomp n)
  \/ exists before n after e1,
      all_nodes G = before ++ n :: after
      /\ (forall n', In n' before -> one_block_at G ecomp n')
      /\ ~ one_block_at G ecomp n
      /\ first_adj_edge G n = Some e1
      /\ Permutation (ov_bridgesA r ++ ov_bridgesB r) (adj G n)
      /\ (forall e, In e (ov_bridgesA r) <-> In e (adj G n) /\ ecomp e = ecomp e1)
      /\ (forall e, In e (ov_bridgesB r) <-> In e (adj G n) /\ ecomp e <> ecomp e1)
      /\ ov_bridgesA r <> [] /\ ov_bridgesB r <> [].
Proof.
  intros W E ecomp. unfold split_graph_onV in E. subst ecomp.
  destruct (BICONNECTED_COMPONENTS G) as [num ecomp]. cbn [snd].
  destruct (find_split_spec G ecomp (all_nodes G) [] [] W)
    as [[Ef Hall]|(before & n & after & e1 & c1 & c2 & En & Hb & Hn & Ea & P & H1 & H2 & Ef)];
    rewrite Ef in E.
  - left. injection E as <-. auto.
  - right. cbn [app] in E.
    assert (Hc1 : In e1 c1).
    { apply H1. split; [|reflexivity]. unfold first_adj_edge in Ea.
      destruct (adj G n); [discriminate|]. injection Ea as ->. now left. }
    assert (Hc2 : c2 <> []).
    { intros ->. apply Hn. intros e f He Hf.
      assert (Ke : ecomp e = ecomp e1).
      { destruct (Nat.eq_dec (ecomp e) (ecomp e1)) as [K|K]; [exact K|].
        assert (Hc : In e []) by (apply H2; auto). destruct Hc. }
      assert (Kf : ecomp f = ecomp e1).
      { destruct (Nat.eq_dec (ecomp f) (ecomp e1)) as [K|K]; [exact K|].
        assert (Hc : In f []) by (apply H2; auto). destruct Hc. }
      congruence. }
    assert (R : ov_bridgesA r = c1 /\ ov_bridgesB r = c2).
    { destruct c1 as [|a c1']; [destruct Hc1|].
      destruct (hide_bridges G (a :: c1')) as [G1| |]; try discriminate.
      cbn [bind] in E.
      destruct (strip_pendants_onV (number_of_edges G1) G1) as [G2| |]; try discriminate.
      cbn [bind] in E. destruct (COMPONENTS G2) as [num2 comp].
      destruct (collect_components G2 num2 comp) as [s| |]; try discriminate.
      cbn [bind] in E. injection E as <-. auto. }
    destruct R as [-> ->].
    exists before, n, after, e1. repeat (split; [assumption|]).
    split; [|exact Hc2]. intros ->. destruct Hc1.
Qed.

(** X17.  What a split by [split_graph_onV] does to the graph.  On a
    well-formed graph, when the call (with empty edge lists) returns with
    [bridgesA] not empty: the graph is still well formed and has the
    vertices, the edge arena and the endpoints it had; edges that were
    hidden stay hidden and the edges of [bridgesA] are hidden now; no
    vertex is left with degree one; and the returned vertex lists, as many
    as components, hold every vertex exactly once. *)
Theorem split_graph_onV_hides_one_side
        (G : graph) (sigma0 : list path) (r : onV_result) :
  wf_graph G ->
  split_graph_onV BICONNECTED_COMPONENTS COMPONENTS G [] [] sigma0 = Ret r ->
  ov_bridgesA r <> [] ->
  wf_graph (ov_graph r)
  /\ all_nodes (ov_graph r) = all_nodes G
  /\ edge_list (ov_graph r) = edge_list G
  /\ ends (ov_graph r) = ends G
  /\ (forall e, hidden G e = true \/ In e (ov_bridgesA r) -> hidden (ov_graph r) e = true)
  /\ (forall n, In n (all_nodes G) -> degree (ov_graph r) n <> 1%nat)
  /\ length (ov_sigma r) = ov_num r
  /\ Permutation (concat (ov_sigma r)) (all_nodes G).
Proof.
  intros W E NE. unfold split_graph_onV in E.
  destruct (BICONNECTED_COMPONENTS G) as [num ecomp].
  destruct (find_split G ecomp (all_nodes G) [] []) as [A B].
  destruct A as [|a A']; [injection E as <-; now destruct NE|].
  destruct (hide_bridges G (a :: A')) as [G1| |] eqn:E1; try discriminate.
  cbn [bind] in E. unfold hide_bridges in E1.
  destruct (hide_fold_frame _ _ _ E1) as (NB & HV & An & El & Ee & Hh).
  destruct (hide_bridges_returns _ G NB HV W) as (G1' & E1' & W1 & _).
  rewrite E1 in E1'. injection E1' as <-.
  rewrite (strip_pendants_onV_eq _ G1 []) in E.
  destruct (strip_pendants_returns (number_of_edges G1) G1 [] W1 (le_n _))
    as (G2 & d2 & E2 & S2 & D2).
  pose proof (strip_pendants_ends _ _ _ _ _ E2) as Ee2.
  rewrite E2 in E. cbn [bind fst] in E.
  destruct (COMPONENTS G2) as [num2 comp].
  destruct (collect_components G2 num2 comp) as [s| |] eqn:Ec; try discriminate.
  cbn [bind] in E. injection E as <-.
  cbn [ov_graph ov_sigma ov_num ov_bridgesA].
  assert (HN : all_nodes G2 = all_nodes G) by now rewrite (st_nodes _ _ _ _ S2).
  unfold collect_components in Ec.
  destruct (collect_components_inv _ _ _ _ Ec) as (L & P & _).
  unfold path in *. rewrite repeat_length in L.
  rewrite concat_repeat_nil, app_nil_r, HN in P.
  split; [exact (st_wf _ _ _ _ S2)|]. split; [exact HN|].
  split; [now rewrite (st_list _ _ _ _ S2)|]. split; [now rewrite Ee2|].
  split; [|split; [|split; [exact L|exact P]]].
  - intros e He. apply (st_mono _ _ _ _ S2). apply Hh. exact He.
  - intros n Hn. apply D2. now rewrite HN.
Qed.

End VertexSplit.

Lemma split_graph_onV_splits_at_first_vertex_witness :
  exists r,
    split_graph_onV kite_blocks kite_components G_kite [] [] [] = Ret r
    /\ ((r = mkOnV 0 G_kite [] [] []
         /\ forall n, In n (all_nodes G_kite) ->
                      one_block_at G_kite (snd (kite_blocks G_kite)) n)
        \/ exists before n after e1,
            all_nodes G_kite = before ++ n :: after
            /\ (forall n', In n' before ->
                           one_block_at G_kite (snd (kite_blocks G_kite)) n')
            /\ ~ one_block_at G_kite (snd (kite_blocks G_kite)) n
            /\ first_adj_edge G_kite n = Some e1
            /\ Permutation (ov_bridgesA r ++ ov_bridgesB r) (adj G_kite n)
            /\ (forall e, In e (ov_bridgesA r)
                          <-> In e (adj G_kite n)
                              /\ snd (kite_blocks G_kite) e = snd (kite_blocks G_kite) e1)
            /\ (forall e, In e (ov_bridgesB r)
                          <-> In e (adj G_kite n)
                              /\ snd (kite_blocks G_kite) e <> snd (kite_blocks G_kite) e1)
            /\ ov_bridgesA r <> [] /\ ov_bridgesB r <> []).
Proof.
  eexists. split; [vm_compute; reflexivity|].
  apply (split_graph_onV_splits_at_first_vertex kite_blocks kite_components G_kite []).
  - apply graph_of_wf.
  - vm_compute. reflexivity.
Defined.

Lemma split_graph_onV_hides_one_side_witness :
  exists r,
    split_graph_onV kite_blocks kite_components G_kite [] [] [] = Ret r
    /\ wf_graph (ov_graph r)
    /\ all_nodes (ov_graph r) = all_nodes G_kite
    /\ edge_list (ov_graph r) = edge_list G_kite
    /\ ends (ov_graph r) = ends G_kite
    /\ (forall e, hidden G_kite e = true \/ In e (ov_bridgesA r) ->
                  hidden (ov_graph r) e = true)
    /\ (forall n, In n (all_nodes G_kite) -> degree (ov_graph r) n <> 1%nat)
    /\ length (ov_sigma r) = ov_num r
    /\ Permutation (concat (ov_sigma r)) (all_nodes G_kite).
Proof.
  eexists. split; [vm_compute; reflexivity|].
  apply (split_graph_onV_hides_one_side kite_blocks kite_components G_kite []).
  - apply graph_of_wf.
  - vm_compute. reflexivity.
  - vm_compute. discriminate.
Defined.

(** * What the driver returns *)

Lemma emit_components_nonempty (H : graph) (sg : sigma_t) (L : list node) :
  forall a,
    (forall c, In c (sigma3 a) -> c <> []) ->
    forall c,
      In c (sigma3 (fold_left (fun a n => match sg n with
                                          | [] => a
                                          | nsubglist => emit_component H nsubglist a
                                          end) L a)) -> c <> [].
Proof.
  induction L as [|n L IH]; intros a Ha; [exact Ha|].
  cbn [fold_left]. apply IH. destruct (sg n) as [|x l]; [exact Ha|].
  intros c Hc. rewrite (proj1 (emit_component_spec H (x :: l) a)) in Hc.
  apply in_app_or in Hc. destruct Hc as [Hc|[<-|[]]]; [now apply Ha|].
  cbn [map rev]. intros E. now apply app_eq_nil in E.
Qed.

Lemma process_block_nonempty (fuel : nat) (G : graph) (a a' : tri_acc) (B : path) :
  process_block fuel G a B = Ret a' ->
  (forall c, In c (sigma3 a) -> c <> []) ->
  forall c, In c (sigma3 a') -> c <> [].
Proof.
  unfold process_block. set (H := CopyInducedGraph G B). clearbody H.
  intros E Ha.
  assert (Add : forall x l c, In c (sigma3 a ++ [x :: l]) -> c <> []).
  { intros x l c Hc. apply in_app_or in Hc.
    destruct Hc as [Hc|[<-|[]]]; [now apply Ha|discriminate]. }
  destruct (Nat.leb_spec (number_of_nodes H) 1) as [Hle|Hgt].
  - destruct (all_nodes H) as [|r l]; injection E as <-; [exact Ha|].
    cbn [sigma3]. apply Add.
  - destruct (number_of_edges H =? 1)%nat.
    + destruct (hd_error (all_nodes H)) as [r|]; [|injection E as <-; exact Ha].
      destruct (hd_error (rev (all_nodes H))) as [n|]; injection E as <-; [|exact Ha].
      cbn [sigma3]. apply Add.
    + destruct (choose_root H) as [r|].
      * destruct (triedge_dfs fuel (init_state H) r None []) as [[st Pw]| |];
          try discriminate.
        cbn [bind] in E. injection E as <-.
        apply emit_components_nonempty. exact Ha.
      * injection E as <-. cbn [sigma3].
        unfold number_of_nodes in Hgt.
        destruct (all_nodes H) as [|x l] eqn:En; [simpl in Hgt; lia|].
        cbn [map rev]. intros c Hc. apply in_app_or in Hc.
        destruct Hc as [Hc|[<-|[]]]; [now apply Ha|].
        intros E. now apply app_eq_nil in E.
Qed.

Lemma blocks_nonempty (fuel : nat) (G : graph) (Bs : list path) :
  forall a a',
    foldM (process_block fuel G) Bs a = Ret a' ->
    (forall c, In c (sigma3 a) -> c <> []) ->
    forall c, In c (sigma3 a') -> c <> [].
Proof.
  induction Bs as [|B Bs IH]; intros a a' E Ha; cbn [foldM] in E.
  - injection E as <-. exact Ha.
  - destruct (process_block fuel G a B) as [a1| |] eqn:E1; try discriminate.
    cbn [bind] in E. apply (IH _ _ E).
    exact (process_block_nonempty _ _ _ _ _ E1 Ha).
Qed.

Lemma cut_edges_visible (G : graph) (cn : node -> Z) :
  wf_graph G ->
  NoDup (collect_cut_edges G cn)
  /\ forall e, In e (collect_cut_edges G cn) -> In e (edges G).
Proof.
  intros W. unfold collect_cut_edges. rewrite collect_fold, app_nil_r. split.
  - apply NoDup_rev, NoDup_filter, edges_NoDup, W.
  - intros e He. apply in_rev, filter_In in He. tauto.
Qed.

Section Driver.

Variable BICONNECTED_COMPONENTS : graph -> nat * (edge -> nat).
Variable COMPONENTS : graph -> nat * (node -> nat).
Variable Is_Biconnected : graph -> bool.

(** X7.  The returned components partition the vertices of the input: for
    a well-formed graph and services that meet their contracts where the
    run calls them, when [TRICONNECTED_COMPONENTS] returns, the lists of
    [sigma3] together hold every vertex of [G] exactly once, none of them is
    empty, and the returned number is the number of lists. *)
Theorem components_partition_the_vertices
        (fuel : nat) (G : graph) (r : tri_result) :
  wf_graph G -> closed_graph G ->
  is_biconnected_spec G (Is_Biconnected G) ->
  (forall sp, split_graph BICONNECTED_COMPONENTS COMPONENTS G = Ret sp ->
              sp_bridges sp <> [] ->
              components_spec (sp_graph sp) (COMPONENTS (sp_graph sp))) ->
  TRICONNECTED_COMPONENTS BICONNECTED_COMPONENTS COMPONENTS Is_Biconnected fuel G
  = Ret r ->
  Permutation (concat (tr_sigma3 r)) (all_nodes G)
  /\ (forall c, In c (tr_sigma3 r) -> c <> [])
  /\ tr_cnumb r = length (tr_sigma3 r).
Proof.
  intros W C HB HC E. unfold TRICONNECTED_COMPONENTS in E.
  destruct (Is_Biconnected G) eqn:EB; cbn [negb bind] in E.
  - cbn [sp_graph sp_num sp_sigma sp_bridges sp_deg1edges firstn] in E.
    match type of E with
    | bind ?m _ = _ => destruct m as [a| |] eqn:EF; try discriminate
    end.
    cbn [bind] in E. injection E as <-. cbn [tr_sigma3 tr_cnumb].
    assert (F : NoDup (concat [all_nodes G])
                /\ (forall e, In e (edges G) ->
                              exists B, In B [all_nodes G]
                                        /\ In (source G e) B /\ In (target G e) B)
                /\ (forall B, In B [all_nodes G] ->
                              number_of_edges (CopyInducedGraph G B) = 1%nat ->
                              (length B <= 2)%nat)).
    { apply (single_block_facts G W C).
      destruct (HB eq_refl) as [Hcon _].
      apply (connected_block_ok G _ W C (cl_nodup _ C) Hcon).
      intros e He. destruct (cl_nodes _ C e He). tauto. }
    destruct F as (N & _ & Hok).
    pose proof (blocks_fold fuel G [all_nodes G] [] _ a W Hok N blocks_inv_init EF) as J.
    split; [|split; [|reflexivity]].
    + rewrite (bi_perm _ _ J). cbn [app concat]. now rewrite app_nil_r.
    + apply (blocks_nonempty _ _ _ _ _ EF). intros c [].
  - destruct (split_graph BICONNECTED_COMPONENTS COMPONENTS G) as [sp| |] eqn:ES;
      try discriminate.
    cbn [bind] in E.
    destruct (forallb (is_hidden (sp_graph sp)) (sp_bridges sp)); [|discriminate].
    cbn [bind] in E.
    match type of E with
    | bind ?m _ = _ => destruct m as [a| |] eqn:EF; try discriminate
    end.
    cbn [bind] in E. injection E as <-. cbn [tr_sigma3 tr_cnumb].
    destruct (split_graph_facts BICONNECTED_COMPONENTS COMPONENTS Is_Biconnected
                                G sp W C ES (HC sp eq_refl)) as (W' & N & _ & Hok).
    destruct (split_graph_sigma _ _ G sp W ES) as (L & P).
    pose proof (blocks_fold fuel (sp_graph sp) _ [] _ a W' Hok N blocks_inv_init EF) as J.
    split; [|split; [|reflexivity]].
    + rewrite (bi_perm _ _ J). cbn [app]. rewrite L. exact P.
    + apply (blocks_nonempty _ _ _ _ _ EF). intros c [].
Qed.

(** X8.  The driver only hides edges of its input, and its three edge
    lists do not overlap.  When [TRICONNECTED_COMPONENTS] returns on a
    well-formed graph, the vertices, the edge arena and the endpoints of all
    edges are those of the input (the searches run on copies); the hidden
    edges are those hidden before, the bridges and the pendant edges; and
    [cut_edges], [bridges] and [deg1edges] together list pairwise different
    edges, all of them visible in the input. *)
Theorem driver_only_hides (fuel : nat) (G : graph) (r : tri_result) :
  wf_graph G ->
  TRICONNECTED_COMPONENTS BICONNECTED_COMPONENTS COMPONENTS Is_Biconnected fuel G
  = Ret r ->
  all_nodes (tr_graph r) = all_nodes G
  /\ edge_list (tr_graph r) = edge_list G
  /\ ends (tr_graph r) = ends G
  /\ (forall e, hidden (tr_graph r) e = true
                <-> hidden G e = true \/ In e (tr_bridges r) \/ In e (tr_deg1edges r))
  /\ NoDup (tr_cut_edges r ++ tr_bridges r ++ tr_deg1edges r)
  /\ (forall e, In e (tr_cut_edges r ++ tr_bridges r ++ tr_deg1edges r) ->
                In e (edges G)).
Proof.
  intros W E. unfold TRICONNECTED_COMPONENTS in E.
  destruct (Is_Biconnected G) eqn:EB; cbn [negb bind] in E.
  - cbn [sp_graph sp_num sp_sigma sp_bridges sp_deg1edges firstn] in E.
    match type of E with
    | bind ?m _ = _ => destruct m as [a| |] eqn:EF; try discriminate
    end.
    cbn [bind] in E. injection E as <-.
    cbn [tr_graph tr_cut_edges tr_bridges tr_deg1edges app].
    repeat (split; [reflexivity|]). split; [intros e; simpl; tauto|].
    rewrite app_nil_r. exact (cut_edges_visible G _ W).
  - destruct (split_graph BICONNECTED_COMPONENTS COMPONENTS G) as [sp| |] eqn:ES;
      try discriminate.
    cbn [bind] in E.
    destruct (forallb (is_hidden (sp_graph sp)) (sp_bridges sp)); [|discriminate].
    cbn [bind] in E.
    match type of E with
    | bind ?m _ = _ => destruct m as [a| |] eqn:EF; try discriminate
    end.
    cbn [bind] in E. injection E as <-.
    cbn [tr_graph tr_cut_edges tr_bridges tr_deg1edges].
    destruct (split_graph_run _ _ G sp W ES)
      as [->|(G1 & _ & NB & VB & An & El & Ee & Hh1 & S2 & E2 & R & _)].
    + cbn [sp_graph sp_bridges sp_deg1edges app].
      repeat (split; [reflexivity|]). split; [intros e; simpl; tauto|].
      rewrite app_nil_r. exact (cut_edges_visible G _ W).
    + destruct (hidden_after_split G G1 _ _ _ El Hh1 S2 R) as (Hh & Dis & VD).
      destruct (cut_edges_visible (sp_graph sp) (compnum a) (st_wf _ _ _ _ S2))
        as [NC VC].
      assert (El2 : edge_list (sp_graph sp) = edge_list G)
        by now rewrite (st_list _ _ _ _ S2).
      split; [now rewrite (st_nodes _ _ _ _ S2)|]. split; [exact El2|].
      split; [now rewrite E2|]. split; [exact Hh|]. split.
      * apply NoDup_app; [exact NC| |].
        -- apply NoDup_app; [exact NB|exact (proj1 R)|exact Dis].
        -- intros e Hc Hb. apply VC, edges_visible in Hc. apply in_app_or in Hb.
           assert (H1 : hidden (sp_graph sp) e = true) by (apply Hh; tauto).
           congruence.
      * intros e He. apply in_app_or in He. destruct He as [He|He];
          [|apply in_app_or in He; destruct He; auto].
        apply VC in He. pose proof (edges_visible _ _ He) as Hv.
        apply filter_In in He. destruct He as [Hl _]. rewrite El2 in Hl.
        apply filter_In. split; [exact Hl|].
        destruct (hidden G e) eqn:H0; [|reflexivity].
        assert (H1 : hidden (sp_graph sp) e = true) by (apply Hh; tauto). congruence.
Qed.

End Driver.

Lemma components_partition_the_vertices_witness :
  exists r,
    TRICONNECTED_COMPONENTS S2_blocks S2_components (fun _ => false) 0 G_S2 = Ret r
    /\ Permutation (concat (tr_sigma3 r)) (all_nodes G_S2)
    /\ (forall c, In c (tr_sigma3 r) -> c <> [])
    /\ tr_cnumb r = length (tr_sigma3 r).
Proof.
  eexists. split; [vm_compute; reflexivity|].
  apply (components_partition_the_vertices
           S2_blocks S2_components (fun _ => false) 0 G_S2).
  - exact (proj1 G_S2_wf).
  - apply graph_of_closed. reflexivity.
  - intros H. discriminate H.
  - intros sp E _.
    assert (E' : split_graph S2_blocks S2_components G_S2
                 = Ret (mkSplit 2 (hide_edge G_S2 6%nat) [6%nat]
                                [[0; 1; 2]; [3; 4; 5]]%nat []))
      by (vm_compute; reflexivity).
    rewrite E' in E. injection E as <-. exact S2_components_spec.
  - vm_compute. reflexivity.
Defined.

Lemma driver_only_hides_witness :
  exists r,
    TRICONNECTED_COMPONENTS one_block one_component (fun _ => false) 100 G_two_K4 = Ret r
    /\ all_nodes (tr_graph r) = all_nodes G_two_K4
    /\ edge_list (tr_graph r) = edge_list G_two_K4
    /\ ends (tr_graph r) = ends G_two_K4
    /\ (forall e, hidden (tr_graph r) e = true
                  <-> hidden G_two_K4 e = true \/ In e (tr_bridges r)
                      \/ In e (tr_deg1edges r))
    /\ NoDup (tr_cut_edges r ++ tr_bridges r ++ tr_deg1edges r)
    /\ (forall e, In e (tr_cut_edges r ++ tr_bridges r ++ tr_deg1edges r) ->
                  In e (edges G_two_K4)).
Proof.
  eexists. split; [vm_compute; reflexivity|].
  apply (driver_only_hides one_block one_component (fun _ => false) 100 G_two_K4).
  - apply graph_of_wf.
  - vm_compute. reflexivity.
Defined.

(** * The end of [main] *)

Lemma amend_bridges_hidden (l : list edge) :
  forall G n,
    (forall e, In e l -> hidden G e = true) ->
    fold_left amend_bridge_step l (G, n)
    = (G, (n + length (filter (fun e => (2 <? degree G (source G e))%nat
                                      || (2 <? degree G (target G e))%nat) l))%nat).
Proof.
  induction l as [|e l IH]; intros G n Hh; cbn [fold_left filter length].
  - now rewrite Nat.add_0_r.
  - unfold amend_bridge_step at 2. unfold is_hidden.
    rewrite (Hh e (or_introl eq_refl)). cbn [negb].
    destruct ((2 <? degree G (source G e))%nat || (2 <? degree G (target G e))%nat);
      rewrite IH by (intros f Hf; apply Hh; now right); cbn [length]; f_equal; lia.
Qed.

Section MainBridges.

Variable BICONNECTED_COMPONENTS : graph -> nat * (edge -> nat).
Variable COMPONENTS : graph -> nat * (node -> nat).
Variable Is_Biconnected : graph -> bool.

(** X18.  The loop of [main] over the bridges never changes the graph.
    Whenever [TRICONNECTED_COMPONENTS] has returned, every bridge is already
    hidden, so the loop hides nothing; it only counts the bridges that have
    an end of degree larger than two. *)
Theorem main_bridge_loop_hides_nothing (fuel : nat) (G : graph) (r : tri_result) :
  TRICONNECTED_COMPONENTS BICONNECTED_COMPONENTS COMPONENTS Is_Biconnected fuel G
  = Ret r ->
  (forall e, In e (tr_bridges r) -> hidden (tr_graph r) e = true)
  /\ amend_bridges (tr_graph r) (tr_bridges r)
     = (tr_graph r,
        length (filter (fun e => (2 <? degree (tr_graph r) (source (tr_graph r) e))%nat
                                 || (2 <? degree (tr_graph r) (target (tr_graph r) e))%nat)
                       (tr_bridges r))).
Proof.
  intros E.
  assert (Hh : forall e, In e (tr_bridges r) -> hidden (tr_graph r) e = true).
  { unfold TRICONNECTED_COMPONENTS in E.
    destruct (Is_Biconnected G); cbn [negb bind] in E.
    - match type of E with
      | bind ?m _ = _ => destruct m as [a| |]; try discriminate
      end.
      cbn [bind] in E. injection E as <-. intros e [].
    - destruct (split_graph BICONNECTED_COMPONENTS COMPONENTS G) as [sp| |];
        try discriminate.
      cbn [bind] in E.
      destruct (forallb (is_hidden (sp_graph sp)) (sp_bridges sp)) eqn:EF;
        [|discriminate].
      cbn [bind] in E.
      match type of E with
      | bind ?m _ = _ => destruct m as [a| |]; try discriminate
      end.
      cbn [bind] in E. injection E as <-. cbn [tr_bridges tr_graph].
      intros e He. exact (proj1 (forallb_forall _ _) EF e He). }
  split; [exact Hh|]. unfold amend_bridges.
  now rewrite (amend_bridges_hidden _ _ 0%nat Hh).
Qed.

End MainBridges.

Lemma main_bridge_loop_hides_nothing_witness :
  exists r,
    TRICONNECTED_COMPONENTS S2_blocks S2_components (fun _ => false) 0 G_S2 = Ret r
    /\ (forall e, In e (tr_bridges r) -> hidden (tr_graph r) e = true)
    /\ amend_bridges (tr_graph r) (tr_bridges r)
       = (tr_graph r,
          length (filter (fun e => (2 <? degree (tr_graph r) (source (tr_graph r) e))%nat
                                   || (2 <? degree (tr_graph r) (target (tr_graph r) e))%nat)
                         (tr_bridges r))).
Proof.
  eexists. split; [vm_compute; reflexivity|].
  apply (main_bridge_loop_hides_nothing S2_blocks S2_components (fun _ => false) 0 G_S2).
  vm_compute. reflexivity.
Defined.

Lemma degree_hide_edge G e x :
  wf_graph G -> (degree (hide_edge G e) x <= degree G x)%nat.
Proof.
  intros W. unfold degree. rewrite adj_hide_edge by assumption.
  unfold remove_edge. induction (adj G x) as [|a l IH]; [apply le_n|].
  cbn [filter]. destruct (negb (Nat.eqb a e)); cbn [length]; lia.
Qed.

Lemma amend_cut_fold (l : list edge) :
  forall G n G' n',
    wf_graph G ->
    fold_left amend_cut_step l (G, n) = (G', n') ->
    search_frame G G'
    /\ ends G' = ends G
    /\ (forall x, (degree G' x <= degree G x)%nat)
    /\ (forall e, hidden G' e = true -> hidden G e = true \/ In e l)
    /\ (forall e, In e l ->
                  hidden G' e = true
                  \/ ((degree G' (source G' e) <= 2)%nat
                      /\ (degree G' (target G' e) <= 2)%nat)).
Proof.
  induction l as [|e l IH]; intros G n G' n' W E; cbn [fold_left] in E.
  - injection E as <- <-. split; [now apply frame_refl|]. split; [reflexivity|].
    split; [auto|]. split; [auto|intros e []].
  - unfold amend_cut_step at 2 in E. unfold is_hidden in E.
    destruct (hidden G e) eqn:He; cbn [negb] in E.
    + destruct (IH _ _ _ _ W E) as (F & En & Dg & Hn & Post).
      split; [exact F|]. split; [exact En|]. split; [exact Dg|]. split.
      * intros f Hf. destruct (Hn f Hf); auto. right. now right.
      * intros f [<-|Hf]; [|now apply Post]. left. exact (proj1 (sf_mono _ _ F _ He)).
    + destruct ((2 <? degree G (source G e))%nat || (2 <? degree G (target G e))%nat)
               eqn:Hd.
      * destruct (IH _ _ _ _ (hide_edge_wf _ e W) E) as (F & En & Dg & Hn & Post).
        split; [exact (frame_trans _ _ _ (frame_hide G e W) F)|].
        split; [exact En|]. split.
        -- intros x. pose proof (Dg x). pose proof (degree_hide_edge G e x W). lia.
        -- split.
           ++ intros f Hf. destruct (Hn f Hf) as [H1|H1]; [|right; now right].
              cbn [hide_edge hidden] in H1. unfold upd in H1.
              destruct (Nat.eqb_spec f e) as [->|_]; [right; now left|now left].
           ++ intros f [<-|Hf]; [|now apply Post]. left.
              apply (sf_mono _ _ F). cbn [hide_edge hidden]. apply upd_same.
      * destruct (IH _ _ _ _ W E) as (F & En & Dg & Hn & Post).
        split; [exact F|]. split; [exact En|]. split; [exact Dg|]. split.
        -- intros f Hf. destruct (Hn f Hf); auto. right. now right.
        -- intros f [<-|Hf]; [|now apply Post]. right.
           apply orb_false_iff in Hd. destruct Hd as [H1 H2].
           apply Nat.ltb_ge in H1, H2. unfold source, target in *. rewrite En.
           pose proof (Dg (fst (ends G e))). pose proof (Dg (snd (ends G e))). lia.
Qed.

(** X19.  The loop of [main] over the cut edges.  On a well-formed graph
    the loop only hides edges of the list: the graph stays well formed, the
    vertices, the edge arena and the endpoints are unchanged, hidden edges
    stay hidden, and an edge is hidden afterwards only when it was hidden
    before or is in the list.
    After the loop every edge of the list is hidden, or both its ends have
    degree at most two. *)
Theorem main_cut_edge_loop (G : graph) (cut_edges : list edge) :
  wf_graph G ->
  let G' := fst (amend_cut_edges G cut_edges) in
  wf_graph G'
  /\ all_nodes G' = all_nodes G /\ edge_list G' = edge_list G /\ ends G' = ends G
  /\ (forall e, hidden G e = true -> hidden G' e = true)
  /\ (forall e, hidden G' e = true -> hidden G e = true \/ In e cut_edges)
  /\ (forall e, In e cut_edges ->
                hidden G' e = true
                \/ ((degree G' (source G' e) <= 2)%nat
                    /\ (degree G' (target G' e) <= 2)%nat)).
Proof.
  intros W G'. unfold amend_cut_edges in G'.
  destruct (fold_left amend_cut_step cut_edges (G, 0%nat)) as [G1 n1] eqn:E.
  subst G'. cbn [fst].
  destruct (amend_cut_fold _ _ _ _ _ W E) as (F & En & _ & Hn & Post).
  split; [exact (sf_wf _ _ F)|]. split; [exact (sf_nodes _ _ F)|].
  split; [exact (sf_list _ _ F)|]. split; [exact En|].
  split; [|split; [exact Hn|exact Post]].
  intros e H0. exact (proj1 (sf_mono _ _ F e H0)).
Qed.

Lemma main_cut_edge_loop_witness :
  let G' := fst (amend_cut_edges G_two_K4 [13; 12]%nat) in
  wf_graph G'
  /\ all_nodes G' = all_nodes G_two_K4 /\ edge_list G' = edge_list G_two_K4
  /\ ends G' = ends G_two_K4
  /\ (forall e, hidden G_two_K4 e = true -> hidden G' e = true)
  /\ (forall e, hidden G' e = true -> hidden G_two_K4 e = true \/ In e [13; 12]%nat)
  /\ (forall e, In e [13; 12]%nat ->
                hidden G' e = true
                \/ ((degree G' (source G' e) <= 2)%nat
                    /\ (degree G' (target G' e) <= 2)%nat)).
Proof.
  apply (main_cut_edge_loop G_two_K4 [13; 12]%nat). apply graph_of_wf.
Defined.

(** * Absorption contracts a path into its head *)

Lemma absorbed_in x0 D x : In x D -> absorbed_into x0 D x = x0.
Proof.
  intros H. unfold absorbed_into.
  assert (E : existsb (Nat.eqb x) D = true)
    by (apply existsb_exists; exists x; split; [exact H|apply Nat.eqb_refl]).
  now rewrite E.
Qed.

Lemma absorbed_out x0 D x : ~ In x D -> absorbed_into x0 D x = x.
Proof.
  intros H. unfold absorbed_into.
  destruct (existsb (Nat.eqb x) D) eqn:E; [|reflexivity].
  apply existsb_exists in E. destruct E as [y [Hy E]].
  apply Nat.eqb_eq in E. subst y. contradiction.
Qed.

Lemma absorbed_cases x0 D x :
  (In x D /\ absorbed_into x0 D x = x0) \/ (~ In x D /\ absorbed_into x0 D x = x).
Proof.
  destruct (in_dec Nat.eq_dec x D) as [H|H].
  - left. split; [exact H|now apply absorbed_in].
  - right. split; [exact H|now apply absorbed_out].
Qed.

Lemma adj_complete_hide G e : wf_graph G -> adj_complete G -> adj_complete (hide_edge G e).
Proof.
  intros W C e' He'. apply edges_hide_edge in He'. destruct He' as [He' Hne].
  destruct (C e' He') as [Hs Ht].
  rewrite !adj_hide_edge by assumption. rewrite !In_remove_edge.
  change (source (hide_edge G e) e') with (source G e').
  change (target (hide_edge G e) e') with (target G e'). auto.
Qed.

Lemma adj_complete_move G e u v :
  wf_graph G -> adj_complete G -> adj_complete (move_edge G e u v).
Proof.
  intros W C e' He'. change (edges (move_edge G e u v)) with (edges G) in He'.
  rewrite !In_adj_move_edge by assumption. unfold source, target.
  destruct (Nat.eq_dec e' e) as [->|Hne].
  - rewrite move_edge_ends_same. cbn [fst snd]. auto.
  - rewrite (move_edge_ends_other _ _ _ _ _ Hne).
    destruct (C e' He') as [Hs Ht]. auto.
Qed.

Section AbsorbInner.

Variables (G0 : graph) (x0 : node) (Pall D : list node) (xi xm1 : node).
Hypothesis Hxi0 : xi <> x0.
Hypothesis HxiD : ~ In xi D.
Hypothesis Hx0D : ~ In x0 D.
Hypothesis HxiP : In xi Pall.
Hypothesis Hx0P : In x0 Pall.
Hypothesis Hxm1P : In xm1 Pall.
Hypothesis HDP : incl D Pall.

Lemma absorbed_cons_not y : absorbed_into x0 (xi :: D) y <> xi.
Proof.
  destruct (absorbed_cases x0 (xi :: D) y) as [[_ E]|[H E]]; rewrite E; [auto|].
  intros ->. apply H. now left.
Qed.

Lemma absorbed_cons_other y :
  y <> xi -> absorbed_into x0 (xi :: D) y = absorbed_into x0 D y.
Proof.
  intros Hy. unfold absorbed_into. cbn [existsb].
  apply Nat.eqb_neq in Hy. now rewrite Hy.
Qed.

Lemma absorbed_is y : absorbed_into x0 D y = xi -> y = xi.
Proof.
  destruct (absorbed_cases x0 D y) as [[_ E]|[_ E]]; rewrite E; [|auto].
  intros H. now destruct Hxi0.
Qed.

(** An edge met in the adjacency list of [xi] was visible at the start;
    one of its old ends is [xi] and the other is the vertex that the
    current other end stands for. *)
Lemma edge_at_xi G e :
  absorbing G0 x0 Pall D [xi] G -> In e (adj G xi) ->
  In e (edges G0) /\ hidden G e = false /\ In e (edge_list G)
  /\ opposite G xi e <> xi
  /\ exists a b,
      ((a = source G0 e /\ b = target G0 e) \/ (a = target G0 e /\ b = source G0 e))
      /\ a = xi /\ absorbed_into x0 D b = opposite G xi e.
Proof.
  intros A Hin.
  pose proof (wf_vis _ (ab_wf _ _ _ _ _ _ A) _ _ Hin) as Hv.
  pose proof (wf_listed _ (ab_wf _ _ _ _ _ _ A) _ _ Hin) as Hl.
  pose proof (wf_inc _ (ab_wf _ _ _ _ _ _ A) _ _ Hin) as Hi.
  pose proof (ab_lf _ _ _ _ _ _ A _ _ Hin) as Hne.
  assert (H0 : In e (edges G0)).
  { destruct (in_dec Nat.eq_dec e (edges G0)) as [H|H]; [exact H|].
    destruct (ab_old _ _ _ _ _ _ A e H) as [Hh _].
    exfalso. apply H. apply filter_In. split.
    - now rewrite <- (ab_list _ _ _ _ _ _ A).
    - now rewrite <- Hh, Hv. }
  split; [exact H0|]. split; [exact Hv|]. split; [exact Hl|].
  assert (Ho : opposite G xi e <> xi).
  { unfold opposite. destruct (Nat.eqb_spec xi (source G e)); destruct Hi; congruence. }
  split; [exact Ho|].
  pose proof (ab_vis _ _ _ _ _ _ A e H0 Hv) as V.
  unfold opposite, source, target, same_ends in *. cbn [fst snd app] in V.
  destruct V as [[E|E]|[E|E]]; rewrite E in *; cbn [fst snd] in *.
  - destruct (Nat.eqb_spec xi (absorbed_into x0 D (fst (ends G0 e)))) as [Ex|Ex].
    + exists (fst (ends G0 e)), (snd (ends G0 e)). split; [auto|].
      split; [|reflexivity]. symmetry in Ex. now apply absorbed_is.
    + exists (snd (ends G0 e)), (fst (ends G0 e)). split; [auto|].
      split; [|reflexivity]. destruct Hi as [Hi|Hi]; [congruence|].
      now apply absorbed_is.
  - destruct (Nat.eqb_spec xi (absorbed_into x0 D (snd (ends G0 e)))) as [Ex|Ex].
    + exists (snd (ends G0 e)), (fst (ends G0 e)). split; [auto|].
      split; [|reflexivity]. symmetry in Ex. now apply absorbed_is.
    + exists (fst (ends G0 e)), (snd (ends G0 e)). split; [auto|].
      split; [|reflexivity]. destruct Hi as [Hi|Hi]; [congruence|].
      now apply absorbed_is.
  - exfalso. destruct Hi as [Hi|Hi]; exact (absorbed_cons_not _ Hi).
  - exfalso. destruct Hi as [Hi|Hi]; exact (absorbed_cons_not _ Hi).
Qed.

Lemma inner_hide G e :
  absorbing G0 x0 Pall D [xi] G -> In e (adj G xi) ->
  opposite G xi e = xm1 \/ opposite G xi e = x0 ->
  absorbing G0 x0 Pall D [xi] (hide_edge G e).
Proof.
  intros A Hin Hz.
  destruct (edge_at_xi G e A Hin) as (H0 & Hv & Hl & Ho & a & b & Hab & Ha & Hb).
  pose proof (ab_wf _ _ _ _ _ _ A) as W.
  constructor.
  - now apply hide_edge_wf.
  - apply hide_edge_loop_free; [exact W|exact (ab_lf _ _ _ _ _ _ A)].
  - apply adj_complete_hide; [exact W|exact (ab_adj _ _ _ _ _ _ A)].
  - exact (ab_nodes _ _ _ _ _ _ A).
  - exact (ab_list _ _ _ _ _ _ A).
  - intros x Hx. rewrite adj_hide_edge by assumption.
    now rewrite (ab_iso _ _ _ _ _ _ A x Hx).
  - intros e' He'. cbn [hide_edge hidden ends]. rewrite upd_other by congruence.
    exact (ab_old _ _ _ _ _ _ A e' He').
  - intros e' He' Hh. cbn [hide_edge hidden] in Hh.
    destruct (Nat.eq_dec e' e) as [->|Hne];
      [|rewrite upd_other in Hh by assumption; exact (ab_hid _ _ _ _ _ _ A e' He' Hh)].
    assert (HbP : In b Pall).
    { destruct (absorbed_cases x0 D b) as [[Hd _]|[_ E]]; [now apply HDP|].
      rewrite E in Hb. rewrite Hb. destruct Hz as [->| ->]; assumption. }
    subst a. destruct Hab as [[<- <-]|[<- <-]]; auto.
  - intros e' He' Hh. cbn [hide_edge hidden ends] in *.
    destruct (Nat.eq_dec e' e) as [->|Hne]; [rewrite upd_same in Hh; discriminate|].
    rewrite upd_other in Hh by assumption. exact (ab_vis _ _ _ _ _ _ A e' He' Hh).
Qed.

Lemma inner_move G e :
  absorbing G0 x0 Pall D [xi] G -> In e (adj G xi) ->
  opposite G xi e <> x0 ->
  absorbing G0 x0 Pall D [xi] (move_edge G e x0 (opposite G xi e)).
Proof.
  intros A Hin Hz.
  destruct (edge_at_xi G e A Hin) as (H0 & Hv & Hl & Ho & a & b & Hab & Ha & Hb).
  pose proof (ab_wf _ _ _ _ _ _ A) as W.
  assert (HzD : ~ In (opposite G xi e) D).
  { intros Hd. pose proof (ab_iso _ _ _ _ _ _ A _ Hd) as Hn.
    assert (He : In e (edges G)) by (apply filter_In; split; [exact Hl|now rewrite Hv]).
    destruct (ab_adj _ _ _ _ _ _ A e He) as [Hs Ht].
    unfold opposite in Hn. destruct (Nat.eqb xi (source G e)); rewrite Hn in *; contradiction. }
  constructor.
  - now apply move_edge_wf.
  - apply move_edge_loop_free; [exact W|exact (ab_lf _ _ _ _ _ _ A)|congruence].
  - apply adj_complete_move; [exact W|exact (ab_adj _ _ _ _ _ _ A)].
  - exact (ab_nodes _ _ _ _ _ _ A).
  - exact (ab_list _ _ _ _ _ _ A).
  - intros x Hx. rewrite adj_move_edge by assumption.
    rewrite (ab_iso _ _ _ _ _ _ A x Hx).
    assert (H1 : Nat.eqb x x0 = false) by (apply Nat.eqb_neq; congruence).
    assert (H2 : Nat.eqb x (opposite G xi e) = false) by (apply Nat.eqb_neq; congruence).
    now rewrite H1, H2.
  - intros e' He'. cbn [move_edge hidden].
    rewrite move_edge_ends_other by congruence.
    exact (ab_old _ _ _ _ _ _ A e' He').
  - intros e' He' Hh. exact (ab_hid _ _ _ _ _ _ A e' He' Hh).
  - intros e' He' Hh. cbn [move_edge hidden] in Hh.
    destruct (Nat.eq_dec e' e) as [->|Hne];
      [|rewrite move_edge_ends_other by assumption;
        exact (ab_vis _ _ _ _ _ _ A e' He' Hh)].
    right. rewrite move_edge_ends_same. cbn [app].
    assert (Eb : absorbed_into x0 (xi :: D) b = opposite G xi e).
    { rewrite absorbed_cons_other; [exact Hb|].
      intros ->. rewrite (absorbed_out x0 D xi HxiD) in Hb. congruence. }
    assert (Ea : absorbed_into x0 (xi :: D) a = x0)
      by (apply absorbed_in; left; congruence).
    unfold same_ends. cbn [fst snd].
    destruct Hab as [[<- <-]|[<- <-]]; rewrite Ea, Eb; auto.
Qed.

Lemma absorb_edges_inner n :
  forall fuel G,
    length (adj G xi) = n -> (n < fuel)%nat ->
    absorbing G0 x0 Pall D [xi] G ->
    exists G', absorb_edges fuel G xi xm1 x0 (First_Inout_Edge G xi) = Ret G'
               /\ absorbing G0 x0 Pall D [xi] G' /\ adj G' xi = [].
Proof.
  induction n as [|n IH]; intros fuel G Hlen Hf A.
  - unfold First_Inout_Edge. destruct (adj G xi) eqn:E; [|discriminate].
    exists G. destruct fuel; simpl; auto.
  - unfold First_Inout_Edge. destruct (adj G xi) as [|e tl] eqn:E; [discriminate|].
    destruct fuel as [|fuel]; [lia|]. simpl hd_error. cbn [absorb_edges].
    assert (Hin : In e (adj G xi)) by (rewrite E; now left).
    destruct (edge_at_xi G e A Hin) as (H0 & Hv & Hl & Ho & _).
    pose proof (ab_wf _ _ _ _ _ _ A) as W.
    unfold Succ_Inout_Edge, is_hidden. rewrite E, succ_in_head, Hv.
    injection Hlen as Hlen.
    destruct (Nat.eqb (opposite G xi e) xm1 || Nat.eqb (opposite G xi e) x0) eqn:Hc.
    + rewrite <- (adj_after_hide _ _ _ _ W E).
      apply IH; [now rewrite (adj_after_hide _ _ _ _ W E)|lia|].
      apply inner_hide; [exact A|exact Hin|].
      apply orb_true_iff in Hc. destruct Hc as [Hc|Hc]; apply Nat.eqb_eq in Hc; auto.
    + apply orb_false_iff in Hc. destruct Hc as [_ Hc]. apply Nat.eqb_neq in Hc.
      pose proof (ab_lf _ _ _ _ _ _ A _ _ Hin) as Hne.
      apply Nat.eqb_neq in Hne. rewrite Hne.
      assert (Ha : adj (move_edge G e x0 (opposite G xi e)) xi = tl)
        by (apply adj_after_move; auto).
      rewrite <- Ha.
      apply IH; [now rewrite Ha|lia|]. now apply inner_move.
Qed.

(** When the adjacency list of [xi] is empty, [xi] has been absorbed. *)
Lemma inner_done G :
  absorbing G0 x0 Pall D [xi] G -> adj G xi = [] ->
  absorbing G0 x0 Pall (xi :: D) [] G.
Proof.
  intros A Hn. constructor; try (now destruct A).
  - intros x [<-|Hx]; [exact Hn|exact (ab_iso _ _ _ _ _ _ A x Hx)].
  - intros e He Hv. left. cbn [app].
    destruct (ab_vis _ _ _ _ _ _ A e He Hv) as [V|V]; [|exact V].
    assert (Hvis : In e (edges G)).
    { apply filter_In. split; [|now rewrite Hv].
      rewrite (ab_list _ _ _ _ _ _ A). apply filter_In in He. tauto. }
    destruct (ab_adj _ _ _ _ _ _ A e Hvis) as [Hs Ht].
    assert (Hsx : source G e <> xi) by (intros Ex; rewrite Ex, Hn in Hs; contradiction).
    assert (Htx : target G e <> xi) by (intros Ex; rewrite Ex, Hn in Ht; contradiction).
    assert (K : forall y, absorbed_into x0 D y <> xi ->
                          absorbed_into x0 (xi :: D) y = absorbed_into x0 D y).
    { intros y Hy. apply absorbed_cons_other. intros ->.
      now rewrite (absorbed_out x0 D xi HxiD) in Hy. }
    unfold same_ends, source, target in *. cbn [fst snd] in *.
    destruct V as [V|V]; rewrite V in Hsx, Htx; cbn [fst snd] in Hsx, Htx;
      rewrite !K by assumption; auto.
Qed.

End AbsorbInner.

Lemma absorbing_init G x0 Pall :
  wf_graph G -> loop_free G -> adj_complete G -> absorbing G x0 Pall [] [] G.
Proof.
  intros W L C. constructor; auto.
  - intros x [].
  - intros e He Hh. rewrite (edges_visible _ _ He) in Hh. discriminate.
  - intros e _ _. left. left. cbn [app]. unfold absorbed_into, source, target.
    cbn [existsb]. apply surjective_pairing.
Qed.

Lemma inner_start G0 x0 Pall D xi G :
  absorbing G0 x0 Pall D [] G -> absorbing G0 x0 Pall D [xi] G.
Proof.
  intros A. constructor; try (now destruct A).
  intros e He Hv. left.
  destruct (ab_vis _ _ _ _ _ _ A e He Hv) as [V|V]; exact V.
Qed.

Lemma last_in_cons (P : path) (y x0 : node) (q : list node) :
  P ++ [y] = x0 :: q -> In y (x0 :: q).
Proof. intros E. rewrite <- E. apply in_or_app. right. now left. Qed.

Lemma absorb_while_contracts n :
  forall fuel x0 G0 Pall G sg P xm1 q D,
    length P = n -> (n < fuel)%nat ->
    P ++ [xm1] = x0 :: q -> NoDup (x0 :: q) ->
    incl (x0 :: q) Pall -> incl D Pall ->
    (forall x, In x (x0 :: q) -> ~ In x D) ->
    absorbing G0 x0 Pall D [] G ->
    exists G' sg',
      absorb_while fuel x0 G sg P xm1 = Ret (G', sg', [])
      /\ absorbing G0 x0 Pall (q ++ D) [] G'.
Proof.
  induction n as [|n IH]; intros fuel x0 G0 Pall G sg P xm1 q D Hlen Hf HP N IP ID Dis A.
  - destruct P; [|discriminate]. simpl in HP. injection HP as -> <-.
    exists G, sg. split; [|exact A]. destruct fuel; simpl; now rewrite Nat.eqb_refl.
  - destruct (exists_last (l := P)) as [P' [y ->]]; [now destruct P|].
    rewrite length_app in Hlen. simpl in Hlen.
    destruct fuel as [|fuel]; [lia|]. cbn [absorb_while].
    assert (Hq' : exists q', P' ++ [y] = x0 :: q' /\ q = q' ++ [xm1]).
    { destruct (P' ++ [y]) as [|a r] eqn:E.
      - destruct P'; discriminate.
      - simpl in HP. injection HP as -> <-. eauto. }
    destruct Hq' as [q' [E' ->]].
    assert (Hx : xm1 <> x0).
    { intros ->. inversion N as [|? ? Hn _]. apply Hn. apply in_or_app. right. now left. }
    assert (Hxq : ~ In xm1 q').
    { inversion N as [|? ? _ Nq]. apply NoDup_remove_2 with (l' := []) in Nq.
      now rewrite app_nil_r in Nq. }
    assert (HxD : ~ In xm1 D).
    { apply Dis. right. apply in_or_app. right. now left. }
    assert (HxP : In xm1 Pall).
    { apply IP. right. apply in_or_app. right. now left. }
    assert (HyP : In y Pall).
    { apply IP. destruct (last_in_cons _ _ _ _ E') as [<-|Hy]; [now left|].
      right. apply in_or_app. now left. }
    pose proof (Nat.eqb_neq xm1 x0) as Hb. rewrite (proj2 Hb Hx).
    rewrite Pop_snoc.
    destruct (absorb_edges_inner G0 x0 Pall D xm1 y Hx HxD (Dis x0 (or_introl eq_refl))
                HxP (IP x0 (or_introl eq_refl)) HyP ID
                (length (adj G xm1)) (S (degree G xm1)) G eq_refl (Nat.lt_succ_diag_r _)
                (inner_start _ _ _ _ _ _ A))
      as (G1 & E1 & A1 & Hn).
    rewrite E1. cbn [bind].
    pose proof (inner_done G0 x0 Pall D xm1 HxD G1 A1 Hn) as A2.
    destruct (IH fuel x0 G0 Pall G1 (sigma_conc sg x0 xm1) P' y q' (xm1 :: D))
      as (G' & sg' & E2 & A3); auto; try lia.
    + inversion N as [|? ? Hn0 Nq]. constructor.
      * intros Hin. apply Hn0. apply in_or_app. now left.
      * now apply NoDup_app_remove_r in Nq.
    + intros x [<-|Hxq']; apply IP; [now left|right; apply in_or_app; now left].
    + intros x [<-|Hd]; [exact HxP|now apply ID].
    + intros x Hx' [<-|Hd].
      * destruct Hx' as [->|Hx']; [now apply Hx|contradiction].
      * apply (Dis x); [|exact Hd].
        destruct Hx' as [<-|Hx']; [now left|right; apply in_or_app; now left].
    + exists G', sg'. split; [exact E2|]. now rewrite <- app_assoc.
Qed.

Lemma AbsorbPath_absorbing (G : graph) (sg : sigma_t) (x0 : node) (tl : list node) :
  wf_graph G -> loop_free G -> adj_complete G -> NoDup (x0 :: tl) ->
  exists G' sg',
    AbsorbPath G sg (x0 :: tl) = Ret (G', sg', [])
    /\ absorbing G x0 (x0 :: tl) tl [] G'.
Proof.
  intros W L C N. unfold AbsorbPath.
  destruct (exists_last (l := x0 :: tl)) as [P1 [xm1 E]]; [discriminate|].
  rewrite E, Pop_snoc.
  destruct P1 as [|p P1].
  - injection E as E1 E2. subst tl. exists G, sg. split; [reflexivity|].
    now apply absorbing_init.
  - simpl in E. injection E as <- ->.
    destruct (absorb_while_contracts (length (x0 :: P1)) (S (length (x0 :: P1)))
                x0 G (x0 :: P1 ++ [xm1]) G sg (x0 :: P1) xm1 (P1 ++ [xm1]) [] eq_refl)
      as (G' & sg' & E' & A); auto using incl_refl, incl_nil_l.
    + now apply absorbing_init.
    + exists G', sg'. split; [exact E'|]. now rewrite app_nil_r in A.
Qed.

(** What an absorption into [x0] of exactly the vertices [D], all of them
    on [Pall = x0 :: D], has done to the graph. *)
Lemma absorbing_final (G G' : graph) (x0 : node) (D : list node) :
  ~ In x0 D -> absorbing G x0 (x0 :: D) D [] G' ->
  wf_graph G' /\ loop_free G' /\ adj_complete G'
  /\ all_nodes G' = all_nodes G /\ edge_list G' = edge_list G
  /\ (forall x, In x D -> degree G' x = 0%nat)
  /\ (forall e, ~ In e (edges G) -> hidden G' e = hidden G e /\ ends G' e = ends G e)
  /\ (forall e, In e (edges G) ->
        (hidden G' e = true
         <-> In (source G e) (x0 :: D) /\ In (target G e) (x0 :: D))
        /\ (hidden G' e = false ->
            same_ends (ends G' e)
                      (absorbed_into x0 D (source G e), absorbed_into x0 D (target G e)))).
Proof.
  intros N A.
  split; [exact (ab_wf _ _ _ _ _ _ A)|]. split; [exact (ab_lf _ _ _ _ _ _ A)|].
  split; [exact (ab_adj _ _ _ _ _ _ A)|]. split; [exact (ab_nodes _ _ _ _ _ _ A)|].
  split; [exact (ab_list _ _ _ _ _ _ A)|].
  split; [intros x Hx; unfold degree; now rewrite (ab_iso _ _ _ _ _ _ A x Hx)|].
  split; [exact (ab_old _ _ _ _ _ _ A)|].
  intros e He.
  assert (V : hidden G' e = false ->
              same_ends (ends G' e)
                        (absorbed_into x0 D (source G e), absorbed_into x0 D (target G e))).
  { intros Hv. destruct (ab_vis _ _ _ _ _ _ A e He Hv) as [V|V]; exact V. }
  split; [|exact V]. split; [exact (ab_hid _ _ _ _ _ _ A e He)|].
  intros [Hs Ht]. destruct (hidden G' e) eqn:Hv; [reflexivity|]. exfalso.
  assert (K : forall y, In y (x0 :: D) -> absorbed_into x0 D y = x0).
  { intros y [<-|Hy]; [now apply absorbed_out|now apply absorbed_in]. }
  specialize (V eq_refl). rewrite (K _ Hs), (K _ Ht) in V.
  assert (Hvis : In e (edges G')).
  { apply filter_In. split; [|now rewrite Hv].
    rewrite (ab_list _ _ _ _ _ _ A). apply filter_In in He. tauto. }
  destruct (ab_adj _ _ _ _ _ _ A e Hvis) as [Hin _].
  apply (ab_lf _ _ _ _ _ _ A _ _ Hin). unfold source, target.
  destruct V as [V|V]; now rewrite V.
Qed.

(** X9.  Whole-path absorption contracts the path into its head.  On a
    well-formed graph without visible self-loops, whose visible edges lie
    in the adjacency lists of their endpoints, and for a path [x0 :: tl]
    without repeated vertex, the call returns with the path empty; the
    vertices of [tl] have no visible edge left; a visible edge is hidden
    exactly when both its ends were on the path; every other visible edge
    now joins the vertices that stand for its old ends ([x0] for a vertex of
    [tl]); edges that were not visible, the vertices and the edge arena are
    untouched; and the graph still satisfies the three conditions. *)
Theorem AbsorbPath_contracts_the_path
        (G : graph) (sg : sigma_t) (x0 : node) (tl : list node) :
  wf_graph G -> loop_free G -> adj_complete G -> NoDup (x0 :: tl) ->
  exists G' sg',
    AbsorbPath G sg (x0 :: tl) = Ret (G', sg', [])
    /\ wf_graph G' /\ loop_free G' /\ adj_complete G'
    /\ all_nodes G' = all_nodes G /\ edge_list G' = edge_list G
    /\ (forall x, In x tl -> degree G' x = 0%nat)
    /\ (forall e, ~ In e (edges G) -> hidden G' e = hidden G e /\ ends G' e = ends G e)
    /\ (forall e, In e (edges G) ->
          (hidden G' e = true
           <-> In (source G e) (x0 :: tl) /\ In (target G e) (x0 :: tl))
          /\ (hidden G' e = false ->
              same_ends (ends G' e)
                        (absorbed_into x0 tl (source G e),
                         absorbed_into x0 tl (target G e)))).
Proof.
  intros W L C N.
  destruct (AbsorbPath_absorbing G sg x0 tl W L C N) as (G' & sg' & E & A).
  exists G', sg'. split; [exact E|].
  apply absorbing_final; [|exact A]. now inversion N.
Qed.

Lemma NoDup_012 : NoDup [0; 1; 2]%nat.
Proof. repeat constructor; simpl; intros H; decompose [or] H; discriminate || contradiction. Qed.

Lemma AbsorbPath_contracts_the_path_witness :
  exists G' sg',
    AbsorbPath G_path4 sigma_id [0; 1; 2]%nat = Ret (G', sg', [])
    /\ wf_graph G' /\ loop_free G' /\ adj_complete G'
    /\ all_nodes G' = all_nodes G_path4 /\ edge_list G' = edge_list G_path4
    /\ (forall x, In x [1; 2]%nat -> degree G' x = 0%nat)
    /\ (forall e, ~ In e (edges G_path4) ->
                  hidden G' e = hidden G_path4 e /\ ends G' e = ends G_path4 e)
    /\ (forall e, In e (edges G_path4) ->
          (hidden G' e = true
           <-> In (source G_path4 e) [0; 1; 2]%nat /\ In (target G_path4 e) [0; 1; 2]%nat)
          /\ (hidden G' e = false ->
              same_ends (ends G' e)
                        (absorbed_into 0%nat [1; 2]%nat (source G_path4 e),
                         absorbed_into 0%nat [1; 2]%nat (target G_path4 e)))).
Proof.
  apply (AbsorbPath_contracts_the_path G_path4 sigma_id 0%nat [1; 2]%nat).
  - exact (proj1 G_path4_wf).
  - exact (proj2 G_path4_wf).
  - exact (cl_adj _ (graph_of_closed 4 [(0, 1); (1, 2); (2, 3)]%nat eq_refl)).
  - exact NoDup_012.
Defined.

(** ** The component lists after an absorption *)

Lemma sigma_conc_at (sg : sigma_t) (a b : node) :
  a <> b ->
  sigma_conc sg a b a = sg a ++ sg b
  /\ sigma_conc sg a b b = []
  /\ forall y, y <> a -> y <> b -> sigma_conc sg a b y = sg y.
Proof.
  intros H. unfold sigma_conc. split; [|split].
  - rewrite upd_other by assumption. apply upd_same.
  - apply upd_same.
  - intros y Ha Hb. now rewrite !upd_other by assumption.
Qed.

Lemma head_last_nil (P q : list node) (x0 : node) :
  P ++ [x0] = x0 :: q -> NoDup (x0 :: q) -> q = [].
Proof.
  intros HP N. destruct P as [|p P]; simpl in HP.
  - now injection HP.
  - injection HP as _ Hq. inversion N as [|? ? Hn _]. exfalso. apply Hn.
    rewrite <- Hq. apply in_or_app. right. now left.
Qed.

Lemma absorb_while_sigma fuel :
  forall x0 G sg P xm1 q G' sg' P',
    P ++ [xm1] = x0 :: q -> NoDup (x0 :: q) ->
    absorb_while fuel x0 G sg P xm1 = Ret (G', sg', P') ->
    sg' x0 = sg x0 ++ flat_map sg (rev q)
    /\ (forall x, In x q -> sg' x = [])
    /\ (forall y, ~ In y (x0 :: q) -> sg' y = sg y).
Proof.
  induction fuel as [|fuel IH]; intros x0 G sg P xm1 q G' sg' P' HP N E;
    cbn [absorb_while] in E.
  - destruct (Nat.eqb_spec xm1 x0) as [->|Hx]; [|discriminate].
    injection E as <- <- <-.
    pose proof (head_last_nil _ _ _ HP N). subst q. simpl. rewrite app_nil_r. repeat split; auto. intros x [].
  - destruct (Nat.eqb_spec xm1 x0) as [->|Hx].
    + injection E as <- <- <-.
      pose proof (head_last_nil _ _ _ HP N). subst q. simpl. rewrite app_nil_r. repeat split; auto. intros x [].
    + destruct (Pop P) as [[y P1]|] eqn:EP; [|discriminate].
      apply Pop_inv in EP. subst P.
      destruct (absorb_edges (S (degree G xm1)) G xm1 y x0 (First_Inout_Edge G xm1))
        as [G1| |]; try discriminate.
      cbn [bind] in E.
      assert (Hq' : exists q', P1 ++ [y] = x0 :: q' /\ q = q' ++ [xm1]).
      { destruct (P1 ++ [y]) as [|a r] eqn:E1.
        - destruct P1; discriminate.
        - simpl in HP. injection HP as -> <-. eauto. }
      destruct Hq' as [q' [E' ->]].
      assert (Hxq : ~ In xm1 q').
      { inversion N as [|? ? _ Nq]. apply NoDup_remove_2 with (l' := []) in Nq.
        now rewrite app_nil_r in Nq. }
      assert (N' : NoDup (x0 :: q')).
      { inversion N as [|? ? Hn0 Nq]. constructor.
        - intros Hin. apply Hn0. apply in_or_app. now left.
        - now apply NoDup_app_remove_r in Nq. }
      destruct (IH _ _ _ _ _ _ _ _ _ E' N' E) as (S0 & S1 & S2).
      assert (Hx' : x0 <> xm1) by congruence.
      destruct (sigma_conc_at sg x0 xm1 Hx') as (C0 & C1 & C2).
      split; [|split].
      * rewrite S0, C0, rev_app_distr. cbn [rev app flat_map]. rewrite <- app_assoc.
        do 2 f_equal. apply flat_map_ext_in. intros x Hx0. apply in_rev in Hx0.
        apply C2; [|congruence].
        intros ->. inversion N' as [|? ? Hn _]. contradiction.
      * intros x Hin. apply in_app_or in Hin. destruct Hin as [Hin|[<-|[]]];
          [now apply S1|].
        rewrite S2; [exact C1|]. intros [->|Hin]; [now apply Hx|contradiction].
      * intros z Hz. rewrite S2.
        -- apply C2; intros ->; apply Hz; [now left|].
           right. apply in_or_app. right. now left.
        -- intros [->|Hin]; apply Hz; [now left|right; apply in_or_app; now left].
Qed.

(** X10.  What whole-path absorption does to the component lists: for a
    path [x0 :: tl] without repeated vertex, when the call returns, the list
    of [x0] is its old list followed by the old lists of the vertices of
    [tl], taken from the end of the path to its start; the lists of the
    vertices of [tl] are empty; all other lists are unchanged. *)
Theorem AbsorbPath_gathers_sigma
        (G : graph) (sg : sigma_t) (x0 : node) (tl : list node)
        (G' : graph) (sg' : sigma_t) (P' : path) :
  NoDup (x0 :: tl) ->
  AbsorbPath G sg (x0 :: tl) = Ret (G', sg', P') ->
  sg' x0 = sg x0 ++ flat_map sg (rev tl)
  /\ (forall x, In x tl -> sg' x = [])
  /\ (forall y, ~ In y (x0 :: tl) -> sg' y = sg y).
Proof.
  intros N E. unfold AbsorbPath in E.
  destruct (exists_last (l := x0 :: tl)) as [P1 [xm1 EP]]; [discriminate|].
  rewrite EP, Pop_snoc in E.
  destruct P1 as [|p P1].
  - injection EP as _ ->. injection E as <- <- <-. simpl. rewrite app_nil_r.
    repeat split; auto. intros x [].
  - apply (absorb_while_sigma _ _ _ _ _ _ _ _ _ _ (eq_sym EP) N E).
Qed.

Lemma AbsorbPath_gathers_sigma_witness :
  exists G' sg' P',
    AbsorbPath G_path4 sigma_id [0; 1; 2]%nat = Ret (G', sg', P')
    /\ sg' 0%nat = sigma_id 0%nat ++ flat_map sigma_id (rev [1; 2]%nat)
    /\ (forall x, In x [1; 2]%nat -> sg' x = [])
    /\ (forall y, ~ In y [0; 1; 2]%nat -> sg' y = sigma_id y).
Proof.
  do 3 eexists. split; [vm_compute; reflexivity|].
  eapply (AbsorbPath_gathers_sigma G_path4 sigma_id 0%nat [1; 2]%nat).
  - exact NoDup_012.
  - vm_compute. reflexivity.
Defined.

(** * Sub-path absorption *)

Lemma del_item_app (m : list node) (x : node) (post : list node) :
  del_item (length m) (m ++ x :: post) = m ++ post.
Proof. induction m as [|a m IH]; simpl; [reflexivity|]. now rewrite IH. Qed.

Lemma nth_app_length (m : list node) (x : node) (post : list node) :
  nth (length m) (m ++ x :: post) 0%nat = x.
Proof. induction m as [|a m IH]; simpl; auto. Qed.

Lemma last_or_nil (m : list node) : m = [] \/ exists m' y, m = m' ++ [y].
Proof.
  destruct m as [|a m]; [now left|right].
  destruct (exists_last (l := a :: m)) as [m' [y E]]; [discriminate|eauto].
Qed.

(** The backward walk finds the only occurrence of [v]. *)
Lemma find_back_found (pre post : list node) (v : node) :
  ~ In v post ->
  find_back (pre ++ v :: post) v (length (pre ++ v :: post)) = Some (length pre).
Proof.
  intros Hv.
  assert (K : forall k, (k <= length post)%nat ->
                        find_back (pre ++ v :: post) v (S (length pre + k))
                        = Some (length pre)).
  { induction k as [|k IH]; intros Hk.
    - rewrite Nat.add_0_r. cbn [find_back]. rewrite nth_app_length.
      now rewrite Nat.eqb_refl.
    - rewrite Nat.add_succ_r. cbn [find_back].
      rewrite app_nth2 by lia.
      replace (S (length pre + k) - length pre)%nat with (S k) by lia.
      cbn [nth].
      destruct (Nat.eqb_spec (nth k post 0%nat) v) as [E|_]; [|apply IH; lia].
      exfalso. apply Hv. rewrite <- E. apply nth_In. lia. }
  rewrite length_app. cbn [length]. rewrite Nat.add_succ_r. apply K. lia.
Qed.

Lemma NoDup_mid (x0 : node) (m : list node) (xm1 : node) (post : list node) :
  NoDup (x0 :: m ++ xm1 :: post) ->
  xm1 <> x0 /\ ~ In xm1 m /\ ~ In x0 m /\ NoDup (x0 :: m ++ post) /\ ~ In xm1 post.
Proof.
  intros N. inversion N as [|? ? Hn Nq]; subst.
  pose proof (NoDup_remove_1 _ _ _ Nq) as N1.
  pose proof (NoDup_remove_2 _ _ _ Nq) as N2.
  split; [intros ->; apply Hn; apply in_or_app; right; now left|].
  split; [intros H; apply N2; apply in_or_app; now left|].
  split; [intros H; apply Hn; apply in_or_app; now left|].
  split; [|intros H; apply N2; apply in_or_app; now right].
  constructor; [|exact N1].
  intros H. apply Hn. apply in_app_or in H. apply in_or_app.
  destruct H; [now left|right; now right].
Qed.

Lemma absorb2_while_result fuel :
  forall x0 G sg m xm1 post G' sg' P',
    NoDup (x0 :: m ++ xm1 :: post) ->
    absorb2_while fuel x0 x0 G sg (x0 :: m ++ xm1 :: post) (S (length m)) xm1
    = Ret (G', sg', P') ->
    P' = x0 :: post
    /\ sg' x0 = sg x0 ++ flat_map sg (rev (m ++ [xm1]))
    /\ (forall x, In x (m ++ [xm1]) -> sg' x = [])
    /\ (forall y, ~ In y (x0 :: m ++ [xm1]) -> sg' y = sg y).
Proof.
  induction fuel as [|fuel IH]; intros x0 G sg m xm1 post G' sg' P' N E;
    destruct (NoDup_mid _ _ _ _ N) as (Hx & Hxm & H0m & N' & Hxp);
    cbn [absorb2_while] in E; pose proof (proj2 (Nat.eqb_neq xm1 x0) Hx) as Hb;
    rewrite Hb in E; [discriminate|].
  destruct (absorb2_edges (S (degree G xm1)) G xm1
              (nth (length m) (x0 :: m ++ xm1 :: post) 0%nat) x0
              (First_Inout_Edge G xm1)) as [G1| |]; try discriminate.
  cbn [bind] in E. cbn [del_item] in E. rewrite del_item_app in E.
  assert (Hx' : x0 <> xm1) by congruence.
  destruct (sigma_conc_at sg x0 xm1 Hx') as (C0 & C1 & C2).
  destruct (last_or_nil m) as [->|[m' [y ->]]].
  - cbn [length nth app] in E.
    assert (E' : Ret (G1, sigma_conc sg x0 xm1, x0 :: post) = Ret (G', sg', P'))
      by (destruct fuel; cbn [absorb2_while] in E; now rewrite Nat.eqb_refl in E).
    injection E' as <- <- <-. cbn [app rev flat_map]. rewrite app_nil_r.
    split; [reflexivity|]. split; [exact C0|]. split.
    + intros x [<-|[]]. exact C1.
    + intros z Hz. apply C2; intros ->; apply Hz; [now left|right; now left].
  - rewrite length_app in E. cbn [length] in E. rewrite Nat.add_1_r in E.
    cbn [nth] in E. rewrite <- !app_assoc in E. cbn [app] in E.
    rewrite nth_app_length in E. rewrite <- app_assoc in N'. cbn [app] in N'.
    destruct (IH _ _ _ _ _ _ _ _ _ N' E) as (EP & S0 & S1 & S2).
    split; [exact EP|]. split; [|split].
    + rewrite S0, C0, (rev_app_distr (m' ++ [y])). cbn [rev app flat_map].
      rewrite <- app_assoc. do 2 f_equal. apply flat_map_ext_in.
      intros x Hx0. apply in_rev in Hx0. apply C2; intros ->; contradiction.
    + intros x Hin. apply in_app_or in Hin. destruct Hin as [Hin|[<-|[]]];
        [now apply S1|].
      rewrite S2; [exact C1|]. intros [->|Hin]; [now apply Hx|contradiction].
    + intros z Hz. rewrite S2.
      * apply C2; intros ->; apply Hz; [now left|].
        right. apply in_or_app. right. now left.
      * intros [->|Hin]; apply Hz; [now left|right; apply in_or_app; now left].
Qed.

Lemma AbsorbPath2_unfold (G : graph) (sg : sigma_t) (u : node) (mid : list node)
      (v : node) (post : list node) :
  ~ In v post ->
  AbsorbPath2 G sg (u :: mid ++ v :: post) u v
  = absorb2_while (S (length (u :: mid ++ v :: post))) u u G sg
                  (u :: mid ++ v :: post) (S (length mid)) v.
Proof.
  intros Hv. unfold AbsorbPath2. rewrite Nat.eqb_refl. cbn [negb].
  change (u :: mid ++ v :: post) with ((u :: mid) ++ v :: post).
  rewrite (find_back_found (u :: mid) post v Hv). cbn [length app nth].
  now rewrite nth_app_length.
Qed.

(** X11.  Sub-path absorption up to a target on the path: for a path
    [u :: mid ++ v :: post] without repeated vertex, when
    [AbsorbPath(G, sigma, cols, P, u, v)] returns, the path is [u :: post]:
    the vertices after the head up to and including [v] have left it.  The
    list of [u] is its old list followed by the old lists of the removed
    vertices, from [v] back to the start; their lists are empty and all
    other lists are unchanged. *)
Theorem AbsorbPath2_absorbs_up_to_target
        (G : graph) (sg : sigma_t) (u : node) (mid : list node) (v : node)
        (post : list node) (G' : graph) (sg' : sigma_t) (P' : path) :
  NoDup (u :: mid ++ v :: post) ->
  AbsorbPath2 G sg (u :: mid ++ v :: post) u v = Ret (G', sg', P') ->
  P' = u :: post
  /\ sg' u = sg u ++ flat_map sg (rev (mid ++ [v]))
  /\ (forall x, In x (mid ++ [v]) -> sg' x = [])
  /\ (forall y, ~ In y (u :: mid ++ [v]) -> sg' y = sg y).
Proof.
  intros N E. destruct (NoDup_mid _ _ _ _ N) as (_ & _ & _ & _ & Hv).
  rewrite (AbsorbPath2_unfold _ _ _ _ _ _ Hv) in E.
  exact (absorb2_while_result _ _ _ _ _ _ _ _ _ _ N E).
Qed.

Lemma AbsorbPath2_absorbs_up_to_target_witness :
  exists G' sg' P',
    AbsorbPath2 G_path4 sigma_id [0; 1; 2; 3]%nat 0%nat 2%nat = Ret (G', sg', P')
    /\ P' = [0; 3]%nat
    /\ sg' 0%nat = sigma_id 0%nat ++ flat_map sigma_id (rev ([1] ++ [2]))%nat
    /\ (forall x, In x ([1] ++ [2])%nat -> sg' x = [])
    /\ (forall y, ~ In y (0 :: [1] ++ [2])%nat -> sg' y = sigma_id y).
Proof.
  do 3 eexists. split; [vm_compute; reflexivity|].
  eapply (AbsorbPath2_absorbs_up_to_target G_path4 sigma_id 0%nat [1]%nat 2%nat [3]%nat).
  - repeat constructor; simpl; intros H; decompose [or] H; discriminate || contradiction.
  - vm_compute. reflexivity.
Defined.

Lemma absorb2_while_contracts n :
  forall fuel x0 G0 Pall G sg m xm1 post D,
    length m = n -> (n < fuel)%nat ->
    NoDup (x0 :: m ++ xm1 :: post) ->
    incl (x0 :: m ++ [xm1]) Pall -> incl D Pall ->
    (forall x, In x (x0 :: m ++ [xm1]) -> ~ In x D) ->
    absorbing G0 x0 Pall D [] G ->
    exists G' sg',
      absorb2_while fuel x0 x0 G sg (x0 :: m ++ xm1 :: post) (S (length m)) xm1
      = Ret (G', sg', x0 :: post)
      /\ absorbing G0 x0 Pall ((m ++ [xm1]) ++ D) [] G'.
Proof.
  induction n as [|n IH]; intros fuel x0 G0 Pall G sg m xm1 post D Hlen Hf N IP ID Dis A;
    destruct (NoDup_mid _ _ _ _ N) as (Hx & Hxm & H0m & N' & Hxp);
    (destruct fuel as [|fuel]; [lia|]);
    cbn [absorb2_while]; pose proof (proj2 (Nat.eqb_neq xm1 x0) Hx) as Hb; rewrite Hb;
    cbn [del_item]; rewrite del_item_app.
  - destruct m; [|discriminate]. cbn [length nth app].
    assert (HxD : ~ In xm1 D) by (apply Dis; right; now left).
    assert (HxP : In xm1 Pall) by (apply IP; right; now left).
    assert (H0P : In x0 Pall) by (apply IP; now left).
    rewrite (absorb2_edges_eq _ G xm1 x0 x0 _ (ab_wf _ _ _ _ _ _ A)
                              (ab_lf _ _ _ _ _ _ A) Hx eq_refl).
    destruct (absorb_edges_inner G0 x0 Pall D xm1 x0 Hx HxD (Dis x0 (or_introl eq_refl))
                HxP H0P H0P ID
                (length (adj G xm1)) (S (degree G xm1)) G eq_refl (Nat.lt_succ_diag_r _)
                (inner_start _ _ _ _ _ _ A))
      as (G1 & E1 & A1 & Hn).
    rewrite E1. cbn [bind].
    exists G1, (sigma_conc sg x0 xm1). split.
    + destruct fuel; cbn [absorb2_while]; now rewrite Nat.eqb_refl.
    + exact (inner_done G0 x0 Pall D xm1 HxD G1 A1 Hn).
  - destruct (last_or_nil m) as [->|[m' [y ->]]]; [discriminate|].
    rewrite length_app in Hlen. cbn [length] in Hlen.
    replace (nth (length (m' ++ [y])) (x0 :: (m' ++ [y]) ++ xm1 :: post) 0%nat)
      with y
      by (rewrite length_app; cbn [length]; rewrite Nat.add_1_r; cbn [nth];
          rewrite <- app_assoc; cbn [app]; now rewrite nth_app_length).
    assert (HxD : ~ In xm1 D).
    { apply Dis. right. apply in_or_app. right. now left. }
    assert (HxP : In xm1 Pall).
    { apply IP. right. apply in_or_app. right. now left. }
    assert (H0P : In x0 Pall) by (apply IP; now left).
    assert (HyP : In y Pall).
    { apply IP. right. apply in_or_app. left. apply in_or_app. right. now left. }
    rewrite (absorb2_edges_eq _ G xm1 y x0 _ (ab_wf _ _ _ _ _ _ A)
                              (ab_lf _ _ _ _ _ _ A) Hx eq_refl).
    destruct (absorb_edges_inner G0 x0 Pall D xm1 y Hx HxD (Dis x0 (or_introl eq_refl))
                HxP H0P HyP ID
                (length (adj G xm1)) (S (degree G xm1)) G eq_refl (Nat.lt_succ_diag_r _)
                (inner_start _ _ _ _ _ _ A))
      as (G1 & E1 & A1 & Hn).
    rewrite E1. cbn [bind].
    pose proof (inner_done G0 x0 Pall D xm1 HxD G1 A1 Hn) as A2.
    rewrite <- app_assoc in N'. cbn [app] in N'.
    destruct (IH fuel x0 G0 Pall G1 (sigma_conc sg x0 xm1) m' y post (xm1 :: D))
      as (G' & sg' & E2 & A3); auto; try lia.
    + intros x Hin. apply IP. destruct Hin as [<-|Hin]; [now left|].
      right. apply in_or_app. now left.
    + intros x [<-|Hd]; [exact HxP|now apply ID].
    + intros x Hx' [<-|Hd].
      * destruct Hx' as [->|Hx']; [now apply Hx|contradiction].
      * apply (Dis x); [|exact Hd].
        destruct Hx' as [<-|Hx']; [now left|right; apply in_or_app; now left].
    + exists G', sg'. rewrite length_app. cbn [length]. rewrite Nat.add_1_r.
      rewrite <- !app_assoc. cbn [app]. split; [exact E2|].
      rewrite <- app_assoc in A3. exact A3.
Qed.

(** X12.  Sub-path absorption contracts the sub-path into the head.  On a
    well-formed graph without visible self-loops, whose visible edges lie in
    the adjacency lists of their endpoints, and for a path
    [u :: mid ++ v :: post] without repeated vertex, the call returns with
    the path [u :: post]; the vertices of [mid] and [v] have no visible edge
    left; a visible edge is hidden exactly when both its ends were among
    [u], [mid] and [v]; every other visible edge joins the vertices that
    stand for its old ends; the vertices of [post] are not absorbed; edges
    that were not visible, the vertices and the edge arena are untouched. *)
Theorem AbsorbPath2_contracts_the_subpath
        (G : graph) (sg : sigma_t) (u : node) (mid : list node) (v : node)
        (post : list node) :
  wf_graph G -> loop_free G -> adj_complete G ->
  NoDup (u :: mid ++ v :: post) ->
  exists G' sg',
    AbsorbPath2 G sg (u :: mid ++ v :: post) u v = Ret (G', sg', u :: post)
    /\ wf_graph G' /\ loop_free G' /\ adj_complete G'
    /\ all_nodes G' = all_nodes G /\ edge_list G' = edge_list G
    /\ (forall x, In x (mid ++ [v]) -> degree G' x = 0%nat)
    /\ (forall e, ~ In e (edges G) -> hidden G' e = hidden G e /\ ends G' e = ends G e)
    /\ (forall e, In e (edges G) ->
          (hidden G' e = true
           <-> In (source G e) (u :: mid ++ [v]) /\ In (target G e) (u :: mid ++ [v]))
          /\ (hidden G' e = false ->
              same_ends (ends G' e)
                        (absorbed_into u (mid ++ [v]) (source G e),
                         absorbed_into u (mid ++ [v]) (target G e)))).
Proof.
  intros W L C N. destruct (NoDup_mid _ _ _ _ N) as (Hvu & Hvm & Hum & _ & Hv).
  rewrite (AbsorbPath2_unfold _ _ _ _ _ _ Hv).
  destruct (absorb2_while_contracts (length mid) (S (length (u :: mid ++ v :: post)))
              u G (u :: mid ++ [v]) G sg mid v post [] eq_refl)
    as (G' & sg' & E & A); auto using incl_refl, incl_nil_l.
  - cbn [length]. rewrite length_app. lia.
  - now apply absorbing_init.
  - exists G', sg'. split; [exact E|]. rewrite app_nil_r in A.
    apply absorbing_final; [|exact A].
    intros H. apply in_app_or in H. destruct H as [H|[H|[]]]; [contradiction|].
    now apply Hvu.
Qed.

Lemma AbsorbPath2_contracts_the_subpath_witness :
  exists G' sg',
    AbsorbPath2 G_path4 sigma_id (0 :: [1] ++ 2 :: [3])%nat 0%nat 2%nat
    = Ret (G', sg', [0; 3]%nat)
    /\ wf_graph G' /\ loop_free G' /\ adj_complete G'
    /\ all_nodes G' = all_nodes G_path4 /\ edge_list G' = edge_list G_path4
    /\ (forall x, In x ([1] ++ [2])%nat -> degree G' x = 0%nat)
    /\ (forall e, ~ In e (edges G_path4) ->
                  hidden G' e = hidden G_path4 e /\ ends G' e = ends G_path4 e)
    /\ (forall e, In e (edges G_path4) ->
          (hidden G' e = true
           <-> In (source G_path4 e) (0 :: [1] ++ [2])%nat
               /\ In (target G_path4 e) (0 :: [1] ++ [2])%nat)
          /\ (hidden G' e = false ->
              same_ends (ends G' e)
                        (absorbed_into 0%nat ([1] ++ [2])%nat (source G_path4 e),
                         absorbed_into 0%nat ([1] ++ [2])%nat (target G_path4 e)))).
Proof.
  apply (AbsorbPath2_contracts_the_subpath G_path4 sigma_id 0%nat [1]%nat 2%nat [3]%nat).
  - exact (proj1 G_path4_wf).
  - exact (proj2 G_path4_wf).
  - exact (cl_adj _ (graph_of_closed 4 [(0, 1); (1, 2); (2, 3)]%nat eq_refl)).
  - repeat constructor; simpl; intros H; decompose [or] H; discriminate || contradiction.
Defined.

(** * The induced subgraph *)

Lemma new_edge_info_wf H s t e n :
  wf_graph H -> edge_list H = seq 0 n -> wf_graph (new_edge_info H s t e).
Proof.
  intros W E. destruct (new_edge_wf H s t n W E) as [W' _].
  exact (mkWf (new_edge_info H s t e) (wf_nodup _ W') (wf_inc _ W') (wf_vis _ W')
              (wf_listed _ W') (wf_edges _ W')).
Qed.

Lemma new_edge_adj_complete H s t n :
  adj_complete H -> edge_list H = seq 0 n -> adj_complete (new_edge H s t).
Proof.
  intros C E e He. apply (edges_new_edge H s t n e E) in He.
  rewrite !adj_new_edge, !in_app_iff. rewrite E, length_seq.
  unfold source, target. cbn [new_edge ends]. rewrite E, length_seq. unfold upd.
  destruct (Nat.eqb_spec e n) as [->|Hne].
  - cbn [fst snd]. rewrite !Nat.eqb_refl, orb_true_r. simpl. auto.
  - destruct He as [He|He]; [|contradiction]. destruct (C e He). auto.
Qed.

Lemma new_edge_info_adj_complete H s t e n :
  adj_complete H -> edge_list H = seq 0 n -> adj_complete (new_edge_info H s t e).
Proof. intros C E. exact (new_edge_adj_complete H s t n C E). Qed.

(** The table [v_in_H] built by [copy_nodes] inverts the labels. *)
Lemma copy_nodes_table (V : list node) :
  forall (H : graph) (m : node -> option node) H' m',
    (forall x i, m x = Some i -> info H i = x /\ (i < length (all_nodes H))%nat) ->
    fold_left copy_node_step V (H, m) = (H', m') ->
    forall x i, m' x = Some i -> info H' i = x.
Proof.
  induction V as [|v V IH]; intros H m H' m' HM E; cbn [fold_left] in E.
  - injection E as <- <-. intros x i Hx. exact (proj1 (HM x i Hx)).
  - cbn [copy_node_step new_node] in E. eapply IH; [|exact E].
    cbn [info all_nodes]. intros x i. unfold upd. rewrite length_app. cbn [length].
    destruct (Nat.eqb_spec x v) as [->|Hne].
    + intros Ei. injection Ei as <-. rewrite Nat.eqb_refl. split; [reflexivity|lia].
    + intros Ei. destruct (HM x i Ei) as [Hi Hl].
      destruct (Nat.eqb_spec i (length (all_nodes H))); [lia|]. split; [exact Hi|lia].
Qed.

Lemma induced_weaken G m done cur cur' H :
  incl cur cur' -> induced_inv G m done cur H -> induced_inv G m done cur' H.
Proof.
  intros I A. constructor; try (now destruct A).
  intros h Hh. destruct (ii_touch _ _ _ _ _ A h Hh) as [T|T]; [now left|right; auto].
Qed.

Section InducedEdges.

Variable G : graph.
Variable k : nat.
Variable m : node -> option node.
Hypothesis G_wf : wf_graph G.
Hypothesis m_range : forall x i, m x = Some i -> (i < k)%nat.

Section OneVertex.

Variable done : list node.
Variable Na : node -> bool.
Variable v : node.
Hypothesis Na_done : forall y, Na y = true <-> In y done.
Hypothesis v_new : ~ In v done.

Lemma ends_of_adj e :
  In e (adj G v) ->
  same_ends (opposite G v e, v) (ends G e)
  /\ (forall y, source G e = y \/ target G e = y -> y = v \/ y = opposite G v e).
Proof.
  intros Hin. pose proof (wf_inc _ G_wf _ _ Hin) as Hi.
  unfold opposite, same_ends, source, target in *.
  destruct (ends G e) as [a b]. cbn [fst snd] in *.
  destruct (Nat.eqb_spec v a) as [->|Hne].
  - split; [now right|]. intros y [<-|<-]; auto.
  - destruct Hi as [Hi|<-]; [congruence|]. split; [now left|].
    intros y [<-|<-]; auto.
Qed.

Lemma copy_adj_induced (l1 : list edge) (H : graph) (e : edge) :
  copy_inv G k H -> induced_inv G m done l1 H ->
  In e (adj G v) -> ~ In e l1 ->
  induced_inv G m done (l1 ++ [e]) (copy_adj G m Na v H e).
Proof.
  intros C A Hin Hl1.
  assert (Wk : induced_inv G m done (l1 ++ [e]) H)
    by (apply (induced_weaken _ _ _ l1); [apply incl_appl, incl_refl|exact A]).
  unfold copy_adj.
  destruct (is_hidden G e); [exact Wk|].
  destruct (m (opposite G v e)) as [s|] eqn:Es; [|exact Wk].
  destruct (m v) as [t|] eqn:Et; [|exact Wk].
  destruct (Na (opposite G v e)) eqn:ENa; [exact Wk|].
  destruct (ends_of_adj e Hin) as [Hse Hends].
  pose proof (ci_list _ _ _ C) as EL.
  set (n := length (edge_list H)) in *.
  assert (Hold : forall h, In h (edge_list H) -> h <> n).
  { intros h Hh. rewrite EL in Hh. apply in_seq in Hh. lia. }
  assert (Hfresh : forall h, In h (edge_list H) -> einfo H h <> e).
  { intros h Hh Eh. destruct (ii_touch _ _ _ _ _ A h Hh) as [[y [Hy Hyy]]|T].
    - rewrite Eh in Hyy. destruct (Hends y Hyy) as [->| ->]; [contradiction|].
      apply Na_done in Hy. congruence.
    - rewrite Eh in T. contradiction. }
  constructor.
  - exact (new_edge_info_wf H s t e n (ii_wf _ _ _ _ _ A) EL).
  - exact (new_edge_info_adj_complete H s t e n (ii_adj _ _ _ _ _ A) EL).
  - intros h Hh. unfold source, target, new_edge_info, new_edge in *.
    cbn [edge_list ends einfo] in *. fold n. unfold upd.
    apply in_app_or in Hh. destruct Hh as [Hh|[<-|[]]].
    + pose proof (Hold h Hh) as Hne. apply Nat.eqb_neq in Hne. rewrite Hne.
      exact (ii_ends _ _ _ _ _ A h Hh).
    + rewrite Nat.eqb_refl. cbn [fst snd]. exists (opposite G v e), v. auto.
  - unfold new_edge_info, new_edge. cbn [edge_list einfo]. fold n.
    rewrite map_app. cbn [map]. rewrite upd_same.
    rewrite (map_ext_in _ (einfo H)).
    + apply NoDup_app; [exact (ii_inj _ _ _ _ _ A)|repeat constructor; auto|].
      intros a Ha [<-|[]]. apply in_map_iff in Ha. destruct Ha as [h [Eh Hh]].
      exact (Hfresh h Hh Eh).
    + intros h Hh. apply upd_other. now apply Hold.
  - intros h Hh. unfold new_edge_info, new_edge in *. cbn [edge_list einfo] in *.
    fold n. unfold upd. apply in_app_or in Hh. destruct Hh as [Hh|[<-|[]]].
    + pose proof (Hold h Hh) as Hne. apply Nat.eqb_neq in Hne. rewrite Hne.
      exact (ii_touch _ _ _ _ _ Wk h Hh).
    + rewrite Nat.eqb_refl. right. apply in_or_app. right. now left.
Qed.

Lemma copy_adj_fold_induced (l2 : list edge) :
  forall l1 H,
    adj G v = l1 ++ l2 ->
    copy_inv G k H -> induced_inv G m done l1 H ->
    copy_inv G k (fold_left (copy_adj G m Na v) l2 H)
    /\ induced_inv G m done (l1 ++ l2) (fold_left (copy_adj G m Na v) l2 H).
Proof.
  induction l2 as [|e l2 IH]; intros l1 H E C A; cbn [fold_left].
  - rewrite app_nil_r. auto.
  - assert (Hin : In e (adj G v)) by (rewrite E; apply in_or_app; right; now left).
    assert (Hl1 : ~ In e l1).
    { pose proof (wf_nodup _ G_wf v) as N. rewrite E in N.
      apply NoDup_remove_2 in N. intros H1. apply N. apply in_or_app. now left. }
    destruct (copy_adj_inv G k m G_wf m_range Na v H e C Hin) as [C1 _].
    pose proof (copy_adj_induced l1 H e C A Hin Hl1) as A1.
    destruct (IH (l1 ++ [e]) (copy_adj G m Na v H e)) as [C2 A2]; auto.
    + now rewrite <- app_assoc.
    + split; [exact C2|]. now rewrite <- app_assoc in A2.
Qed.

Lemma vertex_done (H : graph) :
  induced_inv G m done (adj G v) H -> induced_inv G m (v :: done) [] H.
Proof.
  intros A. constructor; try (now destruct A).
  intros h Hh. left. destruct (ii_touch _ _ _ _ _ A h Hh) as [[y [Hy Hyy]]|T].
  - exists y. split; [now right|exact Hyy].
  - exists v. split; [now left|exact (wf_inc _ G_wf _ _ T)].
Qed.

End OneVertex.

Lemma copy_vertex_fold_induced (V2 : list node) :
  forall done Na H,
    (forall y, Na y = true <-> In y done) ->
    NoDup V2 -> (forall y, In y V2 -> ~ In y done) ->
    copy_inv G k H -> induced_inv G m done [] H ->
    induced_inv G m (rev V2 ++ done) []
                (fst (fold_left (copy_vertex_step G m) V2 (H, Na))).
Proof.
  induction V2 as [|v V2 IH]; intros done Na H HNa N Dis C A; cbn [fold_left fst].
  - exact A.
  - cbn [copy_vertex_step]. inversion N as [|? ? Hv N2]; subst.
    destruct (copy_adj_fold_induced done Na v HNa (Dis v (or_introl eq_refl))
                (adj G v) [] H eq_refl C A) as [C1 A1].
    cbn [app] in A1. apply vertex_done in A1.
    cbn [rev]. rewrite <- app_assoc. cbn [app].
    apply IH; auto.
    + intros y. unfold upd. destruct (Nat.eqb_spec y v) as [->|Hne].
      * split; [now left|reflexivity].
      * rewrite HNa. split; [now right|]. intros [E|Hd]; [congruence|exact Hd].
    + intros y Hy [<-|Hd]; [contradiction|]. apply (Dis y); [now right|exact Hd].
Qed.

End InducedEdges.

Lemma NoDup_map_inj {A B} (f : A -> B) (l : list A) :
  NoDup (map f l) -> forall a b, In a l -> In b l -> f a = f b -> a = b.
Proof.
  induction l as [|x l IH]; intros N a b Ha Hb E; [destruct Ha|].
  cbn [map] in N. inversion N as [|? ? Hn N']; subst.
  destruct Ha as [->|Ha], Hb as [->|Hb]; auto.
  - exfalso. apply Hn. rewrite E. now apply in_map.
  - exfalso. apply Hn. rewrite <- E. now apply in_map.
Qed.

(** X13.  [CopyInducedGraph] builds the subgraph induced by [V].  For a
    well-formed graph [G] whose visible edges lie in the adjacency lists of
    their endpoints, which are vertices, and a non-empty list [V] without
    repetition: the copy [H] has one vertex per element of [V], labelled
    with it; [H] is well formed, its edges lie in the adjacency lists of
    their endpoints and none is hidden; every edge of [H] is labelled with a
    visible edge of [G] whose endpoints are the labels of its own
    endpoints; and every visible edge of [G] with both endpoints in [V] is
    the label of exactly one edge of [H]. *)
Theorem CopyInducedGraph_is_induced (G : graph) (V : list node) :
  wf_graph G -> closed_graph G -> NoDup V -> V <> [] ->
  let H := CopyInducedGraph G V in
  all_nodes H = seq 0 (length V)
  /\ (forall i, (i < length V)%nat -> info H i = nth i V 0%nat)
  /\ wf_graph H /\ adj_complete H /\ edges H = edge_list H
  /\ (forall h, In h (edge_list H) ->
                In (einfo H h) (edges G)
                /\ same_ends (info H (source H h), info H (target H h))
                             (ends G (einfo H h)))
  /\ (forall e, In e (edges G) -> In (source G e) V -> In (target G e) V ->
                exists h, In h (edge_list H) /\ einfo H h = e
                          /\ forall h', In h' (edge_list H) -> einfo H h' = e -> h' = h).
Proof.
  intros W CG N HV H.
  destruct (CopyInducedGraph_spec G V W HV) as (C & HI & Cov). fold H in C, HI, Cov.
  assert (A : induced_inv G (snd (copy_nodes V)) (rev V ++ []) [] H
              /\ forall x i, snd (copy_nodes V) x = Some i -> info H i = x).
  { unfold H, CopyInducedGraph, copy_nodes.
    destruct (fold_left copy_node_step V (empty_graph, fun _ : node => None))
      as [H0 m] eqn:E. cbn [snd].
    destruct (copy_nodes_fold V [] empty_graph (fun _ => None) H0 m) as
        (N0 & I0 & M1 & M2 & L0 & A0 & Hd0 & E0 & F0); auto.
    { intros i Hi. simpl in Hi. lia. }
    { intros x i Hx. discriminate. }
    { intros x []. }
    cbn [app] in *.
    assert (C0 : copy_inv G (length V) H0).
    { constructor; auto.
      - rewrite L0. reflexivity.
      - intros e. now rewrite Hd0.
      - intros e. rewrite E0. simpl. destruct V; [contradiction|simpl; lia].
      - intros h. rewrite L0. intros []. }
    assert (A0' : induced_inv G m [] [] H0).
    { constructor.
      - constructor.
        + intros x. rewrite A0. constructor.
        + intros x e. rewrite A0. intros [].
        + intros x e. rewrite A0. intros [].
        + intros x e. rewrite A0. intros [].
        + rewrite L0. constructor.
      - intros e He. unfold edges in He. rewrite L0 in He. destruct He.
      - intros h. rewrite L0. intros [].
      - rewrite L0. constructor.
      - intros h. rewrite L0. intros []. }
    unfold copy_edges. split.
    - apply (copy_vertex_fold_induced G (length V) m W M1 V [] (fun _ => false) H0);
        auto.
      intros y. split; [discriminate|intros []].
    - destruct (copy_vertex_fold G (length V) m W M1 V H0 (fun _ => false) C0)
        as [_ (_ & XI & _)].
      intros x i Ei. rewrite XI.
      apply (copy_nodes_table V empty_graph (fun _ => None) H0 m); auto.
      intros x' i' Hx'. discriminate. }
  destruct A as [A T].
  split; [exact (ci_nodes _ _ _ C)|]. split; [exact HI|].
  split; [exact (ii_wf _ _ _ _ _ A)|]. split; [exact (ii_adj _ _ _ _ _ A)|].
  split; [exact (proj2 (proj2 (copy_inv_closed _ _ _ C)))|]. split.
  - intros h Hh. split; [exact (ci_info _ _ _ C h Hh)|].
    destruct (ii_ends _ _ _ _ _ A h Hh) as (x & v & Ex & Ev & S).
    now rewrite (T _ _ Ex), (T _ _ Ev).
  - intros e He Hs Ht. destruct (Cov CG e He Hs Ht) as (h & Hh & Eh).
    exists h. split; [exact Hh|]. split; [exact Eh|].
    intros h' Hh' Eh'.
    apply (NoDup_map_inj _ _ (ii_inj _ _ _ _ _ A)); auto. congruence.
Qed.

Lemma CopyInducedGraph_is_induced_witness :
  let H := CopyInducedGraph G_S2 [0; 1; 2]%nat in
  all_nodes H = seq 0 (length [0; 1; 2]%nat)
  /\ (forall i, (i < length [0; 1; 2]%nat)%nat -> info H i = nth i [0; 1; 2]%nat 0%nat)
  /\ wf_graph H /\ adj_complete H /\ edges H = edge_list H
  /\ (forall h, In h (edge_list H) ->
                In (einfo H h) (edges G_S2)
                /\ same_ends (info H (source H h), info H (target H h))
                             (ends G_S2 (einfo H h)))
  /\ (forall e, In e (edges G_S2) ->
                In (source G_S2 e) [0; 1; 2]%nat -> In (target G_S2 e) [0; 1; 2]%nat ->
                exists h, In h (edge_list H) /\ einfo H h = e
                          /\ forall h', In h' (edge_list H) -> einfo H h' = e -> h' = h).
Proof.
  apply (CopyInducedGraph_is_induced G_S2 [0; 1; 2]%nat).
  - exact (proj1 G_S2_wf).
  - apply graph_of_closed. reflexivity.
  - exact NoDup_012.
  - discriminate.
Defined.

(** * Blocks that are handled without a search *)

Lemma find_all_false {A} (f : A -> bool) (l : list A) :
  (forall x, In x l -> f x = false) -> find f l = None.
Proof.
  induction l as [|a l IH]; intros H; [reflexivity|]. cbn [find].
  rewrite (H a) by now left. apply IH. intros x Hx. apply H. now right.
Qed.

(** X21.  The blocks that [TRICONNECTED_COMPONENTS] handles without a
    search.  For a well-formed graph and a block with vertex list [B] and
    copy [H]: an empty block adds nothing; a block of one vertex becomes the
    component of that vertex; a block of two vertices whose copy has one
    edge becomes one component; and a block of at least two vertices whose
    copy has not exactly one edge and no vertex of degree larger than two
    becomes one component that holds all its vertices, in reverse order.
    In all these cases [compnum] is left as it was. *)
Theorem process_block_without_search
        (fuel : nat) (G : graph) (a : tri_acc) (B : path) :
  wf_graph G ->
  let H := CopyInducedGraph G B in
  (B = [] -> process_block fuel G a B = Ret a)
  /\ (forall b, B = [b] ->
                process_block fuel G a B = Ret (mkAcc (sigma3 a ++ [[b]]) (compnum a)))
  /\ (forall b0 b1, B = [b0; b1] -> number_of_edges H = 1%nat ->
                    process_block fuel G a B
                    = Ret (mkAcc (sigma3 a ++ [[b1; b0]]) (compnum a)))
  /\ ((2 <= length B)%nat -> number_of_edges H <> 1%nat ->
      (forall x, In x (all_nodes H) -> (degree H x <= 2)%nat) ->
      process_block fuel G a B = Ret (mkAcc (sigma3 a ++ [rev B]) (compnum a))).
Proof.
  intros W H.
  assert (K : B <> [] ->
              all_nodes H = seq 0 (length B)
              /\ map (info H) (seq 0 (length B)) = B).
  { intros NE. destruct (CopyInducedGraph_spec G B W NE) as (C & HP & _).
    split; [exact (ci_nodes _ _ _ C)|].
    transitivity (map (fun i => nth i B 0%nat) (seq 0 (length B)));
      [|apply map_nth_seq].
    apply map_ext_in. intros i Hi. apply in_seq in Hi. apply HP. lia. }
  split; [|split; [|split]].
  - intros ->. reflexivity.
  - intros b ->. destruct (K ltac:(discriminate)) as [En Ei].
    unfold process_block. fold H. unfold number_of_nodes. rewrite En.
    cbn [length seq Nat.leb]. cbn [length seq map] in Ei. injection Ei as Ei.
    now rewrite Ei.
  - intros b0 b1 -> H1. destruct (K ltac:(discriminate)) as [En Ei].
    unfold process_block. fold H. unfold number_of_nodes. rewrite En, H1.
    cbn [length seq Nat.leb Nat.eqb rev app hd_error].
    cbn [length seq map] in Ei. injection Ei as E0 E1. now rewrite E0, E1.
  - intros HB H1 Hd.
    assert (NE : B <> []) by (intros ->; simpl in HB; lia).
    destruct (K NE) as [En Ei].
    unfold process_block. fold H. unfold number_of_nodes. rewrite En, length_seq.
    destruct (Nat.leb_spec (length B) 1); [lia|].
    apply Nat.eqb_neq in H1. rewrite H1.
    unfold choose_root. rewrite find_all_false.
    + now rewrite Ei.
    + intros x Hx. apply negb_false_iff, Nat.leb_le. now apply Hd.
Qed.

Lemma process_block_without_search_witness :
  let H := CopyInducedGraph G_S2 [0; 1; 2]%nat in
  ([0; 1; 2]%nat = [] ->
   process_block 0 G_S2 (mkAcc [] (fun _ => -1)) [0; 1; 2]%nat
   = Ret (mkAcc [] (fun _ => -1)))
  /\ (forall b, [0; 1; 2]%nat = [b] ->
                process_block 0 G_S2 (mkAcc [] (fun _ => -1)) [0; 1; 2]%nat
                = Ret (mkAcc ([] ++ [[b]]) (fun _ => -1)))
  /\ (forall b0 b1, [0; 1; 2]%nat = [b0; b1] -> number_of_edges H = 1%nat ->
                    process_block 0 G_S2 (mkAcc [] (fun _ => -1)) [0; 1; 2]%nat
                    = Ret (mkAcc ([] ++ [[b1; b0]]) (fun _ => -1)))
  /\ ((2 <= length [0; 1; 2]%nat)%nat -> number_of_edges H <> 1%nat ->
      (forall x, In x (all_nodes H) -> (degree H x <= 2)%nat) ->
      process_block 0 G_S2 (mkAcc [] (fun _ => -1)) [0; 1; 2]%nat
      = Ret (mkAcc ([] ++ [rev [0; 1; 2]%nat]) (fun _ => -1))).
Proof.
  apply (process_block_without_search 0 G_S2 (mkAcc [] (fun _ => -1)) [0; 1; 2]%nat).
  exact (proj1 G_S2_wf).
Defined.

(** * The component lists are moved as wholes *)

Section Wholesale.

Variable V : list node.
Hypothesis V_nodup : NoDup V.

Lemma conc_steps_trans (sg sg1 sg2 : sigma_t) :
  conc_steps V sg sg1 -> conc_steps V sg1 sg2 -> conc_steps V sg sg2.
Proof.
  intros H1 H2. induction H2 as [|sg' a b Ha Hb Hab _ IH]; [exact H1|].
  now apply cs_step.
Qed.

Lemma conc_steps_one (sg : sigma_t) (a b : node) :
  In a V -> In b V -> a <> b -> conc_steps V sg (sigma_conc sg a b).
Proof. intros Ha Hb Hab. apply cs_step; auto. apply cs_refl. Qed.

(** A sequence of [conc] operations moves whole lists. *)
Lemma conc_steps_wholesale (sg sg' : sigma_t) :
  conc_steps V sg sg' -> wholesale V sg sg'.
Proof.
  induction 1 as [|sg' a b Ha Hb Hab _ [L [PL EL]]].
  - exists (fun x => [x]). split.
    + clear. induction V as [|a l IH]; simpl; [apply perm_nil|apply perm_skip, IH].
    + intros x. simpl. now rewrite app_nil_r.
  - exists (sigma_conc L a b). split.
    + exact (sigma_conc_partition V V_nodup L a b Ha Hb Hab PL).
    + intros x. destruct (sigma_conc_at sg' a b Hab) as (C0 & C1 & C2).
      destruct (sigma_conc_at L a b Hab) as (D0 & D1 & D2).
      destruct (Nat.eq_dec x a) as [->|Hxa].
      * rewrite C0, D0, flat_map_app, !EL. reflexivity.
      * destruct (Nat.eq_dec x b) as [->|Hxb].
        -- now rewrite C1, D1.
        -- rewrite C2, D2 by assumption. apply EL.
Qed.

(** Lists moved as wholes keep the partition. *)
Lemma wholesale_partition (sg sg' : sigma_t) :
  wholesale V sg sg' -> sigma_partition V sg -> sigma_partition V sg'.
Proof.
  intros [L [PL EL]] Hs. unfold sigma_partition in *.
  rewrite (flat_map_ext_in sg' (fun x => flat_map sg (L x)) V) by (intros; apply EL).
  rewrite <- Hs at 2. rewrite <- (Permutation_flat_map sg PL).
  clear. induction V as [|a l IH]; simpl; [apply perm_nil|].
  rewrite flat_map_app. now apply Permutation_app_head.
Qed.

Lemma absorb_while_conc fuel :
  forall x0 G sg P xm1 G' sg' P',
    In x0 V -> incl P V -> In xm1 V ->
    absorb_while fuel x0 G sg P xm1 = Ret (G', sg', P') ->
    conc_steps V sg sg'.
Proof.
  induction fuel as [|fuel IH]; intros x0 G sg P xm1 G' sg' P' Hx0 HP Hx E;
    cbn [absorb_while] in E;
    destruct (Nat.eqb_spec xm1 x0) as [Heq|Hne];
    try (injection E as <- <- <-; apply cs_refl); try discriminate.
  destruct (Pop P) as [[xm1' P1]|] eqn:EP; [|discriminate].
  apply Pop_inv in EP. subst P.
  destruct (absorb_edges (S (degree G xm1)) G xm1 xm1' x0 (First_Inout_Edge G xm1))
    as [G1| |] eqn:E1; try discriminate.
  cbn [bind] in E.
  apply (conc_steps_trans sg (sigma_conc sg x0 xm1) sg').
  - apply conc_steps_one; auto.
  - eapply (IH x0 G1 _ P1 xm1'); [| | |exact E]; auto.
    + intros y Hy. apply HP. rewrite in_app_iff. now left.
    + apply HP. rewrite in_app_iff. right. now left.
Qed.

Lemma AbsorbPath_conc G sg P G' sg' P' :
  incl P V -> AbsorbPath G sg P = Ret (G', sg', P') -> conc_steps V sg sg'.
Proof.
  intros HP E. unfold AbsorbPath in E.
  destruct P as [|x0 tl]; [injection E as <- <- <-; apply cs_refl|].
  destruct (Pop (x0 :: tl)) as [[xm1 P1]|] eqn:EP; [|discriminate].
  apply Pop_inv in EP.
  assert (H1 : incl P1 V).
  { intros y Hy. apply HP. rewrite EP, in_app_iff. now left. }
  assert (H2 : In xm1 V).
  { apply HP. rewrite EP, in_app_iff. right. now left. }
  destruct P1 as [|p P1]; [injection E as <- <- <-; apply cs_refl|].
  eapply absorb_while_conc; [| | |exact E]; auto.
  apply HP. now left.
Qed.

Lemma absorb2_while_conc fuel :
  forall x0 G sg P i xm1 G' sg' P',
    In x0 V -> incl P V -> In xm1 V -> (i < length P)%nat ->
    absorb2_while fuel x0 x0 G sg P i xm1 = Ret (G', sg', P') ->
    conc_steps V sg sg'.
Proof.
  induction fuel as [|fuel IH]; intros x0 G sg P i xm1 G' sg' P' Hx0 HP Hx Hi E;
    cbn [absorb2_while] in E;
    destruct (Nat.eqb_spec xm1 x0) as [Heq|Hne];
    try (injection E as <- <- <-; apply cs_refl); try discriminate.
  destruct i as [|j]; [injection E as <- <- <-; apply cs_refl|].
  destruct (absorb2_edges (S (degree G xm1)) G xm1 (nth j P 0%nat) x0
                          (First_Inout_Edge G xm1)) as [G1| |] eqn:E1; try discriminate.
  cbn [bind] in E.
  apply (conc_steps_trans sg (sigma_conc sg x0 xm1) sg').
  - apply conc_steps_one; auto.
  - eapply (IH x0 G1 _ _ j (nth j P 0%nat)); [| | | |exact E]; auto.
    + intros y Hy. apply HP. eapply del_item_incl; eauto.
    + apply HP. apply nth_In. lia.
    + rewrite del_item_length by lia. lia.
Qed.

Lemma AbsorbPath2_conc G sg P u v G' sg' P' :
  incl P V -> AbsorbPath2 G sg P u v = Ret (G', sg', P') -> conc_steps V sg sg'.
Proof.
  intros HP E. unfold AbsorbPath2 in E.
  destruct P as [|x0 tl]; [injection E as <- <- <-; apply cs_refl|].
  destruct (Nat.eqb_spec x0 u) as [->|Hne]; [|discriminate]. cbn [negb] in E.
  destruct (find_back (u :: tl) v (length (u :: tl))) as [i|] eqn:Ef;
    [|injection E as <- <- <-; apply cs_refl].
  apply find_back_bound in Ef.
  eapply absorb2_while_conc; [| | | |exact E]; auto.
  - apply HP. now left.
  - apply HP. apply nth_In. exact Ef.
Qed.

Lemma absorb_or_extend_conc st w u Pw Pu st' Pw' Pu' :
  In w V -> incl Pw V -> incl Pu V ->
  absorb_or_extend st w u Pw Pu = Ret (st', Pw', Pu') ->
  conc_steps V (sigma st) (sigma st').
Proof.
  intros Hw HPw HPu E. unfold absorb_or_extend in E.
  destruct (lowpt st w <=? lowpt st u).
  - destruct (AbsorbPath (gr st) (sigma st) (w :: Pu)) as [[[G1 s1] P1]| |] eqn:EA;
      try discriminate.
    cbn [bind] in E. destruct P1; [|discriminate]. injection E as <- <- <-.
    apply AbsorbPath_conc in EA; [exact EA|].
    intros y [<-|Hy]; auto.
  - destruct (AbsorbPath (gr (set_lowpt st w (lowpt st u)))
                         (sigma (set_lowpt st w (lowpt st u))) Pw)
      as [[[G1 s1] P1]| |] eqn:EA; try discriminate.
    cbn [bind] in E. destruct P1; [|discriminate]. injection E as <- <- <-.
    apply AbsorbPath_conc in EA; [exact EA|exact HPw].
Qed.

Lemma back_edge_conc st w u Pw st' Pw' :
  incl Pw V ->
  back_edge st w u Pw = Ret (st', Pw') ->
  conc_steps V (sigma st) (sigma st').
Proof.
  intros HPw E. unfold back_edge in E.
  destruct (pre st u <? pre st w).
  - destruct (pre st u <? lowpt st w).
    + destruct (AbsorbPath (gr st) (sigma st) Pw) as [[[G1 s1] P1]| |] eqn:EA;
        try discriminate.
      cbn [bind] in E. injection E as <- <-.
      apply AbsorbPath_conc in EA; [exact EA|exact HPw].
    + injection E as <- <-. apply cs_refl.
  - destruct (pre st u >? pre st w).
    + destruct (AbsorbPath2 (gr st) (sigma st) Pw w u) as [[[G1 s1] P1]| |] eqn:EA;
        try discriminate.
      cbn [bind] in E.
      apply AbsorbPath2_conc in EA; [|exact HPw].
      destruct (pre (set_gr_sigma st G1 s1) u <? lowpt (set_gr_sigma st G1 s1) w);
        injection E as <- <-; exact EA.
    + cbn [bind] in E.
      destruct (pre st u <? lowpt st w); injection E as <- <-; apply cs_refl.
Qed.

Lemma triedge_scan_conc fuel :
  forall st w v Pw Pu ewu st' Pw',
    dfs_inv V st -> In w V -> incl Pw V -> incl Pu V ->
    triedge_scan fuel st w v Pw Pu ewu = Ret (st', Pw') ->
    conc_steps V (sigma st) (sigma st').
Proof.
  induction fuel as [|fuel IH]; intros st w v Pw Pu [e|] st' Pw' HI Hw HPw HPu E;
    cbn [triedge_scan] in E; try discriminate;
    try (injection E as <- <-; apply cs_refl).
  destruct (is_hidden (gr st) e); [exact (IH _ _ _ _ _ _ _ _ HI Hw HPw HPu E)|].
  destruct (is_parent (opposite (gr st) w e) v); [exact (IH _ _ _ _ _ _ _ _ HI Hw HPw HPu E)|].
  destruct (Nat.eqb (opposite (gr st) w e) w).
  { injection E as <- <-. apply cs_refl. }
  destruct (degree (gr st) (opposite (gr st) w e) <? 2)%nat; [exact (IH _ _ _ _ _ _ _ _ HI Hw HPw HPu E)|].
  assert (Hu : In (opposite (gr st) w e) V) by (apply opposite_closed, HI).
  remember (opposite (gr st) w e) as u eqn:Eu.
  destruct (pre st u <? 0).
  - destruct (triedge_scan fuel (dfs_enter st u (Some w)) u (Some w) (u :: Pu) []
                           (First_Inout_Edge (gr st) u)) as [[st1 Pu1]| |] eqn:E1;
      try discriminate.
    cbn [bind] in E.
    assert (HuP : incl (u :: Pu) V) by (intros y [<-|Hy]; auto).
    assert (HI0 : dfs_inv V (dfs_enter st u (Some w))) by exact HI.
    pose proof (IH _ _ _ _ _ _ _ _ HI0 Hu HuP (incl_nil_l _) E1) as C1.
    destruct (triedge_scan_inv V V_nodup _ _ _ _ _ _ _ _ _ HI0 Hu HuP (incl_nil_l _) E1)
      as [[HG1 Hs1] HP1].
    destruct (if (degree (gr st1) u =? 2)%nat
              then contract_deg2 (gr st1) w u e Pu1
              else Ret (gr st1, Pu1)) as [[G2 Pu2]| |] eqn:E2; try discriminate.
    cbn [bind] in E.
    assert (H2 : ends_closed V G2 /\ incl Pu2 V).
    { destruct (degree (gr st1) u =? 2)%nat.
      - exact (contract_deg2_inv V _ _ _ _ _ _ _ HG1 Hw HP1 E2).
      - injection E2 as <- <-. auto. }
    destruct H2 as [HG2 HP2].
    destruct (absorb_or_extend (set_gr st1 G2) w u Pw Pu2) as [[[st3 Pw3] Pu3]| |] eqn:E3;
      try discriminate.
    cbn [bind] in E.
    assert (HI2 : dfs_inv V (set_gr st1 G2)) by (split; auto).
    pose proof (absorb_or_extend_conc _ _ _ _ _ _ _ _ Hw HPw HP2 E3) as C3.
    destruct (absorb_or_extend_inv V V_nodup _ _ _ _ _ _ _ _ HI2 Hw HPw HP2 E3)
      as (HI3 & HPw3 & HPu3).
    pose proof (IH _ _ _ _ _ _ _ _ HI3 Hw HPw3 HPu3 E) as C4.
    exact (conc_steps_trans _ _ _ C1 (conc_steps_trans _ _ _ C3 C4)).
  - destruct (back_edge st w u Pw) as [[st1 Pw1]| |] eqn:E1; try discriminate.
    cbn [bind] in E.
    pose proof (back_edge_conc _ _ _ _ _ _ HPw E1) as C1.
    destruct (back_edge_inv V V_nodup _ _ _ _ _ _ HI Hw HPw E1) as [HI1 HP1].
    exact (conc_steps_trans _ _ _ C1 (IH _ _ _ _ _ _ _ _ HI1 Hw HP1 HPu E)).
Qed.

Lemma triedge_dfs_conc fuel st w v Pw st' Pw' :
  dfs_inv V st -> In w V -> incl Pw V ->
  triedge_dfs fuel st w v Pw = Ret (st', Pw') ->
  conc_steps V (sigma st) (sigma st').
Proof.
  intros HI Hw HP E. unfold triedge_dfs in E.
  apply (triedge_scan_conc _ (dfs_enter st w v) _ _ _ _ _ _ _ HI Hw) in E;
    auto using incl_nil_l.
  intros y [<-|Hy]; auto.
Qed.

End Wholesale.

Lemma emit_components_emitted (H : graph) (sg : sigma_t) (a : tri_acc) :
  sigma3 (emit_components H sg a) = sigma3 a ++ emitted H sg.
Proof.
  unfold emit_components, emitted. revert a.
  induction (all_nodes H) as [|n l IH]; intros a; cbn [fold_left filter map].
  - now rewrite app_nil_r.
  - destruct (sg n) as [|x r] eqn:Es; [apply IH|].
    rewrite IH, (proj1 (emit_component_spec H (x :: r) a)), <- app_assoc.
    cbn [map app]. now rewrite Es.
Qed.

Lemma emitted_concat (H : graph) (sg : sigma_t) :
  Permutation (concat (emitted H sg)) (map (info H) (flat_map sg (all_nodes H))).
Proof.
  unfold emitted. induction (all_nodes H) as [|n l IH]; cbn [filter map concat flat_map].
  - apply perm_nil.
  - rewrite map_app. destruct (sg n) as [|x r] eqn:Es.
    + exact IH.
    + cbn [map concat]. rewrite Es. apply Permutation_app; [|exact IH].
      symmetry. apply Permutation_rev.
Qed.

Lemma emitted_nonempty (H : graph) (sg : sigma_t) (c : path) :
  In c (emitted H sg) -> c <> [].
Proof.
  unfold emitted. intros Hc. apply in_map_iff in Hc. destruct Hc as [n [<- Hn]].
  apply filter_In in Hn. destruct Hn as [_ Hn].
  destruct (sg n) as [|x r]; [discriminate|].
  cbn [map rev]. intros E. now apply app_eq_nil in E.
Qed.

(** C9.  Invariant (I2) over the search of one block [H] with vertex list
    [V].

    After the initialisation every vertex has the list that holds just
    itself, so the lists partition [V].

    Every absorption moves the [sigma] list of an absorbed vertex as a
    whole to the list of the head of the path.  For a path [x0 :: tl]
    without repeated vertex the whole-path absorption appends the lists of
    the vertices of [tl], last vertex first, to the list of [x0] and leaves
    them empty; the sub-path absorption on [u :: mid ++ v :: post] does the
    same with the vertices of [mid] and [v].  Whatever the path, each of the
    two absorptions only moves whole lists, and so keeps the partition.

    Throughout the search: from every state in which the lists partition
    [V], a call of [triedge_dfs] that returns has only moved whole lists,
    the lists partition [V] again, and every vertex of [V] occurs in the
    list of exactly one vertex.

    At the completion: after the search of the block from its initial
    state the lists are a permutation of [V], every vertex occurs in
    exactly one of them, and the lists then emitted, one for each vertex
    whose list is not empty, are not empty and hold together the label of
    every vertex of the block exactly once. *)
Theorem sigma_lists_partition_the_block (H : graph) :
  let V := all_nodes H in
  NoDup V -> ends_closed V H ->
  (sigma_partition V (init_sigma H)
   /\ forall v, In v V -> init_sigma H v = [v])
  /\ (forall G sg P G' sg' P',
        ends_closed V G -> sigma_partition V sg -> incl P V ->
        AbsorbPath G sg P = Ret (G', sg', P') ->
        sigma_partition V sg' /\ wholesale V sg sg')
  /\ (forall G sg x0 tl G' sg' P',
        NoDup (x0 :: tl) ->
        AbsorbPath G sg (x0 :: tl) = Ret (G', sg', P') ->
        sg' x0 = sg x0 ++ flat_map sg (rev tl)
        /\ (forall x, In x tl -> sg' x = [])
        /\ (forall y, ~ In y (x0 :: tl) -> sg' y = sg y))
  /\ (forall G sg P u v G' sg' P',
        ends_closed V G -> sigma_partition V sg -> incl P V ->
        AbsorbPath2 G sg P u v = Ret (G', sg', P') ->
        sigma_partition V sg' /\ wholesale V sg sg')
  /\ (forall G sg u mid v post G' sg' P',
        NoDup (u :: mid ++ v :: post) ->
        AbsorbPath2 G sg (u :: mid ++ v :: post) u v = Ret (G', sg', P') ->
        sg' u = sg u ++ flat_map sg (rev (mid ++ [v]))
        /\ (forall x, In x (mid ++ [v]) -> sg' x = [])
        /\ (forall y, ~ In y (u :: mid ++ [v]) -> sg' y = sg y))
  /\ (forall fuel st r v Pw st' Pw',
        dfs_inv V st -> In r V -> incl Pw V ->
        triedge_dfs fuel st r v Pw = Ret (st', Pw') ->
        wholesale V (sigma st) (sigma st')
        /\ sigma_partition V (sigma st') /\ in_exactly_one V (sigma st'))
  /\ (forall fuel r st' Pw',
        In r V ->
        triedge_dfs fuel (init_state H) r None [] = Ret (st', Pw') ->
        sigma_partition V (sigma st') /\ in_exactly_one V (sigma st')
        /\ (forall a, sigma3 (emit_components H (sigma st') a)
                      = sigma3 a ++ emitted H (sigma st'))
        /\ (forall c, In c (emitted H (sigma st')) -> c <> [])
        /\ Permutation (concat (emitted H (sigma st'))) (map (info H) V)).
Proof.
  intros V N HC.
  assert (HI0 : dfs_inv V (init_state H)).
  { split; [exact HC|]. now apply init_sigma_partition. }
  split; [|split; [|split; [|split; [|split; [|split]]]]].
  - split; [now apply init_sigma_partition|].
    intros v Hv. unfold init_sigma. rewrite (init_sigma_fold _ _ N).
    destruct (in_dec Nat.eq_dec v V); [reflexivity|contradiction].
  - intros G sg P G' sg' P' HG Hs HP E.
    pose proof (conc_steps_wholesale V N _ _ (AbsorbPath_conc V _ _ _ _ _ _ HP E)) as Wh.
    split; [exact (wholesale_partition V _ _ Wh Hs)|exact Wh].
  - intros G sg x0 tl G' sg' P' Nd E. unfold AbsorbPath in E.
    destruct (exists_last (l := x0 :: tl)) as [P1 [xm1 EP]]; [discriminate|].
    rewrite EP, Pop_snoc in E.
    destruct P1 as [|p P1].
    + injection EP as _ ->. injection E as <- <- <-. simpl. rewrite app_nil_r.
      repeat split; auto. intros x [].
    + apply (absorb_while_sigma _ _ _ _ _ _ _ _ _ _ (eq_sym EP) Nd E).
  - intros G sg P u v G' sg' P' HG Hs HP E.
    pose proof (conc_steps_wholesale V N _ _ (AbsorbPath2_conc V _ _ _ _ _ _ _ _ HP E))
      as Wh.
    split; [exact (wholesale_partition V _ _ Wh Hs)|exact Wh].
  - intros G sg u mid v post G' sg' P' Nd E.
    destruct (NoDup_mid _ _ _ _ Nd) as (_ & _ & _ & _ & Hv).
    rewrite (AbsorbPath2_unfold _ _ _ _ _ _ Hv) in E.
    exact (proj2 (absorb2_while_result _ _ _ _ _ _ _ _ _ _ Nd E)).
  - intros fuel st r v Pw st' Pw' HI Hr HP E.
    pose proof (conc_steps_wholesale V N _ _
                  (triedge_dfs_conc V N _ _ _ _ _ _ _ HI Hr HP E)) as Wh.
    pose proof (wholesale_partition V _ _ Wh (proj2 HI)) as Hs.
    split; [exact Wh|]. split; [exact Hs|]. now apply partition_exactly_one.
  - intros fuel r st' Pw' Hr E.
    destruct (triedge_dfs_inv V N _ _ _ _ _ _ _ HI0 Hr (incl_nil_l _) E) as [[_ Hs] _].
    split; [exact Hs|]. split; [now apply partition_exactly_one|].
    split; [intros a; apply emit_components_emitted|].
    split; [apply emitted_nonempty|].
    rewrite emitted_concat. apply Permutation_map. exact Hs.
Qed.

Lemma sigma_lists_partition_the_block_witness :
  let st' := final_state (triedge_dfs 100 (init_state G_K4) 0%nat None [])
                         (init_state G_K4) in
  sigma_partition (all_nodes G_K4) (sigma st')
  /\ in_exactly_one (all_nodes G_K4) (sigma st')
  /\ (forall a, sigma3 (emit_components G_K4 (sigma st') a)
                = sigma3 a ++ emitted G_K4 (sigma st'))
  /\ (forall c, In c (emitted G_K4 (sigma st')) -> c <> [])
  /\ Permutation (concat (emitted G_K4 (sigma st')))
                 (map (info G_K4) (all_nodes G_K4)).
Proof.
  assert (N : NoDup (all_nodes G_K4))
    by (vm_compute; repeat constructor; simpl; intuition discriminate).
  destruct (sigma_lists_partition_the_block G_K4 N G_K4_closed)
    as (_ & _ & _ & _ & _ & _ & D).
  apply (D 100%nat 0%nat _
           (final_path (triedge_dfs 100 (init_state G_K4) 0%nat None []))).
  - vm_compute. auto.
  - vm_compute. reflexivity.
Defined.
